(** * SawayakaTSR: double-tree and Christofides tours over a cost matrix

    A shallow embedding of [tsr.py] and [measurement.py].  The two source
    files are thin pipelines over the [networkx] graph library, so the first
    part of this development models the pieces of that library the source
    calls: [nx.Graph] as its nodes and its edges in insertion order, from
    which the adjacencies are read; [nx.MultiGraph] as its nodes and an arena
    of parallel edges; Prim's algorithm behind [nx.minimum_spanning_tree];
    and the stack-based circuit construction behind [nx.eulerian_circuit].
    The blossom matcher [nx.max_weight_matching] is taken as a parameter
    together with its documented contract.  The functions of the two files
    follow, first over values and then over a store of objects.  The
    constructor and the cost matrix of the class of [sawayaka.py] come last,
    with the directions service as a record of answers. *)

From Stdlib Require Import List ZArith Lia Bool Arith PeanoNat Permutation Sorted.
From Stdlib Require String Ascii.
Import ListNotations.

Set Implicit Arguments.

(* ================================================================== *)
(** * Python values, exceptions and the error monad                     *)
(* ================================================================== *)

(** The exceptions the modelled code can raise.  [OutOfFuel] is not a Python
    exception: it marks a modelled [while] loop that used up its iteration
    bound, which the bounds chosen below never allow. *)
Inductive exn : Type :=
| TypeError
| IndexError
| KeyError
| ValueError
| OverflowError
| NetworkXError
| NetworkXPointlessConcept
| OutOfFuel.

Inductive result (A : Type) : Type :=
| Ok (a : A)
| Raise (e : exn).

Arguments Ok {A} a.
Arguments Raise {A} e.

Definition bind {A B : Type} (m : result A) (k : A -> result B) : result B :=
  match m with
  | Ok a => k a
  | Raise e => Raise e
  end.

Declare Scope py_scope.
Delimit Scope py_scope with py.
Notation "x <- m ;; k" := (bind m (fun x => k))
  (at level 61, m at next level, right associativity) : py_scope.
Notation "' p <- m ;; k" := (bind m (fun p => k))
  (at level 61, p pattern, m at next level, right associativity) : py_scope.
Open Scope py_scope.

(** A vertex is a list index. *)
Abbreviation vertex := nat (only parsing).

(** A matrix entry or an edge weight: [None] on the diagonal, a number
    elsewhere. *)
Abbreviation pyval := (option Z) (only parsing).

(** Arithmetic on a weight raises [TypeError] on [None]. *)
Definition as_number (w : pyval) : result Z :=
  match w with
  | Some z => Ok z
  | None => Raise TypeError
  end.

Abbreviation CostMatrix := (list (list (option Z))) (only parsing).

(** A Python [float], as far as sums of integers reach: a finite float whose
    value is the integer [z], an infinity, or a NaN.  Both zeros are the one
    [Finite 0]: adding to [0.0] never gives [-0.0]. *)
Inductive pyfloat : Type :=
| Finite (z : Z)
| PlusInf
| MinusInf
| NaN.

(** The float nearest to the integer [z], ties to the even significand of
    53 bits; beyond the largest float, an infinity. *)
Definition round_to_float (z : Z) : pyfloat :=
  let a := Z.abs z in
  let e := (Z.log2 a - 52)%Z in
  if (e <=? 0)%Z then Finite z
  else
    let q := Z.shiftr a e in
    let r := Z.land a (Z.ones e) in
    let half := Z.shiftl 1 (e - 1) in
    let q' := if (half <? r)%Z || ((half =? r)%Z && Z.odd q)
              then (q + 1)%Z else q in
    let m := Z.shiftl q' e in
    if (Z.shiftl 1 1024 <=? m)%Z
    then if (z <? 0)%Z then MinusInf else PlusInf
    else Finite (Z.sgn z * m).

(** [float(z)] for an [int]: [OverflowError] where the nearest float would be
    an infinity. *)
Definition float_of_int (z : Z) : result pyfloat :=
  match round_to_float z with
  | Finite m => Ok (Finite m)
  | _ => Raise OverflowError
  end.

(** [x + y] on floats: the exact sum, rounded; it never raises. *)
Definition float_add (x y : pyfloat) : pyfloat :=
  match x, y with
  | NaN, _ => NaN
  | _, NaN => NaN
  | PlusInf, MinusInf => NaN
  | MinusInf, PlusInf => NaN
  | PlusInf, _ => PlusInf
  | _, PlusInf => PlusInf
  | MinusInf, _ => MinusInf
  | _, MinusInf => MinusInf
  | Finite a, Finite b => round_to_float (a + b)
  end.

(** [totalCost + x] for a float and a matrix entry: [None] cannot be added,
    an [int] is converted first. *)
Definition float_plus (totalCost : pyfloat) (x : pyval) : result pyfloat :=
  match x with
  | None => Raise TypeError
  | Some z => f <- float_of_int z ;; Ok (float_add totalCost f)
  end.

(** [math.isnan(z)] for an [int]: the conversion to a float comes first. *)
Definition isnan (z : Z) : result bool :=
  f <- float_of_int z ;;
  Ok match f with NaN => true | _ => false end.

(** [costMatrix[i][j]] for non-negative indices. *)
Definition getitem2 (cm : CostMatrix) (i j : nat) : result pyval :=
  match nth_error cm i with
  | None => Raise IndexError
  | Some row =>
      match nth_error row j with
      | None => Raise IndexError
      | Some x => Ok x
      end
  end.

(** Monadic left fold: a [for] loop whose body may raise. *)
Fixpoint foldM {A S : Type} (f : S -> A -> result S) (l : list A) (s : S)
  : result S :=
  match l with
  | [] => Ok s
  | a :: l' => s' <- f s a ;; foldM f l' s'
  end.

Definition memb (x : nat) (l : list nat) : bool := existsb (Nat.eqb x) l.

(* ================================================================== *)
(** * [nx.Graph]: nodes and edges in insertion order                    *)
(* ================================================================== *)

(** An edge with its weight attribute. *)
Abbreviation wedge := (nat * nat * option Z)%type (only parsing).

(** A graph object is its node dictionary and its edges, both in insertion
    order.  The adjacency dictionary [G[u]] is read off the edge list: a
    neighbour enters [G[u]] when the edge to it is first added, so [G[u]]
    iterates the edges at [u] in the order they were added. *)
Record Graph : Type := mk_graph
  { gnodes : list vertex; gedges : list wedge }.

Definition empty_graph : Graph := mk_graph [] [].

Definition same_uedge (a b x y : vertex) : bool :=
  (Nat.eqb a x && Nat.eqb b y) || (Nat.eqb a y && Nat.eqb b x).

Definition add_node (u : vertex) (G : Graph) : Graph :=
  if memb u (gnodes G) then G else mk_graph (gnodes G ++ [u]) (gedges G).

Definition has_uedge (u v : vertex) (es : list wedge) : bool :=
  existsb (fun '(a, b, _) => same_uedge u v a b) es.

(** [datadict.update(weight=w)] on the edge between [u] and [v]. *)
Fixpoint set_weight (u v : vertex) (w : pyval) (es : list wedge) : list wedge :=
  match es with
  | [] => []
  | (a, b, x) :: es' =>
      if same_uedge u v a b then (a, b, w) :: es'
      else (a, b, x) :: set_weight u v w es'
  end.

(** [G.add_edge(u, v, weight=w)]: both ends become nodes; an edge already
    present keeps its place and takes the new weight. *)
Definition add_edge (u v : vertex) (w : pyval) (G : Graph) : Graph :=
  let G' := add_node v (add_node u G) in
  if has_uedge u v (gedges G')
  then mk_graph (gnodes G') (set_weight u v w (gedges G'))
  else mk_graph (gnodes G') (gedges G' ++ [(u, v, w)]).

(** [G[u].items()]: the neighbours of [u] with the edge weights. *)
Fixpoint adj_of (es : list wedge) (u : vertex) : list (vertex * pyval) :=
  match es with
  | [] => []
  | (a, b, w) :: es' =>
      if Nat.eqb a u then (b, w) :: adj_of es' u
      else if Nat.eqb b u then (a, w) :: adj_of es' u
      else adj_of es' u
  end.

Definition get_adj (G : Graph) (u : vertex) : list (vertex * pyval) :=
  adj_of (gedges G) u.

Definition incident (n : vertex) (e : wedge) : bool :=
  let '(a, b, _) := e in Nat.eqb a n || Nat.eqb b n.

(** [G.remove_node(n)]; raises when [n] is not a node. *)
Definition remove_node (n : vertex) (G : Graph) : result Graph :=
  if memb n (gnodes G) then
    Ok (mk_graph (filter (fun x => negb (Nat.eqb x n)) (gnodes G))
                 (filter (fun e => negb (incident n e)) (gedges G)))
  else Raise NetworkXError.

(** [G.degree[v]]: the neighbours of [v], a self-loop counting twice. *)
Definition degree (G : Graph) (v : vertex) : nat :=
  length (get_adj G v) + (if memb v (map fst (get_adj G v)) then 1 else 0).

Fixpoint dict_get (d : list (vertex * pyval)) (v : vertex) : option pyval :=
  match d with
  | [] => None
  | (k, x) :: d' => if Nat.eqb k v then Some x else dict_get d' v
  end.

(** [G[u][v]["weight"]]. *)
Definition edge_weight (G : Graph) (u v : vertex) : result pyval :=
  if memb u (gnodes G) then
    match dict_get (get_adj G u) v with
    | Some w => Ok w
    | None => Raise KeyError
    end
  else Raise KeyError.

(** [G.edges.data()]: node by node, the edges to neighbours that have not
    had their own turn yet, so that every edge is reported once. *)
Fixpoint edges_from (es : list wedge) (ns seen : list vertex) : list wedge :=
  match ns with
  | [] => []
  | u :: ns' =>
      map (fun '(v, w) => (u, v, w))
          (filter (fun e => negb (memb (fst e) seen)) (adj_of es u))
      ++ edges_from es ns' (u :: seen)
  end.

Definition edges_data (G : Graph) : list wedge :=
  edges_from (gedges G) (gnodes G) [].

(** [nx.Graph(G)]: a new graph with the nodes of [G] and, adjacency entry by
    adjacency entry, its edges; each edge enters at its first entry, which
    is the order of [G.edges]. *)
Definition Graph_copy (G : Graph) : Graph :=
  mk_graph (gnodes G) (edges_data G).

(* ================================================================== *)
(** * [nx.minimum_spanning_tree(G, algorithm="prim")]                   *)
(* ================================================================== *)

(** A frontier entry [(wt, next(c), u, v, d)]. *)
Record fentry : Type := mk_fentry
  { f_wt : Z; f_cnt : nat; f_u : vertex; f_v : vertex; f_d : pyval }.

(** Tuple comparison on the first two components; counters are unique, so
    later components are never compared. *)
Definition entry_le (a b : fentry) : bool :=
  (f_wt a <? f_wt b)%Z || ((f_wt a =? f_wt b)%Z && (f_cnt a <=? f_cnt b)).

(** [heappop]: the least entry and the remaining heap. *)
Fixpoint heappop (h : list fentry) : option (fentry * list fentry) :=
  match h with
  | [] => None
  | e :: h' =>
      match heappop h' with
      | None => Some (e, [])
      | Some (m, r) => if entry_le e m then Some (e, h') else Some (m, e :: r)
      end
  end.

(** The loop [for w, d in G.adj[v].items(): ... push(frontier, ...)],
    skipping the neighbours in [skip]: the weight is multiplied by the sign,
    tested with [isnan], and pushed. *)
Definition push_edges (u : vertex) (skip : list vertex)
    (a : list (vertex * pyval))
    (st : list fentry * nat) : result (list fentry * nat) :=
  foldM (fun '(fr, c) '(v, d) =>
           if memb v skip then Ok (fr, c)
           else wt <- as_number d ;;
                nan <- isnan wt ;;
                if nan then Raise ValueError
                else Ok (fr ++ [mk_fentry wt c u v d], S c))
        a st.

Definition remove_v (v : vertex) (l : list vertex) : list vertex :=
  filter (fun x => negb (Nat.eqb x v)) l.

(** The inner loop [while nodes and frontier]. *)
Fixpoint prim_grow (fuel : nat) (G : Graph) (nds visited : list vertex)
    (frontier : list fentry) (c : nat) (out : list wedge)
  : result (list vertex * nat * list wedge) :=
  match fuel with
  | 0 => Raise OutOfFuel
  | S fuel' =>
      match nds with
      | [] => Ok (nds, c, out)
      | _ :: _ =>
          match heappop frontier with
          | None => Ok (nds, c, out)
          | Some (e, fr) =>
              if memb (f_v e) visited || negb (memb (f_v e) nds) then
                prim_grow fuel' G nds visited fr c out
              else
                let visited' := f_v e :: visited in
                '(fr', c') <- push_edges (f_v e) visited' (get_adj G (f_v e)) (fr, c) ;;
                prim_grow fuel' G (remove_v (f_v e) nds) visited' fr' c'
                          (out ++ [(f_u e, f_v e, f_d e)])
          end
      end
  end.


(** The outer loop [while nodes: u = nodes.pop(); ...]: one pass per
    connected component, started at the first remaining node.  That is the
    node [set(G).pop()] hands out when the nodes are 0, 1, ..., in this
    order, as the graph builder makes them from a square matrix; for other
    sets of nodes the layout of the set decides which node comes first,
    which this definition does not follow. *)
Fixpoint prim_components (fuel : nat) (G : Graph) (nds : list vertex) (c : nat)
    (out : list wedge) : result (list wedge) :=
  match fuel with
  | 0 => match nds with [] => Ok out | _ :: _ => Raise OutOfFuel end
  | S fuel' =>
      match nds with
      | [] => Ok out
      | u :: rest =>
          '(fr, c1) <- push_edges u [] (get_adj G u) ([], c) ;;
          '(nds', c2, out') <- prim_grow (S (2 * length (gedges G))) G rest [u] fr c1 out ;;
          prim_components fuel' G nds' c2 out'
      end
  end.

Definition prim_mst_edges (G : Graph) : result (list wedge) :=
  prim_components (length (gnodes G)) G (gnodes G) 0 [].

(** [T = Graph(); T.add_nodes_from(G.nodes); T.add_edges_from(edges)]. *)
Definition minimum_spanning_tree (G : Graph) : result Graph :=
  es <- prim_mst_edges G ;;
  Ok (fold_left (fun T '(u, v, d) => add_edge u v d T) es
                (mk_graph (gnodes G) [])).

(* ================================================================== *)
(** * [nx.MultiGraph]: nodes and an arena of parallel edges             *)
(* ================================================================== *)

(** Parallel edges are kept apart by their position in the arena, which
    plays the part of the edge key. *)
Record MultiGraph : Type := mk_multi
  { mnodes : list vertex; medges : list wedge }.

Definition empty_multi : MultiGraph := mk_multi [] [].

Definition madd_node (u : vertex) (M : MultiGraph) : MultiGraph :=
  if memb u (mnodes M) then M else mk_multi (mnodes M ++ [u]) (medges M).

(** [M.add_edge(u, v, weight=w)]: always a new edge. *)
Definition madd_edge (u v : vertex) (w : pyval) (M : MultiGraph) : MultiGraph :=
  let M' := madd_node v (madd_node u M) in
  mk_multi (mnodes M') (medges M' ++ [(u, v, w)]).

(** The number of edge ends at [v]; a self-loop counts twice. *)
Fixpoint ends_at (v : vertex) (es : list wedge) : nat :=
  match es with
  | [] => 0
  | (a, b, _) :: es' =>
      (if Nat.eqb a v then 1 else 0) + (if Nat.eqb b v then 1 else 0)
      + ends_at v es'
  end.

Definition mdegree (M : MultiGraph) (v : vertex) : nat := ends_at v (medges M).

(** [nx.MultiGraph(G)]: the nodes of [G], then each edge of [G] once. *)
Definition MultiGraph_of (G : Graph) : MultiGraph :=
  fold_left (fun M '(u, v, w) => madd_edge u v w M) (edges_data G)
            (mk_multi (gnodes G) []).

(** One sweep of the breadth-first search: every edge with an end already
    reached contributes its other end. *)
Definition expand (es : list wedge) (S : list vertex) : list vertex :=
  fold_left (fun acc '(a, b, _) =>
               if memb a acc then (if memb b acc then acc else b :: acc)
               else if memb b acc then a :: acc else acc)
            es S.

Fixpoint closure (n : nat) (es : list wedge) (S : list vertex) : list vertex :=
  match n with
  | 0 => S
  | S n' => closure n' es (expand es S)
  end.

(** [nx.is_connected(M)]: the search from the first node reaches every node;
    undefined on the null graph. *)
Definition is_connected (M : MultiGraph) : result bool :=
  match mnodes M with
  | [] => Raise NetworkXPointlessConcept
  | r :: _ =>
      Ok (forallb (fun v => memb v (closure (length (mnodes M)) (medges M) [r]))
                  (mnodes M))
  end.

(** [nx.is_eulerian(M)]: [all(d % 2 == 0 ...) and nx.is_connected(M)]. *)
Definition is_eulerian (M : MultiGraph) : result bool :=
  if forallb (fun v => Nat.even (mdegree M v)) (mnodes M)
  then is_connected M
  else Ok false.

(** The vertex at the other end of an edge at [v]. *)
Definition other_end (v : vertex) (e : wedge) : option vertex :=
  let '(a, b, _) := e in
  if Nat.eqb a v then Some b else if Nat.eqb b v then Some a else None.

(** [M[v]]: the neighbours of [v], each from the first edge to it. *)
Fixpoint neighbours_from (v : vertex) (es : list wedge) (seen : list vertex)
  : list vertex :=
  match es with
  | [] => []
  | e :: es' =>
      match other_end v e with
      | Some n =>
          if memb n seen then neighbours_from v es' seen
          else n :: neighbours_from v es' (n :: seen)
      | None => neighbours_from v es' seen
      end
  end.

Definition between (u v : vertex) (e : wedge) : bool :=
  let '(a, b, _) := e in same_uedge u v a b.

(** An edge at [u] as it is listed from [u]: [(u, v, data)]. *)
Definition listed_from (u : vertex) (e : wedge) : wedge :=
  let '(a, b, w) := e in if Nat.eqb a u then (a, b, w) else (b, a, w).

(** The edges as [M.copy()] adds them: node by node, neighbour by
    neighbour, key by key, an edge entering at its first listing; [rest]
    holds the edges not yet listed. *)
Fixpoint copy_edges (es : list wedge) (ns : list vertex) (rest : list wedge)
  : list wedge :=
  match ns with
  | [] => []
  | u :: ns' =>
      flat_map (fun v => map (listed_from u) (filter (between u v) rest))
               (neighbours_from u es [])
      ++ copy_edges es ns' (filter (fun e => negb (incident u e)) rest)
  end.

(** [M.copy()]. *)
Definition MultiGraph_copy (M : MultiGraph) : MultiGraph :=
  mk_multi (mnodes M) (copy_edges (medges M) (mnodes M) (medges M)).

(** [M.remove_edge(u, v, key)] for the first key left between [u] and
    [v]. *)
Fixpoint take_edge (u v : vertex) (es : list wedge) : option (list wedge) :=
  match es with
  | [] => None
  | (a, b, w) :: es' =>
      if same_uedge u v a b then Some es'
      else match take_edge u v es' with
           | Some r => Some ((a, b, w) :: r)
           | None => None
           end
  end.

(** [arbitrary_element(edges(v, keys=True))] followed by [remove_edge].
    The adjacency of [v] holds a neighbour from the first edge to it until
    the last edge to it is removed, so the edge taken leads to the first
    neighbour, in the order [order] in which the edges were added, to which
    an edge is left, and is the first edge left to it.  The result is that
    neighbour and the edges left. *)
Fixpoint pick_edge (v : vertex) (order es : list wedge)
  : option (vertex * list wedge) :=
  match order with
  | [] => None
  | e :: order' =>
      match other_end v e with
      | Some n =>
          match take_edge v n es with
          | Some es' => Some (n, es')
          | None => pick_edge v order' es
          end
      | None => pick_edge v order' es
      end
  end.

(** The loop of [_multigraph_eulerian_circuit]: [stack] is [vertex_stack]
    with its top first; a vertex with no edge left is popped and the edge
    from the previously popped vertex is yielded. *)
Fixpoint euler_loop (fuel : nat) (order es : list wedge) (stack : list vertex)
    (last : option vertex) (out : list (vertex * vertex))
  : result (list (vertex * vertex)) :=
  match stack with
  | [] => Ok out
  | cur :: stack' =>
      match fuel with
      | 0 => Raise OutOfFuel
      | S fuel' =>
          match pick_edge cur order es with
          | None =>
              euler_loop fuel' order es stack' (Some cur)
                (match last with
                 | Some l => out ++ [(l, cur)]
                 | None => out
                 end)
          | Some (next, es') => euler_loop fuel' order es' (next :: stack) last out
          end
      end
  end.

(** [list(nx.eulerian_circuit(M, source))]: the check, then the loop on a
    copy of the multigraph. *)
Definition eulerian_circuit (M : MultiGraph) (source : vertex)
  : result (list (vertex * vertex)) :=
  e <- is_eulerian M ;;
  if negb e then Raise NetworkXError
  else if negb (memb source (mnodes M)) then Raise NetworkXError
  else
    let G := MultiGraph_copy M in
    euler_loop (2 * length (medges G) + 1) (medges G) (medges G) [source] None [].

(* ================================================================== *)
(** * [tsr.py]                                                          *)
(* ================================================================== *)

Definition _create_weighted_graph (costMatrix : CostMatrix) : Graph :=
  fold_left
    (fun graph i =>
       let row := nth i costMatrix [] in
       fold_left (fun graph j => add_edge i j (nth j row None) graph)
                 (seq (S i) (length row - S i)) graph)
    (seq 0 (length costMatrix)) empty_graph.

Definition _duplicate_weighted_graph (graph : Graph) : MultiGraph :=
  fold_left
    (fun duplicatedGraph v =>
       fold_left (fun duplicatedGraph '(w, d) => madd_edge v w d duplicatedGraph)
                 (get_adj graph v) duplicatedGraph)
    (gnodes graph) empty_multi.

Definition _create_eulerian_path (eulerianGraph : MultiGraph) (start : vertex)
  : result (list vertex) :=
  eulerianEdges <- eulerian_circuit eulerianGraph start ;;
  match rev eulerianEdges with
  | [] => Raise IndexError
  | e :: _ => Ok (map fst eulerianEdges ++ [snd e])
  end.

Definition _create_hamiltonian_path (eulerianPath : list vertex)
  : result (list vertex) :=
  let '(hamiltonianPath, existedVertice) :=
    fold_left (fun '(ham, existed) v =>
                 if memb v existed then (ham, existed)
                 else (ham ++ [v], v :: existed))
              eulerianPath ([], []) in
  match eulerianPath with
  | [] => Raise IndexError
  | s :: _ => Ok (hamiltonianPath ++ [s])
  end.

Definition _remove_even_degree_vertices (graph spanningTree : Graph)
  : result Graph :=
  foldM (fun removedGraph v =>
           if Nat.even (degree spanningTree v)
           then remove_node v removedGraph
           else Ok removedGraph)
        (gnodes spanningTree) (Graph_copy graph).

Definition _merge_two_graphs (graph1 graph2 : Graph) : MultiGraph :=
  fold_left (fun mergedGraph '(u, v, w) => madd_edge u v w mergedGraph)
            (edges_data graph2) (MultiGraph_of graph1).

Definition double_tree_algorithm (costMatrix : CostMatrix) (start : vertex)
  : result (list vertex) :=
  let graph := _create_weighted_graph costMatrix in
  spanningTree <- minimum_spanning_tree graph ;;
  let duplicatedSpanningTree := _duplicate_weighted_graph spanningTree in
  eulerianPath <- _create_eulerian_path duplicatedSpanningTree start ;;
  _create_hamiltonian_path eulerianPath.

(** The first loop of [_match_minimal_weight]: [tmpGraph], a copy of the
    graph with every weight negated. *)
Definition negate_weights (graph : Graph) : result Graph :=
  foldM (fun tmpGraph '(u, v, w) =>
           z <- as_number w ;;
           Ok (add_edge u v (Some (- z)%Z) tmpGraph))
        (edges_data graph) empty_graph.

Section Christofides.

(** [nx.max_weight_matching(G, maxcardinality=True)], the edges of the
    returned set in iteration order. *)
Variable max_weight_matching : Graph -> list (vertex * vertex).

Definition _match_minimal_weight (graph : Graph) : result Graph :=
  tmpGraph <- negate_weights graph ;;
  let matching := max_weight_matching tmpGraph in
  foldM (fun matchingGraph '(a, b) =>
           w <- edge_weight graph a b ;;
           Ok (add_edge a b w matchingGraph))
        matching empty_graph.

Definition christofides_algorithm (costMatrix : CostMatrix) (start : vertex)
  : result (list vertex) :=
  let graph := _create_weighted_graph costMatrix in
  spanningTree <- minimum_spanning_tree graph ;;
  removedGraph <- _remove_even_degree_vertices graph spanningTree ;;
  matchingGraph <- _match_minimal_weight removedGraph ;;
  let mergedGraph := _merge_two_graphs spanningTree matchingGraph in
  eulerianPath <- _create_eulerian_path mergedGraph start ;;
  _create_hamiltonian_path eulerianPath.

End Christofides.


(* ================================================================== *)
(** * [measurement.py]                                                  *)
(* ================================================================== *)

(** The interpreter state the harness reads without being handed it: the
    global generator of the [random] module, as the samples it is about to
    hand out, and the wall clock, as its coming readings. *)
Record world : Type := mk_world
  { draws : nat -> list nat; drawn : nat; ticks : nat -> Z; ticked : nat }.

(** [random.sample(population, k)] on the global generator. *)
Definition sample (population : list nat) (k : nat) (w : world)
  : list nat * world :=
  (draws w (drawn w), mk_world (draws w) (S (drawn w)) (ticks w) (ticked w)).

(** [time.time()]. *)
Definition time (w : world) : Z * world :=
  (ticks w (ticked w), mk_world (draws w) (drawn w) (ticks w) (S (ticked w))).

(** [l[i]] for a non-negative index. *)
Definition getitem {A : Type} (l : list A) (i : nat) : result A :=
  match nth_error l i with
  | Some x => Ok x
  | None => Raise IndexError
  end.

(** [l.index(x)]. *)
Fixpoint index (l : list nat) (x : nat) : result nat :=
  match l with
  | [] => Raise ValueError
  | y :: l' => if Nat.eqb y x then Ok 0 else i <- index l' x ;; Ok (S i)
  end.

(** A list built by [append] in a [for] loop whose body may raise. *)
Fixpoint mapM {A B : Type} (f : A -> result B) (l : list A) : result (list B) :=
  match l with
  | [] => Ok []
  | a :: l' => b <- f a ;; bs <- mapM f l' ;; Ok (b :: bs)
  end.

(** The body of [_shuffle_cost_matrix] once [shuffledIndices] is drawn. *)
Definition relabel (costMatrix : CostMatrix) (start : vertex)
    (shuffledIndices : list nat) : result (CostMatrix * vertex) :=
  let indices := seq 0 (length costMatrix) in
  shuffledCostMatrix <-
    mapM (fun i =>
            mapM (fun j =>
                    si <- getitem shuffledIndices i ;;
                    sj <- getitem shuffledIndices j ;;
                    getitem2 costMatrix si sj)
                 indices)
         indices ;;
  shuffledStart <- index shuffledIndices start ;;
  Ok (shuffledCostMatrix, shuffledStart).

Definition _shuffle_cost_matrix (costMatrix : CostMatrix) (start : vertex)
    (w : world) : result (CostMatrix * vertex * world) :=
  let indices := seq 0 (length costMatrix) in
  let '(shuffledIndices, w') := sample indices (length indices) w in
  r <- relabel costMatrix start shuffledIndices ;;
  Ok (r, w').

(** The sum of the weights along the route, accumulated in a float that
    starts at [0.0]. *)
Definition _calc_total_cost (route : list vertex) (costMatrix : CostMatrix)
  : result pyfloat :=
  foldM (fun totalCost i =>
           a <- getitem route i ;;
           b <- getitem route (i + 1) ;;
           x <- getitem2 costMatrix a b ;;
           float_plus totalCost x)
        (seq 0 (length route - 1)) (Finite 0).

(** The six result lists of the harness. *)
Record measurements : Type := mk_measurements
  { doubleTreeRoutes : list (list vertex);
    doubleTreeCosts : list pyfloat;
    doubleTreeTimes : list Z;
    christofidesRoutes : list (list vertex);
    christofidesCosts : list pyfloat;
    christofidesTimes : list Z }.

Section Harness.

Variable max_weight_matching : Graph -> list (vertex * vertex).

(** One pass of the loop of [run_two_algorithms]. *)
Definition trial (costMatrix : CostMatrix) (start : vertex)
    (st : measurements * world) : result (measurements * world) :=
  let '(m, w) := st in
  '(shuffledCostMatrix, shuffledStart, w1) <-
    _shuffle_cost_matrix costMatrix start w ;;
  let '(ready, w2) := time w1 in
  doubleTreeRoute <- double_tree_algorithm shuffledCostMatrix shuffledStart ;;
  let '(finish, w3) := time w2 in
  doubleTreeCost <- _calc_total_cost doubleTreeRoute shuffledCostMatrix ;;
  let doubleTreeTime := ((finish - ready) * 1000)%Z in
  let '(ready', w4) := time w3 in
  christofidesRoute <-
    christofides_algorithm max_weight_matching shuffledCostMatrix shuffledStart ;;
  let '(finish', w5) := time w4 in
  christofidesCost <- _calc_total_cost christofidesRoute shuffledCostMatrix ;;
  let christofidesTime := ((finish' - ready') * 1000)%Z in
  Ok (mk_measurements
        (doubleTreeRoutes m ++ [doubleTreeRoute])
        (doubleTreeCosts m ++ [doubleTreeCost])
        (doubleTreeTimes m ++ [doubleTreeTime])
        (christofidesRoutes m ++ [christofidesRoute])
        (christofidesCosts m ++ [christofidesCost])
        (christofidesTimes m ++ [christofidesTime]),
      w5).

Definition run_two_algorithms (costMatrix : CostMatrix) (start : vertex)
    (times : nat) (w : world) : result (measurements * world) :=
  foldM (fun st _ => trial costMatrix start st) (seq 0 times)
        (mk_measurements [] [] [] [] [] [], w).

End Harness.

(* ================================================================== *)
(** * Edge lists: adjacency, connection, paths                          *)
(* ================================================================== *)

Abbreviation edge := (nat * nat)%type (only parsing).

Definition adj (E : list edge) (u v : vertex) : Prop :=
  In (u, v) E \/ In (v, u) E.

(** [conn E u v]: [u] and [v] are joined by a walk along edges of [E]. *)
Inductive conn (E : list edge) : vertex -> vertex -> Prop :=
| conn_refl : forall v, conn E v v
| conn_step : forall u x v, adj E u x -> conn E x v -> conn E u v.

(** [path E u p v]: [p] lists the vertices of a walk from [u] to [v]. *)
Inductive path (E : list edge) : vertex -> list vertex -> vertex -> Prop :=
| path_one : forall v, path E v [v] v
| path_cons : forall u x p v, adj E u x -> path E x p v -> path E u (u :: p) v.

(** Removes the first copy of the undirected edge [{a, b}]. *)
Fixpoint remove_uedge (a b : vertex) (E : list edge) : list edge :=
  match E with
  | [] => []
  | (x, y) :: E' =>
      if same_uedge a b x y then E' else (x, y) :: remove_uedge a b E'
  end.

(** Cycle-freedom: every edge is a bridge, that is, taking any one edge out
    disconnects its two ends. *)
Definition acyclic (E : list edge) : Prop :=
  forall E1 a b E2, E = E1 ++ (a, b) :: E2 -> ~ conn (E1 ++ E2) a b.

Definition norm (e : edge) : edge :=
  (Nat.min (fst e) (snd e), Nat.max (fst e) (snd e)).

(** The vocabulary of spanning trees over a weight function [wt] and a
    vertex set [V]. *)

Section TreeVocabulary.

Variable wt : vertex -> vertex -> Z.

(** The vertex set. *)
Variable V : list vertex.

Definition weight (E : list edge) : Z :=
  fold_right (fun e z => (wt (fst e) (snd e) + z)%Z) 0%Z E.

Definition spanning (E : list edge) : Prop :=
  forall x y, In x V -> In y V -> conn E x y.

Definition edges_within (E : list edge) : Prop :=
  forall x y, In (x, y) E -> In x V /\ In y V /\ x <> y.

(** A spanning tree of the complete graph on [V]: one edge fewer than
    vertices, every edge between two distinct vertices of [V], and all of
    [V] connected. *)
Definition spanning_tree (T : list edge) : Prop :=
  length T + 1 = length V /\ edges_within T /\ spanning T.

(** The way Prim's algorithm grows a tree: each step joins a new vertex
    [v] to a visited vertex [u] by an edge that is lightest among those
    leaving the visited set. *)
Inductive growth : list vertex -> list edge -> Prop :=
| growth_root : forall r, In r V -> growth [r] []
| growth_add : forall vis out u v,
    growth vis out -> In u vis -> ~ In v vis -> In v V ->
    (forall u' v', In u' vis -> In v' V -> ~ In v' vis ->
                   (wt u v <= wt u' v')%Z) ->
    growth (v :: vis) (out ++ [(u, v)]).

End TreeVocabulary.

(* ================================================================== *)
(** * Graph objects as edge lists                                       *)
(* ================================================================== *)

(** The unweighted edge under a weighted one. *)
Definition strip (e : wedge) : edge := (fst (fst e), snd (fst e)).

Definition ends (es : list wedge) : list edge := map strip es.

Definition add_edges (es : list wedge) (G : Graph) : Graph :=
  fold_left (fun T '(u, v, d) => add_edge u v d T) es G.

(* ================================================================== *)
(** * The complete graph of a cost matrix                               *)
(* ================================================================== *)

(** The entry of the upper triangle that weighs the edge between [u] and
    [v], as the graph builder reads it. *)
Definition upper (cm : CostMatrix) (u v : vertex) : pyval :=
  nth (Nat.max u v) (nth (Nat.min u v) cm []) None.

Definition wt (cm : CostMatrix) (u v : vertex) : Z :=
  match upper cm u v with
  | Some z => z
  | None => 0%Z
  end.

(** An [N] x [N] matrix: [N] rows of [N] entries. *)
Definition square (N : nat) (cm : CostMatrix) : Prop :=
  length cm = N /\ forall row, In row cm -> length row = N.

(** Off the diagonal every entry is a number. *)
Definition finite_weights (N : nat) (cm : CostMatrix) : Prop :=
  forall i j, i < N -> j < N -> i <> j ->
              exists z, nth j (nth i cm []) None = Some z.

Definition none_diagonal (N : nat) (cm : CostMatrix) : Prop :=
  forall i, i < N -> nth i (nth i cm []) None = None.

Definition symmetric (N : nat) (cm : CostMatrix) : Prop :=
  forall i j, i < N -> j < N ->
              nth j (nth i cm []) None = nth i (nth j cm []) None.

(** The input contract of the orchestrators. *)
Definition valid_matrix (N : nat) (cm : CostMatrix) : Prop :=
  square N cm /\ none_diagonal N cm /\ finite_weights N cm /\ symmetric N cm.

(** A number that converts to a float. *)
Definition in_float_range (z : Z) : bool :=
  match float_of_int z with
  | Ok _ => true
  | Raise _ => false
  end.

(** No number of the matrix is beyond the range of a float. *)
Definition float_weights (N : nat) (cm : CostMatrix) : Prop :=
  forall i j z, i < N -> j < N ->
                nth j (nth i cm []) None = Some z -> in_float_range z = true.

(** The [add_edge] calls of the graph builder, in order. *)
Definition upper_pairs (cm : CostMatrix) : list wedge :=
  flat_map (fun i =>
              map (fun j => (i, j, nth j (nth i cm []) None))
                  (seq (S i) (length (nth i cm []) - S i)))
           (seq 0 (length cm)).

(* ================================================================== *)
(** * Prim's algorithm on a complete graph                              *)
(* ================================================================== *)

(** The entries one sweep of [push_edges] adds. *)
Fixpoint pushed (u : vertex) (skip : list vertex) (a : list (vertex * pyval))
    (c : nat) : list fentry :=
  match a with
  | [] => []
  | (v, d) :: a' =>
      if memb v skip then pushed u skip a' c
      else match d with
           | Some z => mk_fentry z c u v d :: pushed u skip a' (S c)
           | None => []
           end
  end.

Definition adj_sum (es : list wedge) (L : list vertex) : nat :=
  fold_right (fun v n => length (adj_of es v) + n) 0 L.

Definition occurrences (a : vertex) (L : list vertex) : nat :=
  fold_right (fun v n => (if Nat.eqb a v then 1 else 0) + n) 0 L.

(* ================================================================== *)
(** * Breaking ties                                                     *)
(* ================================================================== *)

(** Whether [u] was reached before [x]; [reached] lists the vertices of
    the tree, the latest first. *)
Fixpoint earlier (u x : vertex) (reached : list vertex) : bool :=
  match reached with
  | [] => false
  | y :: l => if Nat.eqb y x then memb u l else earlier u x l
  end.

(** A rule that says whether the chosen edge may be taken when a second
    candidate weighs the same. *)
Abbreviation tie_break := (list vertex -> edge -> edge -> bool) (only parsing).

(** The candidate with the lowest destination wins. *)
Definition lowest_destination : tie_break :=
  fun _ e c => snd e <=? snd c.

(** The candidate that entered the frontier first wins: the one leaving
    the vertex reached earlier and, out of one vertex, the one with the
    lower destination. *)
Definition first_pushed : tie_break :=
  fun reached e c =>
    earlier (fst e) (fst c) reached
    || (Nat.eqb (fst e) (fst c) && (snd e <=? snd c)).

(** The edges that leave the tree. *)
Definition candidates (V reached : list vertex) : list edge :=
  flat_map (fun x => map (fun y => (x, y))
                         (filter (fun y => negb (memb y reached)) V))
           reached.

Definition choice_ok (rule : tie_break) (w : vertex -> vertex -> Z)
    (V reached : list vertex) (e : edge) : bool :=
  forallb (fun c => negb (w (fst c) (snd c) =? w (fst e) (snd e))%Z
                    || rule reached e c)
          (candidates V reached).

(** Every edge of [out], in the order chosen, wins against the candidates
    of its weight. *)
Fixpoint ties_broken_by (rule : tie_break) (w : vertex -> vertex -> Z)
    (V reached : list vertex) (out : list edge) : bool :=
  match out with
  | [] => true
  | e :: out' =>
      choice_ok rule w V reached e
      && ties_broken_by rule w V (snd e :: reached) out'
  end.

(** What the invariant of Prim's loop says, over a graph [G] whose edge
    between [u] and [v] weighs [w u v]. *)

Section PrimInvariant.

Variable G : Graph.
Variable w : vertex -> vertex -> Z.

Definition weights_ok (out : list wedge) : Prop :=
  forall u v d, In (u, v, d) out -> d = Some (w u v).

(** The loop invariant of [prim_grow]. *)
Record prim_inv (root : vertex) (nds visited : list vertex)
    (frontier : list fentry) (c : nat) (out : list wedge) : Prop := mk_prim_inv
  { inv_growth : growth w (gnodes G) visited (ends out);
    inv_nds_nodup : NoDup nds;
    inv_nds : forall x, In x nds -> In x (gnodes G) /\ ~ In x visited;
    inv_cover : forall x, In x (gnodes G) -> In x visited \/ In x nds;
    inv_front : forall e, In e frontier ->
      In (f_u e) visited /\ In (f_v e) (gnodes G) /\
      f_wt e = w (f_u e) (f_v e) /\ f_d e = Some (f_wt e);
    inv_front_complete : forall u v, In u visited -> In v nds ->
      exists e, In e frontier /\ f_u e = u /\ f_v e = v;
    inv_out : weights_ok out;
    inv_cnt_lt : forall e, In e frontier -> f_cnt e < c;
    inv_cnt_order : forall e1 e2, In e1 frontier -> In e2 frontier ->
      f_cnt e1 <= f_cnt e2 ->
      first_pushed visited (f_u e1, f_v e1) (f_u e2, f_v e2) = true;
    inv_reached : visited = rev (map snd (ends out)) ++ [root];
    inv_ties : ties_broken_by first_pushed w (gnodes G) [root] (ends out)
               = true }.

End PrimInvariant.

(* ================================================================== *)
(** * Multigraphs: degrees and connectivity                             *)
(* ================================================================== *)

(** Every edge end is a node, as [add_edge] ensures. *)
Definition mwf (M : MultiGraph) : Prop :=
  forall u v w, In (u, v, w) (medges M) -> In u (mnodes M) /\ In v (mnodes M).

(** All nodes are joined to one another; the null graph is not connected. *)
Definition connected (M : MultiGraph) : Prop :=
  mnodes M <> [] /\
  forall x y, In x (mnodes M) -> In y (mnodes M) -> conn (ends (medges M)) x y.

Definition even_degrees (M : MultiGraph) : Prop :=
  forall v, In v (mnodes M) -> Nat.even (mdegree M v) = true.

(** ** The breadth-first closure *)

Definition closed_under (es : list wedge) (S : list vertex) : Prop :=
  forall a b w, In (a, b, w) es -> (In a S <-> In b S).

(* ================================================================== *)
(** * Edge lists up to order and orientation                            *)
(* ================================================================== *)

(** An edge with its ends in increasing order. *)
Definition wnorm (e : wedge) : wedge :=
  let '(a, b, w) := e in (Nat.min a b, Nat.max a b, w).

Definition touches (L : list vertex) (e : wedge) : bool :=
  let '(a, b, _) := e in memb a L || memb b L.

(* ================================================================== *)
(** * The Eulerian circuit loop                                         *)
(* ================================================================== *)

(** The steps of a walk given by its vertices. *)
Fixpoint pairs (l : list vertex) : list edge :=
  match l with
  | a :: ((b :: _) as l') => (a, b) :: pairs l'
  | _ => []
  end.

Section EulerInvariant.

Variable src : vertex.
Variable es0 : list wedge.

(** The loop invariant.  Besides the program state it speaks of the
    vertex [a] the walk in progress must return to, the edge [pend] that
    the next pop will report, the vertices popped so far, in order
    ([pops]) and as a set ([D]). *)
Record euler_inv (es : list wedge) (stack : list vertex)
    (last : option vertex) (out : list edge)
    (a : vertex) (pend : list edge) (pops D : list vertex) : Prop :=
  mk_euler_inv
  { ei_bottom : stack = [] \/ exists s, stack = s ++ [src];
    ei_end : stack = [] -> last = Some src;
    ei_parity : forall top rest, stack = top :: rest ->
      forall v, Nat.odd (ends_at v es) =
                negb (Nat.eqb top a) && (Nat.eqb v top || Nat.eqb v a);
    ei_perm : Permutation (map norm (ends es0))
                (map norm (ends es ++ pairs stack ++ pend ++ out));
    ei_last : match last with
              | None => pops = [] /\ pend = [] /\ a = src
              | Some l =>
                  (exists p, pops = p ++ [l]) /\ hd src pops = src /\
                  In l D /\
                  pend = match stack with [] => [] | _ :: _ => [(a, l)] end
              end;
    ei_out : out = pairs pops;
    ei_done : forall v, In v D -> ends_at v es = 0;
    ei_seen : forall x y w, In (x, y, w) es0 ->
      In (x, y, w) es \/
      ((In x D \/ In x stack) /\ (In y D \/ In y stack));
    ei_sub : incl es es0 }.

End EulerInvariant.

(* ================================================================== *)
(** * Edge lists up to order and orientation                            *)
(* ================================================================== *)

Definition swap3 (e : wedge) : wedge :=
  let '(a, b, w) := e in (b, a, w).

(** How many edges of [es] join [u] and [v] with weight [d]. *)
Definition count_edge (u v : vertex) (d : pyval) (es : list wedge) : nat :=
  length (filter (fun '(a, b, w) =>
                    same_uedge u v a b &&
                    match d, w with
                    | Some x, Some y => Z.eqb x y
                    | None, None => true
                    | _, _ => false
                    end) es).

(* ================================================================== *)
(** * Building multigraphs                                              *)
(* ================================================================== *)

Definition madd_edges (es : list wedge) (M : MultiGraph) : MultiGraph :=
  fold_left (fun M '(u, v, w) => madd_edge u v w M) es M.

(** ** The doubled graph *)

(** All adjacency entries, node by node: the [add_edge] calls of
    [_duplicate_weighted_graph]. *)
Definition entries (es : list wedge) (ns : list vertex) : list wedge :=
  flat_map (fun v => map (fun '(w, d) => (v, w, d)) (adj_of es v)) ns.

Definition contrib (e : wedge) (v : vertex) : list wedge :=
  let '(a, b, d) := e in
  if Nat.eqb a v then [(v, b, d)]
  else if Nat.eqb b v then [(v, a, d)] else [].

(** A graph object in good standing: distinct nodes, every edge between two
    distinct nodes. *)
Definition gwf (T : Graph) : Prop :=
  NoDup (gnodes T) /\
  forall a b d, In (a, b, d) (gedges T) ->
                In a (gnodes T) /\ In b (gnodes T) /\ a <> b.

(** All nodes of a graph object are joined to one another. *)
Definition graph_connected (T : Graph) : Prop :=
  gnodes T <> [] /\
  forall x y, In x (gnodes T) -> In y (gnodes T) -> conn (ends (gedges T)) x y.

(* ================================================================== *)
(** * The Hamiltonian shortcut                                          *)
(* ================================================================== *)

(** The vertices of a walk at their first appearance. *)
Fixpoint first_occ (seen : list vertex) (l : list vertex) : list vertex :=
  match l with
  | [] => []
  | x :: l' =>
      if memb x seen then first_occ seen l' else x :: first_occ (x :: seen) l'
  end.

(* ================================================================== *)
(** * The spanning tree of a cost matrix                                *)
(* ================================================================== *)

(** What the orchestrators know of their spanning tree. *)
Record mst_facts (N : nat) (cm : CostMatrix) (T : Graph) : Prop := mk_mst_facts
  { mf_same : gnodes T = gnodes (_create_weighted_graph cm);
    mf_nodes : forall x, In x (gnodes T) <-> x < N;
    mf_nodup : NoDup (gnodes T);
    mf_gwf : gwf T;
    mf_connected : graph_connected T;
    mf_weights : forall u v d, In (u, v, d) (gedges T) -> d = Some (wt cm u v);
    mf_tree : spanning_tree (seq 0 N) (ends (gedges T));
    mf_acyclic : acyclic (ends (gedges T));
    mf_minimum : forall T', spanning_tree (seq 0 N) T' ->
                            (weight (wt cm) (ends (gedges T)) <= weight (wt cm) T')%Z;
    mf_prim : prim_mst_edges (_create_weighted_graph cm) = Ok (gedges T);
    mf_ties : ties_broken_by first_pushed (wt cm) (seq 0 N) [0]
                             (ends (gedges T)) = true }.

(* ================================================================== *)
(** * Route costs                                                       *)
(* ================================================================== *)

(** The number at [cm[i][j]]. *)
Definition entry (cm : CostMatrix) (i j : nat) : Z :=
  match nth j (nth i cm []) None with
  | Some z => z
  | None => 0%Z
  end.

(** Non-negative weights obeying the triangle inequality. *)
Definition metric (N : nat) (cm : CostMatrix) : Prop :=
  (forall i j, i < N -> j < N -> i <> j -> (0 <= entry cm i j)%Z) /\
  (forall i j k, i < N -> j < N -> k < N -> i <> j -> j <> k -> i <> k ->
                 (entry cm i k <= entry cm i j + entry cm j k)%Z).

(** A tour of the [N] vertices: each once, then back to the first. *)
Definition is_tour (N : nat) (tour : list vertex) : Prop :=
  exists body s, tour = body ++ [s] /\ hd s body = s /\
                 Permutation body (seq 0 N).

(** The sum the loop of [_calc_total_cost] would make in exact arithmetic. *)
Definition exact_total_cost (route : list vertex) (costMatrix : CostMatrix)
  : result Z :=
  foldM (fun totalCost i =>
           a <- getitem route i ;;
           b <- getitem route (i + 1) ;;
           x <- getitem2 costMatrix a b ;;
           z <- as_number x ;;
           Ok (totalCost + z)%Z)
        (seq 0 (length route - 1)) 0%Z.

(** The weight of the steps of a walk. *)
Definition walk_cost (cm : CostMatrix) (l : list vertex) : Z :=
  weight (wt cm) (pairs l).

(* ================================================================== *)
(** * The float that [_calc_total_cost] returns                         *)
(* ================================================================== *)

(** The sum of the magnitudes of the numbers along some steps. *)
Definition magnitude (cm : CostMatrix) (steps : list (vertex * vertex)) : Z :=
  weight (fun a b => Z.abs (entry cm a b)) steps.

(** Weights small enough for the float sum of [N] of them to be exact. *)
Definition exact_weights (N : nat) (cm : CostMatrix) : Prop :=
  forall i j z, i < N -> j < N ->
                nth j (nth i cm []) None = Some z ->
                (Z.of_nat N * Z.abs z < 2 ^ 53)%Z.

(* ================================================================== *)
(** * Odd-degree vertices                                               *)
(* ================================================================== *)

Definition odd_vertices (T : Graph) : list vertex :=
  filter (fun v => negb (Nat.even (degree T v))) (gnodes T).

Definition even_vertices (T : Graph) : list vertex :=
  filter (fun v => Nat.even (degree T v)) (gnodes T).

Definition degree_sum (es : list wedge) (V : list vertex) : nat :=
  fold_right (fun v n => ends_at v es + n) 0 V.

(* ================================================================== *)
(** * Removing the even-degree vertices                                 *)
(* ================================================================== *)

(** What the matcher is handed: the complete graph on the vertices of odd
    tree degree, weighted as the cost matrix says. *)
Record odd_complete (cm : CostMatrix) (T R : Graph) : Prop := mk_odd_complete
  { oc_nodes : gnodes R = odd_vertices T;
    oc_nodup : NoDup (gnodes R);
    oc_adj : forall u v w,
        In (v, w) (get_adj R u) <->
        In u (odd_vertices T) /\ In v (odd_vertices T) /\ u <> v /\
        w = Some (wt cm u v);
    oc_simple : NoDup (map norm (ends (gedges R))) }.

(* ================================================================== *)
(** * The matching                                                      *)
(* ================================================================== *)

(** The vertices a set of edges covers. *)
Definition matching_ends (m : list edge) : list vertex :=
  flat_map (fun e => [fst e; snd e]) m.

(** Edges of [G] no two of which share a vertex. *)
Definition is_matching (G : Graph) (m : list edge) : Prop :=
  (forall a b, In (a, b) m -> adj (ends (gedges G)) a b) /\
  NoDup (matching_ends m).

(** [G[a][b]["weight"]] as a number. *)
Definition gweight (G : Graph) (a b : vertex) : Z :=
  match edge_weight G a b with
  | Ok (Some z) => z
  | _ => 0%Z
  end.

(** What [nx.max_weight_matching(G, maxcardinality=True)] promises of its
    result [m]: a matching of [G], of the largest cardinality there is, and
    of the largest weight among the matchings of that cardinality. *)
Definition matcher_contract (G : Graph) (m : list edge) : Prop :=
  is_matching G m /\
  (forall m', is_matching G m' -> length m' <= length m) /\
  (forall m', is_matching G m' -> length m' = length m ->
              (weight (gweight G) m' <= weight (gweight G) m)%Z).

(** A perfect matching of the vertices [L]. *)
Definition perfect_matching (L : list vertex) (m : list edge) : Prop :=
  Permutation (matching_ends m) L.

Fixpoint pair_up (L : list vertex) : list edge :=
  match L with
  | a :: b :: L' => (a, b) :: pair_up L'
  | _ => []
  end.

Definition negw (e : wedge) : wedge :=
  let '(u, v, w) := e in (u, v, option_map Z.opp w).

Definition tag (cm : CostMatrix) (e : edge) : wedge :=
  (fst e, snd e, Some (wt cm (fst e) (snd e))).

(** [tmpGraph]: the graph with every weight negated. *)
Definition negated (R : Graph) : Graph :=
  add_edges (map negw (edges_data R)) empty_graph.

(* ================================================================== *)
(** * The matching graph and the merged multigraph                      *)
(* ================================================================== *)

(** The matcher is trusted on the one graph this run hands to it. *)
Definition matcher_ok (max_weight_matching : Graph -> list edge)
    (cm : CostMatrix) : Prop :=
  forall T R tmp,
    minimum_spanning_tree (_create_weighted_graph cm) = Ok T ->
    _remove_even_degree_vertices (_create_weighted_graph cm) T = Ok R ->
    negate_weights R = Ok tmp ->
    matcher_contract tmp (max_weight_matching tmp).

(* ================================================================== *)
(** * Relabelling the cost matrix                                       *)
(* ================================================================== *)

(** The matrix the shuffler builds from the drawn indices. *)
Definition relabeled (N : nat) (cm : CostMatrix) (perm : list nat) : CostMatrix :=
  map (fun i => map (fun j => nth (nth j perm 0) (nth (nth i perm 0) cm []) None)
                    (seq 0 N))
      (seq 0 N).

(* ================================================================== *)
(** * Fixtures                                                          *)
(* ================================================================== *)

(** One vertex: the 1x1 matrix. *)
Definition one_vertex : CostMatrix := [[None]].

(** Three vertices with w(0,1) = 1, w(1,2) = 1, w(0,2) = 3. *)
Definition three_vertices : CostMatrix :=
  [[None; Some 1; Some 3]; [Some 1; None; Some 1]; [Some 3; Some 1; None]]%Z.

(** Three vertices on a line: w(0,1) = 1, w(1,2) = 1, w(0,2) = 2. *)
Definition three_on_a_line : CostMatrix :=
  [[None; Some 1; Some 2]; [Some 1; None; Some 1]; [Some 2; Some 1; None]]%Z.

(** Four vertices with w(0,1) = 1, w(0,2) = 3, w(0,3) = 2, w(1,2) = 2,
    w(1,3) = 3, w(2,3) = 1: once 0 and 1 are in the tree, the edges (0,3)
    and (1,2) tie at weight 2. *)
Definition four_with_tie : CostMatrix :=
  [[None; Some 1; Some 3; Some 2]; [Some 1; None; Some 2; Some 3];
   [Some 3; Some 2; None; Some 1]; [Some 2; Some 3; Some 1; None]]%Z.

(** Three vertices, any two of them [2 ** 1024] apart: an int that no
    float holds. *)
Definition three_far_apart : CostMatrix :=
  [[None; Some (2 ^ 1024); Some (2 ^ 1024)];
   [Some (2 ^ 1024); None; Some (2 ^ 1024)];
   [Some (2 ^ 1024); Some (2 ^ 1024); None]]%Z.

(** A matcher that answers with the one edge between 0 and 2. *)
Definition pick_0_2 (_ : Graph) : list edge := [(0, 2)].

(* ================================================================== *)
(** * The orchestrators return tours                                    *)
(* ================================================================== *)

(** A route over [N] vertices that leaves [start], meets every vertex
    once and is back at [start]. *)
Definition closed_tour (N : nat) (start : vertex) (route : list vertex) : Prop :=
  length route = N + 1 /\ hd start route = start /\ last route start = start /\
  Permutation (removelast route) (seq 0 N).

(* ================================================================== *)
(** * The double-tree constructor                                       *)
(* ================================================================== *)

(** The path 0 - 1 - 2 with unit weights. *)
Definition path_tree : Graph :=
  mk_graph [0; 1; 2] [(0, 1, Some 1%Z); (1, 2, Some 1%Z)].

(* ================================================================== *)
(** * The Eulerian circuit extractor                                    *)
(* ================================================================== *)

(** Two vertices joined by two parallel edges. *)
Definition double_edge : MultiGraph :=
  mk_multi [0; 1] [(0, 1, Some 1%Z); (1, 0, Some 1%Z)].

(* ================================================================== *)
(** * The shuffler                                                      *)
(* ================================================================== *)

(** A world whose generator keeps drawing the rotation [2; 0; 1]. *)
Definition rotating_world : world :=
  mk_world (fun _ => [2; 0; 1]) 0 (fun _ => 0%Z) 0.

(* ================================================================== *)
(** * Where the harness takes its permutations from                     *)
(* ================================================================== *)

(** What a run reports apart from its timings: the routes and the costs
    of the two algorithms. *)
Definition routes_and_costs (m : measurements)
  : list (list vertex) * list pyfloat * list (list vertex) * list pyfloat :=
  (doubleTreeRoutes m, doubleTreeCosts m, christofidesRoutes m, christofidesCosts m).

Definition outcome (r : result (measurements * world))
  : result (list (list vertex) * list pyfloat * list (list vertex) * list pyfloat) :=
  match r with
  | Ok (m, _) => Ok (routes_and_costs m)
  | Raise e => Raise e
  end.

(** The generators of two worlds are in the same state: they will draw
    the same permutations from here on. *)
Definition same_draws (w1 w2 : world) : Prop :=
  forall k, draws w1 (drawn w1 + k) = draws w2 (drawn w2 + k).

(** The matcher that pairs the nodes of its graph in their order. *)
Definition pair_nodes (G : Graph) : list edge := pair_up (gnodes G).

(** Two worlds that differ in the state of the generator only. *)
Definition identity_world : world :=
  mk_world (fun _ => [0; 1; 2]) 0 (fun _ => 0%Z) 0.

(** A world with the generator of [rotating_world] and a running clock. *)
Definition ticking_world : world :=
  mk_world (fun _ => [2; 0; 1]) 5 (fun n => Z.of_nat n) 3.

(** Two states of the loop that agree on what has been appended so far
    and on the draws to come. *)
Definition agree (st1 st2 : measurements * world) : Prop :=
  routes_and_costs (fst st1) = routes_and_costs (fst st2) /\
  same_draws (snd st1) (snd st2).

Definition agree_results (r1 r2 : result (measurements * world)) : Prop :=
  match r1, r2 with
  | Ok st1, Ok st2 => agree st1 st2
  | Raise e1, Raise e2 => e1 = e2
  | _, _ => False
  end.

(** The functions once more, this time with the objects they are handed
    and the objects they create held in a store, an object being known by
    its place there: a call of a constructor takes a new place, a call of
    a mutating method rewrites the object at a place. *)

Module Store.

Abbreviation loc := nat (only parsing).

Inductive obj : Type :=
| OMatrix (rows : list loc)      (* a cost matrix: the list of its rows *)
| ORow (entries : list pyval)    (* one row of a cost matrix *)
| OGraph (G : Graph)             (* an [nx.Graph] *)
| OMulti (M : MultiGraph)        (* an [nx.MultiGraph] *)
| OPath (l : list vertex)        (* a list or a set of vertices *)
| ORoutes (l : list loc)         (* a list of routes *)
| ONumbers (l : list Z)          (* a list of times *)
| OFloats (l : list pyfloat).    (* a list of costs *)

(** The objects alive, and the state of the generator and the clock. *)
Record state : Type := mk_state { cells : list obj; globals : world }.

Definition St (A : Type) : Type := state -> result A * state.

Definition ret {A : Type} (a : A) : St A := fun s => (Ok a, s).

Definition sbind {A B : Type} (m : St A) (k : A -> St B) : St B :=
  fun s => match m s with
           | (Ok a, s') => k a s'
           | (Raise e, s') => (Raise e, s')
           end.

Declare Scope st_scope.
Delimit Scope st_scope with st.
Notation "x <~ m ;; k" := (sbind m (fun x => k))
  (at level 61, m at next level, right associativity) : st_scope.
Notation "' p <~ m ;; k" := (sbind m (fun p => k))
  (at level 61, p pattern, m at next level, right associativity) : st_scope.
Local Open Scope st_scope.

(** A step that reads no object and writes none. *)
Definition lift {A : Type} (r : result A) : St A := fun s => (r, s).

(** A constructor call: the new object takes the next free place. *)
Definition alloc (o : obj) : St loc :=
  fun s => (Ok (length (cells s)), mk_state (cells s ++ [o]) (globals s)).

Definition load (l : loc) : St obj :=
  fun s => match nth_error (cells s) l with
           | Some o => (Ok o, s)
           | None => (Raise TypeError, s)
           end.

Fixpoint replace_at (l : loc) (o : obj) (cs : list obj) : list obj :=
  match cs, l with
  | [], _ => []
  | _ :: cs', 0 => o :: cs'
  | c :: cs', S l' => c :: replace_at l' o cs'
  end.

(** A mutating method call: the object at [l] becomes [o]. *)
Definition put (l : loc) (o : obj) : St unit :=
  fun s => (Ok tt, mk_state (replace_at l o (cells s)) (globals s)).

Fixpoint for_ {A : Type} (l : list A) (body : A -> St unit) : St unit :=
  match l with
  | [] => ret tt
  | a :: l' => _ <~ body a ;; for_ l' body
  end.

Definition load_matrix (l : loc) : St (list loc) :=
  o <~ load l ;;
  match o with OMatrix rows => ret rows | _ => lift (Raise TypeError) end.

Definition load_row (l : loc) : St (list pyval) :=
  o <~ load l ;;
  match o with ORow r => ret r | _ => lift (Raise TypeError) end.

Definition load_graph (l : loc) : St Graph :=
  o <~ load l ;;
  match o with OGraph G => ret G | _ => lift (Raise TypeError) end.

Definition load_multi (l : loc) : St MultiGraph :=
  o <~ load l ;;
  match o with OMulti M => ret M | _ => lift (Raise TypeError) end.

Definition load_path (l : loc) : St (list vertex) :=
  o <~ load l ;;
  match o with OPath p => ret p | _ => lift (Raise TypeError) end.

Definition load_routes (l : loc) : St (list loc) :=
  o <~ load l ;;
  match o with ORoutes p => ret p | _ => lift (Raise TypeError) end.

Definition load_numbers (l : loc) : St (list Z) :=
  o <~ load l ;;
  match o with ONumbers p => ret p | _ => lift (Raise TypeError) end.

Definition load_floats (l : loc) : St (list pyfloat) :=
  o <~ load l ;;
  match o with OFloats p => ret p | _ => lift (Raise TypeError) end.

(** [costMatrix[i]]. *)
Definition matrix_row (costMatrix : loc) (i : nat) : St (list pyval) :=
  rows <~ load_matrix costMatrix ;;
  r <~ lift (getitem rows i) ;;
  load_row r.

(** [costMatrix[i][j]]. *)
Definition matrix_entry (costMatrix : loc) (i j : nat) : St pyval :=
  row <~ matrix_row costMatrix i ;;
  lift (getitem row j).

(** A method of the graph at [g] that changes it in place. *)
Definition graph_do (g : loc) (f : Graph -> result Graph) : St unit :=
  G <~ load_graph g ;;
  G' <~ lift (f G) ;;
  put g (OGraph G').

Definition multi_do (m : loc) (f : MultiGraph -> MultiGraph) : St unit :=
  M <~ load_multi m ;;
  put m (OMulti (f M)).

(** [l.append(x)] on the lists of the several kinds. *)
Definition path_append (p : loc) (v : vertex) : St unit :=
  l <~ load_path p ;; put p (OPath (l ++ [v])).

Definition row_append (p : loc) (x : pyval) : St unit :=
  l <~ load_row p ;; put p (ORow (l ++ [x])).

Definition matrix_append (p : loc) (r : loc) : St unit :=
  l <~ load_matrix p ;; put p (OMatrix (l ++ [r])).

Definition routes_append (p : loc) (r : loc) : St unit :=
  l <~ load_routes p ;; put p (ORoutes (l ++ [r])).

Definition numbers_append (p : loc) (z : Z) : St unit :=
  l <~ load_numbers p ;; put p (ONumbers (l ++ [z])).

Definition floats_append (p : loc) (f : pyfloat) : St unit :=
  l <~ load_floats p ;; put p (OFloats (l ++ [f])).

(** [random.sample] and [time.time] act on the globals. *)
Definition sample_st (population : list nat) (k : nat) : St (list nat) :=
  fun s => let '(l, w) := sample population k (globals s) in
           (Ok l, mk_state (cells s) w).

Definition time_st : St Z :=
  fun s => let '(t, w) := time (globals s) in (Ok t, mk_state (cells s) w).

(** ** [tsr.py] *)

Definition _create_weighted_graph_st (costMatrix : loc) : St loc :=
  graph <~ alloc (OGraph empty_graph) ;;
  rows <~ load_matrix costMatrix ;;
  _ <~ for_ (seq 0 (length rows))
            (fun i =>
               row <~ matrix_row costMatrix i ;;
               for_ (seq (S i) (length row - S i))
                    (fun j =>
                       x <~ matrix_entry costMatrix i j ;;
                       graph_do graph (fun G => Ok (add_edge i j x G)))) ;;
  ret graph.

(** [nx.minimum_spanning_tree(graph, algorithm="prim")] returns a new
    graph. *)
Definition minimum_spanning_tree_st (graph : loc) : St loc :=
  G <~ load_graph graph ;;
  T <~ lift (minimum_spanning_tree G) ;;
  alloc (OGraph T).

Definition _duplicate_weighted_graph_st (graph : loc) : St loc :=
  duplicatedGraph <~ alloc (OMulti empty_multi) ;;
  G <~ load_graph graph ;;
  _ <~ for_ (gnodes G)
            (fun v =>
               for_ (get_adj G v)
                    (fun '(w, d) => multi_do duplicatedGraph (madd_edge v w d))) ;;
  ret duplicatedGraph.

Definition _create_eulerian_path_st (eulerianGraph : loc) (start : vertex)
  : St loc :=
  M <~ load_multi eulerianGraph ;;
  eulerianEdges <~ lift (eulerian_circuit M start) ;;
  eulerianPath <~ alloc (OPath (map fst eulerianEdges)) ;;
  last <~ lift (getitem eulerianEdges (length eulerianEdges - 1)) ;;
  _ <~ path_append eulerianPath (snd last) ;;
  ret eulerianPath.

Definition _create_hamiltonian_path_st (eulerianPath : loc) : St loc :=
  hamiltonianPath <~ alloc (OPath []) ;;
  existedVertice <~ alloc (OPath []) ;;
  path <~ load_path eulerianPath ;;
  _ <~ for_ path
            (fun vertex =>
               existed <~ load_path existedVertice ;;
               if memb vertex existed then ret tt
               else _ <~ path_append hamiltonianPath vertex ;;
                    path_append existedVertice vertex) ;;
  first <~ lift (getitem path 0) ;;
  _ <~ path_append hamiltonianPath first ;;
  ret hamiltonianPath.

Definition _remove_even_degree_vertices_st (graph spanningTree : loc)
  : St loc :=
  G <~ load_graph graph ;;
  removedGraph <~ alloc (OGraph (Graph_copy G)) ;;
  T <~ load_graph spanningTree ;;
  _ <~ for_ (gnodes T)
            (fun v =>
               if Nat.even (degree T v)
               then graph_do removedGraph (remove_node v)
               else ret tt) ;;
  ret removedGraph.

Definition _merge_two_graphs_st (graph1 graph2 : loc) : St loc :=
  G1 <~ load_graph graph1 ;;
  mergedGraph <~ alloc (OMulti (MultiGraph_of G1)) ;;
  G2 <~ load_graph graph2 ;;
  _ <~ for_ (edges_data G2)
            (fun '(u, v, w) => multi_do mergedGraph (madd_edge u v w)) ;;
  ret mergedGraph.

Definition double_tree_algorithm_st (costMatrix : loc) (start : vertex)
  : St loc :=
  graph <~ _create_weighted_graph_st costMatrix ;;
  spanningTree <~ minimum_spanning_tree_st graph ;;
  duplicatedSpanningTree <~ _duplicate_weighted_graph_st spanningTree ;;
  eulerianPath <~ _create_eulerian_path_st duplicatedSpanningTree start ;;
  _create_hamiltonian_path_st eulerianPath.

Section WithMatcher.

Variable max_weight_matching : Graph -> list (vertex * vertex).

Definition _match_minimal_weight_st (graph : loc) : St loc :=
  tmpGraph <~ alloc (OGraph empty_graph) ;;
  G <~ load_graph graph ;;
  _ <~ for_ (edges_data G)
            (fun '(u, v, w) =>
               z <~ lift (as_number w) ;;
               graph_do tmpGraph (fun t => Ok (add_edge u v (Some (- z)%Z) t))) ;;
  tmp <~ load_graph tmpGraph ;;
  matchingGraph <~ alloc (OGraph empty_graph) ;;
  _ <~ for_ (max_weight_matching tmp)
            (fun '(a, b) =>
               w <~ lift (edge_weight G a b) ;;
               graph_do matchingGraph (fun m => Ok (add_edge a b w m))) ;;
  ret matchingGraph.

Definition christofides_algorithm_st (costMatrix : loc) (start : vertex)
  : St loc :=
  graph <~ _create_weighted_graph_st costMatrix ;;
  spanningTree <~ minimum_spanning_tree_st graph ;;
  removedGraph <~ _remove_even_degree_vertices_st graph spanningTree ;;
  matchingGraph <~ _match_minimal_weight_st removedGraph ;;
  mergedGraph <~ _merge_two_graphs_st spanningTree matchingGraph ;;
  eulerianPath <~ _create_eulerian_path_st mergedGraph start ;;
  _create_hamiltonian_path_st eulerianPath.

(** ** [measurement.py] *)

Definition _shuffle_cost_matrix_st (costMatrix : loc) (start : vertex)
  : St (loc * vertex) :=
  shuffledCostMatrix <~ alloc (OMatrix []) ;;
  rows <~ load_matrix costMatrix ;;
  shuffledIndices <~ sample_st (seq 0 (length rows)) (length rows) ;;
  _ <~ for_ (seq 0 (length rows))
            (fun i =>
               tmpShuffledCostMatrix <~ alloc (ORow []) ;;
               _ <~ for_ (seq 0 (length rows))
                         (fun j =>
                            si <~ lift (getitem shuffledIndices i) ;;
                            sj <~ lift (getitem shuffledIndices j) ;;
                            x <~ matrix_entry costMatrix si sj ;;
                            row_append tmpShuffledCostMatrix x) ;;
               matrix_append shuffledCostMatrix tmpShuffledCostMatrix) ;;
  shuffledStart <~ lift (index shuffledIndices start) ;;
  ret (shuffledCostMatrix, shuffledStart).

Fixpoint sum_st (l : list nat) (body : pyfloat -> nat -> St pyfloat)
    (acc : pyfloat) : St pyfloat :=
  match l with
  | [] => ret acc
  | i :: l' => acc' <~ body acc i ;; sum_st l' body acc'
  end.

Definition _calc_total_cost_st (route costMatrix : loc) : St pyfloat :=
  path <~ load_path route ;;
  sum_st (seq 0 (length path - 1))
         (fun totalCost i =>
            a <~ lift (getitem path i) ;;
            b <~ lift (getitem path (i + 1)) ;;
            x <~ matrix_entry costMatrix a b ;;
            lift (float_plus totalCost x))
         (Finite 0).

Definition run_two_algorithms_st (costMatrix : loc) (start : vertex)
    (times : nat) : St (loc * loc * loc * loc * loc * loc) :=
  doubleTreeRoutes <~ alloc (ORoutes []) ;;
  doubleTreeCosts <~ alloc (OFloats []) ;;
  doubleTreeTimes <~ alloc (ONumbers []) ;;
  christofidesRoutes <~ alloc (ORoutes []) ;;
  christofidesCosts <~ alloc (OFloats []) ;;
  christofidesTimes <~ alloc (ONumbers []) ;;
  _ <~ for_ (seq 0 times)
            (fun _ =>
               '(shuffledCostMatrix, shuffledStart) <~
                 _shuffle_cost_matrix_st costMatrix start ;;
               ready <~ time_st ;;
               doubleTreeRoute <~
                 double_tree_algorithm_st shuffledCostMatrix shuffledStart ;;
               finish <~ time_st ;;
               _ <~ routes_append doubleTreeRoutes doubleTreeRoute ;;
               doubleTreeCost <~
                 _calc_total_cost_st doubleTreeRoute shuffledCostMatrix ;;
               _ <~ floats_append doubleTreeCosts doubleTreeCost ;;
               _ <~ numbers_append doubleTreeTimes ((finish - ready) * 1000)%Z ;;
               ready' <~ time_st ;;
               christofidesRoute <~
                 christofides_algorithm_st shuffledCostMatrix shuffledStart ;;
               finish' <~ time_st ;;
               _ <~ routes_append christofidesRoutes christofidesRoute ;;
               christofidesCost <~
                 _calc_total_cost_st christofidesRoute shuffledCostMatrix ;;
               _ <~ floats_append christofidesCosts christofidesCost ;;
               numbers_append christofidesTimes ((finish' - ready') * 1000)%Z) ;;
  ret (doubleTreeRoutes, doubleTreeCosts, doubleTreeTimes,
       christofidesRoutes, christofidesCosts, christofidesTimes).

End WithMatcher.

(** ** What a call leaves as it was *)

(** Every object of [s] is still in its place in [s'], unchanged. *)
Definition preserved (s s' : state) : Prop :=
  forall l o, nth_error (cells s) l = Some o -> nth_error (cells s') l = Some o.

(** Run from a store of at least [n] objects, [m] leaves the first [n]
    as they were, and what it returns satisfies [Q]. *)
Definition keeps (n : nat) {A : Type} (m : St A) (Q : A -> Prop) : Prop :=
  forall s, n <= length (cells s) ->
    n <= length (cells (snd (m s))) /\
    (forall l, l < n -> nth_error (cells (snd (m s))) l = nth_error (cells s) l) /\
    (forall a, fst (m s) = Ok a -> Q a).

End Store.

(* ================================================================== *)
(** * The inputs are left as they were                                  *)
(* ================================================================== *)

(** The three-vertex example in a store: its rows at places 0 to 2, the
    matrix at place 3. *)
Definition three_vertices_store : Store.state :=
  Store.mk_state
    [Store.ORow [None; Some 1; Some 3]%Z; Store.ORow [Some 1; None; Some 1]%Z;
     Store.ORow [Some 3; Some 1; None]%Z; Store.OMatrix [0; 1; 2]]
    identity_world.

(* ================================================================== *)
(** * The cost of any route                                             *)
(* ================================================================== *)

(** The step from [a] to [b] reads a number. *)
Definition numeric_step (cm : CostMatrix) (e : edge) : bool :=
  match nth (snd e) (nth (fst e) cm []) None with
  | Some _ => true
  | None => false
  end.

(** The step stays where it is. *)
Definition stays (e : edge) : bool := Nat.eqb (fst e) (snd e).

Definition swap_step (e : edge) : edge := (snd e, fst e).

(* ================================================================== *)
(** * Rows of the wrong length                                          *)
(* ================================================================== *)

(** A matrix whose middle row lacks its last entry. *)
Definition short_row : CostMatrix :=
  [[None; Some 1; Some 3]; [Some 1; None]; [Some 3; Some 1; None]]%Z.

(** A matrix whose rows carry a fourth entry. *)
Definition long_rows : CostMatrix :=
  [[None; Some 1; Some 3; Some 7]; [Some 1; None; Some 1; Some 8];
   [Some 3; Some 1; None; Some 9]]%Z.

(* ================================================================== *)
(** * Shuffling twice                                                   *)
(* ================================================================== *)

Definition compose (p q : list nat) : list nat := map (fun i => nth i p 0) q.

(* ================================================================== *)
(** * What the graph builder reads                                      *)
(* ================================================================== *)

(** The three-vertex example with other entries on and below the
    diagonal. *)
Definition three_vertices_lopsided : CostMatrix :=
  [[Some 9; Some 1; Some 3]; [Some 7; Some 0; Some 1]; [None; None; Some 5]]%Z.

(* ================================================================== *)
(** * Matrices without an entry above the diagonal                      *)
(* ================================================================== *)

(** The lower triangle of the three-vertex example, row by row. *)
Definition lower_triangle : CostMatrix :=
  [[None]; [Some 1; None]; [Some 3; Some 1; None]]%Z.

(* ================================================================== *)
(** * The harness, trial by trial                                       *)
(* ================================================================== *)

(** A route of the shuffled matrix in the labels of the original. *)
Definition unshuffle (perm : list nat) (route : list vertex) : list vertex :=
  map (fun i => nth i perm 0) route.

(** The label a vertex of the original has in the shuffled matrix. *)
Definition position (perm : list nat) (x : vertex) : vertex :=
  match index perm x with
  | Ok s => s
  | Raise _ => 0
  end.

(** The six appends of one trial. *)
Definition append_trial (m : measurements)
    (r1 : list vertex) (c1 : pyfloat) (t1 : Z)
    (r2 : list vertex) (c2 : pyfloat) (t2 : Z)
  : measurements :=
  mk_measurements (doubleTreeRoutes m ++ [r1]) (doubleTreeCosts m ++ [c1])
                  (doubleTreeTimes m ++ [t1])
                  (christofidesRoutes m ++ [r2]) (christofidesCosts m ++ [c2])
                  (christofidesTimes m ++ [t2]).

(** The world after one trial: one sample drawn, the clock read four
    times. *)
Definition after_trial (w : world) : world :=
  mk_world (draws w) (S (drawn w)) (ticks w) (4 + ticked w).

(** The two timings of the trial that starts in [w]. *)
Definition double_tree_time (w : world) : Z :=
  ((ticks w (1 + ticked w) - ticks w (ticked w)) * 1000)%Z.

Definition christofides_time (w : world) : Z :=
  ((ticks w (3 + ticked w) - ticks w (2 + ticked w)) * 1000)%Z.

(* ================================================================== *)
(** * The harness on a valid matrix                                     *)
(* ================================================================== *)

(** What one trial appends, in the labels of the original matrix: two
    tours from the start with their costs, within the two bounds when the
    matrix is metric and its weights small enough for the float sums to be
    exact. *)
Definition honest_entries (N : nat) (cm : CostMatrix) (start : vertex)
    (perm : list nat) (r1 : list vertex) (c1 : pyfloat)
    (r2 : list vertex) (c2 : pyfloat) : Prop :=
  closed_tour N start (unshuffle perm r1) /\
  closed_tour N start (unshuffle perm r2) /\
  _calc_total_cost (unshuffle perm r1) cm = Ok c1 /\
  _calc_total_cost (unshuffle perm r2) cm = Ok c2 /\
  (metric N cm -> exact_weights N cm ->
   exists z1 z2,
     c1 = Finite z1 /\ c2 = Finite z2 /\
     forall tour, is_tour N tour ->
       exists c', _calc_total_cost tour cm = Ok (Finite c') /\
                  (z1 <= 2 * c')%Z /\ (2 * z2 <= 3 * c')%Z).

(* ================================================================== *)
(** * Merging any two graphs                                            *)
(* ================================================================== *)

(** Two graphs on 0, 1, 2 that share the edge between 0 and 1. *)
Definition wedge_01_12 : Graph :=
  mk_graph [0; 1; 2] [(0, 1, Some 1%Z); (1, 2, Some 1%Z)].

Definition wedge_01_02 : Graph :=
  mk_graph [0; 1; 2] [(0, 1, Some 1%Z); (0, 2, Some 3%Z)].

(* ================================================================== *)
(** * Removing the even-degree vertices of any tree from any graph      *)
(* ================================================================== *)

(** The path 0 - 1 - 2 - 3 as a tree: 1 and 2 have even degree. *)
Definition path_0123 : Graph :=
  mk_graph [0; 1; 2; 3] [(0, 1, Some 1%Z); (1, 2, Some 2%Z); (2, 3, Some 1%Z)].

(* ================================================================== *)
(** * Prim's algorithm on a graph with a weight missing                 *)
(* ================================================================== *)

(** A weight that Prim's algorithm cannot take: [None], which the product
    with the sign refuses, or an int beyond the range of a float, which
    [isnan] refuses. *)
Definition unusable (d : pyval) : Prop :=
  match d with
  | None => True
  | Some z => in_float_range z = false
  end.

(** The exception such a weight raises. *)
Definition raised_by (d : pyval) : exn :=
  match d with
  | None => TypeError
  | Some _ => OverflowError
  end.

(** A run stopped by a weight of the graph that cannot be taken. *)
Definition stopped_by_weight {A : Type} (G : Graph) (r : result A) : Prop :=
  exists a b d,
    In (b, d) (get_adj G a) /\ unusable d /\ r = Raise (raised_by d).

(** Four vertices with no road between 1 and 3. *)
Definition four_without_a_road : CostMatrix :=
  [[None; Some 1; Some 3; Some 2]; [Some 1; None; Some 2; None];
   [Some 3; Some 2; None; Some 1]; [Some 2; None; Some 1; None]]%Z.

(** Three vertices with no road between 0 and 2 and a road of [10 ** 400]
    between 0 and 1. *)
Definition three_with_a_long_road : CostMatrix :=
  [[None; Some (10 ^ 400); None]; [Some (10 ^ 400); None; Some 1];
   [None; Some 1; None]]%Z.

(* ================================================================== *)
(** * [sawayaka.py]: the stores and the directions service              *)
(* ================================================================== *)

Module Sawayaka.

Import String.StringSyntax.
Local Open Scope string_scope.

(** A Python [str], as its UTF-8 bytes. *)
Abbreviation str := String.string (only parsing).

(** What the client hands back: decoded JSON.  [JNone] is Python's [None]
    (JSON's null); a float is kept as the decimal numeral [m * 10 ^ e] it
    was read from, the code doing no arithmetic on it; a dict lists its keys
    in insertion order. *)
#[local] Set Warnings "-register-all".

Inductive json : Type :=
| JNone
| JBool (b : bool)
| JInt (z : Z)
| JFloat (m e : Z)
| JStr (s : str)
| JList (l : list json)
| JDict (d : list (str * json)).

(** [d[k]] on a dict. *)
Fixpoint lookup (d : list (str * json)) (k : str) : result json :=
  match d with
  | [] => Raise KeyError
  | (k', v) :: d' => if String.eqb k k' then Ok v else lookup d' k
  end.

(** A byte that continues a UTF-8 character: [10xxxxxx]. *)
Definition continues (c : Ascii.ascii) : bool :=
  match c with
  | Ascii.Ascii _ _ _ _ _ _ false true => true
  | _ => false
  end.

(** Whether a [str] goes on in the middle of a character. *)
Definition continued (s : str) : bool :=
  match s with
  | String.String c _ => continues c
  | String.EmptyString => false
  end.

(** The characters of a [str], each with its bytes. *)
Fixpoint chars (s : str) : list str :=
  match s with
  | String.EmptyString => []
  | String.String c r =>
      if continued r then
        match chars r with
        | g :: gs => String.String c g :: gs
        | [] => [String.String c String.EmptyString]
        end
      else String.String c String.EmptyString :: chars r
  end.

(** [x[k]] for a [str] key: only a dict takes one. *)
Definition item_str (x : json) (k : str) : result json :=
  match x with
  | JDict d => lookup d k
  | _ => Raise TypeError
  end.

(** [x[i]] for an [int] index that is not negative: a list and a [str] are
    indexed, a dict decoded from JSON has no [int] key, nothing else can be
    subscripted. *)
Definition item_int (x : json) (i : nat) : result json :=
  match x with
  | JList l => getitem l i
  | JStr s => c <- getitem (chars s) i ;; Ok (JStr c)
  | JDict _ => Raise KeyError
  | _ => Raise TypeError
  end.

(** The keyword arguments of [client.directions]. *)
Record request : Type := mk_request
  { origin : str; destination : str; mode : str; alternatives : bool }.

(** What a call can raise: a built-in exception, or one of the exception
    classes of the client library, by name. *)
Inductive failure : Type :=
| Builtin (e : exn)
| Library (name : str).

Inductive attempt (A : Type) : Type :=
| Done (a : A)
| Fails (e : failure).

Arguments Done {A} a.
Arguments Fails {A} e.

(** The world outside: [Client key] makes the client or raises;
    [directions k q] is what the service answers when its [k]-th call
    (counted from 0) is the request [q]. *)
Record maps : Type := mk_maps
  { Client : str -> attempt unit;
    directions : nat -> request -> attempt json }.

(** A computation that may raise, and that adds to the list of the requests
    sent so far; the list is kept when it raises. *)
Definition io (A : Type) : Type := list request -> attempt A * list request.

Definition finish {A : Type} (a : A) : io A := fun sent => (Done a, sent).

Definition io_bind {A B : Type} (m : io A) (k : A -> io B) : io B :=
  fun sent =>
    match m sent with
    | (Done a, sent') => k a sent'
    | (Fails e, sent') => (Fails e, sent')
    end.

Notation "x <~ m ;; k" := (io_bind m (fun x => k))
  (at level 61, m at next level, right associativity).

Definition of_result {A : Type} (r : result A) : io A :=
  fun sent =>
    match r with
    | Ok a => (Done a, sent)
    | Raise e => (Fails (Builtin e), sent)
    end.

Definition new_client (net : maps) (key : str) : io unit :=
  fun sent => (Client net key, sent).

Definition call (net : maps) (q : request) : io json :=
  fun sent => (directions net (length sent) q, sent ++ [q]).

(** A [for] loop whose body may raise and may send requests. *)
Fixpoint for_each {A S : Type} (f : S -> A -> io S) (l : list A) (s : S)
  : io S :=
  match l with
  | [] => finish s
  | a :: l' => s' <~ f s a ;; for_each f l' s'
  end.

(** The addresses of the stores. *)
Definition _ADDRESSES : list str :=
  [
   "〒412-0026 静岡県御殿場市東田中984−1";
   "〒419-0122 静岡県田方郡函南町上沢130−1";
   "〒411-0942 静岡県駿東郡長泉町中土狩340−5";
   "〒410-0042 静岡県沼津市神田町6番26号";
   "〒417-0045 静岡県富士市錦町1丁目11-16";
   "〒419-0202 静岡県富士市久沢847-11";
   "〒420-0913 静岡県静岡市葵区瀬名川2丁目39番37号";
   "〒420-8508 静岡県静岡市葵区鷹匠一丁目1番1号";
   "〒422-8005 静岡県静岡市駿河区池田634-1";
   "〒422-8051 静岡県静岡市駿河区中野新田387-1";
   "〒425-0035 静岡県焼津市東小川7-17-12";
   "〒426-0031 静岡県藤枝市築地520-1";
   "〒427-0058 静岡県島田市祇園町8912-2";
   "〒421-0301 静岡県榛原郡吉田町住吉696-1";
   "〒439-0031 静岡県菊川市加茂6088";
   "〒436-0020 静岡県掛川市矢崎町3-15";
   "〒436-0043 静岡県掛川市大池3001-1";
   "〒437-0064 静岡県袋井市川井70-1";
   "〒438-0071 静岡県磐田市今之浦4丁目4-6";
   "〒438-0834 静岡県磐田市森下1002-3";
   "〒435-0042 静岡県浜松市東区篠ケ瀬町1232";
   "〒435-0057 静岡県浜松市東区中田町126-1";
   "〒431-3122 静岡県浜松市東区有玉南町547-1";
   "〒434-0041 静岡県浜松市浜北区平口2926-1";
   "〒431-1304 静岡県浜松市北区細江町中川5443-1";
   "〒433-8125 静岡県浜松市中区和合町193-14";
   "〒433-8118 静岡県浜松市中区高丘西3丁目46-12";
   "〒432-8002 静岡県浜松市中区富塚町439-1";
   "〒432-8023 静岡県浜松市中区鴨江3-10-1";
   "〒430-8588 静岡県浜松市中区砂山町320-2";
   "〒430-0846 静岡県浜松市南区白羽町636-1";
   "〒432-8065 静岡県浜松市南区高塚町4888-11";
   "〒431-0301 静岡県湖西市新居町中之郷4007-1"
  ].

(** [result[0]['legs'][0]]. *)
Definition first_leg (result_ : json) : result json :=
  route <- item_int result_ 0 ;;
  legs <- item_str route "legs" ;;
  item_int legs 0.

(** The body of the inner loop of the constructor: one entry of the row
    [directions_tmp] of store [i]. *)
Definition directions_entry (net : maps) (_directions : list (list json))
    (i : nat) (directions_tmp : list json) (j : nat) : io (list json) :=
  if i <? j then
    o <~ of_result (getitem _ADDRESSES i) ;;
    d <~ of_result (getitem _ADDRESSES j) ;;
    result_ <~ call net (mk_request o d "driving" false) ;;
    leg <~ of_result (first_leg result_) ;;
    finish (directions_tmp ++ [leg])
  else if j <? i then
    row <~ of_result (getitem _directions j) ;;
    leg <~ of_result (getitem row i) ;;
    finish (directions_tmp ++ [leg])
  else
    finish (directions_tmp ++ [JNone]).

(** The body of the outer loop: the row of store [i]. *)
Definition directions_row (net : maps) (_directions : list (list json))
    (i : nat) : io (list (list json)) :=
  directions_tmp <~
    for_each (directions_entry net _directions i)
             (seq 0 (length _ADDRESSES)) [] ;;
  finish (_directions ++ [directions_tmp]).

(** An object of the class: its one attribute. *)
Record Sawayaka : Type := mk_Sawayaka { _directions : list (list json) }.

(** [Sawayaka(apiKey)]. *)
Definition __init__ (net : maps) (apiKey : str) : io Sawayaka :=
  _ <~ new_client net apiKey ;;
  rows <~ for_each (directions_row net) (seq 0 (length _ADDRESSES)) [] ;;
  finish (mk_Sawayaka rows).

(** [x['duration']['value'] if x is not None else None]. *)
Definition cost_of (x : json) : result json :=
  match x with
  | JNone => Ok JNone
  | _ => d <- item_str x "duration" ;; item_str d "value"
  end.

(** [self.get_cost_matrix()]: the two comprehensions, by index. *)
Definition get_cost_matrix (self : Sawayaka) : result (list (list json)) :=
  mapM (fun i =>
          row <- getitem (_directions self) i ;;
          mapM (fun j =>
                  row' <- getitem (_directions self) i ;;
                  x <- getitem row' j ;;
                  cost_of x)
               (seq 0 (length row)))
       (seq 0 (length (_directions self))).

(** A matrix entry of [tsr.py] as a decoded value. *)
Definition of_pyval (w : option Z) : json :=
  match w with
  | Some z => JInt z
  | None => JNone
  end.

(** The request for the way from store [i] to store [j]. *)
Definition route_request (i j : nat) : request :=
  mk_request (nth i _ADDRESSES "") (nth j _ADDRESSES "") "driving" false.

(** The pairs [i < j] of [n] stores with [i] among the first [m], row by
    row. *)
Definition pairs_of_rows (n m : nat) : list (nat * nat) :=
  flat_map (fun i => map (fun j => (i, j)) (seq (S i) (n - S i))) (seq 0 m).

(** All the pairs [i < j] of [n] stores. *)
Definition store_pairs (n : nat) : list (nat * nat) := pairs_of_rows n n.

(** The request for a pair. *)
Definition request_for (p : nat * nat) : request :=
  route_request (fst p) (snd p).

(** What one request comes to: the leg of the answer, or what was raised
    by the client or by the subscripts. *)
Definition answered (net : maps) (k : nat) (q : request) : attempt json :=
  match directions net k q with
  | Done result_ =>
      match first_leg result_ with
      | Ok leg => Done leg
      | Raise e => Fails (Builtin e)
      end
  | Fails e => Fails e
  end.

(** Requests sent one after another until one fails. *)
Fixpoint serve (net : maps) (qs : list request) (sent : list request)
  : attempt (list json) * list request :=
  match qs with
  | [] => (Done [], sent)
  | q :: qs' =>
      match answered net (length sent) q with
      | Done leg =>
          match serve net qs' (sent ++ [q]) with
          | (Done legs, sent') => (Done (leg :: legs), sent')
          | (Fails e, sent') => (Fails e, sent')
          end
      | Fails e => (Fails e, sent ++ [q])
      end
  end.

End Sawayaka.

(** Services for the examples. *)

Module SawayakaExamples.

Import Sawayaka.
Import String.StringSyntax.
Local Open Scope string_scope.

(** An answer with one route of one leg that takes ten minutes. *)
Definition ten_minutes : json :=
  JList
    [JDict
       [("legs",
         JList
           [JDict
              [("distance", JDict [("text", JStr "7.4 km"); ("value", JInt 7400)]);
               ("duration", JDict [("text", JStr "10 mins"); ("value", JInt 600)]);
               ("steps", JList [])]]);
        ("summary", JStr "")]].

(** A service that answers every request with [ten_minutes]. *)
Definition steady : maps :=
  mk_maps (fun _ => Done tt) (fun _ _ => Done ten_minutes).

(** A service that finds no route when it is called for the [n]-th time. *)
Definition no_route_at (n : nat) : maps :=
  mk_maps (fun _ => Done tt)
          (fun k _ => if Nat.eqb k n then Done (JList []) else Done ten_minutes).

(** A service that refuses the key. *)
Definition refusing : maps :=
  mk_maps (fun _ => Fails (Builtin ValueError)) (fun _ _ => Done ten_minutes).

End SawayakaExamples.

(* ================================================================== *)
(** * Lemmas and theorems                                               *)
(* ================================================================== *)

(* ================================================================== *)
(** * Edge lists: adjacency, connection, paths                          *)
(* ================================================================== *)

Lemma adj_sym E u v : adj E u v -> adj E v u.
Proof. unfold adj; tauto. Qed.

Lemma adj_incl E E' u v : incl E E' -> adj E u v -> adj E' u v.
Proof. unfold adj, incl; intros H [K|K]; auto. Qed.

Lemma conn_trans E u v w : conn E u v -> conn E v w -> conn E u w.
Proof.
  induction 1; intros; auto. eapply conn_step; eauto.
Qed.

Lemma conn_adj E u v : adj E u v -> conn E u v.
Proof. intros; eapply conn_step; eauto; constructor. Qed.

Lemma conn_sym E u v : conn E u v -> conn E v u.
Proof.
  induction 1; [constructor|].
  eapply conn_trans; [eassumption|]. apply conn_adj, adj_sym; assumption.
Qed.

Lemma conn_mono (E E' : list edge) u v :
  (forall x y, adj E x y -> conn E' x y) -> conn E u v -> conn E' u v.
Proof.
  intros H; induction 1; [constructor|].
  eapply conn_trans; [apply H; eassumption | assumption].
Qed.

Lemma conn_incl E E' u v : incl E E' -> conn E u v -> conn E' u v.
Proof.
  intros H; apply conn_mono; intros; apply conn_adj; eapply adj_incl; eauto.
Qed.

Lemma path_conn E u p v : path E u p v -> conn E u v.
Proof. induction 1; [constructor | eapply conn_step; eauto]. Qed.

Lemma path_head E u p v : path E u p v -> exists q, p = u :: q.
Proof. destruct 1; eauto. Qed.

Lemma path_in_last E u p v : path E u p v -> In v p.
Proof. induction 1; simpl; auto. Qed.

Lemma path_suffix E u p v x p1 p2 :
  path E u p v -> p = p1 ++ x :: p2 -> path E x (x :: p2) v.
Proof.
  intros H; revert p1; induction H; intros p1 Hp.
  - destruct p1 as [|a p1]; simpl in Hp.
    + inversion Hp; subst. constructor.
    + inversion Hp as [[Ha Hb]]. destruct p1; discriminate.
  - destruct p1 as [|a p1]; simpl in Hp; inversion Hp; subst.
    + econstructor; eauto.
    + eapply IHpath; eauto.
Qed.

(** Every connection is realised by a path without repeated vertices. *)
Lemma conn_simple_path E u v :
  conn E u v -> exists p, path E u p v /\ NoDup p.
Proof.
  induction 1 as [v | u x v Hadj Hc [p [Hp Hnd]]].
  - exists [v]; split; [constructor | repeat constructor; simpl; tauto].
  - destruct (in_dec Nat.eq_dec u p) as [Hin | Hout].
    + apply in_split in Hin. destruct Hin as [p1 [p2 Heq]].
      exists (u :: p2). split.
      * eapply path_suffix; eauto.
      * subst p. apply NoDup_app_remove_l in Hnd. assumption.
    + exists (u :: p). split; [econstructor; eauto | constructor; auto].
Qed.

Lemma same_uedge_spec a b x y :
  same_uedge a b x y = true <-> (a = x /\ b = y) \/ (a = y /\ b = x).
Proof.
  unfold same_uedge.
  rewrite orb_true_iff, !andb_true_iff, !Nat.eqb_eq. tauto.
Qed.

Lemma adj_remove_uedge a b E x y :
  adj E x y -> same_uedge a b x y = false -> adj (remove_uedge a b E) x y.
Proof.
  intros Hadj Hne. induction E as [|[p q] E IH]; simpl.
  - destruct Hadj as [[]|[]].
  - destruct (same_uedge a b p q) eqn:Hs.
    + apply same_uedge_spec in Hs.
      assert (Hf : ~ ((a = x /\ b = y) \/ (a = y /\ b = x))).
      { rewrite <- same_uedge_spec. congruence. }
      destruct Hadj as [[H|H]|[H|H]].
      * inversion H; subst. exfalso; apply Hf; tauto.
      * left; assumption.
      * inversion H; subst. exfalso; apply Hf; tauto.
      * right; assumption.
    + destruct Hadj as [[H|H]|[H|H]].
      * left; left; assumption.
      * destruct IH as [K|K]; [left; assumption | left; right; assumption
                               | right; right; assumption].
      * right; left; assumption.
      * destruct IH as [K|K]; [right; assumption | left; right; assumption
                               | right; right; assumption].
Qed.

Lemma remove_uedge_incl a b E : incl (remove_uedge a b E) E.
Proof.
  induction E as [|[p q] E IH]; simpl; [apply incl_refl|].
  destruct (same_uedge a b p q).
  - apply incl_tl, incl_refl.
  - apply incl_cons; [left; reflexivity | apply incl_tl; assumption].
Qed.

Lemma remove_uedge_length a b E :
  adj E a b -> S (length (remove_uedge a b E)) = length E.
Proof.
  induction E as [|[p q] E IH]; simpl; intros Hadj.
  - destruct Hadj as [[]|[]].
  - destruct (same_uedge a b p q) eqn:Hs; [reflexivity|].
    simpl. f_equal. apply IH.
    assert (Hf : ~ ((a = p /\ b = q) \/ (a = q /\ b = p))).
    { rewrite <- same_uedge_spec. congruence. }
    destruct Hadj as [[H|H]|[H|H]].
    + inversion H; subst. exfalso; apply Hf; tauto.
    + left; assumption.
    + inversion H; subst. exfalso; apply Hf; tauto.
    + right; assumption.
Qed.

(** A path that avoids [a] survives the removal of an edge at [a]. *)
Lemma path_avoid_remove E a b u p v :
  path E u p v -> ~ In a p -> path (remove_uedge a b E) u p v.
Proof.
  induction 1; intros Hn; [constructor|].
  econstructor.
  - apply adj_remove_uedge; [eassumption|].
    destruct (same_uedge a b u x) eqn:Hs; [|reflexivity].
    apply same_uedge_spec in Hs. exfalso.
    destruct (path_head H0) as [q Hq]. subst p.
    simpl in Hn. destruct Hs as [[? ?]|[? ?]]; subst; tauto.
  - apply IHpath. simpl in Hn; tauto.
Qed.

(** A simple path leaving a set [S] crosses its boundary on an edge whose
    removal keeps both halves of the path. *)
Lemma path_crossing E (S : list vertex) u p v :
  path E u p v -> NoDup p -> In u S -> ~ In v S ->
  exists a b, In a p /\ In b p /\ adj E a b /\ In a S /\ ~ In b S /\
              conn (remove_uedge a b E) u a /\ conn (remove_uedge a b E) b v.
Proof.
  induction 1 as [v | u x p v Hadj Hp IH]; intros Hnd Hu Hv.
  - contradiction.
  - inversion Hnd as [|? ? Hnotin Hnd']; subst.
    destruct (path_head Hp) as [q Hq].
    destruct (in_dec Nat.eq_dec x S) as [Hx | Hx].
    + destruct (IH Hnd' Hx Hv) as [a [b [Ha [Hb [Hab [HaS [HbS [C1 C2]]]]]]]].
      exists a, b. repeat split; simpl; auto.
      eapply conn_step; [|exact C1].
      apply adj_remove_uedge; [assumption|].
      destruct (same_uedge a b u x) eqn:Hs; [|reflexivity].
      apply same_uedge_spec in Hs. exfalso.
      destruct Hs as [[? ?]|[? ?]]; subst; tauto.
    + exists u, x. repeat split; simpl; auto.
      * right. subst p. left; reflexivity.
      * constructor.
      * eapply path_conn. apply path_avoid_remove; eassumption.
Qed.

Lemma conn_endpoint E x y : conn E x y -> x = y \/ exists z, adj E z y.
Proof.
  induction 1 as [v | u x v Hadj Hc IH]; [left; reflexivity|].
  right. destruct IH as [->|[z Hz]]; eauto.
Qed.

(** A pendant edge [(u, v)], with [v] met by no other edge, connects nothing
    but [v]: a walk through it folds back onto [u]. *)
Lemma conn_pendant E u v x y :
  (forall z, ~ adj E z v) -> u <> v ->
  conn (E ++ [(u, v)]) x y ->
  conn E (if Nat.eqb x v then u else x) (if Nat.eqb y v then u else y).
Proof.
  intros Hleaf Huv. induction 1 as [z | a b c Hadj Hc IH]; [constructor|].
  eapply conn_trans; [|exact IH]. clear IH Hc.
  assert (Hcase : adj E a b \/ (a = u /\ b = v) \/ (a = v /\ b = u)).
  { destruct Hadj as [H|H]; apply in_app_or in H; destruct H as [H|H].
    - left; left; assumption.
    - destruct H as [H|[]]; inversion H; subst; auto.
    - left; right; assumption.
    - destruct H as [H|[]]; inversion H; subst; auto. }
  destruct Hcase as [H | [[-> ->] | [-> ->]]].
  - assert (a <> v) by (intros ->; apply adj_sym in H; eapply Hleaf; eauto).
    assert (b <> v) by (intros ->; eapply Hleaf; eauto).
    apply Nat.eqb_neq in H0, H1. rewrite H0, H1. apply conn_adj; assumption.
  - rewrite Nat.eqb_refl. apply Nat.eqb_neq in Huv. rewrite Huv. constructor.
  - rewrite Nat.eqb_refl. apply Nat.eqb_neq in Huv. rewrite Huv. constructor.
Qed.

Lemma norm_eq_iff x y a b :
  norm (x, y) = norm (a, b) <-> (x = a /\ y = b) \/ (x = b /\ y = a).
Proof.
  unfold norm; simpl. split.
  - intros H. inversion H. lia.
  - intros [[-> ->]|[-> ->]]; [reflexivity|].
    rewrite Nat.min_comm, Nat.max_comm. reflexivity.
Qed.

Lemma in_map_norm E x y : In (norm (x, y)) (map norm E) <-> adj E x y.
Proof.
  rewrite in_map_iff. split.
  - intros [[a b] [Heq Hin]]. apply norm_eq_iff in Heq.
    destruct Heq as [[-> ->]|[-> ->]]; [left | right]; assumption.
  - intros [H|H]; [exists (x, y) | exists (y, x)]; split; auto.
    apply norm_eq_iff; auto.
Qed.

Lemma edge_eq_dec (a b : edge) : {a = b} + {a <> b}.
Proof. decide equality; apply Nat.eq_dec. Qed.

(** The vocabulary of spanning trees over a weight function [wt] and a
    vertex set [V]. *)

Section Trees.

Variable wt : vertex -> vertex -> Z.
Hypothesis wt_sym : forall u v, wt u v = wt v u.

Variable V : list vertex.
Hypothesis V_nodup : NoDup V.

Local Abbreviation weight := (weight wt).
Local Abbreviation spanning := (spanning V).
Local Abbreviation edges_within := (edges_within V).
Local Abbreviation spanning_tree := (spanning_tree V).
Local Abbreviation growth := (growth wt V).

Lemma weight_app E1 E2 : weight (E1 ++ E2) = (weight E1 + weight E2)%Z.
Proof. induction E1; simpl; lia. Qed.

Lemma weight_perm E1 E2 : Permutation E1 E2 -> weight E1 = weight E2.
Proof. induction 1; simpl; lia. Qed.

Lemma weight_norm E : weight (map norm E) = weight E.
Proof.
  induction E as [|[x y] E IH]; simpl; [reflexivity|].
  rewrite IH. f_equal.
  destruct (Nat.le_ge_cases x y).
  - rewrite Nat.min_l, Nat.max_r by lia. reflexivity.
  - rewrite Nat.min_r, Nat.max_l by lia. apply wt_sym.
Qed.

Lemma weight_remove_uedge a b E :
  adj E a b -> (weight (remove_uedge a b E) + wt a b = weight E)%Z.
Proof.
  induction E as [|[p q] E IH]; simpl; intros Hadj.
  - destruct Hadj as [[]|[]].
  - destruct (same_uedge a b p q) eqn:Hs.
    + apply same_uedge_spec in Hs. destruct Hs as [[-> ->]|[-> ->]].
      * lia.
      * rewrite (wt_sym q p). lia.
    + simpl.
      assert (Hf : ~ ((a = p /\ b = q) \/ (a = q /\ b = p))).
      { rewrite <- same_uedge_spec. congruence. }
      assert (adj E a b).
      { destruct Hadj as [[H|H]|[H|H]].
        - inversion H; subst. exfalso; apply Hf; tauto.
        - left; assumption.
        - inversion H; subst. exfalso; apply Hf; tauto.
        - right; assumption. }
      specialize (IH H). lia.
Qed.

Lemma growth_length vis out : growth vis out -> length vis = S (length out).
Proof.
  induction 1; simpl; [reflexivity|]. rewrite length_app; simpl. lia.
Qed.

Lemma growth_vis_in_V vis out : growth vis out -> incl vis V.
Proof.
  induction 1; intros x Hx.
  - destruct Hx as [<-|[]]; assumption.
  - destruct Hx as [<-|Hx]; auto.
Qed.

Lemma growth_nodup vis out : growth vis out -> NoDup vis.
Proof.
  induction 1; constructor; auto. constructor.
Qed.

Lemma growth_ends vis out :
  growth vis out -> forall x y, In (x, y) out -> In x vis /\ In y vis /\ x <> y.
Proof.
  induction 1; intros x y Hin; [destruct Hin|].
  apply in_app_or in Hin. destruct Hin as [Hin|[Heq|[]]].
  - destruct (IHgrowth _ _ Hin) as [? [? ?]]. simpl; auto.
  - inversion Heq; subst. simpl. repeat split; auto. congruence.
Qed.

Lemma growth_conn vis out :
  growth vis out -> forall x y, In x vis -> In y vis -> conn out x y.
Proof.
  induction 1; intros x y Hx Hy.
  - destruct Hx as [<-|[]]. destruct Hy as [<-|[]]. constructor.
  - assert (Hv : forall z, In z vis -> conn (out ++ [(u, v)]) z v).
    { intros z Hz. eapply conn_trans.
      - eapply conn_incl; [|apply IHgrowth; [exact Hz | exact H0]].
        apply incl_appl, incl_refl.
      - apply conn_adj. left. apply in_or_app. right. left. reflexivity. }
    destruct Hx as [<-|Hx], Hy as [<-|Hy].
    + constructor.
    + apply conn_sym; auto.
    + auto.
    + eapply conn_incl; [|apply IHgrowth; eassumption].
      apply incl_appl, incl_refl.
Qed.

Lemma growth_norm_nodup vis out : growth vis out -> NoDup (map norm out).
Proof.
  induction 1; simpl; [constructor|].
  rewrite map_app; simpl.
  apply NoDup_app; [assumption | repeat constructor; simpl; tauto |].
  intros e Hin [<-|[]].
  apply in_map_norm in Hin.
  destruct Hin as [Hin|Hin]; apply (growth_ends H) in Hin; tauto.
Qed.

Lemma growth_acyclic vis out : growth vis out -> acyclic out.
Proof.
  induction 1 as [r Hr | vis out u v Hg IH Hu Hv HvV Hmin];
    intros E1 a b E2 Heq.
  - destruct E1; discriminate.
  - assert (Hleaf : forall E', incl E' out -> forall z, ~ adj E' z v).
    { intros E' Hi z Hz. apply (adj_incl Hi) in Hz.
      destruct Hz as [Hz|Hz]; apply (growth_ends Hg) in Hz; tauto. }
    assert (Huv : u <> v) by congruence.
    destruct E2 as [|e2 E2] using rev_ind.
    + apply app_inj_tail in Heq. destruct Heq as [<- Heq].
      inversion Heq; subst a b. rewrite app_nil_r. intros Hc.
      destruct (conn_endpoint Hc) as [?|[z Hz]]; [congruence|].
      eapply Hleaf; [apply incl_refl | eassumption].
    + clear IHE2. rewrite app_comm_cons, app_assoc in Heq.
      apply app_inj_tail in Heq. destruct Heq as [Hout <-].
      rewrite app_assoc. intros Hc.
      assert (Hab : In a vis /\ In b vis).
      { assert (In (a, b) out) by (rewrite Hout; apply in_elt).
        apply (growth_ends Hg) in H. tauto. }
      apply conn_pendant in Hc; auto.
      * assert (Ha : a <> v) by (intros ->; tauto).
        assert (Hb : b <> v) by (intros ->; tauto).
        apply Nat.eqb_neq in Ha, Hb. rewrite Ha, Hb in Hc.
        eapply IH; eassumption.
      * apply Hleaf. rewrite Hout. intros e He.
        apply in_app_or in He. apply in_or_app.
        destruct He; [left | right; right]; assumption.
Qed.

(** The exchange step: a connected edge list that reaches across the
    boundary of [S] can trade one of its boundary edges for any given
    boundary edge [(u, v)] and stay connected. *)
Lemma exchange M (S : list vertex) u v :
  spanning M -> In u S -> ~ In v S -> In u V -> In v V ->
  exists a b, adj M a b /\ In a S /\ ~ In b S /\
              spanning ((u, v) :: remove_uedge a b M).
Proof.
  intros Hsp Hu Hv HuV HvV.
  destruct (conn_simple_path (Hsp u v HuV HvV)) as [p [Hp Hnd]].
  destruct (path_crossing S Hp Hnd Hu Hv)
    as [a [b [_ [_ [Hab [HaS [HbS [C1 C2]]]]]]]].
  exists a, b. repeat split; auto.
  set (M' := (u, v) :: remove_uedge a b M).
  assert (Hab' : conn M' a b).
  { eapply conn_trans; [apply conn_sym; eapply conn_incl; [|exact C1];
                        apply incl_tl, incl_refl|].
    eapply conn_step; [left; left; reflexivity|].
    apply conn_sym. eapply conn_incl; [|exact C2]. apply incl_tl, incl_refl. }
  intros x y Hx Hy. eapply conn_mono; [|apply Hsp; eassumption].
  intros s t Hst. destruct (same_uedge a b s t) eqn:Hs.
  - apply same_uedge_spec in Hs. destruct Hs as [[<- <-]|[<- <-]].
    + exact Hab'.
    + apply conn_sym; exact Hab'.
  - apply conn_adj. eapply adj_incl; [apply incl_tl, incl_refl|].
    apply adj_remove_uedge; assumption.
Qed.

(** Any spanning tree can be reshaped, without gaining weight, into one
    that contains the edges grown so far. *)
Lemma growth_exchange vis out :
  growth vis out ->
  forall T, spanning_tree T ->
  exists M, length M = length T /\ edges_within M /\ spanning M /\
            (forall x y, In (x, y) out -> adj M x y) /\
            (weight M <= weight T)%Z.
Proof.
  induction 1 as [r Hr | vis out u v Hg IH Hu Hv HvV Hmin]; intros T HT.
  - exists T. destruct HT as [? [? ?]].
    split; [reflexivity|]. split; [assumption|]. split; [assumption|].
    split; [intros x y []|lia].
  - destruct (IH T HT) as [M [Hlen [Hwi [Hsp [Hsub Hw]]]]].
    assert (HuV : In u V) by (eapply growth_vis_in_V; eassumption).
    destruct (in_dec edge_eq_dec (norm (u, v)) (map norm M))
      as [Hin | Hnin].
    + exists M.
      split; [assumption|]. split; [assumption|]. split; [assumption|].
      split; [|assumption].
      intros x y Hxy. apply in_app_or in Hxy. destruct Hxy as [Hxy|[Heq|[]]].
      * auto.
      * inversion Heq; subst. apply in_map_norm; assumption.
    + destruct (@exchange M vis u v Hsp Hu Hv HuV HvV)
        as [a [b [Hab [HaS [HbS Hsp']]]]].
      exists ((u, v) :: remove_uedge a b M).
      assert (HbV : In b V).
      { destruct Hab as [K|K]; apply Hwi in K; tauto. }
      split; [|split; [|split; [|split]]].
      * simpl. rewrite (remove_uedge_length Hab). assumption.
      * intros x y [Heq|Hin].
        -- inversion Heq; subst. repeat split; auto. congruence.
        -- apply remove_uedge_incl in Hin. apply Hwi in Hin. assumption.
      * exact Hsp'.
      * intros x y Hxy. apply in_app_or in Hxy.
        destruct Hxy as [Hxy|[Heq|[]]].
        -- eapply adj_incl; [apply incl_tl, incl_refl|].
           apply adj_remove_uedge; [auto|].
           destruct (same_uedge a b x y) eqn:Hs; [|reflexivity].
           apply same_uedge_spec in Hs.
           apply (growth_ends Hg) in Hxy.
           exfalso. destruct Hs as [[? ?]|[? ?]]; subst; tauto.
        -- inversion Heq; subst. left; left; reflexivity.
      * simpl. pose proof (weight_remove_uedge Hab).
        pose proof (Hmin a b HaS HbV HbS). lia.
Qed.

(** Once every vertex is visited, the grown edges are a spanning tree of
    least weight. *)
Theorem growth_minimum vis out :
  growth vis out -> incl V vis ->
  spanning_tree out /\ acyclic out /\
  forall T, spanning_tree T -> (weight out <= weight T)%Z.
Proof.
  intros Hg Hall.
  assert (Hlen : length out + 1 = length V).
  { pose proof (growth_length Hg).
    pose proof (NoDup_incl_length V_nodup Hall).
    pose proof (NoDup_incl_length (growth_nodup Hg) (growth_vis_in_V Hg)).
    lia. }
  split; [|split].
  - split; [assumption|]. split.
    + intros x y Hxy. destruct (growth_ends Hg _ _ Hxy) as [Hx [Hy Hne]].
      repeat split; auto; eapply growth_vis_in_V; eauto.
    + intros x y Hx Hy. eapply growth_conn; eauto.
  - eapply growth_acyclic; eassumption.
  - intros T HT.
    destruct (growth_exchange Hg HT) as [M [HlenM [_ [_ [Hsub Hw]]]]].
    assert (HP : Permutation (map norm out) (map norm M)).
    { apply NoDup_Permutation_bis.
      - eapply growth_norm_nodup; eassumption.
      - rewrite !length_map. destruct HT as [HlT _]. lia.
      - intros [x y] Hin. apply in_map_iff in Hin.
        destruct Hin as [[a b] [Heq Hin]]. rewrite <- Heq.
        apply in_map_norm. auto. }
    rewrite <- (weight_norm out), (weight_perm HP), weight_norm. assumption.
Qed.

End Trees.

(* ================================================================== *)
(** * Graph objects as edge lists                                       *)
(* ================================================================== *)

Lemma memb_In x l : memb x l = true <-> In x l.
Proof.
  unfold memb. rewrite existsb_exists. split.
  - intros [y [Hy He]]. apply Nat.eqb_eq in He. subst; assumption.
  - intros H. exists x. split; [assumption | apply Nat.eqb_refl].
Qed.

Lemma memb_false x l : memb x l = false <-> ~ In x l.
Proof.
  rewrite <- memb_In. destruct (memb x l); split; congruence.
Qed.

Lemma has_uedge_spec u v es :
  has_uedge u v es = true <-> adj (ends es) u v.
Proof.
  unfold has_uedge, adj, ends. rewrite existsb_exists. split.
  - intros [[[a b] w] [Hin Hs]]. apply same_uedge_spec in Hs.
    destruct Hs as [[E1 E2]|[E1 E2]]; subst; [left | right];
      apply in_map_iff; eexists; (split; [|eassumption]); reflexivity.
  - intros [H|H]; apply in_map_iff in H; destruct H as [[[a b] w] [Heq Hin]];
      simpl in Heq; inversion Heq; subst; eexists; (split; [eassumption|]);
      apply same_uedge_spec; auto.
Qed.

Lemma adj_of_spec es u v w :
  In (v, w) (adj_of es u) <-> In (u, v, w) es \/ In (v, u, w) es.
Proof.
  induction es as [|[[a b] x] es IH]; simpl; [tauto|].
  destruct (Nat.eqb_spec a u) as [-> |Hau];
    [|destruct (Nat.eqb_spec b u) as [-> |Hbu]]; simpl; rewrite IH;
    split; intros H;
    repeat match goal with
      | H : _ \/ _ |- _ => destruct H
      | H : (_, _) = (_, _) |- _ => inversion H; clear H; subst
      end; auto; try congruence.
Qed.

Lemma adj_of_length_le es u : length (adj_of es u) <= length es.
Proof.
  induction es as [|[[a b] x] es IH]; simpl; [lia|].
  destruct (Nat.eqb a u); [simpl; lia|]. destruct (Nat.eqb b u); simpl; lia.
Qed.

Lemma gnodes_add_node u G x :
  In x (gnodes (add_node u G)) <-> In x (gnodes G) \/ x = u.
Proof.
  unfold add_node. destruct (memb u (gnodes G)) eqn:Hm; simpl.
  - apply memb_In in Hm. split; [auto | intros [H| ->]; auto].
  - rewrite in_app_iff. simpl. split; intros [H|H]; auto.
    destruct H as [<-|[]]; auto.
Qed.

Lemma gedges_add_node u G : gedges (add_node u G) = gedges G.
Proof. unfold add_node. destruct (memb u (gnodes G)); reflexivity. Qed.

Lemma nodup_add_node u G : NoDup (gnodes G) -> NoDup (gnodes (add_node u G)).
Proof.
  intros H. unfold add_node. destruct (memb u (gnodes G)) eqn:Hm; simpl; auto.
  apply memb_false in Hm. apply NoDup_app; auto.
  - repeat constructor; simpl; tauto.
  - intros x Hx [<-|[]]. contradiction.
Qed.

Lemma gnodes_add_edge u v w G x :
  In x (gnodes (add_edge u v w G)) <-> In x (gnodes G) \/ x = u \/ x = v.
Proof.
  unfold add_edge.
  destruct (has_uedge u v (gedges (add_node v (add_node u G)))); simpl;
    rewrite !gnodes_add_node; tauto.
Qed.

Lemma nodup_add_edge u v w G :
  NoDup (gnodes G) -> NoDup (gnodes (add_edge u v w G)).
Proof.
  intros H. unfold add_edge.
  destruct (has_uedge u v (gedges (add_node v (add_node u G)))); simpl;
    apply nodup_add_node, nodup_add_node; assumption.
Qed.

Lemma gedges_add_edge_fresh u v w G :
  ~ adj (ends (gedges G)) u v ->
  gedges (add_edge u v w G) = gedges G ++ [(u, v, w)].
Proof.
  intros H. unfold add_edge. rewrite !gedges_add_node.
  destruct (has_uedge u v (gedges G)) eqn:Hh; [|reflexivity].
  apply has_uedge_spec in Hh. contradiction.
Qed.

Lemma gnodes_add_edges es G x :
  In x (gnodes (add_edges es G)) <->
  In x (gnodes G) \/ exists u v w, In (u, v, w) es /\ (x = u \/ x = v).
Proof.
  revert G. induction es as [|[[a b] d] es IH]; intros G; simpl.
  - split; [auto | intros [H|[u [v [w [[] _]]]]]; auto].
  - unfold add_edges in IH. rewrite IH, gnodes_add_edge. split.
    + intros [[H|[-> | ->]]|[u [v [w [Hin Hx]]]]]; auto.
      * right. exists a, b, d. auto.
      * right. exists a, b, d. auto.
      * right. exists u, v, w. auto.
    + intros [H|[u [v [w [[Heq|Hin] Hx]]]]]; auto.
      * inversion Heq; subst. left. tauto.
      * right. exists u, v, w. auto.
Qed.

Lemma nodup_add_edges es G :
  NoDup (gnodes G) -> NoDup (gnodes (add_edges es G)).
Proof.
  revert G. induction es as [|[[a b] d] es IH]; intros G H; simpl; auto.
  apply IH. apply nodup_add_edge. assumption.
Qed.

(** Adding edges no two of which join the same pair of vertices appends
    them to the edge list. *)
Lemma gedges_add_edges_fresh es G :
  NoDup (map norm (ends (gedges G ++ es))) ->
  gedges (add_edges es G) = gedges G ++ es.
Proof.
  revert G. induction es as [|[[a b] d] es IH]; intros G Hnd; simpl.
  - rewrite app_nil_r. reflexivity.
  - assert (Hfresh : ~ adj (ends (gedges G)) a b).
    { intros Hadj. apply in_map_norm in Hadj.
      unfold ends in Hnd. rewrite !map_app in Hnd. simpl in Hnd.
      apply NoDup_remove_2 in Hnd. apply Hnd.
      apply in_or_app. left. exact Hadj. }
    unfold add_edges in IH. rewrite IH.
    + rewrite (gedges_add_edge_fresh _ _ Hfresh), <- app_assoc. reflexivity.
    + rewrite (gedges_add_edge_fresh _ _ Hfresh), <- app_assoc. exact Hnd.
Qed.

(* ================================================================== *)
(** * The complete graph of a cost matrix                               *)
(* ================================================================== *)

Lemma wt_sym cm u v : wt cm u v = wt cm v u.
Proof. unfold wt, upper. rewrite Nat.max_comm, Nat.min_comm. reflexivity. Qed.

Lemma fold_left_flat_map {A B C : Type} (f : C -> B -> C) (g : A -> list B)
    (l : list A) (c : C) :
  fold_left f (flat_map g l) c = fold_left (fun c a => fold_left f (g a) c) l c.
Proof.
  revert c. induction l as [|a l IH]; intros c; simpl; [reflexivity|].
  rewrite fold_left_app. apply IH.
Qed.

Lemma fold_left_extensional {A B : Type} (f g : A -> B -> A) (l : list B) (a : A) :
  (forall x y, f x y = g x y) -> fold_left f l a = fold_left g l a.
Proof.
  intros H. revert a. induction l as [|b l IH]; intros a; simpl; [reflexivity|].
  rewrite H. apply IH.
Qed.

Lemma fold_left_over_map {A B C : Type} (f : C -> B -> C) (g : A -> B)
    (l : list A) (c : C) :
  fold_left f (map g l) c = fold_left (fun c a => f c (g a)) l c.
Proof.
  revert c. induction l as [|a l IH]; intros c; simpl; [reflexivity|]. apply IH.
Qed.

Lemma create_weighted_graph_fold cm :
  _create_weighted_graph cm = add_edges (upper_pairs cm) empty_graph.
Proof.
  unfold _create_weighted_graph, add_edges, upper_pairs.
  rewrite fold_left_flat_map.
  apply fold_left_extensional. intros G i.
  symmetry. apply fold_left_over_map.
Qed.

Lemma in_upper_pairs N cm u v w :
  square N cm ->
  (In (u, v, w) (upper_pairs cm) <->
   u < v /\ v < N /\ w = nth v (nth u cm []) None).
Proof.
  intros [Hlen Hrows]. unfold upper_pairs. rewrite in_flat_map. split.
  - intros [i [Hi Hin]]. apply in_seq in Hi. apply in_map_iff in Hin.
    destruct Hin as [j [Heq Hj]]. inversion Heq; subst. apply in_seq in Hj.
    assert (length (nth u cm []) = length cm).
    { apply Hrows. apply nth_In. lia. }
    repeat split; lia.
  - intros [Huv [HvN ->]]. exists u. split; [apply in_seq; lia|].
    apply in_map_iff. exists v. split; [reflexivity|].
    assert (length (nth u cm []) = N).
    { apply Hrows. apply nth_In. lia. }
    apply in_seq. lia.
Qed.

Lemma NoDup_flat_map_pairs {A B C : Type} (f : A -> list B) (g : A -> B -> C)
    (l : list A) :
  NoDup l -> (forall a, NoDup (f a)) ->
  (forall a b a' b', g a b = g a' b' -> a = a' /\ b = b') ->
  NoDup (flat_map (fun a => map (g a) (f a)) l).
Proof.
  intros Hl Hf Hg. induction Hl as [|a l Hnotin Hl IH]; simpl; [constructor|].
  apply NoDup_app.
  - apply Finite.Injective_map_NoDup; [|apply Hf].
    intros b b' Heq. apply Hg in Heq. tauto.
  - exact IH.
  - intros c Hc Hc'. apply in_map_iff in Hc. destruct Hc as [b [<- Hb]].
    apply in_flat_map in Hc'. destruct Hc' as [a' [Ha' Hin]].
    apply in_map_iff in Hin. destruct Hin as [b' [Heq _]].
    apply Hg in Heq. destruct Heq as [-> _]. contradiction.
Qed.

Lemma upper_pairs_norm_nodup cm : NoDup (map norm (ends (upper_pairs cm))).
Proof.
  unfold ends, upper_pairs. rewrite map_map.
  rewrite flat_map_concat_map, concat_map, map_map, <- flat_map_concat_map.
  erewrite flat_map_ext; [|intros i; rewrite map_map; reflexivity].
  assert (Heq : forall l,
    flat_map (fun i => map (fun j => norm (strip (i, j, nth j (nth i cm []) None)))
                           (seq (S i) (length (nth i cm []) - S i))) l =
    flat_map (fun i => map (fun j => (i, j))
                           (seq (S i) (length (nth i cm []) - S i))) l).
  { intros l. apply flat_map_ext. intros i. apply map_ext_in. intros j Hj.
    apply in_seq in Hj. unfold norm, strip; simpl.
    rewrite Nat.min_l, Nat.max_r by lia. reflexivity. }
  rewrite Heq.
  apply (NoDup_flat_map_pairs
           (fun i => seq (S i) (length (nth i cm []) - S i)) (fun i j => (i, j))).
  - apply seq_NoDup.
  - intros; apply seq_NoDup.
  - intros a b a' b' H. inversion H; auto.
Qed.

Lemma gedges_create cm :
  gedges (_create_weighted_graph cm) = upper_pairs cm.
Proof.
  rewrite create_weighted_graph_fold, gedges_add_edges_fresh; [reflexivity|].
  simpl. apply upper_pairs_norm_nodup.
Qed.

Lemma gnodes_create_nodup cm : NoDup (gnodes (_create_weighted_graph cm)).
Proof.
  rewrite create_weighted_graph_fold. apply nodup_add_edges. constructor.
Qed.

Lemma gnodes_create N cm x :
  square N cm -> 2 <= N ->
  (In x (gnodes (_create_weighted_graph cm)) <-> x < N).
Proof.
  intros Hsq HN. rewrite create_weighted_graph_fold, gnodes_add_edges. simpl.
  split.
  - intros [[]|[u [v [w [Hin Hx]]]]].
    apply (in_upper_pairs _ _ _ Hsq) in Hin. lia.
  - intros Hx. right.
    destruct (Nat.eq_dec x 0) as [->|Hx0].
    + exists 0, 1, (nth 1 (nth 0 cm []) None). split; [|auto].
      apply (in_upper_pairs _ _ _ Hsq). repeat split; lia.
    + exists 0, x, (nth x (nth 0 cm []) None). split; [|auto].
      apply (in_upper_pairs _ _ _ Hsq). repeat split; lia.
Qed.

Lemma upper_finite N cm u v :
  finite_weights N cm -> u < N -> v < N -> u <> v ->
  upper cm u v = Some (wt cm u v).
Proof.
  intros Hf Hu Hv Hne. unfold wt.
  destruct (upper cm u v) eqn:Hup; [reflexivity|].
  unfold upper in Hup.
  destruct (Hf (Nat.min u v) (Nat.max u v)) as [z Hz]; try lia.
  congruence.
Qed.

(** The adjacency of the complete graph: every other vertex, weighted by
    the upper triangle. *)
Lemma get_adj_create N cm u v w :
  square N cm -> finite_weights N cm ->
  (In (v, w) (get_adj (_create_weighted_graph cm) u) <->
   u < N /\ v < N /\ u <> v /\ w = Some (wt cm u v)).
Proof.
  intros Hsq Hf. unfold get_adj. rewrite gedges_create, adj_of_spec.
  rewrite !(in_upper_pairs _ _ _ Hsq). split.
  - intros [[Huv [Hv ->]]|[Hvu [Hu ->]]].
    + repeat split; try lia.
      rewrite <- (upper_finite Hf) by lia. unfold upper.
      rewrite Nat.min_l, Nat.max_r by lia. reflexivity.
    + repeat split; try lia.
      rewrite <- (upper_finite Hf) by lia. unfold upper.
      rewrite Nat.min_r, Nat.max_l by lia. reflexivity.
  - intros [Hu [Hv [Hne ->]]].
    rewrite <- (upper_finite Hf) by lia. unfold upper.
    destruct (Nat.lt_ge_cases u v).
    + left. rewrite Nat.min_l, Nat.max_r by lia. repeat split; lia.
    + right. rewrite Nat.min_r, Nat.max_l by lia. repeat split; lia.
Qed.

(* ================================================================== *)
(** * The order of the adjacencies                                      *)
(* ================================================================== *)

Lemma adj_of_app es1 es2 u : adj_of (es1 ++ es2) u = adj_of es1 u ++ adj_of es2 u.
Proof.
  induction es1 as [|[[a b] w] es1 IH]; simpl; [reflexivity|].
  destruct (Nat.eqb a u); [|destruct (Nat.eqb b u)]; simpl; rewrite IH; reflexivity.
Qed.

Lemma adj_row_own (g : nat -> pyval) u js :
  map fst (adj_of (map (fun j => (u, j, g j)) js) u) = js.
Proof.
  induction js as [|j js IH]; simpl; [reflexivity|].
  rewrite Nat.eqb_refl. simpl. rewrite IH. reflexivity.
Qed.

Lemma adj_row_none (g : nat -> pyval) i u js :
  i <> u -> ~ In u js -> adj_of (map (fun j => (i, j, g j)) js) u = [].
Proof.
  intros Hne. induction js as [|j js IH]; simpl; intros Hn; [reflexivity|].
  destruct (Nat.eqb_spec i u); [contradiction|].
  destruct (Nat.eqb_spec j u) as [->|_]; [exfalso; apply Hn; left; reflexivity|].
  apply IH. intros H. apply Hn. right. exact H.
Qed.

Lemma adj_row_other (g : nat -> pyval) i u js :
  i <> u -> NoDup js ->
  map fst (adj_of (map (fun j => (i, j, g j)) js) u) = [] \/
  map fst (adj_of (map (fun j => (i, j, g j)) js) u) = [i].
Proof.
  intros Hne. induction js as [|j js IH]; simpl; intros Hnd; [left; reflexivity|].
  inversion Hnd as [|? ? Hj Hnd']; subst.
  destruct (Nat.eqb_spec i u); [contradiction|].
  destruct (Nat.eqb_spec j u) as [->|_].
  - right. simpl. rewrite adj_row_none by assumption. reflexivity.
  - apply IH. assumption.
Qed.

(** The adjacency of a vertex of the built graph lists its neighbours in
    increasing order. *)
Lemma adj_rows_sorted (len : nat -> nat) (g : nat -> nat -> pyval) u k : forall s,
  let L := map fst (adj_of (flat_map (fun i => map (fun j => (i, j, g i j))
                                                   (seq (S i) (len i)))
                                     (seq s k)) u) in
  (u < s -> L = []) /\ StronglySorted lt L /\ Forall (fun x => s <= x) L.
Proof.
  induction k as [|k IH]; intros s; simpl.
  - split; [reflexivity|]. split; constructor.
  - destruct (IH (S s)) as [Hnil [Hsorted Hbound]].
    rewrite adj_of_app, map_app.
    destruct (Nat.lt_trichotomy s u) as [Hlt|[->|Hgt]].
    + destruct (@adj_row_other (g s) s u (seq (S s) (len s))) as [-> | ->];
        [lia | apply seq_NoDup | |]; simpl.
      * split; [lia|]. split; [exact Hsorted|].
        eapply Forall_impl; [|exact Hbound]. simpl. intros; lia.
      * split; [lia|]. split.
        -- constructor; [exact Hsorted|].
           eapply Forall_impl; [|exact Hbound]. simpl. intros; lia.
        -- constructor; [lia|].
           eapply Forall_impl; [|exact Hbound]. simpl. intros; lia.
    + rewrite adj_row_own, Hnil by lia. rewrite app_nil_r.
      split; [lia|]. split.
      * clear. generalize (S u). induction (len u) as [|n IHn]; intros a; simpl;
          constructor; [apply IHn|].
        apply Forall_forall. intros x Hx. apply in_seq in Hx. lia.
      * apply Forall_forall. intros x Hx. apply in_seq in Hx. lia.
    + rewrite adj_row_none, Hnil; try lia.
      * simpl. split; [reflexivity|]. split; constructor.
      * intros Hin. apply in_seq in Hin. lia.
Qed.

Lemma adj_create_sorted cm u :
  StronglySorted lt (map fst (get_adj (_create_weighted_graph cm) u)).
Proof.
  unfold get_adj. rewrite gedges_create. unfold upper_pairs.
  apply (adj_rows_sorted (fun i => length (nth i cm []) - S i)
           (fun i j => nth j (nth i cm []) None) u (length cm) 0).
Qed.

(** The first node of the built graph is vertex 0. *)
Lemma hd_add_node u G : gnodes G <> [] -> hd 0 (gnodes (add_node u G)) = hd 0 (gnodes G).
Proof.
  intros Hne. unfold add_node. destruct (memb u (gnodes G)); [reflexivity|].
  simpl. destruct (gnodes G); [congruence | reflexivity].
Qed.

Lemma add_node_nonempty u G : gnodes (add_node u G) <> [].
Proof.
  unfold add_node. destruct (memb u (gnodes G)) eqn:Hm.
  - apply memb_In in Hm. intros H. rewrite H in Hm. destruct Hm.
  - simpl. intros H. apply app_eq_nil in H. destruct H; discriminate.
Qed.

Lemma gnodes_add_edge_eq u v w G :
  gnodes (add_edge u v w G) = gnodes (add_node v (add_node u G)).
Proof.
  unfold add_edge.
  destruct (has_uedge u v (gedges (add_node v (add_node u G)))); reflexivity.
Qed.

Lemma hd_add_edges es G :
  gnodes G <> [] -> hd 0 (gnodes (add_edges es G)) = hd 0 (gnodes G).
Proof.
  revert G. induction es as [|[[a b] d] es IH]; intros G Hne; simpl; [reflexivity|].
  unfold add_edges in IH. rewrite IH.
  - rewrite gnodes_add_edge_eq, hd_add_node by apply add_node_nonempty.
    apply hd_add_node. exact Hne.
  - rewrite gnodes_add_edge_eq. apply add_node_nonempty.
Qed.

Lemma hd_create N cm :
  square N cm -> 2 <= N -> hd 0 (gnodes (_create_weighted_graph cm)) = 0.
Proof.
  intros [Hlen Hrows] HN. rewrite create_weighted_graph_fold. unfold upper_pairs.
  destruct cm as [|row cm]; [simpl in Hlen; lia|].
  assert (Hrow : length row = N) by (apply Hrows; left; reflexivity).
  simpl length in *. rewrite <- cons_seq. simpl flat_map. rewrite Hrow.
  destruct N as [|[|N]]; try lia. simpl seq. simpl map. simpl app.
  cbn [add_edges fold_left]. fold (add_edges).
  match goal with
  | |- hd 0 (gnodes (fold_left ?f ?es ?G0)) = 0 =>
      change (hd 0 (gnodes (add_edges es G0)) = 0)
  end.
  rewrite hd_add_edges.
  - rewrite gnodes_add_edge_eq. reflexivity.
  - rewrite gnodes_add_edge_eq. apply add_node_nonempty.
Qed.

(** ** Numbers within the range of a float *)

Lemma isnan_in_range z : in_float_range z = true -> isnan z = Ok false.
Proof.
  unfold in_float_range, isnan, float_of_int.
  destruct (round_to_float z); try discriminate. reflexivity.
Qed.

Lemma isnan_beyond z : in_float_range z = false -> isnan z = Raise OverflowError.
Proof.
  unfold in_float_range, isnan, float_of_int.
  destruct (round_to_float z); try discriminate; reflexivity.
Qed.

Lemma wt_in_float_range N cm u v :
  float_weights N cm -> u < N -> v < N -> in_float_range (wt cm u v) = true.
Proof.
  intros Hf Hu Hv. unfold wt, upper.
  destruct (nth (Nat.max u v) (nth (Nat.min u v) cm []) None) as [z|] eqn:Hz.
  - apply (Hf (Nat.min u v) (Nat.max u v)); [lia | lia | exact Hz].
  - reflexivity.
Qed.

(* ================================================================== *)
(** * Prim's algorithm on a complete graph                              *)
(* ================================================================== *)

Lemma heappop_none h : heappop h = None -> h = [].
Proof.
  destruct h as [|e h]; simpl; [reflexivity|].
  destruct (heappop h) as [[m r]|]; [destruct (entry_le e m)|]; discriminate.
Qed.

Lemma entry_le_wt a b : entry_le a b = true -> (f_wt a <= f_wt b)%Z.
Proof.
  unfold entry_le. rewrite orb_true_iff, andb_true_iff, Z.ltb_lt, Z.eqb_eq. lia.
Qed.

Lemma entry_le_false_wt a b : entry_le a b = false -> (f_wt b <= f_wt a)%Z.
Proof.
  unfold entry_le. rewrite orb_false_iff, Z.ltb_ge. lia.
Qed.

(** [heappop] hands out a lightest entry and keeps all the others. *)
Lemma heappop_some h m r :
  heappop h = Some (m, r) ->
  Permutation h (m :: r) /\ forall x, In x h -> (f_wt m <= f_wt x)%Z.
Proof.
  revert m r. induction h as [|e h IH]; intros m r H; simpl in H; [discriminate|].
  destruct (heappop h) as [[m' r']|] eqn:Hp.
  - destruct (IH _ _ eq_refl) as [Hperm Hmin].
    destruct (entry_le e m') eqn:Hle; inversion H; subst.
    + split; [apply Permutation_refl|].
      intros x [<-|Hx]; [lia|].
      apply entry_le_wt in Hle. specialize (Hmin x Hx). lia.
    + split.
      * eapply perm_trans; [apply perm_skip; exact Hperm | apply perm_swap].
      * intros x [<-|Hx]; [apply entry_le_false_wt; assumption | auto].
  - apply heappop_none in Hp. subst h. inversion H; subst.
    split; [apply Permutation_refl|]. intros x [<-|[]]. lia.
Qed.

Lemma entry_le_refl a : entry_le a a = true.
Proof.
  unfold entry_le. rewrite Z.eqb_refl, Nat.leb_refl. apply orb_true_r.
Qed.

Lemma entry_le_trans a b c :
  entry_le a b = true -> entry_le b c = true -> entry_le a c = true.
Proof.
  unfold entry_le.
  rewrite !orb_true_iff, !andb_true_iff, !Z.ltb_lt, !Z.eqb_eq, !Nat.leb_le. lia.
Qed.

Lemma entry_le_total a b : entry_le a b = false -> entry_le b a = true.
Proof.
  unfold entry_le.
  rewrite orb_false_iff, andb_false_iff, Z.ltb_ge, Z.eqb_neq, Nat.leb_gt.
  rewrite orb_true_iff, andb_true_iff, Z.ltb_lt, Z.eqb_eq, Nat.leb_le. lia.
Qed.

(** [heappop] hands out the entry that is least by weight and, among the
    lightest, by counter. *)
Lemma heappop_least h m r :
  heappop h = Some (m, r) -> forall x, In x h -> entry_le m x = true.
Proof.
  revert m r. induction h as [|e h IH]; intros m r H; simpl in H; [discriminate|].
  destruct (heappop h) as [[m' r']|] eqn:Hp.
  - pose proof (IH _ _ eq_refl) as Hmin.
    destruct (entry_le e m') eqn:Hle; inversion H; subst.
    + intros x [<-|Hx]; [apply entry_le_refl|].
      eapply entry_le_trans; [exact Hle | apply Hmin; exact Hx].
    + intros x [<-|Hx]; [apply entry_le_total; exact Hle | apply Hmin; exact Hx].
  - apply heappop_none in Hp. subst h. inversion H; subst.
    intros x [<-|[]]. apply entry_le_refl.
Qed.

Lemma push_edges_ok u skip a fr c :
  (forall v d, In (v, d) a -> exists z, d = Some z /\ in_float_range z = true) ->
  push_edges u skip a (fr, c) =
  Ok (fr ++ pushed u skip a c, c + length (pushed u skip a c)).
Proof.
  revert fr c. induction a as [|[v d] a IH]; intros fr c Hd; simpl.
  - rewrite app_nil_r, Nat.add_0_r. reflexivity.
  - unfold push_edges in *. cbn [foldM].
    destruct (memb v skip).
    + cbn [bind]. apply IH. intros; eapply Hd; right; eassumption.
    + destruct (Hd v d (or_introl eq_refl)) as [z [-> Hz]].
      cbn [as_number bind]. rewrite (isnan_in_range _ Hz). cbn [bind].
      rewrite IH by (intros; eapply Hd; right; eassumption).
      rewrite <- app_assoc. simpl. f_equal. f_equal. lia.
Qed.

Lemma pushed_length u skip a c : length (pushed u skip a c) <= length a.
Proof.
  revert c. induction a as [|[v d] a IH]; intros c; simpl; [lia|].
  destruct (memb v skip); [specialize (IH c); lia|].
  destruct d; simpl; [specialize (IH (S c)); lia | lia].
Qed.

Lemma pushed_sound u skip a c e :
  In e (pushed u skip a c) ->
  f_u e = u /\ In (f_v e, f_d e) a /\ ~ In (f_v e) skip /\
  f_d e = Some (f_wt e).
Proof.
  revert c. induction a as [|[v d] a IH]; intros c; simpl; [tauto|].
  destruct (memb v skip) eqn:Hm.
  - intros H. destruct (IH _ H) as [? [? [? ?]]]. auto.
  - destruct d as [z|]; [|intros []].
    intros [<-|H]; simpl.
    + apply memb_false in Hm. auto.
    + destruct (IH _ H) as [? [? [? ?]]]. auto.
Qed.

Lemma pushed_complete u skip a c v z :
  (forall v d, In (v, d) a -> d <> None) ->
  In (v, Some z) a -> ~ In v skip ->
  exists e, In e (pushed u skip a c) /\ f_u e = u /\ f_v e = v /\ f_wt e = z.
Proof.
  revert c. induction a as [|[x d] a IH]; intros c Hd Hin Hs; simpl; [destruct Hin|].
  assert (Hd' : forall v d, In (v, d) a -> d <> None)
    by (intros; eapply Hd; right; eassumption).
  destruct Hin as [Heq|Hin].
  - inversion Heq; subst. apply memb_false in Hs. rewrite Hs.
    eexists; split; [left; reflexivity|]. simpl. auto.
  - destruct (memb x skip); [apply IH; auto|].
    destruct d as [z'|]; [|exfalso; eapply Hd; [left; reflexivity | reflexivity]].
    destruct (IH (S c) Hd' Hin Hs) as [e [He ?]].
    exists e. split; [right; assumption | assumption].
Qed.

Lemma remove_v_notin v L : ~ In v L -> remove_v v L = L.
Proof.
  unfold remove_v. induction L as [|y L IH]; simpl; intros Hx; [reflexivity|].
  destruct (Nat.eqb_spec y v) as [->|Hyv]; simpl.
  - exfalso; apply Hx; left; reflexivity.
  - f_equal. apply IH. intros H; apply Hx; right; assumption.
Qed.

Lemma remove_v_cons v x L :
  remove_v v (x :: L) = if Nat.eqb x v then remove_v v L else x :: remove_v v L.
Proof. unfold remove_v. simpl. destruct (Nat.eqb x v); reflexivity. Qed.

Lemma adj_sum_remove es L v :
  NoDup L -> In v L ->
  adj_sum es (remove_v v L) + length (adj_of es v) = adj_sum es L.
Proof.
  induction 1 as [|x L Hx Hnd IH]; intros Hin; [destruct Hin|].
  rewrite remove_v_cons. destruct (Nat.eqb_spec x v) as [->|Hne]; simpl.
  - rewrite remove_v_notin by assumption. lia.
  - destruct Hin as [->|Hin]; [congruence|].
    specialize (IH Hin). lia.
Qed.

Lemma occurrences_notin a L : ~ In a L -> occurrences a L = 0.
Proof.
  induction L as [|y L IH]; simpl; intros Hx; [reflexivity|].
  destruct (Nat.eqb_spec a y) as [->|Hne].
  - exfalso; apply Hx; left; reflexivity.
  - apply IH. intros H; apply Hx; right; assumption.
Qed.

Lemma occurrences_nodup a L : NoDup L -> occurrences a L <= 1.
Proof.
  induction 1 as [|x L Hx Hnd IH]; simpl; [lia|].
  destruct (Nat.eqb_spec a x) as [->|Hne]; [|exact IH].
  rewrite occurrences_notin by assumption. lia.
Qed.

Lemma adj_sum_bound es L : NoDup L -> adj_sum es L <= 2 * length es.
Proof.
  intros Hnd. induction es as [|[[a b] x] es IH].
  - clear Hnd. induction L; simpl in *; lia.
  - assert (Hs : adj_sum ((a, b, x) :: es) L <=
                 occurrences a L + occurrences b L + adj_sum es L).
    { clear. induction L as [|v L IH]; simpl; [lia|].
      destruct (Nat.eqb a v); simpl; [lia|].
      destruct (Nat.eqb b v); simpl; lia. }
    pose proof (occurrences_nodup a Hnd). pose proof (occurrences_nodup b Hnd).
    cbn [length]. eapply Nat.le_trans; [exact Hs | lia].
Qed.

Lemma in_remove_v x v L : In x (remove_v v L) <-> In x L /\ x <> v.
Proof.
  unfold remove_v. rewrite filter_In, negb_true_iff, Nat.eqb_neq. tauto.
Qed.

Lemma nodup_remove_v v L : NoDup L -> NoDup (remove_v v L).
Proof. apply NoDup_filter. Qed.

Lemma ends_app es1 es2 : ends (es1 ++ es2) = ends es1 ++ ends es2.
Proof. apply map_app. Qed.

Lemma prim_components_done fuel G c out :
  prim_components fuel G [] c out = Ok out.
Proof. destruct fuel; reflexivity. Qed.

Lemma add_node_present u G : In u (gnodes G) -> add_node u G = G.
Proof.
  intros H. unfold add_node. apply memb_In in H. rewrite H. reflexivity.
Qed.

Lemma gnodes_add_edge_present u v d G :
  In u (gnodes G) -> In v (gnodes G) -> gnodes (add_edge u v d G) = gnodes G.
Proof.
  intros Hu Hv. unfold add_edge.
  rewrite (add_node_present _ _ Hu), (add_node_present _ _ Hv).
  destruct (has_uedge u v (gedges G)); reflexivity.
Qed.

Lemma gnodes_add_edges_present es G :
  (forall u v d, In (u, v, d) es -> In u (gnodes G) /\ In v (gnodes G)) ->
  gnodes (add_edges es G) = gnodes G.
Proof.
  revert G. induction es as [|[[a b] d] es IH]; intros G H; simpl; [reflexivity|].
  destruct (H a b d (or_introl eq_refl)) as [Ha Hb].
  unfold add_edges in IH. rewrite IH.
  - apply gnodes_add_edge_present; assumption.
  - intros u v d' Hin. rewrite gnodes_add_edge_present by assumption.
    apply (H u v d'). right; assumption.
Qed.

Arguments remove_v : simpl never.

Lemma pushed_cnt_range u skip a c e :
  In e (pushed u skip a c) ->
  c <= f_cnt e /\ f_cnt e < c + length (pushed u skip a c).
Proof.
  revert c. induction a as [|[v d] a IH]; intros c; simpl; [tauto|].
  destruct (memb v skip); [apply IH|].
  destruct d as [z|]; [|intros []].
  intros [<-|H]; simpl; [lia|].
  apply IH in H. lia.
Qed.

(** Out of an adjacency sorted by neighbour, the entries are pushed in the
    order of their destinations. *)
Lemma pushed_cnt_order u skip a c e1 e2 :
  StronglySorted lt (map fst a) ->
  In e1 (pushed u skip a c) -> In e2 (pushed u skip a c) ->
  f_cnt e1 <= f_cnt e2 -> f_v e1 <= f_v e2.
Proof.
  revert c. induction a as [|[v d] a IH]; intros c Hs; simpl; [tauto|].
  simpl in Hs. inversion Hs as [|? ? Hs' Hall]; subst.
  destruct (memb v skip); [apply IH; assumption|].
  destruct d as [z|]; [|intros []].
  assert (Htail : forall e, In e (pushed u skip a (S c)) ->
                            S c <= f_cnt e /\ v < f_v e).
  { intros e He. split; [apply (pushed_cnt_range _ _ _ _ _ He)|].
    apply pushed_sound in He. destruct He as [_ [Hin _]].
    rewrite Forall_forall in Hall. apply Hall.
    apply in_map_iff. exists (f_v e, f_d e). auto. }
  intros [<-|H1] [<-|H2] Hle; simpl in *.
  - lia.
  - apply Htail in H2. lia.
  - apply Htail in H1. lia.
  - eapply IH; eassumption.
Qed.

(* ================================================================== *)
(** * Breaking ties                                                     *)
(* ================================================================== *)

Lemma in_candidates V reached x y :
  In (x, y) (candidates V reached) <->
  In x reached /\ In y V /\ ~ In y reached.
Proof.
  unfold candidates. rewrite in_flat_map. split.
  - intros [a [Ha Hin]]. apply in_map_iff in Hin. destruct Hin as [b [Heq Hb]].
    inversion Heq; subst. apply filter_In in Hb. destruct Hb as [Hb Hm].
    apply negb_true_iff, memb_false in Hm. auto.
  - intros [Hx [Hy Hn]]. exists x. split; [assumption|].
    apply in_map_iff. exists y. split; [reflexivity|].
    apply filter_In. split; [assumption|].
    apply negb_true_iff, memb_false. assumption.
Qed.

Lemma ties_broken_by_snoc rule w V out : forall reached e,
  ties_broken_by rule w V reached (out ++ [e])
  = ties_broken_by rule w V reached out
    && choice_ok rule w V (rev (map snd out) ++ reached) e.
Proof.
  induction out as [|x out IH]; intros reached e; simpl.
  - rewrite andb_true_r. reflexivity.
  - rewrite IH, <- app_assoc, andb_assoc. reflexivity.
Qed.

Lemma choice_ok_ext rule w V V' reached e :
  (forall x, In x V <-> In x V') ->
  choice_ok rule w V reached e = choice_ok rule w V' reached e.
Proof.
  intros HV. unfold choice_ok.
  apply eq_true_iff_eq. rewrite !forallb_forall.
  split; intros H [x y] Hc; apply H; apply in_candidates;
    apply in_candidates in Hc; destruct Hc as [Hx [Hy Hn]];
    (split; [assumption|]); (split; [apply HV; assumption | assumption]).
Qed.

Lemma ties_broken_by_ext rule w V V' out : forall reached,
  (forall x, In x V <-> In x V') ->
  ties_broken_by rule w V reached out = ties_broken_by rule w V' reached out.
Proof.
  induction out as [|e out IH]; intros reached HV; simpl; [reflexivity|].
  rewrite (@choice_ok_ext rule w V V' reached e HV), (IH _ HV). reflexivity.
Qed.

Lemma earlier_cons v u x reached :
  v <> x -> earlier u x (v :: reached) = earlier u x reached.
Proof.
  intros Hne. simpl. destruct (Nat.eqb_spec v x); [contradiction | reflexivity].
Qed.

Lemma earlier_new v u reached :
  In u reached -> earlier u v (v :: reached) = true.
Proof.
  intros Hu. simpl. rewrite Nat.eqb_refl. apply memb_In. assumption.
Qed.

(** What the invariant of Prim's loop says, over a graph [G] whose edge
    between [u] and [v] weighs [w u v]. *)

Section PrimComplete.

Variable G : Graph.
Variable w : vertex -> vertex -> Z.

Hypothesis V_nodup : NoDup (gnodes G).

(** [G] is complete on its nodes, the edge between [u] and [v] weighing
    [w u v]. *)
Hypothesis G_complete : forall u v d,
  In (v, d) (get_adj G u) <->
  In u (gnodes G) /\ In v (gnodes G) /\ u <> v /\ d = Some (w u v).

(** Every adjacency lists its neighbours in increasing order. *)
Hypothesis G_sorted : forall u, StronglySorted lt (map fst (get_adj G u)).

(** No weight is beyond the range of a float. *)
Hypothesis w_in_range : forall u v,
  In u (gnodes G) -> In v (gnodes G) -> in_float_range (w u v) = true.

Local Abbreviation weights_ok := (weights_ok w).
Local Abbreviation prim_inv := (prim_inv G w).

Lemma adj_weights_some u v d : In (v, d) (get_adj G u) -> d <> None.
Proof. intros H. apply G_complete in H. destruct H as [_ [_ [_ ->]]]. discriminate. Qed.

Lemma adj_weights_in_range u v d :
  In (v, d) (get_adj G u) -> exists z, d = Some z /\ in_float_range z = true.
Proof.
  intros H. apply G_complete in H. destruct H as [Hu [Hv [_ ->]]].
  exists (w u v). split; [reflexivity | apply w_in_range; assumption].
Qed.

Lemma growth_nonempty V' vis out : growth w V' vis out -> exists r, In r vis.
Proof. destruct 1; eexists; left; reflexivity. Qed.

Lemma prim_grow_correct root fuel :
  forall nds visited frontier c out,
    prim_inv root nds visited frontier c out ->
    length frontier + adj_sum (gedges G) nds < fuel ->
    exists c' out' vis',
      prim_grow fuel G nds visited frontier c out = Ok ([], c', out') /\
      growth w (gnodes G) vis' (ends out') /\ incl (gnodes G) vis' /\
      weights_ok out' /\
      ties_broken_by first_pushed w (gnodes G) [root] (ends out') = true.
Proof.
  induction fuel as [|fuel IH]; intros nds visited frontier c out Hinv Hfuel;
    [lia|].
  simpl. destruct nds as [|n nds'].
  { exists c, out, visited. split; [reflexivity|]. split; [apply Hinv|].
    split; [|split; apply Hinv].
    intros x Hx. destruct (inv_cover Hinv x Hx) as [H|[]]. exact H. }
  destruct (heappop frontier) as [[e fr]|] eqn:Hpop.
  2:{ apply heappop_none in Hpop. subst frontier.
      destruct (growth_nonempty (inv_growth Hinv)) as [r Hr].
      destruct (inv_front_complete Hinv r n Hr (or_introl eq_refl)) as [e [[] _]]. }
  destruct (heappop_some _ Hpop) as [Hperm Hmin].
  assert (Hlen : length frontier = S (length fr)).
  { apply Permutation_length in Hperm. exact Hperm. }
  assert (Hfr : forall x, In x fr -> In x frontier).
  { intros x Hx. eapply Permutation_in; [apply Permutation_sym; exact Hperm|].
    right; exact Hx. }
  assert (He : In e frontier).
  { eapply Permutation_in; [apply Permutation_sym; exact Hperm|].
    left; reflexivity. }
  assert (Hsplit : forall x, In x frontier -> x = e \/ In x fr).
  { intros x Hx. apply (Permutation_in _ Hperm) in Hx.
    destruct Hx; auto. }
  destruct (memb (f_v e) visited || negb (memb (f_v e) (n :: nds'))) eqn:Hc.
  - (* a stale entry *)
    apply IH; [|lia].
    constructor; try apply Hinv.
    + intros x Hx. apply (inv_front Hinv). auto.
    + intros u v Hu Hv.
      destruct (inv_front_complete Hinv u v Hu Hv) as [e' [He' [Hu' Hv']]].
      destruct (Hsplit _ He') as [->|Hin]; [|eauto].
      exfalso. apply orb_true_iff in Hc. rewrite negb_true_iff in Hc.
      destruct Hc as [Hc|Hc].
      * apply memb_In in Hc. rewrite Hv' in Hc.
        apply (inv_nds Hinv) in Hv. tauto.
      * apply memb_false in Hc. rewrite Hv' in Hc. contradiction.
    + intros x Hx. apply (inv_cnt_lt Hinv). auto.
    + intros e1 e2 H1 H2. apply (inv_cnt_order Hinv); auto.
  - (* a new vertex *)
    apply orb_false_iff in Hc. rewrite negb_false_iff in Hc.
    destruct Hc as [Hnv Hin]. apply memb_false in Hnv. apply memb_In in Hin.
    destruct (inv_front Hinv e He) as [Hu [HvV [Hwt Hd]]].
    rewrite push_edges_ok by (intros ? ?; apply adj_weights_in_range).
    simpl.
    apply IH.
    + constructor.
      * rewrite ends_app.
        change (ends [(f_u e, f_v e, f_d e)]) with [(f_u e, f_v e)].
        apply growth_add; try assumption; [apply Hinv|].
        intros u' v' Hu' Hv' Hnv'.
        destruct (inv_cover Hinv v' Hv') as [?|Hnd]; [contradiction|].
        destruct (inv_front_complete Hinv u' v' Hu' Hnd) as [e' [He' [Eu Ev]]].
        destruct (inv_front Hinv e' He') as [_ [_ [Hwt' _]]].
        rewrite <- Eu, <- Ev, <- Hwt', <- Hwt. apply Hmin. assumption.
      * apply nodup_remove_v. apply Hinv.
      * intros x Hx. apply in_remove_v in Hx. destruct Hx as [Hx Hne].
        destruct (inv_nds Hinv x Hx) as [? ?]. split; [assumption|].
        simpl. intros [?|?]; [congruence | contradiction].
      * intros x Hx. destruct (Nat.eq_dec x (f_v e)) as [->|Hne].
        -- left; left; reflexivity.
        -- destruct (inv_cover Hinv x Hx) as [?|?].
           ++ left; right; assumption.
           ++ right. apply in_remove_v. auto.
      * intros e' He'. apply in_app_or in He'. destruct He' as [He'|He'].
        -- destruct (inv_front Hinv e' (Hfr _ He')) as [? [? [? ?]]].
           repeat split; auto. right; assumption.
        -- apply pushed_sound in He'. destruct He' as [Eu [Hadj [_ Ed]]].
           apply G_complete in Hadj. destruct Hadj as [_ [? [_ Ed']]].
           rewrite Eu. repeat split; auto.
           ++ left; reflexivity.
           ++ congruence.
      * intros u' v' Hu' Hv'. apply in_remove_v in Hv'.
        destruct Hv' as [Hv' Hne].
        destruct (inv_nds Hinv v' Hv') as [Hv'V Hv'n].
        destruct Hu' as [<-|Hu'].
        -- destruct (@pushed_complete (f_v e) (f_v e :: visited)
                      (get_adj G (f_v e)) c v' (w (f_v e) v'))
             as [e' [He' [? [? ?]]]].
           ++ intros ? ?; apply adj_weights_some.
           ++ apply G_complete. repeat split; auto.
           ++ simpl. intros [?|?]; [congruence | contradiction].
           ++ exists e'. split; [apply in_or_app; right; assumption | auto].
        -- destruct (inv_front_complete Hinv u' v' Hu' Hv')
             as [e' [He' [Eu Ev]]].
           destruct (Hsplit _ He') as [->|Hin'].
           ++ congruence.
           ++ exists e'. split; [apply in_or_app; left; assumption | auto].
      * intros u v d Hin'. apply in_app_or in Hin'.
        destruct Hin' as [Hin'|[Heq|[]]].
        -- eapply (inv_out Hinv); eassumption.
        -- inversion Heq; subst. congruence.
      * intros e' He'. apply in_app_or in He'. destruct He' as [He'|He'].
        -- pose proof (inv_cnt_lt Hinv e' (Hfr _ He')). lia.
        -- apply pushed_cnt_range in He'. lia.
      * intros e1 e2 H1 H2 Hle. unfold first_pushed. simpl fst. simpl snd.
        apply in_app_or in H1. apply in_app_or in H2.
        destruct H1 as [H1|H1]; destruct H2 as [H2|H2].
        -- destruct (inv_front Hinv e2 (Hfr _ H2)) as [Hu2 _].
           rewrite earlier_cons by (intros Heq; rewrite Heq in Hnv; contradiction).
           apply (inv_cnt_order Hinv e1 e2); auto.
        -- destruct (inv_front Hinv e1 (Hfr _ H1)) as [Hu1 _].
           apply pushed_sound in H2. destruct H2 as [Eu2 _]. rewrite Eu2.
           rewrite earlier_new by assumption. reflexivity.
        -- pose proof (inv_cnt_lt Hinv e2 (Hfr _ H2)).
           apply pushed_cnt_range in H1. lia.
        -- pose proof (pushed_cnt_order _ _ _ _ _ _ (G_sorted (f_v e)) H1 H2 Hle) as Hv.
           apply pushed_sound in H1. apply pushed_sound in H2.
           destruct H1 as [Eu1 _]. destruct H2 as [Eu2 _].
           rewrite Eu1, Eu2, Nat.eqb_refl. simpl.
           apply orb_true_iff. right. apply Nat.leb_le. exact Hv.
      * rewrite ends_app.
        change (ends [(f_u e, f_v e, f_d e)]) with [(f_u e, f_v e)].
        rewrite map_app, rev_app_distr. simpl.
        rewrite (inv_reached Hinv). reflexivity.
      * rewrite ends_app.
        change (ends [(f_u e, f_v e, f_d e)]) with [(f_u e, f_v e)].
        rewrite ties_broken_by_snoc, (inv_ties Hinv), <- (inv_reached Hinv).
        simpl. unfold choice_ok. apply forallb_forall.
        intros [x y] Hc. apply in_candidates in Hc.
        destruct Hc as [Hx [Hy Hny]]. simpl fst. simpl snd.
        destruct (Z.eqb_spec (w x y) (w (f_u e) (f_v e))) as [Heq|Hne];
          [|reflexivity].
        simpl.
        destruct (inv_cover Hinv y Hy) as [?|Hnd]; [contradiction|].
        destruct (inv_front_complete Hinv x y Hx Hnd) as [e' [He' [Eu Ev]]].
        destruct (inv_front Hinv e' He') as [_ [_ [Hwt' _]]].
        pose proof (heappop_least _ Hpop e' He') as Hle.
        assert (Hcnt : f_cnt e <= f_cnt e').
        { unfold entry_le in Hle.
          rewrite orb_true_iff, andb_true_iff, Z.ltb_lt, Z.eqb_eq, Nat.leb_le in Hle.
          rewrite Hwt, Hwt', Eu, Ev in Hle. lia. }
        pose proof (inv_cnt_order Hinv e e' He He' Hcnt) as Hfp.
        rewrite Eu, Ev in Hfp. exact Hfp.
    + rewrite length_app.
      pose proof (pushed_length (f_v e) (f_v e :: visited) (get_adj G (f_v e)) c).
      pose proof (@adj_sum_remove (gedges G) (n :: nds') (f_v e)
                    (inv_nds_nodup Hinv) Hin).
      unfold get_adj in *. lia.
Qed.

(** On a complete graph Prim's algorithm returns a grown tree that has
    visited every node. *)
Lemma prim_mst_edges_complete :
  gnodes G <> [] ->
  exists out vis,
    prim_mst_edges G = Ok out /\
    growth w (gnodes G) vis (ends out) /\ incl (gnodes G) vis /\
    weights_ok out /\
    ties_broken_by first_pushed w (gnodes G) [hd 0 (gnodes G)] (ends out)
    = true.
Proof.
  intros Hne.
  assert (HV : exists r rest, gnodes G = r :: rest).
  { destruct (gnodes G) as [|r rest]; [congruence | eauto]. }
  destruct HV as [r [rest HV]].
  assert (Hnd : NoDup (r :: rest)) by (rewrite <- HV; exact V_nodup).
  inversion Hnd as [|? ? Hr Hrest]; subst.
  unfold prim_mst_edges. rewrite HV. simpl.
  rewrite push_edges_ok by (intros ? ?; apply adj_weights_in_range). simpl.
  destruct (@prim_grow_correct r (S (2 * length (gedges G))) rest [r]
              (pushed r [] (get_adj G r) 0)
              (length (pushed r [] (get_adj G r) 0)) [])
    as [c' [out' [vis' [Hrun [Hg [Hall [Hw Hties]]]]]]].
  - constructor.
    + simpl. apply growth_root. rewrite HV. left; reflexivity.
    + exact Hrest.
    + intros x Hx. rewrite HV. split; [right; assumption|].
      intros [<-|[]]. contradiction.
    + rewrite HV. intros x [<-|Hx]; [left; left; reflexivity | right; assumption].
    + intros e He. apply pushed_sound in He. destruct He as [Eu [Hadj [_ Ed]]].
      apply G_complete in Hadj. destruct Hadj as [_ [? [_ Ed']]].
      rewrite Eu. repeat split; auto; [left; reflexivity | congruence].
    + intros u v [<-|[]] Hv.
      destruct (@pushed_complete r [] (get_adj G r) 0 v (w r v))
        as [e' [He' [? [? ?]]]].
      * intros ? ?; apply adj_weights_some.
      * apply G_complete. rewrite HV. repeat split; simpl; auto.
        intros ->. contradiction.
      * intros [].
      * exists e'. auto.
    + intros ? ? ? [].
    + intros e He. apply pushed_cnt_range in He. lia.
    + intros e1 e2 H1 H2 Hle. unfold first_pushed. simpl fst. simpl snd.
      pose proof (pushed_cnt_order _ _ _ _ _ _ (G_sorted r) H1 H2 Hle) as Hv.
      apply pushed_sound in H1. apply pushed_sound in H2.
      destruct H1 as [Eu1 _]. destruct H2 as [Eu2 _].
      rewrite Eu1, Eu2, Nat.eqb_refl. simpl.
      apply orb_true_iff. right. apply Nat.leb_le. exact Hv.
    + reflexivity.
    + reflexivity.
  - pose proof (pushed_length r [] (get_adj G r) 0).
    assert (adj_sum (gedges G) (r :: rest) <= 2 * length (gedges G)).
    { apply adj_sum_bound. exact Hnd. }
    simpl in H0. unfold get_adj in *. lia.
  - simpl in Hrun. rewrite Hrun. simpl.
    rewrite prim_components_done.
    exists out', vis'. rewrite <- HV.
    split; [reflexivity|]. split; [exact Hg|]. split; [exact Hall|].
    split; [exact Hw|]. exact Hties.
Qed.

(** The spanning-tree object: the nodes of [G] and the grown edges. *)
Lemma minimum_spanning_tree_complete :
  gnodes G <> [] ->
  exists T vis,
    minimum_spanning_tree G = Ok T /\
    gnodes T = gnodes G /\
    growth w (gnodes G) vis (ends (gedges T)) /\ incl (gnodes G) vis /\
    weights_ok (gedges T) /\
    prim_mst_edges G = Ok (gedges T) /\
    ties_broken_by first_pushed w (gnodes G) [hd 0 (gnodes G)]
                   (ends (gedges T)) = true.
Proof.
  intros Hne.
  destruct (prim_mst_edges_complete Hne)
    as [out [vis [Hrun [Hg [Hall [Hw Hties]]]]]].
  unfold minimum_spanning_tree. rewrite Hrun. simpl.
  fold (add_edges out (mk_graph (gnodes G) [])).
  eexists; exists vis. split; [reflexivity|].
  assert (Hed : gedges (add_edges out (mk_graph (gnodes G) [])) = out).
  { rewrite gedges_add_edges_fresh; [reflexivity|]. simpl.
    eapply growth_norm_nodup; eassumption. }
  rewrite Hed. split; [|auto].
  rewrite gnodes_add_edges_present; [reflexivity|].
  simpl. intros u v d Hin.
  assert (In (u, v) (ends out)).
  { apply in_map_iff. exists (u, v, d). auto. }
  destruct (growth_ends Hg _ _ H) as [Hu [Hv _]].
  split; eapply growth_vis_in_V; eauto.
Qed.

End PrimComplete.

(* ================================================================== *)
(** * Multigraphs: degrees and connectivity                             *)
(* ================================================================== *)

Lemma in_ends es u v : In (u, v) (ends es) <-> exists w, In (u, v, w) es.
Proof.
  unfold ends. rewrite in_map_iff. split.
  - intros [[[a b] w] [Heq Hin]]. inversion Heq; subst. eauto.
  - intros [w Hin]. exists (u, v, w). auto.
Qed.

Lemma ends_at_app v es1 es2 : ends_at v (es1 ++ es2) = ends_at v es1 + ends_at v es2.
Proof.
  induction es1 as [|[[a b] w] es1 IH]; simpl; [reflexivity|]. rewrite IH. lia.
Qed.

Lemma ends_at_zero v es :
  ends_at v es = 0 <-> forall a b w, In (a, b, w) es -> a <> v /\ b <> v.
Proof.
  induction es as [|[[a b] w] es IH]; simpl.
  - split; [intros _ ? ? ? [] | reflexivity].
  - split.
    + intros H a' b' w' [Heq|Hin].
      * inversion Heq; subst a' b' w'.
        destruct (Nat.eqb_spec a v); destruct (Nat.eqb_spec b v);
          simpl in H; try lia; split; assumption.
      * assert (H0 : ends_at v es = 0) by lia.
        destruct IH as [IH _]. apply (IH H0 a' b' w'). assumption.
    + intros H. destruct (H a b w (or_introl eq_refl)) as [Ha Hb].
      apply Nat.eqb_neq in Ha, Hb. rewrite Ha, Hb. simpl.
      apply IH. intros a' b' w' Hin. apply (H a' b' w'). right; assumption.
Qed.

(** ** The breadth-first closure *)

Lemma expand_mono es S x : In x S -> In x (expand es S).
Proof.
  unfold expand. revert S. induction es as [|[[a b] w] es IH]; intros S H; simpl; auto.
  apply IH. destruct (memb a S); destruct (memb b S); simpl; auto.
Qed.

Lemma expand_length es S : length S <= length (expand es S).
Proof.
  unfold expand. revert S. induction es as [|[[a b] w] es IH]; intros S; simpl; auto.
  eapply Nat.le_trans; [|apply IH].
  destruct (memb a S); destruct (memb b S); simpl; lia.
Qed.

Lemma expand_nodup es S : NoDup S -> NoDup (expand es S).
Proof.
  unfold expand. revert S. induction es as [|[[a b] w] es IH]; intros S H; simpl; auto.
  apply IH.
  destruct (memb a S) eqn:Ha; destruct (memb b S) eqn:Hb; auto;
    constructor; auto; apply memb_false; assumption.
Qed.

Lemma expand_sound E es S r :
  incl es E -> (forall x, In x S -> conn (ends E) r x) ->
  forall x, In x (expand es S) -> conn (ends E) r x.
Proof.
  unfold expand. revert S. induction es as [|[[a b] w] es IH]; intros S Hi HS; simpl; auto.
  assert (Hab : adj (ends E) a b).
  { left. apply in_ends. exists w. apply Hi. left; reflexivity. }
  apply IH.
  - intros e He. apply Hi. right; assumption.
  - destruct (memb a S) eqn:Ha; destruct (memb b S) eqn:Hb; auto.
    + intros x [<-|Hx]; auto. apply memb_In in Ha.
      eapply conn_trans; [apply HS; eassumption | apply conn_adj; assumption].
    + intros x [<-|Hx]; auto. apply memb_In in Hb.
      eapply conn_trans; [apply HS; eassumption
                         | apply conn_adj, adj_sym; assumption].
Qed.

(** A sweep that adds nothing has found a set closed under the edges. *)
Lemma expand_fixed es S :
  length (expand es S) = length S ->
  forall a b w, In (a, b, w) es -> (In a S <-> In b S).
Proof.
  unfold expand. revert S. induction es as [|[[a b] w] es IH]; intros S Hlen;
    simpl in *; [intros ? ? ? []|].
  set (S' := if memb a S then if memb b S then S else b :: S
             else if memb b S then a :: S else S) in *.
  pose proof (expand_length es S') as Hge. unfold expand in Hge.
  assert (HS' : S' = S).
  { subst S'. destruct (memb a S); destruct (memb b S); simpl in *; auto; lia. }
  rewrite HS' in *.
  intros a' b' w' [Heq|Hin].
  - inversion Heq; subst a' b' w'.
    rewrite <- !memb_In.
    subst S'. destruct (memb a S) eqn:Ha; destruct (memb b S) eqn:Hb;
      try tauto; exfalso.
    + assert (length (b :: S) = length S) by (rewrite HS'; reflexivity).
      simpl in H; lia.
    + assert (length (a :: S) = length S) by (rewrite HS'; reflexivity).
      simpl in H; lia.
  - eapply IH; eassumption.
Qed.

Lemma expand_closed es S :
  (forall a b w, In (a, b, w) es -> (In a S <-> In b S)) -> expand es S = S.
Proof.
  unfold expand. induction es as [|[[a b] w] es IH]; intros H; simpl; [reflexivity|].
  assert (Hab : In a S <-> In b S) by (eapply H; left; reflexivity).
  rewrite <- !memb_In in Hab.
  destruct (memb a S); destruct (memb b S);
    try (apply IH; intros; eapply H; right; eassumption);
    exfalso; destruct Hab as [H1 H2];
    try (specialize (H1 eq_refl); discriminate);
    specialize (H2 eq_refl); discriminate.
Qed.

Lemma closure_nodup n es S : NoDup S -> NoDup (closure n es S).
Proof.
  revert S. induction n; intros S H; simpl; auto. apply IHn, expand_nodup, H.
Qed.

Lemma closure_mono n es S x : In x S -> In x (closure n es S).
Proof.
  revert S. induction n; intros S H; simpl; auto. apply IHn, expand_mono, H.
Qed.

Lemma closure_sound n es S r :
  (forall x, In x S -> conn (ends es) r x) ->
  forall x, In x (closure n es S) -> conn (ends es) r x.
Proof.
  revert S. induction n; intros S HS; simpl; auto.
  apply IHn. apply expand_sound; [apply incl_refl | assumption].
Qed.

Lemma closure_progress n es S :
  closed_under es (closure n es S) \/ length S + n <= length (closure n es S).
Proof.
  revert S. induction n; intros S; simpl; [right; lia|].
  destruct (Nat.eq_dec (length (expand es S)) (length S)) as [Heq|Hne].
  - left. pose proof (expand_fixed _ _ Heq) as Hc.
    rewrite (expand_closed _ _ Hc).
    assert (Hn : forall m, closure m es S = S).
    { induction m; simpl; [reflexivity|]. rewrite (expand_closed _ _ Hc). assumption. }
    rewrite Hn. exact Hc.
  - destruct (IHn (expand es S)) as [H|H]; [left; assumption|].
    right. pose proof (expand_length es S). lia.
Qed.

Lemma closed_conn es S x y :
  closed_under es S -> conn (ends es) x y -> In x S -> In y S.
Proof.
  intros Hc. induction 1 as [v | u z v Hadj Hcn IH]; intros Hx; auto.
  apply IH. destruct Hadj as [H|H]; apply in_ends in H; destruct H as [w H].
  - apply (Hc _ _ _ H). assumption.
  - apply (Hc _ _ _ H). assumption.
Qed.

Lemma closure_within n es S (V : list vertex) :
  incl S V -> (forall a b w, In (a, b, w) es -> In a V /\ In b V) ->
  incl (closure n es S) V.
Proof.
  revert S. induction n; intros S HS HV; simpl; auto.
  apply IHn; auto.
  unfold expand. clear IHn.
  assert (Hgen : forall es', incl es' es -> forall S, incl S V ->
            incl (fold_left (fun acc '(a, b, _) =>
                    if memb a acc then (if memb b acc then acc else b :: acc)
                    else if memb b acc then a :: acc else acc) es' S) V).
  { induction es' as [|[[a b] w] es' IH]; intros Hi S' HS'; simpl; auto.
    assert (In a V /\ In b V) as [Ha Hb] by (eapply HV, Hi; left; reflexivity).
    apply IH; [intros e He; apply Hi; right; assumption|].
    destruct (memb a S'); destruct (memb b S'); auto;
      apply incl_cons; assumption. }
  apply Hgen; [apply incl_refl | assumption].
Qed.

(** The search decides connectivity. *)
Lemma is_connected_true M :
  mwf M -> (is_connected M = Ok true <-> connected M).
Proof.
  intros Hwf. unfold is_connected, connected.
  destruct (mnodes M) as [|r V'] eqn:HV.
  - split; [discriminate | intros [H _]; congruence].
  - set (C := closure (length (r :: V')) (medges M) [r]).
    assert (Hsound : forall x, In x C -> conn (ends (medges M)) r x).
    { apply closure_sound. intros x [<-|[]]. constructor. }
    assert (Hin : incl C (r :: V')).
    { apply closure_within.
      - intros x [<-|[]]. left; reflexivity.
      - intros a b w H. rewrite <- HV. eapply Hwf; eassumption. }
    assert (Hclosed : closed_under (medges M) C).
    { destruct (closure_progress (length (r :: V')) (medges M) [r]) as [H|H]; auto.
      exfalso. fold C in H.
      assert (NoDup C) by (apply closure_nodup; repeat constructor; simpl; tauto).
      pose proof (NoDup_incl_length H0 Hin). simpl in *. lia. }
    split.
    + intros H. injection H as Hb.
      change (forallb (fun v => memb v C) (r :: V') = true) in Hb.
      rewrite forallb_forall in Hb.
      split; [discriminate|].
      intros x y Hx Hy. apply Hb in Hx, Hy. apply memb_In in Hx, Hy.
      eapply conn_trans; [apply conn_sym, Hsound; assumption | apply Hsound; assumption].
    + intros [_ H]. f_equal. apply forallb_forall. intros x Hx.
      apply memb_In. eapply closed_conn; [exact Hclosed | |].
      * apply (H r x); [left; reflexivity | assumption].
      * apply closure_mono. left; reflexivity.
Qed.

Lemma is_connected_false M :
  mwf M -> mnodes M <> [] -> ~ connected M -> is_connected M = Ok false.
Proof.
  intros Hwf Hne Hnc.
  destruct (is_connected M) as [[|]|e] eqn:H.
  - apply is_connected_true in H; tauto.
  - reflexivity.
  - unfold is_connected in H. destruct (mnodes M); [congruence | discriminate].
Qed.

Lemma even_degrees_forallb M :
  forallb (fun v => Nat.even (mdegree M v)) (mnodes M) = true <-> even_degrees M.
Proof. unfold even_degrees. apply forallb_forall. Qed.

(* ================================================================== *)
(** * Edge lists up to order and orientation                            *)
(* ================================================================== *)

Lemma wnorm_swap a b w : wnorm (a, b, w) = wnorm (b, a, w).
Proof. unfold wnorm. rewrite Nat.min_comm, Nat.max_comm. reflexivity. Qed.

Lemma strip_wnorm e : strip (wnorm e) = norm (strip e).
Proof. destruct e as [[a b] w]. reflexivity. Qed.

Lemma ends_wnorm es : ends (map wnorm es) = map norm (ends es).
Proof.
  unfold ends. rewrite !map_map. apply map_ext. apply strip_wnorm.
Qed.

Lemma ends_at_wnorm v es : ends_at v (map wnorm es) = ends_at v es.
Proof.
  induction es as [|[[a b] w] es IH]; simpl; [reflexivity|]. rewrite IH.
  destruct (Nat.le_ge_cases a b).
  - rewrite Nat.min_l, Nat.max_r by lia. reflexivity.
  - rewrite Nat.min_r, Nat.max_l by lia. lia.
Qed.

Lemma in_map_wnorm u v w es :
  In (wnorm (u, v, w)) (map wnorm es) <-> In (u, v, w) es \/ In (v, u, w) es.
Proof.
  rewrite in_map_iff. split.
  - intros [[[a b] x] [Heq Hin]]. unfold wnorm in Heq.
    inversion Heq; subst.
    assert ((a = u /\ b = v) \/ (a = v /\ b = u)) as [[-> ->]|[-> ->]] by lia;
      auto.
  - intros [H|H]; [exists (u, v, w) | exists (v, u, w)]; split; auto.
    apply wnorm_swap.
Qed.

Lemma filter_split {A : Type} (p q r : A -> bool) (l : list A) :
  (forall e, r e = p e || q e) -> (forall e, p e && q e = false) ->
  Permutation (filter p l ++ filter q l) (filter r l).
Proof.
  intros Hr Hpq. induction l as [|e l IH]; simpl; [constructor|].
  rewrite Hr. specialize (Hpq e).
  destruct (p e); destruct (q e); simpl in *; try discriminate.
  - apply perm_skip. exact IH.
  - eapply perm_trans; [apply Permutation_sym, Permutation_middle|].
    apply perm_skip. exact IH.
  - exact IH.
Qed.

Lemma ends_at_perm v es1 es2 :
  Permutation es1 es2 -> ends_at v es1 = ends_at v es2.
Proof.
  induction 1 as [|[[a b] w] ? ? ? IH|[[a b] w] [[c d] x] ?|]; simpl; lia.
Qed.

Lemma conn_norm_incl E1 E2 u v :
  incl (map norm E1) (map norm E2) -> conn E1 u v -> conn E2 u v.
Proof.
  intros H. apply conn_mono. intros x y Hxy. apply conn_adj.
  apply in_map_norm. apply H. apply in_map_norm. assumption.
Qed.

Lemma conn_norm_perm E1 E2 u v :
  Permutation (map norm E1) (map norm E2) -> conn E1 u v -> conn E2 u v.
Proof.
  intros H. apply conn_norm_incl. intros e He.
  eapply Permutation_in; eassumption.
Qed.

(* ================================================================== *)
(** * The copy of a multigraph                                          *)
(* ================================================================== *)

Lemma other_end_between u v e : between u v e = true <-> other_end u e = Some v.
Proof.
  destruct e as [[a b] w]. unfold between, other_end. rewrite same_uedge_spec.
  destruct (Nat.eqb_spec a u) as [->|Ha].
  - split; [intros [[_ ->]|[-> <-]]; reflexivity | intros H; inversion H; auto].
  - destruct (Nat.eqb_spec b u) as [->|Hb].
    + split; [intros [[Hu _]|[_ ->]]; [congruence | reflexivity]
             | intros H; inversion H; auto].
    + split; [intros [[Hu _]|[Hu _]]; congruence | discriminate].
Qed.

Lemma other_end_incident u e : incident u e = true <-> other_end u e <> None.
Proof.
  destruct e as [[a b] w]. unfold incident, other_end.
  destruct (Nat.eqb a u); [simpl; split; [discriminate | reflexivity]|].
  destruct (Nat.eqb b u); simpl; split; congruence.
Qed.

Lemma neighbours_from_in v es : forall seen n,
  In n (neighbours_from v es seen) <->
  (exists e, In e es /\ other_end v e = Some n) /\ ~ In n seen.
Proof.
  induction es as [|e es IH]; intros seen n; simpl.
  - split; [intros [] | intros [[x [[] _]] _]].
  - destruct (other_end v e) as [m|] eqn:Ho.
    + destruct (memb m seen) eqn:Hm.
      * rewrite IH. apply memb_In in Hm. split.
        -- intros [[x [Hx Hn]] Hs]. split; [exists x; auto | exact Hs].
        -- intros [[x [[<-|Hx] Hn]] Hs]; [|split; [exists x; auto | exact Hs]].
           rewrite Ho in Hn. inversion Hn; subst. contradiction.
      * apply memb_false in Hm. simpl. rewrite IH. split.
        -- intros [<-|[[x [Hx Hn]] Hs]].
           ++ split; [exists e; auto | exact Hm].
           ++ split; [exists x; auto|]. simpl in Hs. tauto.
        -- intros [[x [[<-|Hx] Hn]] Hs].
           ++ rewrite Ho in Hn. inversion Hn; subst. left; reflexivity.
           ++ destruct (Nat.eq_dec m n) as [->|Hne]; [left; reflexivity|].
              right. split; [exists x; auto|]. simpl. tauto.
    + rewrite IH. split.
      * intros [[x [Hx Hn]] Hs]. split; [exists x; auto | exact Hs].
      * intros [[x [[<-|Hx] Hn]] Hs]; [congruence|].
        split; [exists x; auto | exact Hs].
Qed.

Lemma neighbours_from_nodup v es : forall seen,
  NoDup (neighbours_from v es seen).
Proof.
  induction es as [|e es IH]; intros seen; simpl; [constructor|].
  destruct (other_end v e) as [m|]; [|apply IH].
  destruct (memb m seen); [apply IH|].
  constructor; [|apply IH].
  intros Hin. apply neighbours_from_in in Hin. destruct Hin as [_ Hs].
  apply Hs. left; reflexivity.
Qed.

Lemma wnorm_listed_from u e : wnorm (listed_from u e) = wnorm e.
Proof.
  destruct e as [[a b] w]. unfold listed_from.
  destruct (Nat.eqb a u); [reflexivity | apply wnorm_swap].
Qed.

Lemma flat_map_app_perm {A B : Type} (g f : A -> list B) (l : list A) :
  Permutation (flat_map (fun v => g v ++ f v) l) (flat_map g l ++ flat_map f l).
Proof.
  induction l as [|a l IH]; simpl; [constructor|].
  rewrite <- !app_assoc. apply Permutation_app_head.
  eapply perm_trans; [apply Permutation_app_head; exact IH|].
  apply Permutation_app_swap_app.
Qed.

Lemma single_key u e (L : list vertex) :
  NoDup L ->
  flat_map (fun v => if between u v e then [e] else []) L
  = match other_end u e with
    | Some n => if memb n L then [e] else []
    | None => []
    end.
Proof.
  induction 1 as [|x L Hx Hnd IH]; simpl.
  - destruct (other_end u e); reflexivity.
  - rewrite IH. destruct (other_end u e) as [n|] eqn:Ho.
    + destruct (between u x e) eqn:Hb.
      * apply other_end_between in Hb. rewrite Ho in Hb. inversion Hb; subst.
        rewrite Nat.eqb_refl. simpl.
        apply memb_false in Hx. rewrite Hx. reflexivity.
      * destruct (Nat.eqb_spec n x) as [->|Hne]; [|reflexivity].
        apply other_end_between in Ho. congruence.
    + destruct (between u x e) eqn:Hb; [|reflexivity].
      apply other_end_between in Hb. congruence.
Qed.

(** Listing the edges at [u] neighbour by neighbour lists each of them
    once. *)
Lemma by_neighbour_perm u (L : list vertex) (X : list wedge) :
  NoDup L ->
  (forall e n, In e X -> other_end u e = Some n -> In n L) ->
  Permutation (flat_map (fun v => filter (between u v) X) L)
              (filter (incident u) X).
Proof.
  intros Hnd. induction X as [|e X IH]; intros HL.
  - simpl. clear. induction L; simpl; [constructor | assumption].
  - assert (Hrest : Permutation (flat_map (fun v => filter (between u v) X) L)
                                (filter (incident u) X)).
    { apply IH. intros x n Hx. apply HL. right; exact Hx. }
    eapply perm_trans.
    + erewrite flat_map_ext;
        [apply (flat_map_app_perm (fun v => if between u v e then [e] else [])
                                  (fun v => filter (between u v) X))|].
      intros v. simpl. destruct (between u v e); reflexivity.
    + rewrite (single_key u e Hnd). simpl.
      destruct (other_end u e) as [n|] eqn:Ho.
      * assert (Hin : memb n L = true)
          by (apply memb_In; eapply HL; [left; reflexivity | exact Ho]).
        assert (Hi : incident u e = true)
          by (apply other_end_incident; congruence).
        rewrite Hin, Hi. simpl. apply perm_skip. exact Hrest.
      * assert (Hi : incident u e = false).
        { destruct (incident u e) eqn:Hi; [|reflexivity].
          apply other_end_incident in Hi. congruence. }
        rewrite Hi. simpl. exact Hrest.
Qed.

Lemma map_flat_map {A B C : Type} (h : B -> C) (g : A -> list B) (l : list A) :
  map h (flat_map g l) = flat_map (fun v => map h (g v)) l.
Proof.
  induction l as [|a l IH]; simpl; [reflexivity|].
  rewrite map_app, IH. reflexivity.
Qed.

Lemma copy_edges_perm es ns : forall rest,
  incl rest es ->
  Permutation (map wnorm (copy_edges es ns rest))
              (map wnorm (filter (touches ns) rest)).
Proof.
  induction ns as [|u ns IH]; intros rest Hincl; simpl.
  - assert (H : filter (touches []) rest = []).
    { clear. induction rest as [|[[a b] w] rest IHr]; simpl; auto. }
    rewrite H. constructor.
  - rewrite map_app.
    eapply perm_trans.
    + apply Permutation_app; [|apply IH].
      * rewrite map_flat_map.
        erewrite flat_map_ext;
          [|intros v; rewrite map_map;
            apply map_ext; intros e; apply wnorm_listed_from].
        rewrite <- map_flat_map. apply Permutation_map.
        apply by_neighbour_perm; [apply neighbours_from_nodup|].
        intros e n He Ho. apply neighbours_from_in. split; [|intros []].
        exists e. split; [apply Hincl; exact He | exact Ho].
      * intros e He. apply filter_In in He. apply Hincl. tauto.
    + rewrite <- map_app. apply Permutation_map.
      assert (Hc : filter (touches ns) (filter (fun e => negb (incident u e)) rest)
                   = filter (fun e => touches ns e && negb (incident u e)) rest).
      { clear. induction rest as [|e rest IHr]; simpl; [reflexivity|].
        destruct (incident u e); simpl.
        - rewrite andb_false_r. exact IHr.
        - rewrite andb_true_r. destruct (touches ns e); rewrite IHr; reflexivity. }
      rewrite Hc.
      apply filter_split.
      * intros [[a b] w]. simpl.
        destruct (Nat.eqb a u); destruct (Nat.eqb b u);
          destruct (memb a ns); destruct (memb b ns); reflexivity.
      * intros [[a b] w]. simpl.
        destruct (Nat.eqb a u); destruct (Nat.eqb b u);
          destruct (memb a ns); destruct (memb b ns); reflexivity.
Qed.

Lemma copy_perm M :
  mwf M ->
  Permutation (map wnorm (medges (MultiGraph_copy M))) (map wnorm (medges M)).
Proof.
  intros Hwf. unfold MultiGraph_copy. simpl.
  eapply perm_trans; [apply copy_edges_perm, incl_refl|].
  assert (H : filter (touches (mnodes M)) (medges M) = medges M).
  { assert (Hall : forall e, In e (medges M) -> touches (mnodes M) e = true).
    { intros [[a b] w] He. destruct (Hwf _ _ _ He) as [Ha _].
      simpl. apply memb_In in Ha. rewrite Ha. reflexivity. }
    clear Hwf. induction (medges M) as [|e es IH]; simpl; [reflexivity|].
    rewrite Hall by (left; reflexivity). f_equal. apply IH.
    intros; apply Hall; right; assumption. }
  rewrite H. apply Permutation_refl.
Qed.

Lemma copy_norm_perm M :
  mwf M ->
  Permutation (map norm (ends (medges (MultiGraph_copy M))))
              (map norm (ends (medges M))).
Proof.
  intros Hwf. rewrite <- !ends_wnorm. unfold ends.
  apply Permutation_map. apply copy_perm. exact Hwf.
Qed.

Lemma copy_ends_at M v :
  mwf M -> ends_at v (medges (MultiGraph_copy M)) = ends_at v (medges M).
Proof.
  intros Hwf.
  rewrite <- (ends_at_wnorm v (medges (MultiGraph_copy M))),
          <- (ends_at_wnorm v (medges M)).
  apply ends_at_perm. apply copy_perm. exact Hwf.
Qed.

Lemma copy_length M :
  mwf M -> length (medges (MultiGraph_copy M)) = length (medges M).
Proof.
  intros Hwf. pose proof (Permutation_length (copy_perm Hwf)) as H.
  rewrite !length_map in H. exact H.
Qed.

Lemma copy_mwf M : mwf M -> mwf (MultiGraph_copy M).
Proof.
  intros Hwf a b w Hin.
  assert (H : In (wnorm (a, b, w)) (map wnorm (medges (MultiGraph_copy M))))
    by (apply in_map_wnorm; left; exact Hin).
  apply (Permutation_in _ (copy_perm Hwf)), in_map_wnorm in H.
  change (mnodes (MultiGraph_copy M)) with (mnodes M).
  destruct H as [H|H]; apply Hwf in H; tauto.
Qed.

(* ================================================================== *)
(** * Taking an edge                                                    *)
(* ================================================================== *)

Lemma take_edge_some u v es es' :
  take_edge u v es = Some es' ->
  exists es1 a b w es2,
    es = es1 ++ (a, b, w) :: es2 /\ es' = es1 ++ es2 /\
    ((a = u /\ b = v) \/ (a = v /\ b = u)).
Proof.
  revert es'. induction es as [|[[a b] w] es IH]; intros es' H; simpl in H;
    [discriminate|].
  destruct (same_uedge u v a b) eqn:Hs.
  - inversion H; subst. apply same_uedge_spec in Hs.
    exists [], a, b, w, es'. split; [reflexivity|]. split; [reflexivity|].
    destruct Hs as [[-> ->]|[-> ->]]; auto.
  - destruct (take_edge u v es) as [r|]; [|discriminate].
    inversion H; subst.
    destruct (IH _ eq_refl) as [es1 [a' [b' [w' [es2 [-> [-> Hor]]]]]]].
    exists ((a, b, w) :: es1), a', b', w', es2. auto.
Qed.

Lemma take_edge_none u v es e :
  take_edge u v es = None -> In e es -> between u v e = false.
Proof.
  induction es as [|[[a b] w] es IH]; simpl; intros H Hin; [destruct Hin|].
  destruct (same_uedge u v a b) eqn:Hs; [discriminate|].
  destruct (take_edge u v es); [discriminate|].
  destruct Hin as [<-|Hin]; [exact Hs | apply IH; auto].
Qed.

Lemma pick_edge_some v order es n es' :
  pick_edge v order es = Some (n, es') ->
  exists es1 a b w es2,
    es = es1 ++ (a, b, w) :: es2 /\ es' = es1 ++ es2 /\
    ((a = v /\ b = n) \/ (a = n /\ b = v)).
Proof.
  induction order as [|e order IH]; simpl; intros H; [discriminate|].
  destruct (other_end v e) as [m|]; [|apply IH; exact H].
  destruct (take_edge v m es) as [r|] eqn:Ht; [|apply IH; exact H].
  inversion H; subst. apply take_edge_some. exact Ht.
Qed.

Lemma ends_at_zero_one v a b (w : pyval) :
  other_end v (a, b, w) = None -> a <> v /\ b <> v.
Proof.
  unfold other_end.
  destruct (Nat.eqb_spec a v); [discriminate|].
  destruct (Nat.eqb_spec b v); [discriminate|]. auto.
Qed.

(** While the edges left are among those of [order], a vertex at which
    nothing can be taken has no edge left. *)
Lemma pick_edge_none v order es :
  incl es order -> pick_edge v order es = None -> ends_at v es = 0.
Proof.
  intros Hincl Hp. apply ends_at_zero. intros a b w Hin.
  assert (Hnone : forall e, In e order ->
            match other_end v e with
            | Some n => take_edge v n es = None
            | None => True
            end).
  { clear Hincl Hin. induction order as [|e order IH]; intros x Hx; [destruct Hx|].
    simpl in Hp. destruct (other_end v e) as [m|] eqn:Ho.
    - destruct (take_edge v m es) as [r|] eqn:Ht; [discriminate|].
      destruct Hx as [<-|Hx]; [rewrite Ho; exact Ht | apply IH; assumption].
    - destruct Hx as [<-|Hx]; [rewrite Ho; exact I | apply IH; assumption]. }
  specialize (Hnone (a, b, w) (Hincl _ Hin)).
  destruct (other_end v (a, b, w)) as [n|] eqn:Ho.
  - exfalso. pose proof (@take_edge_none v n es (a, b, w) Hnone Hin) as Hb.
    apply other_end_between in Ho. congruence.
  - apply (@ends_at_zero_one v a b w). exact Ho.
Qed.

(* ================================================================== *)
(** * The Eulerian circuit loop                                         *)
(* ================================================================== *)

Lemma pairs_snoc p l x : pairs ((p ++ [l]) ++ [x]) = pairs (p ++ [l]) ++ [(l, x)].
Proof.
  induction p as [|a p IH]; simpl; [reflexivity|].
  destruct (p ++ [l]) as [|b q] eqn:Hq.
  - destruct p; discriminate.
  - simpl in *. rewrite IH. reflexivity.
Qed.

Lemma pairs_length l : length (pairs l) = length l - 1.
Proof.
  induction l as [|a [|b l] IH]; simpl in *; try reflexivity. rewrite IH. lia.
Qed.

Lemma pairs_rebuild l :
  pairs l <> [] ->
  exists e r, rev (pairs l) = e :: r /\ map fst (pairs l) ++ [snd e] = l.
Proof.
  induction l as [|a [|b l] IH]; simpl; intros H; try congruence.
  destruct l as [|c l].
  - simpl. exists (a, b), []. auto.
  - destruct IH as [e [r [Hr Hm]]]; [simpl; discriminate|].
    exists e, (r ++ [(a, b)]). split.
    + change (pairs (b :: c :: l)) with ((b, c) :: pairs (c :: l)) in *.
      rewrite Hr. reflexivity.
    + simpl in *. f_equal. exact Hm.
Qed.

Lemma norm_swap a b : norm (a, b) = norm (b, a).
Proof. apply norm_eq_iff. auto. Qed.

Section Euler.

Variable src : vertex.
Variable es0 : list wedge.

Local Abbreviation euler_inv := (euler_inv src es0).

Lemma perm_snoc_norm (x : edge) (out : list edge) :
  Permutation (norm x :: map norm out) (map norm (out ++ [x])).
Proof. rewrite map_app. simpl. apply Permutation_cons_append. Qed.

Lemma parity_step (top next a v : vertex) (n n' : nat) :
  n = n' + (if Nat.eqb v top then 1 else 0) + (if Nat.eqb v next then 1 else 0) ->
  Nat.odd n = negb (Nat.eqb top a) && (Nat.eqb v top || Nat.eqb v a) ->
  Nat.odd n' = negb (Nat.eqb next a) && (Nat.eqb v next || Nat.eqb v a).
Proof.
  intros -> H. rewrite !Nat.odd_add in H.
  assert (Hb : forall c : bool, Nat.odd (if c then 1 else 0) = c)
    by (intros [|]; reflexivity).
  rewrite !Hb in H. clear Hb.
  destruct (Nat.odd n');
    destruct (Nat.eqb_spec top a); destruct (Nat.eqb_spec v top);
    destruct (Nat.eqb_spec v a); destruct (Nat.eqb_spec next a);
    destruct (Nat.eqb_spec v next); subst; simpl in *; congruence.
Qed.

Lemma ends_at_pick v n es1 a b w es2 x :
  (a = v /\ b = n) \/ (a = n /\ b = v) ->
  ends_at x (es1 ++ (a, b, w) :: es2) =
  ends_at x (es1 ++ es2)
  + (if Nat.eqb x v then 1 else 0) + (if Nat.eqb x n then 1 else 0).
Proof.
  intros H. rewrite !ends_at_app. simpl.
  rewrite (Nat.eqb_sym x v), (Nat.eqb_sym x n).
  destruct H as [[-> ->]|[-> ->]]; lia.
Qed.

Lemma euler_loop_inv fuel :
  forall es stack last out a pend pops D,
    euler_inv es stack last out a pend pops D ->
    2 * length es + length stack <= fuel ->
    exists out' es' a' pops' D',
      euler_loop fuel es0 es stack last out = Ok out' /\
      euler_inv es' [] (Some src) out' a' [] pops' D'.
Proof.
  induction fuel as [|fuel IH]; intros es stack last out a pend pops D Hinv Hfuel.
  - destruct stack; [|simpl in Hfuel; lia]. simpl.
    pose proof (ei_end Hinv eq_refl) as Hl. subst last.
    exists out, es, a, pops, D. split; [reflexivity|].
    destruct (ei_last Hinv) as [? [? [? Hp]]]. subst pend. exact Hinv.
  - destruct stack as [|cur rest].
    { simpl. pose proof (ei_end Hinv eq_refl) as Hl. subst last.
      exists out, es, a, pops, D. split; [reflexivity|].
      destruct (ei_last Hinv) as [? [? [? Hp]]]. subst pend. exact Hinv. }
    simpl. destruct (pick_edge cur es0 es) as [[next es']|] eqn:Hpick.
    + (* follow an edge *)
      destruct (pick_edge_some _ _ _ Hpick)
        as [es1 [x [y [w [es2 [Hes [Hes' Hxy]]]]]]].
      apply IH with (a := a) (pend := pend) (pops := pops) (D := D).
      * constructor.
        -- right. destruct (ei_bottom Hinv) as [?|[s Hs]]; [discriminate|].
           exists (next :: s). rewrite Hs. reflexivity.
        -- discriminate.
        -- intros top rest' Heq v. inversion Heq; subst top rest'.
           eapply parity_step; [|apply (ei_parity Hinv eq_refl v)].
           rewrite Hes, Hes'. apply ends_at_pick. exact Hxy.
        -- eapply perm_trans; [apply (ei_perm Hinv)|].
           rewrite Hes, Hes'. unfold ends. rewrite !map_app. simpl.
           rewrite ?map_app. simpl.
           rewrite <- !app_assoc. apply Permutation_app_head.
           simpl.
           assert (Hn : norm (strip (x, y, w)) = norm (next, cur)).
           { unfold strip; simpl. apply norm_eq_iff. tauto. }
           rewrite Hn. apply Permutation_middle.
        -- pose proof (ei_last Hinv) as Hl. destruct last; auto.
        -- apply (ei_out Hinv).
        -- intros v Hv. pose proof (ei_done Hinv v Hv) as Hz.
           rewrite Hes in Hz. rewrite Hes'.
           rewrite ends_at_app in *. simpl in Hz. lia.
        -- intros p q z Hin.
           destruct (ei_seen Hinv p q z Hin) as [He|[Hp Hq]].
           ++ rewrite Hes in He. apply in_app_or in He.
              destruct He as [He|[He|He]].
              ** left. rewrite Hes'. apply in_or_app; auto.
              ** right. inversion He; subst p q z.
                 simpl. destruct Hxy as [[-> ->]|[-> ->]]; auto.
              ** left. rewrite Hes'. apply in_or_app; auto.
           ++ right. simpl in *. tauto.
        -- intros e He. apply (ei_sub Hinv). rewrite Hes. rewrite Hes' in He.
           apply in_app_or in He. apply in_or_app. simpl. tauto.
      * rewrite Hes in Hfuel. rewrite Hes'.
        rewrite length_app in *. simpl in *. lia.
    + (* pop *)
      apply (@pick_edge_none cur es0 es (ei_sub Hinv)) in Hpick.
      assert (Hca : cur = a).
      { pose proof (ei_parity Hinv eq_refl cur) as Hp.
        rewrite Hpick, Nat.eqb_refl in Hp. simpl in Hp.
        destruct (Nat.eqb_spec cur a); [assumption | discriminate]. }
      subst a.
      assert (Hbot : rest = [] -> cur = src).
      { intros ->. destruct (ei_bottom Hinv) as [?|[s Hs]]; [discriminate|].
        destruct s as [|? [|? ?]]; simpl in Hs; inversion Hs; auto. }
      set (a' := match rest with [] => cur | below :: _ => below end).
      set (pend' := match rest with [] => [] | below :: _ => [(below, cur)] end).
      apply IH with (a := a') (pend := pend') (pops := pops ++ [cur])
                    (D := cur :: D).
      * constructor.
        -- destruct rest as [|below r]; [left; reflexivity|].
           right. destruct (ei_bottom Hinv) as [?|[s Hs]]; [discriminate|].
           destruct s as [|c s]; simpl in Hs; inversion Hs; subst.
           exists s. assumption.
        -- intros Hr. rewrite (Hbot Hr). reflexivity.
        -- intros top rest' Heq v. subst rest. subst a'.
           rewrite Nat.eqb_refl. simpl.
           pose proof (ei_parity Hinv eq_refl v) as Hp.
           rewrite Nat.eqb_refl in Hp. simpl in Hp. exact Hp.
        -- eapply perm_trans; [apply (ei_perm Hinv)|].
           unfold ends. rewrite !map_app. apply Permutation_app_head.
           pose proof (ei_last Hinv) as Hl. pose proof (ei_out Hinv) as Ho.
           destruct last as [l|].
           ++ destruct Hl as [_ [_ [_ Hpend]]]. rewrite Hpend.
              subst pend'. destruct rest as [|below r]; simpl.
              ** rewrite (norm_swap cur l). apply perm_snoc_norm.
              ** rewrite (norm_swap cur below).
                 eapply perm_trans; [apply Permutation_middle|].
                 apply Permutation_app_head. apply perm_skip.
                 rewrite (norm_swap cur l). apply perm_snoc_norm.
           ++ destruct Hl as [_ [-> _]].
              subst pend'. destruct rest as [|below r]; simpl.
              ** apply Permutation_refl.
              ** rewrite (norm_swap cur below). apply Permutation_middle.
        -- repeat split.
           ++ eexists; reflexivity.
           ++ pose proof (ei_last Hinv) as Hl. destruct last as [l|].
              ** destruct Hl as [[p Hp] [Hh _]]. rewrite Hp in *.
                 destruct p; simpl in *; auto.
              ** destruct Hl as [-> [_ Ha]]. simpl. auto.
           ++ left; reflexivity.
           ++ subst pend' a'. destruct rest; reflexivity.
        -- pose proof (ei_last Hinv) as Hl. pose proof (ei_out Hinv) as Ho.
           destruct last as [l|].
           ++ destruct Hl as [[p Hp] _]. subst pops.
              rewrite pairs_snoc. rewrite Ho. reflexivity.
           ++ destruct Hl as [-> _]. simpl. exact Ho.
        -- intros v [<-|Hv]; [assumption | apply (ei_done Hinv v Hv)].
        -- intros p q z Hin.
           destruct (ei_seen Hinv p q z Hin) as [He|[Hp Hq]]; [auto|].
           right. simpl in *. tauto.
        -- apply (ei_sub Hinv).
      * simpl in *. lia.
Qed.
End Euler.

Lemma ends_at_outside M v :
  mwf M -> ~ In v (mnodes M) -> ends_at v (medges M) = 0.
Proof.
  intros Hwf Hv. apply ends_at_zero. intros a b w Hin.
  destruct (Hwf _ _ _ Hin) as [Ha Hb]. split; intros ->; contradiction.
Qed.

Lemma is_eulerian_true M :
  mwf M -> connected M -> even_degrees M -> is_eulerian M = Ok true.
Proof.
  intros Hwf Hc He. unfold is_eulerian.
  apply even_degrees_forallb in He. rewrite He.
  apply is_connected_true; assumption.
Qed.

Lemma is_eulerian_not M :
  mwf M -> ~ connected M \/ ~ even_degrees M -> is_eulerian M <> Ok true.
Proof.
  intros Hwf H Heq. unfold is_eulerian in Heq.
  destruct (forallb (fun v => Nat.even (mdegree M v)) (mnodes M)) eqn:Hb;
    [|discriminate].
  apply even_degrees_forallb in Hb. apply is_connected_true in Heq; tauto.
Qed.

(** On a connected multigraph with even degrees the loop hands back a
    closed walk from the source that uses every edge once. *)
Lemma eulerian_circuit_correct M src :
  mwf M -> connected M -> even_degrees M -> In src (mnodes M) ->
  exists pops,
    eulerian_circuit M src = Ok (pairs pops) /\
    hd src pops = src /\ last pops src = src /\ pops <> [] /\
    Permutation (map norm (ends (medges M))) (map norm (pairs pops)).
Proof.
  intros Hwf Hc He Hsrc. unfold eulerian_circuit.
  rewrite is_eulerian_true by assumption. simpl.
  apply memb_In in Hsrc. rewrite Hsrc. simpl. apply memb_In in Hsrc.
  set (C := copy_edges (medges M) (mnodes M) (medges M)).
  assert (HC : C = medges (MultiGraph_copy M)) by reflexivity.
  assert (HwfC : forall a b w, In (a, b, w) C -> In a (mnodes M) /\ In b (mnodes M)).
  { intros a b w Hin. rewrite HC in Hin. apply (copy_mwf Hwf) in Hin. exact Hin. }
  assert (HPC : Permutation (map norm (ends C)) (map norm (ends (medges M))))
    by (rewrite HC; apply copy_norm_perm; exact Hwf).
  destruct (@euler_loop_inv src C
              (length C + (length C + 0) + 1)
              C [src] None [] src [] [] [])
    as [out [es' [a' [pops [D [Hrun Hinv]]]]]].
  - constructor.
    + right. exists []. reflexivity.
    + discriminate.
    + intros top rest Heq v. inversion Heq; subst. rewrite Nat.eqb_refl. simpl.
      rewrite HC, (copy_ends_at v Hwf).
      destruct (in_dec Nat.eq_dec v (mnodes M)) as [Hv|Hv].
      * specialize (He v Hv). unfold mdegree in He.
        rewrite <- Nat.negb_even, He. reflexivity.
      * rewrite ends_at_outside by assumption. reflexivity.
    + simpl. rewrite app_nil_r. apply Permutation_refl.
    + simpl. auto.
    + reflexivity.
    + intros v [].
    + intros x y w H. auto.
    + apply incl_refl.
  - simpl. lia.
  - rewrite Hrun.
    destruct (ei_last Hinv) as [[p Hp] [Hhd [HD _]]].
    assert (Hclosed : closed_under C D).
    { intros x y w Hin.
      destruct (ei_seen Hinv _ _ _ Hin) as [He'|[[Hx|[]] [Hy|[]]]]; [|tauto].
      split; intros HxD; exfalso;
        apply (ei_done Hinv) in HxD;
        rewrite ends_at_zero in HxD;
        destruct (HxD _ _ _ He'); congruence. }
    assert (Hnil : es' = []).
    { destruct es' as [|[[x y] w] es'']; [reflexivity|]. exfalso.
      assert (Hin0 : In (x, y, w) C)
        by (apply (ei_sub Hinv); left; reflexivity).
      destruct (HwfC _ _ _ Hin0) as [HxV _].
      destruct Hc as [_ Hc].
      assert (Hconn : conn (ends C) src x).
      { eapply conn_norm_perm; [apply Permutation_sym; exact HPC|].
        apply Hc; assumption. }
      pose proof (@closed_conn C D src x Hclosed Hconn HD) as HxD.
      apply (ei_done Hinv) in HxD. simpl in HxD.
      rewrite Nat.eqb_refl in HxD. lia. }
    exists pops. rewrite (ei_out Hinv). split; [reflexivity|].
    split; [assumption|]. split; [rewrite Hp; apply last_last|].
    split; [rewrite Hp; destruct p; discriminate|].
    pose proof (ei_perm Hinv) as HP. rewrite Hnil in HP. simpl in HP.
    rewrite (ei_out Hinv) in HP.
    eapply perm_trans; [apply Permutation_sym; exact HPC | exact HP].
Qed.

(** The walk returned by [_create_eulerian_path]. *)
Lemma create_eulerian_path_ok M start :
  mwf M -> connected M -> even_degrees M -> In start (mnodes M) ->
  1 <= length (medges M) ->
  exists walk,
    _create_eulerian_path M start = Ok walk /\
    length walk = length (medges M) + 1 /\
    hd start walk = start /\ last walk start = start /\
    Permutation (map norm (pairs walk)) (map norm (ends (medges M))).
Proof.
  intros Hwf Hc He Hs HE.
  destruct (@eulerian_circuit_correct M start Hwf Hc He Hs)
    as [pops [Hrun [Hhd [Hlast [Hne HP]]]]].
  unfold _create_eulerian_path. rewrite Hrun. simpl.
  assert (Hlen : length (pairs pops) = length (medges M)).
  { apply Permutation_length in HP. unfold ends in HP.
    rewrite !length_map in HP. auto. }
  destruct (@pairs_rebuild pops) as [e [r [Hr Hm]]].
  { intros H. rewrite H in Hlen. simpl in Hlen. lia. }
  rewrite Hr. exists (map fst (pairs pops) ++ [snd e]).
  split; [reflexivity|]. rewrite Hm.
  split; [|split; [assumption | split; [assumption | apply Permutation_sym, HP]]].
  rewrite pairs_length in Hlen. destruct pops; [congruence|]. simpl in *. lia.
Qed.

Lemma create_eulerian_path_raises M start :
  mwf M -> ~ connected M \/ ~ even_degrees M ->
  exists e, _create_eulerian_path M start = Raise e.
Proof.
  intros Hwf H. pose proof (@is_eulerian_not M Hwf H) as Hn.
  unfold _create_eulerian_path, eulerian_circuit.
  destruct (is_eulerian M) as [[|]|e]; simpl; eauto. congruence.
Qed.

(* ================================================================== *)
(** * Edge lists up to order and orientation                            *)
(* ================================================================== *)

Lemma ends_at_swap v es : ends_at v (map swap3 es) = ends_at v es.
Proof.
  induction es as [|[[a b] w] es IH]; simpl; [reflexivity|]. rewrite IH. lia.
Qed.

Lemma count_edge_app u v d es1 es2 :
  count_edge u v d (es1 ++ es2) = count_edge u v d es1 + count_edge u v d es2.
Proof. unfold count_edge. rewrite filter_app, length_app. reflexivity. Qed.

Lemma count_edge_perm u v d es1 es2 :
  Permutation es1 es2 -> count_edge u v d es1 = count_edge u v d es2.
Proof.
  intros H. unfold count_edge. apply Permutation_length.
  induction H as [|x l l' H IH| |]; simpl.
  - constructor.
  - destruct (let '(a, b, w) := x in _); [constructor|]; assumption.
  - destruct (let '(a, b, w) := x in _); destruct (let '(a, b, w) := y in _);
      try apply perm_swap; apply Permutation_refl.
  - eapply perm_trans; eassumption.
Qed.

Lemma same_uedge_swap u v a b : same_uedge u v b a = same_uedge u v a b.
Proof. unfold same_uedge. apply orb_comm. Qed.

Lemma count_edge_swap u v d es :
  count_edge u v d (map swap3 es) = count_edge u v d es.
Proof.
  unfold count_edge. induction es as [|[[a b] w] es IH]; simpl; [reflexivity|].
  rewrite same_uedge_swap.
  destruct (same_uedge u v a b && _); simpl; rewrite IH; reflexivity.
Qed.

Lemma ends_swap es : map norm (ends (map swap3 es)) = map norm (ends es).
Proof.
  unfold ends. rewrite !map_map. apply map_ext. intros [[a b] w].
  unfold strip; simpl. apply norm_swap.
Qed.

(* ================================================================== *)
(** * Building multigraphs                                              *)
(* ================================================================== *)

Lemma mnodes_madd_node u M x :
  In x (mnodes (madd_node u M)) <-> In x (mnodes M) \/ x = u.
Proof.
  unfold madd_node. destruct (memb u (mnodes M)) eqn:Hm; simpl.
  - apply memb_In in Hm. split; [auto | intros [H| ->]; auto].
  - rewrite in_app_iff. simpl. split; intros [H|H]; auto.
    destruct H as [<-|[]]; auto.
Qed.

Lemma medges_madd_node u M : medges (madd_node u M) = medges M.
Proof. unfold madd_node. destruct (memb u (mnodes M)); reflexivity. Qed.

Lemma madd_node_present u M : In u (mnodes M) -> madd_node u M = M.
Proof.
  intros H. unfold madd_node. apply memb_In in H. rewrite H. reflexivity.
Qed.

Lemma medges_madd_edges es M : medges (madd_edges es M) = medges M ++ es.
Proof.
  revert M. induction es as [|[[a b] w] es IH]; intros M; simpl.
  - rewrite app_nil_r. reflexivity.
  - unfold madd_edges in IH. rewrite IH. unfold madd_edge. simpl.
    rewrite !medges_madd_node, <- app_assoc. reflexivity.
Qed.

Lemma mnodes_madd_edges es M x :
  In x (mnodes (madd_edges es M)) <->
  In x (mnodes M) \/ exists u v w, In (u, v, w) es /\ (x = u \/ x = v).
Proof.
  revert M. induction es as [|[[a b] d] es IH]; intros M; simpl.
  - split; [auto | intros [H|[u [v [w [[] _]]]]]; auto].
  - unfold madd_edges in IH. rewrite IH. unfold madd_edge. simpl.
    rewrite !mnodes_madd_node. split.
    + intros [[[H| ->]| ->]|[u [v [w [Hin Hx]]]]]; auto.
      * right. exists a, b, d. auto.
      * right. exists a, b, d. auto.
      * right. exists u, v, w. auto.
    + intros [H|[u [v [w [[Heq|Hin] Hx]]]]]; auto.
      * inversion Heq; subst. left. tauto.
      * right. exists u, v, w. auto.
Qed.

Lemma mnodes_madd_edges_present es M :
  (forall u v d, In (u, v, d) es -> In u (mnodes M) /\ In v (mnodes M)) ->
  mnodes (madd_edges es M) = mnodes M.
Proof.
  revert M. induction es as [|[[a b] d] es IH]; intros M H; simpl; [reflexivity|].
  destruct (H a b d (or_introl eq_refl)) as [Ha Hb].
  assert (Hm : madd_edge a b d M = mk_multi (mnodes M) (medges M ++ [(a, b, d)])).
  { unfold madd_edge. rewrite (madd_node_present _ _ Ha), (madd_node_present _ _ Hb).
    reflexivity. }
  unfold madd_edges in IH. rewrite Hm, IH; [reflexivity|].
  simpl. intros u v d' Hin. apply (H u v d'). right; assumption.
Qed.

Lemma mwf_madd_edges es M : mwf M -> mwf (madd_edges es M).
Proof.
  intros Hwf u v w Hin. rewrite medges_madd_edges in Hin.
  rewrite !mnodes_madd_edges. apply in_app_or in Hin. destruct Hin as [Hin|Hin].
  - destruct (Hwf _ _ _ Hin). auto.
  - split; right; exists u, v, w; auto.
Qed.

(** ** The doubled graph *)

Lemma duplicate_as_entries T :
  _duplicate_weighted_graph T =
  madd_edges (entries (gedges T) (gnodes T)) empty_multi.
Proof.
  unfold _duplicate_weighted_graph, madd_edges, entries.
  rewrite fold_left_flat_map. apply fold_left_extensional. intros M v.
  rewrite fold_left_over_map. apply fold_left_extensional.
  intros M' [w d]. reflexivity.
Qed.

Lemma entries_cons e es ns :
  Permutation (entries (e :: es) ns) (flat_map (contrib e) ns ++ entries es ns).
Proof.
  unfold entries. induction ns as [|v ns IH]; simpl; [constructor|].
  destruct e as [[a b] d]. simpl.
  destruct (Nat.eqb a v); [|destruct (Nat.eqb b v)]; simpl.
  - apply perm_skip.
    eapply perm_trans; [apply Permutation_app_head; exact IH|].
    apply Permutation_app_swap_app.
  - apply perm_skip.
    eapply perm_trans; [apply Permutation_app_head; exact IH|].
    apply Permutation_app_swap_app.
  - eapply perm_trans; [apply Permutation_app_head; exact IH|].
    apply Permutation_app_swap_app.
Qed.

Lemma contrib_none a b d ns :
  ~ In a ns -> ~ In b ns -> flat_map (contrib (a, b, d)) ns = [].
Proof.
  induction ns as [|v ns IH]; simpl; intros Ha Hb; [reflexivity|].
  destruct (Nat.eqb_spec a v); [subst; exfalso; auto|].
  destruct (Nat.eqb_spec b v); [subst; exfalso; auto|].
  simpl. apply IH; auto.
Qed.

Lemma contrib_one a b d ns :
  NoDup ns -> a <> b -> In a ns -> ~ In b ns ->
  flat_map (contrib (a, b, d)) ns = [(a, b, d)].
Proof.
  induction 1 as [|v ns Hv Hnd IH]; simpl; intros Hab Ha Hb; [tauto|].
  destruct (Nat.eqb_spec a v) as [->|Hav].
  - simpl. rewrite contrib_none; auto.
  - destruct (Nat.eqb_spec b v); [subst; exfalso; auto|]. simpl.
    apply IH; auto. destruct Ha; [congruence | assumption].
Qed.

Lemma contrib_one' a b d ns :
  NoDup ns -> a <> b -> ~ In a ns -> In b ns ->
  flat_map (contrib (a, b, d)) ns = [(b, a, d)].
Proof.
  induction 1 as [|v ns Hv Hnd IH]; simpl; intros Hab Ha Hb; [tauto|].
  destruct (Nat.eqb_spec a v) as [->|Hav]; [exfalso; auto|].
  destruct (Nat.eqb_spec b v) as [->|Hbv].
  - simpl. rewrite contrib_none; auto.
  - simpl. apply IH; auto. destruct Hb; [congruence | assumption].
Qed.

Lemma contrib_two a b d ns :
  NoDup ns -> a <> b -> In a ns -> In b ns ->
  Permutation (flat_map (contrib (a, b, d)) ns) [(a, b, d); (b, a, d)].
Proof.
  induction 1 as [|v ns Hv Hnd IH]; simpl; intros Hab Ha Hb; [tauto|].
  destruct (Nat.eqb_spec a v) as [->|Hav].
  - simpl. rewrite contrib_one'; auto.
    destruct Hb; [congruence | assumption].
  - destruct (Nat.eqb_spec b v) as [->|Hbv].
    + simpl. rewrite contrib_one; auto; [apply perm_swap|].
      destruct Ha; [congruence | assumption].
    + simpl. apply IH; auto.
      * destruct Ha; [congruence | assumption].
      * destruct Hb; [congruence | assumption].
Qed.

Lemma entries_nil ns : entries [] ns = [].
Proof. unfold entries. induction ns; simpl; auto. Qed.

(** Read from both ends, every edge is met twice. *)
Lemma entries_perm es ns :
  NoDup ns ->
  (forall a b d, In (a, b, d) es -> In a ns /\ In b ns /\ a <> b) ->
  Permutation (entries es ns) (es ++ map swap3 es).
Proof.
  intros Hnd. induction es as [|[[a b] d] es IH]; intros H.
  - rewrite entries_nil. constructor.
  - eapply perm_trans; [apply entries_cons|].
    destruct (H a b d (or_introl eq_refl)) as [Ha [Hb Hab]].
    eapply perm_trans;
      [apply Permutation_app; [apply contrib_two; assumption | apply IH]|].
    + intros a' b' d' Hin. apply (H a' b' d'). right; assumption.
    + simpl. apply perm_skip.
      change ((b, a, d) :: es ++ map swap3 es)
        with ([(b, a, d)] ++ es ++ map swap3 es).
      change (es ++ (b, a, d) :: map swap3 es)
        with (es ++ [(b, a, d)] ++ map swap3 es).
      rewrite !app_assoc. apply Permutation_app_tail, Permutation_app_comm.
Qed.

Lemma degree_ends_at T v : gwf T -> degree T v = ends_at v (gedges T).
Proof.
  intros [_ Hwf]. unfold degree, get_adj.
  assert (Hloop : memb v (map fst (adj_of (gedges T) v)) = false).
  { apply memb_false. intros Hin. apply in_map_iff in Hin.
    destruct Hin as [[x d] [Hx Hin]]. simpl in Hx. subst x.
    apply adj_of_spec in Hin. destruct Hin as [Hin|Hin];
      apply Hwf in Hin; tauto. }
  rewrite Hloop, Nat.add_0_r.
  assert (Hgen : forall es,
            (forall a b d, In (a, b, d) es -> a <> b) ->
            length (adj_of es v) = ends_at v es).
  { induction es as [|[[a b] d] es IH]; intros Hl; simpl; [reflexivity|].
    assert (a <> b) by (eapply Hl; left; reflexivity).
    assert (IH' : length (adj_of es v) = ends_at v es)
      by (apply IH; intros; eapply Hl; right; eassumption).
    destruct (Nat.eqb_spec a v); destruct (Nat.eqb_spec b v); simpl; lia. }
  apply Hgen. intros a b d Hin. apply Hwf in Hin. tauto.
Qed.

Lemma dup_medges_perm T :
  gwf T ->
  Permutation (medges (_duplicate_weighted_graph T))
              (gedges T ++ map swap3 (gedges T)).
Proof.
  intros [Hnd Hwf]. rewrite duplicate_as_entries, medges_madd_edges. simpl.
  apply entries_perm; assumption.
Qed.

Lemma dup_degree T v :
  gwf T -> mdegree (_duplicate_weighted_graph T) v = 2 * degree T v.
Proof.
  intros Hwf. unfold mdegree.
  rewrite (ends_at_perm v (dup_medges_perm Hwf)), ends_at_app, ends_at_swap.
  rewrite degree_ends_at by assumption. lia.
Qed.

Lemma dup_count T u v d :
  gwf T ->
  count_edge u v d (medges (_duplicate_weighted_graph T)) =
  2 * count_edge u v d (gedges T).
Proof.
  intros Hwf.
  rewrite (count_edge_perm u v d (dup_medges_perm Hwf)), count_edge_app,
    count_edge_swap. lia.
Qed.

Lemma dup_mwf T : mwf (_duplicate_weighted_graph T).
Proof.
  rewrite duplicate_as_entries. apply mwf_madd_edges. intros u v w [].
Qed.

Lemma dup_mnodes T x :
  gwf T ->
  (In x (mnodes (_duplicate_weighted_graph T)) <->
   exists y, adj (ends (gedges T)) x y).
Proof.
  intros Hwf. rewrite duplicate_as_entries, mnodes_madd_edges. simpl.
  pose proof (dup_medges_perm Hwf) as HP.
  rewrite duplicate_as_entries, medges_madd_edges in HP. simpl in HP.
  split.
  - intros [[]|[u [v [w [Hin Hx]]]]].
    apply (Permutation_in _ HP) in Hin. apply in_app_or in Hin.
    destruct Hin as [Hin|Hin].
    + destruct Hx as [-> | ->].
      * exists v. left. apply in_ends. eauto.
      * exists u. right. apply in_ends. eauto.
    + apply in_map_iff in Hin. destruct Hin as [[[a b] d] [Heq Hin]].
      simpl in Heq. inversion Heq; subst.
      destruct Hx as [-> | ->].
      * exists v. right. apply in_ends. eauto.
      * exists u. left. apply in_ends. eauto.
  - intros [y [H|H]]; apply in_ends in H; destruct H as [w H]; right.
    + exists x, y, w. split; [|auto].
      eapply Permutation_in; [apply Permutation_sym, HP|].
      apply in_or_app. auto.
    + exists y, x, w. split; [|auto].
      eapply Permutation_in; [apply Permutation_sym, HP|].
      apply in_or_app. auto.
Qed.

Lemma dup_conn T x y :
  gwf T -> conn (ends (gedges T)) x y ->
  conn (ends (medges (_duplicate_weighted_graph T))) x y.
Proof.
  intros Hwf. apply conn_norm_incl. intros e He.
  pose proof (dup_medges_perm Hwf) as HP.
  eapply Permutation_in.
  - apply Permutation_sym. apply Permutation_map. apply Permutation_map. exact HP.
  - unfold ends. rewrite !map_app. apply in_or_app. left. exact He.
Qed.

Lemma connected_has_edge T x :
  graph_connected T -> 2 <= length (gnodes T) -> NoDup (gnodes T) ->
  In x (gnodes T) -> exists y, adj (ends (gedges T)) x y.
Proof.
  intros [_ Hc] Hlen Hnd Hx.
  assert (Hy : exists y, In y (gnodes T) /\ y <> x).
  { destruct (gnodes T) as [|a [|b l]]; simpl in *; try lia.
    destruct (Nat.eq_dec a x) as [->|Hne].
    - exists b. split; auto. intros ->. inversion Hnd; subst. simpl in *; tauto.
    - exists a. auto. }
  destruct Hy as [y [Hy Hne]].
  destruct (conn_endpoint (Hc y x Hy Hx)) as [?|[z Hz]]; [congruence|].
  exists z. apply adj_sym. assumption.
Qed.

(** The doubled tree of a connected graph with two or more nodes is
    connected. *)
Lemma dup_connected T :
  gwf T -> graph_connected T -> 2 <= length (gnodes T) ->
  connected (_duplicate_weighted_graph T).
Proof.
  intros Hwf Hc Hlen. pose proof Hwf as [Hnd Hedges]. split.
  - assert (Ha : exists a, In a (gnodes T)).
    { destruct (gnodes T); [simpl in Hlen; lia | eexists; left; reflexivity]. }
    destruct Ha as [a Ha].
    destruct (@connected_has_edge T a Hc Hlen Hnd Ha) as [y Hy].
    intros Hnil. assert (Hin : In a (mnodes (_duplicate_weighted_graph T))).
    { apply dup_mnodes; eauto. }
    rewrite Hnil in Hin. destruct Hin.
  - intros x y Hx Hy. apply dup_conn; [assumption|].
    apply dup_mnodes in Hx, Hy; try assumption.
    destruct Hx as [x' Hx], Hy as [y' Hy].
    destruct Hc as [_ Hc]. apply Hc.
    + destruct Hx as [H|H]; apply in_ends in H; destruct H as [w H];
        apply Hedges in H; tauto.
    + destruct Hy as [H|H]; apply in_ends in H; destruct H as [w H];
        apply Hedges in H; tauto.
Qed.

(* ================================================================== *)
(** * The Hamiltonian shortcut                                          *)
(* ================================================================== *)

Lemma hamiltonian_fold l ham ex :
  fold_left (fun '(ham, existed) v =>
               if memb v existed then (ham, existed)
               else (ham ++ [v], v :: existed)) l (ham, ex)
  = (ham ++ first_occ ex l, rev (first_occ ex l) ++ ex).
Proof.
  revert ham ex. induction l as [|x l IH]; intros ham ex; simpl.
  - rewrite app_nil_r. reflexivity.
  - destruct (memb x ex); rewrite IH; [reflexivity|].
    simpl. rewrite <- !app_assoc. reflexivity.
Qed.

Lemma create_hamiltonian_path_eq s l :
  _create_hamiltonian_path (s :: l) = Ok (first_occ [] (s :: l) ++ [s]).
Proof.
  unfold _create_hamiltonian_path. rewrite hamiltonian_fold. reflexivity.
Qed.

Lemma first_occ_in seen l x :
  In x (first_occ seen l) <-> In x l /\ ~ In x seen.
Proof.
  revert seen. induction l as [|y l IH]; intros seen; simpl; [tauto|].
  destruct (memb y seen) eqn:Hm.
  - apply memb_In in Hm. rewrite IH. split; [tauto|].
    intros [[->|H] Hn]; tauto.
  - apply memb_false in Hm. simpl. rewrite IH. simpl. split.
    + intros [->|[H Hn]]; tauto.
    + intros [[->|H] Hn]; [tauto|].
      destruct (Nat.eq_dec y x); [tauto|]. right. tauto.
Qed.

Lemma first_occ_nodup seen l : NoDup (first_occ seen l).
Proof.
  revert seen. induction l as [|y l IH]; intros seen; simpl; [constructor|].
  destruct (memb y seen); [apply IH|].
  constructor; [|apply IH].
  rewrite first_occ_in. simpl. tauto.
Qed.

(* ================================================================== *)
(** * The spanning tree of a cost matrix                                *)
(* ================================================================== *)

Lemma spanning_tree_ext V V' T :
  (forall x, In x V <-> In x V') -> length V = length V' ->
  spanning_tree V T -> spanning_tree V' T.
Proof.
  intros Hiff Hlen [H1 [H2 H3]]. split; [lia|]. split.
  - intros x y Hin. destruct (H2 x y Hin) as [? [? ?]].
    repeat split; auto; apply Hiff; assumption.
  - intros x y Hx Hy. apply H3; apply Hiff; assumption.
Qed.

Lemma nodes_length N (V : list vertex) :
  NoDup V -> (forall x, In x V <-> x < N) -> length V = N.
Proof.
  intros Hnd Hiff.
  assert (HP : Permutation V (seq 0 N)).
  { apply NoDup_Permutation; [assumption | apply seq_NoDup|].
    intros x. rewrite Hiff, in_seq. lia. }
  apply Permutation_length in HP. rewrite length_seq in HP. exact HP.
Qed.

Lemma mst_of_matrix N cm :
  square N cm -> finite_weights N cm -> float_weights N cm -> 2 <= N ->
  exists T,
    minimum_spanning_tree (_create_weighted_graph cm) = Ok T /\
    mst_facts N cm T.
Proof.
  intros Hsq Hfin Hfl HN.
  set (G := _create_weighted_graph cm).
  assert (HV : forall x, In x (gnodes G) <-> x < N)
    by (intros x; apply gnodes_create; assumption).
  assert (Hnd : NoDup (gnodes G)) by apply gnodes_create_nodup.
  assert (Hcomplete : forall u v d,
            In (v, d) (get_adj G u) <->
            In u (gnodes G) /\ In v (gnodes G) /\ u <> v /\ d = Some (wt cm u v)).
  { intros u v d. rewrite (HV u), (HV v). unfold G.
    rewrite (get_adj_create _ _ _ Hsq Hfin). tauto. }
  destruct (@minimum_spanning_tree_complete G (wt cm) Hnd Hcomplete
              (adj_create_sorted cm))
    as [T [vis [Hrun [HnT [Hg [Hall [Hw [Hprim Hties]]]]]]]].
  { intros u v Hu Hv. apply HV in Hu. apply HV in Hv.
    apply (wt_in_float_range Hfl); assumption. }
  { intros Hnil. assert (In 0 (gnodes G)) by (apply HV; lia).
    rewrite Hnil in H. destruct H. }
  exists T. split; [exact Hrun|].
  destruct (@growth_minimum (wt cm) (wt_sym cm) (gnodes G) Hnd vis
              (ends (gedges T)) Hg Hall) as [Htree [Hacyc Hmin]].
  assert (Hlen : length (gnodes G) = N) by (apply nodes_length; assumption).
  assert (Hseq : forall x, In x (gnodes G) <-> In x (seq 0 N)).
  { intros x. rewrite HV, in_seq. lia. }
  assert (Hends : forall a b d, In (a, b, d) (gedges T) ->
                    In a (gnodes T) /\ In b (gnodes T) /\ a <> b).
  { intros a b d Hin.
    assert (Hab : In (a, b) (ends (gedges T))) by (apply in_ends; eauto).
    destruct (growth_ends Hg _ _ Hab) as [Ha [Hb Hne]].
    rewrite HnT. repeat split; auto; eapply growth_vis_in_V; eauto. }
  constructor.
  - exact HnT.
  - intros x. rewrite HnT. apply HV.
  - rewrite HnT. exact Hnd.
  - split; [rewrite HnT; exact Hnd | exact Hends].
  - split.
    + rewrite HnT. intros Hnil. assert (In 0 (gnodes G)) by (apply HV; lia).
      rewrite Hnil in H. destruct H.
    + rewrite HnT. intros x y Hx Hy. eapply growth_conn; eauto.
  - exact Hw.
  - eapply spanning_tree_ext; [exact Hseq | rewrite length_seq; exact Hlen | exact Htree].
  - exact Hacyc.
  - intros T' HT'. apply Hmin.
    eapply spanning_tree_ext; [|rewrite length_seq; symmetry; exact Hlen | exact HT'].
    intros x. symmetry. apply Hseq.
  - exact Hprim.
  - unfold G in Hties. rewrite (hd_create Hsq HN) in Hties.
    rewrite <- Hties. apply ties_broken_by_ext.
    intros x. symmetry. apply Hseq.
Qed.

(* ================================================================== *)
(** * From an Eulerian walk to a route                                  *)
(* ================================================================== *)

Lemma pairs_in a b l : In (a, b) (pairs l) -> In a l /\ In b l.
Proof.
  induction l as [|x [|y l] IH]; simpl; try tauto.
  intros [H|H].
  - inversion H; subst. auto.
  - destruct (IH H). auto.
Qed.

Lemma pairs_cover l x :
  2 <= length l -> In x l -> exists y, adj (pairs l) x y.
Proof.
  induction l as [|a [|b l] IH]; simpl; intros Hlen Hx; try lia.
  destruct Hx as [->|Hx].
  - exists b. left. left. reflexivity.
  - destruct l as [|c l].
    + destruct Hx as [->|[]]. exists a. right. left. reflexivity.
    + destruct IH as [y Hy]; [simpl; lia | assumption|].
      exists y. destruct Hy as [H|H]; [left | right]; right; exact H.
Qed.

(** A closed walk that meets every vertex below [N], and nothing else,
    shortcuts to a tour of those vertices. *)
Lemma shortcut_route N start walk :
  hd start walk = start -> 2 <= length walk ->
  (forall x, In x walk <-> x < N) ->
  exists body,
    _create_hamiltonian_path walk = Ok (body ++ [start]) /\
    body = first_occ [] walk /\
    hd start body = start /\ Permutation body (seq 0 N).
Proof.
  intros Hhd Hlen Hcover.
  destruct walk as [|s l]; [simpl in Hlen; lia|]. simpl in Hhd. subst s.
  exists (first_occ [] (start :: l)). split; [apply create_hamiltonian_path_eq|].
  split; [reflexivity|]. split; [reflexivity|].
  apply NoDup_Permutation; [apply first_occ_nodup | apply seq_NoDup|].
  intros x. rewrite first_occ_in, Hcover, in_seq. simpl. lia.
Qed.

(** The vertices of an Eulerian walk are the nodes of its multigraph. *)
Lemma walk_vertices M walk x :
  mwf M -> 2 <= length walk ->
  Permutation (map norm (pairs walk)) (map norm (ends (medges M))) ->
  (forall v, In v (mnodes M) -> exists y, adj (ends (medges M)) v y) ->
  (In x walk <-> In x (mnodes M)).
Proof.
  intros Hwf Hlen HP Hall. split.
  - intros Hx. destruct (@pairs_cover walk x Hlen Hx) as [y Hy].
    apply in_map_norm in Hy. apply (Permutation_in _ HP) in Hy.
    apply in_map_norm in Hy.
    destruct Hy as [H|H]; apply in_ends in H; destruct H as [w H];
      apply Hwf in H; tauto.
  - intros Hx. destruct (Hall x Hx) as [y Hy].
    apply in_map_norm in Hy.
    apply (Permutation_in _ (Permutation_sym HP)) in Hy.
    apply in_map_norm in Hy.
    destruct Hy as [H|H]; apply pairs_in in H; tauto.
Qed.

(** The double-tree pipeline, stage by stage. *)
Lemma double_tree_stages N cm start :
  square N cm -> finite_weights N cm -> float_weights N cm -> 2 <= N ->
  start < N ->
  exists T walk body,
    minimum_spanning_tree (_create_weighted_graph cm) = Ok T /\
    mst_facts N cm T /\
    _create_eulerian_path (_duplicate_weighted_graph T) start = Ok walk /\
    hd start walk = start /\ last walk start = start /\
    2 <= length walk /\ (forall x, In x walk <-> x < N) /\
    Permutation (map norm (pairs walk))
                (map norm (ends (medges (_duplicate_weighted_graph T)))) /\
    body = first_occ [] walk /\
    double_tree_algorithm cm start = Ok (body ++ [start]) /\
    hd start body = start /\ Permutation body (seq 0 N).
Proof.
  intros Hsq Hfin Hfl HN Hstart.
  destruct (mst_of_matrix Hsq Hfin Hfl HN) as [T [Hrun HT]].
  set (M := _duplicate_weighted_graph T).
  assert (Hlen : length (gnodes T) = N)
    by (apply nodes_length; [apply (mf_nodup HT) | apply (mf_nodes HT)]).
  assert (Hedge : forall v, In v (gnodes T) -> exists y, adj (ends (gedges T)) v y).
  { intros v Hv.
    apply connected_has_edge;
      [apply (mf_connected HT) | lia | apply (mf_nodup HT) | assumption]. }
  assert (Hnodes : forall x, In x (mnodes M) <-> x < N).
  { intros x. unfold M. rewrite dup_mnodes by apply (mf_gwf HT). split.
    - intros [y Hy]. apply (mf_nodes HT).
      destruct Hy as [H|H]; apply in_ends in H; destruct H as [w H];
        apply (mf_gwf HT) in H; tauto.
    - intros Hx. apply Hedge. apply (mf_nodes HT). assumption. }
  assert (Hconn : connected M).
  { apply dup_connected; [apply (mf_gwf HT) | apply (mf_connected HT) | lia]. }
  assert (Heven : even_degrees M).
  { intros v _. unfold M. rewrite dup_degree by apply (mf_gwf HT).
    rewrite Nat.even_mul. reflexivity. }
  assert (HE : 1 <= length (medges M)).
  { destruct (Hedge start) as [y Hy]; [apply (mf_nodes HT); assumption|].
    assert (Hin : In start (mnodes M)) by (apply Hnodes; assumption).
    destruct (medges M) eqn:Hm; [|simpl; lia].
    exfalso. unfold M in Hin. rewrite dup_mnodes in Hin by apply (mf_gwf HT).
    pose proof (dup_medges_perm (mf_gwf HT)) as HP. fold M in HP.
    rewrite Hm in HP. apply Permutation_nil in HP.
    apply app_eq_nil in HP. destruct HP as [HP _]. rewrite HP in Hy.
    destruct Hy as [[]|[]]. }
  destruct (@create_eulerian_path_ok M start (dup_mwf T) Hconn Heven)
    as [walk [Hwalk [Hwlen [Hhd [Hlast HP]]]]]; [apply Hnodes; assumption | assumption|].
  assert (Hcover : forall x, In x walk <-> x < N).
  { intros x. rewrite <- Hnodes. apply walk_vertices; try assumption.
    - apply dup_mwf.
    - lia.
    - intros v Hv. apply Hnodes in Hv. apply (mf_nodes HT) in Hv.
      destruct (Hedge v Hv) as [y Hy]. exists y.
      apply in_map_norm.
      pose proof (dup_medges_perm (mf_gwf HT)) as HP'. fold M in HP'.
      eapply Permutation_in.
      + apply Permutation_sym. apply Permutation_map, Permutation_map. exact HP'.
      + unfold ends. rewrite !map_app. apply in_or_app. left.
        apply in_map_norm. exact Hy. }
  destruct (@shortcut_route N start walk Hhd) as [body [Hham [Hbody [Hbhd Hperm]]]];
    [lia | assumption|].
  exists T, walk, body.
  split; [exact Hrun|]. split; [exact HT|]. split; [exact Hwalk|].
  split; [exact Hhd|]. split; [exact Hlast|]. split; [lia|].
  split; [exact Hcover|]. split; [exact HP|].
  split; [exact Hbody|]. split; [|split; assumption].
  unfold double_tree_algorithm. cbv zeta. rewrite Hrun. simpl.
  fold M. rewrite Hwalk. simpl.
  exact Hham.
Qed.

(* ================================================================== *)
(** * Route costs                                                       *)
(* ================================================================== *)

Lemma entry_wt N cm i j :
  symmetric N cm -> i < N -> j < N -> entry cm i j = wt cm i j.
Proof.
  intros Hs Hi Hj. unfold entry, wt, upper.
  destruct (Nat.le_ge_cases i j).
  - rewrite Nat.min_l, Nat.max_r by lia. reflexivity.
  - rewrite Nat.min_r, Nat.max_l by lia. rewrite (Hs i j Hi Hj). reflexivity.
Qed.

Lemma wt_diag N cm i : none_diagonal N cm -> i < N -> wt cm i i = 0%Z.
Proof.
  intros Hd Hi. unfold wt, upper. rewrite Nat.min_id, Nat.max_id.
  rewrite (Hd i Hi). reflexivity.
Qed.

Lemma getitem2_entry N cm a b :
  square N cm -> finite_weights N cm -> symmetric N cm ->
  a < N -> b < N -> a <> b ->
  getitem2 cm a b = Ok (Some (wt cm a b)).
Proof.
  intros [Hlen Hrows] Hf Hs Ha Hb Hne. unfold getitem2.
  destruct (nth_error cm a) as [row|] eqn:Hr.
  2:{ apply nth_error_None in Hr. lia. }
  assert (Hrow : nth a cm [] = row) by (apply nth_error_nth; assumption).
  assert (Hl : length row = N).
  { apply Hrows. eapply nth_error_In; eassumption. }
  destruct (nth_error row b) as [x|] eqn:Hx.
  2:{ apply nth_error_None in Hx. lia. }
  assert (Hnth : nth b row None = x) by (apply nth_error_nth; assumption).
  f_equal. rewrite <- Hnth, <- Hrow.
  destruct (Hf a b Ha Hb Hne) as [z Hz].
  rewrite <- (entry_wt Hs Ha Hb). unfold entry. rewrite Hz. reflexivity.
Qed.

Lemma foldM_map {A B S : Type} (f : S -> B -> result S) (g : A -> B)
    (l : list A) (s : S) :
  foldM f (map g l) s = foldM (fun s a => f s (g a)) l s.
Proof.
  revert s. induction l as [|a l IH]; intros s; simpl; [reflexivity|].
  destruct (f s (g a)); simpl; auto.
Qed.

Lemma foldM_ext {A S : Type} (f g : S -> A -> result S) (l : list A) (s : S) :
  (forall s a, In a l -> f s a = g s a) -> foldM f l s = foldM g l s.
Proof.
  revert s. induction l as [|a l IH]; intros s H; simpl; [reflexivity|].
  rewrite H by (left; reflexivity).
  destruct (g s a); simpl; auto. apply IH. intros; apply H; right; assumption.
Qed.

(** The index loop walks the steps of the route. *)
Lemma exact_total_cost_pairs route cm :
  exact_total_cost route cm =
  foldM (fun tot '(a, b) =>
           x <- getitem2 cm a b ;; z <- as_number x ;; Ok (tot + z)%Z)
        (pairs route) 0%Z.
Proof.
  unfold exact_total_cost. generalize 0%Z.
  induction route as [|a [|b route] IH]; intros z0; try reflexivity.
  replace (length (a :: b :: route) - 1) with (S (length (b :: route) - 1))
    by (simpl; lia).
  rewrite <- cons_seq, <- seq_shift. cbn [foldM].
  change (getitem (a :: b :: route) 0) with (Ok a).
  change (getitem (a :: b :: route) (0 + 1)) with (Ok b).
  cbn [bind pairs foldM].
  destruct (getitem2 cm a b) as [x|e]; [|reflexivity]. cbn [bind].
  destruct (as_number x) as [z|e]; [|reflexivity]. cbn [bind].
  rewrite foldM_map. rewrite <- IH. apply foldM_ext. intros s i _.
  replace (S i + 1) with (S (i + 1)) by lia. reflexivity.
Qed.

Lemma pairs_distinct_within N l a b :
  (forall x, In x l -> x < N) -> In (a, b) (pairs l) -> a < N /\ b < N.
Proof.
  intros H Hin. apply pairs_in in Hin. destruct Hin; auto.
Qed.

(** Along a route whose steps join distinct vertices the computed cost is
    the weight of its steps. *)
Lemma exact_total_cost_weight N cm route :
  square N cm -> finite_weights N cm -> symmetric N cm ->
  (forall a b, In (a, b) (pairs route) -> a < N /\ b < N /\ a <> b) ->
  exact_total_cost route cm = Ok (weight (wt cm) (pairs route)).
Proof.
  intros Hsq Hf Hs Hr. rewrite exact_total_cost_pairs.
  assert (Hgen : forall ps z0,
            (forall a b, In (a, b) ps -> a < N /\ b < N /\ a <> b) ->
            foldM (fun tot '(a, b) =>
                     x <- getitem2 cm a b ;; z <- as_number x ;; Ok (tot + z)%Z)
                  ps z0 = Ok (z0 + weight (wt cm) ps)%Z).
  { induction ps as [|[a b] ps IH]; intros z0 H; simpl.
    - f_equal. lia.
    - destruct (H a b (or_introl eq_refl)) as [Ha [Hb Hne]].
      rewrite (getitem2_entry Hsq Hf Hs Ha Hb Hne). simpl.
      rewrite IH by (intros; apply H; right; assumption).
      f_equal. lia. }
  rewrite Hgen by assumption. reflexivity.
Qed.

Section Metric.

Variable N : nat.
Variable cm : CostMatrix.
Hypothesis Hvalid : valid_matrix N cm.
Hypothesis Hmetric : metric N cm.

Local Abbreviation walk_cost := (walk_cost cm).

Lemma wt_nonneg i j : i < N -> j < N -> (0 <= wt cm i j)%Z.
Proof.
  intros Hi Hj. destruct Hvalid as [_ [Hd [_ Hs]]].
  destruct (Nat.eq_dec i j) as [->|Hne].
  - rewrite (wt_diag Hd Hj). lia.
  - rewrite <- (entry_wt Hs Hi Hj). apply Hmetric; assumption.
Qed.

Lemma wt_triangle i j k :
  i < N -> j < N -> k < N -> (wt cm i k <= wt cm i j + wt cm j k)%Z.
Proof.
  intros Hi Hj Hk. destruct Hvalid as [_ [Hd [_ Hs]]].
  destruct (Nat.eq_dec i j) as [->|Hij].
  { rewrite (wt_diag Hd Hj). lia. }
  destruct (Nat.eq_dec j k) as [->|Hjk].
  { rewrite (wt_diag Hd Hk). lia. }
  destruct (Nat.eq_dec i k) as [->|Hik].
  { rewrite (wt_diag Hd Hk). pose proof (wt_nonneg Hk Hj).
    rewrite (wt_sym cm j k). lia. }
  rewrite <- !(entry_wt Hs) by assumption. apply Hmetric; assumption.
Qed.

Lemma walk_cost_cons a b l :
  walk_cost (a :: b :: l) = (wt cm a b + walk_cost (b :: l))%Z.
Proof. reflexivity. Qed.

Lemma walk_cost_nonneg l : (forall x, In x l -> x < N) -> (0 <= walk_cost l)%Z.
Proof.
  induction l as [|a [|b l] IH]; intros H; try (unfold walk_cost; simpl; lia).
  rewrite walk_cost_cons.
  assert (0 <= wt cm a b)%Z by (apply wt_nonneg; apply H; simpl; auto).
  assert (0 <= walk_cost (b :: l))%Z by (apply IH; intros; apply H; simpl; auto).
  lia.
Qed.

(** Leaving a vertex out of a walk does not lengthen it. *)
Lemma walk_cost_skip a x l :
  a < N -> x < N -> (forall y, In y l -> y < N) ->
  (walk_cost (a :: l) <= walk_cost (a :: x :: l))%Z.
Proof.
  intros Ha Hx Hl. destruct l as [|y l].
  - rewrite walk_cost_cons. pose proof (wt_nonneg Ha Hx).
    unfold walk_cost. simpl. lia.
  - rewrite !walk_cost_cons.
    assert (y < N) by (apply Hl; left; reflexivity).
    pose proof (wt_triangle Ha Hx H). lia.
Qed.

Lemma shortcut_cost l : forall seen a z,
  a < N -> z < N -> (forall y, In y l -> y < N) ->
  (walk_cost (a :: first_occ seen l ++ [z]) <= walk_cost (a :: l ++ [z]))%Z.
Proof.
  induction l as [|x l IH]; intros seen a z Ha Hz Hl; simpl; [lia|].
  assert (Hx : x < N) by (apply Hl; left; reflexivity).
  assert (Hl' : forall y, In y l -> y < N) by (intros; apply Hl; right; assumption).
  destruct (memb x seen).
  - eapply Z.le_trans; [apply IH; assumption|].
    apply walk_cost_skip; try assumption.
    intros y Hy. apply in_app_or in Hy. destruct Hy as [Hy|[<-|[]]]; auto.
  - change ((x :: first_occ (x :: seen) l) ++ [z])
      with (x :: first_occ (x :: seen) l ++ [z]).
    rewrite !walk_cost_cons.
    pose proof (IH (x :: seen) x z Hx Hz Hl'). lia.
Qed.

End Metric.

Lemma first_occ_app_seen seen l z :
  In z seen -> first_occ seen (l ++ [z]) = first_occ seen l.
Proof.
  revert seen. induction l as [|x l IH]; intros seen Hz; simpl.
  - apply memb_In in Hz. rewrite Hz. reflexivity.
  - destruct (memb x seen); [apply IH; assumption|].
    f_equal. apply IH. right; assumption.
Qed.

Lemma pairs_conn l x y : In x l -> In y l -> conn (pairs l) x y.
Proof.
  assert (Hhd : forall l a z, In z (a :: l) -> conn (pairs (a :: l)) a z).
  { induction l0 as [|b l0 IH]; intros a z Hz.
    - destruct Hz as [<-|[]]. constructor.
    - destruct Hz as [<-|Hz]; [constructor|].
      eapply conn_step; [left; left; reflexivity|].
      eapply conn_incl; [|apply IH; exact Hz].
      simpl. apply incl_tl, incl_refl. }
  induction l as [|a l IH]; intros Hx Hy; [destruct Hx|].
  destruct Hx as [<-|Hx]; [apply Hhd; assumption|].
  destruct Hy as [<-|Hy]; [apply conn_sym, Hhd; right; assumption|].
  eapply conn_incl; [|apply IH; assumption].
  destruct l; simpl; [apply incl_refl | apply incl_tl, incl_refl].
Qed.

Lemma pairs_nodup_neq l a b : NoDup l -> In (a, b) (pairs l) -> a <> b.
Proof.
  induction 1 as [|x l Hx Hnd IH]; simpl; [tauto|].
  destruct l as [|y l]; [tauto|].
  intros [Heq|Hin].
  - inversion Heq; subst. intros ->. apply Hx. left; reflexivity.
  - apply IH; assumption.
Qed.

Lemma pairs_app_last l a z : pairs ((l ++ [a]) ++ [z]) = pairs (l ++ [a]) ++ [(a, z)].
Proof. apply pairs_snoc. Qed.

(** A tour without its closing step is a spanning tree. *)
Lemma tour_path_spanning N body :
  1 <= N -> Permutation body (seq 0 N) -> spanning_tree (seq 0 N) (pairs body).
Proof.
  intros HN HP.
  assert (Hnd : NoDup body).
  { eapply Permutation_NoDup; [apply Permutation_sym; exact HP | apply seq_NoDup]. }
  assert (Hlen : length body = N).
  { apply Permutation_length in HP. rewrite length_seq in HP. exact HP. }
  split; [|split].
  - rewrite pairs_length, length_seq. destruct body; simpl in *; lia.
  - intros x y Hin. destruct (pairs_in _ _ _ Hin) as [Hx Hy].
    repeat split.
    + eapply Permutation_in; eassumption.
    + eapply Permutation_in; eassumption.
    + eapply pairs_nodup_neq; eassumption.
  - intros x y Hx Hy. apply pairs_conn;
      (eapply Permutation_in; [apply Permutation_sym; exact HP | assumption]).
Qed.

Lemma closed_walk_shape (s : vertex) (w : list vertex) :
  2 <= length w -> hd s w = s -> last w s = s -> exists l, w = s :: l ++ [s].
Proof.
  intros Hlen Hhd Hlast. destruct w as [|a w]; [simpl in Hlen; lia|].
  simpl in Hhd. subst a.
  assert (Hne : w <> []) by (intros ->; simpl in Hlen; lia).
  destruct (exists_last Hne) as [l [z Hz]].
  subst w. exists l. f_equal. f_equal.
  change (s :: l ++ [z]) with ((s :: l) ++ [z]) in Hlast.
  rewrite last_last in Hlast. congruence.
Qed.

(** The steps of a tour of two or more vertices join distinct vertices. *)
Lemma tour_steps N tour :
  2 <= N -> is_tour N tour ->
  forall a b, In (a, b) (pairs tour) -> a < N /\ b < N /\ a <> b.
Proof.
  intros HN [body [s [-> [Hhd HP]]]] a b Hin.
  assert (Hnd : NoDup body).
  { eapply Permutation_NoDup; [apply Permutation_sym; exact HP | apply seq_NoDup]. }
  assert (Hlen : length body = N).
  { apply Permutation_length in HP. rewrite length_seq in HP. exact HP. }
  assert (Hlt : forall x, In x body -> x < N).
  { intros x Hx. apply (Permutation_in _ HP) in Hx. apply in_seq in Hx. lia. }
  destruct body as [|h body]; [simpl in Hlen; lia|]. simpl in Hhd. subst h.
  assert (Hne : body <> []) by (intros ->; simpl in Hlen; lia).
  destruct (exists_last Hne) as [r [x Hx]].
  subst body.
  change ((s :: r ++ [x]) ++ [s]) with (((s :: r) ++ [x]) ++ [s]) in Hin.
  rewrite pairs_snoc in Hin. apply in_app_or in Hin.
  destruct Hin as [Hin|[Heq|[]]].
  - destruct (pairs_in _ _ _ Hin) as [Ha Hb].
    repeat split; [apply Hlt, Ha | apply Hlt, Hb|].
    eapply pairs_nodup_neq; [|exact Hin]. exact Hnd.
  - inversion Heq; subst a b.
    repeat split; [apply Hlt | apply Hlt |].
    + simpl. right. apply in_or_app. right. left; reflexivity.
    + left; reflexivity.
    + intros ->. inversion Hnd as [|? ? Hnot _]. apply Hnot.
      apply in_or_app. right. left; reflexivity.
Qed.

(** The double-tree route costs at most twice any tour of a metric
    matrix. *)
Lemma double_tree_two_approx N cm start :
  valid_matrix N cm -> metric N cm -> float_weights N cm -> 2 <= N ->
  start < N ->
  exists route c,
    double_tree_algorithm cm start = Ok route /\
    is_tour N route /\
    exact_total_cost route cm = Ok c /\
    forall tour c', is_tour N tour -> exact_total_cost tour cm = Ok c' ->
                    (c <= 2 * c')%Z.
Proof.
  intros Hvalid Hmetric Hfl HN Hstart.
  pose proof Hvalid as [Hsq [Hdiag [Hfin Hsym]]].
  destruct (double_tree_stages Hsq Hfin Hfl HN Hstart)
    as [T [walk [body [Hmst [HT [Hwalk [Hhd [Hlast [Hwlen [Hcover [HP
        [Hbody [Hrun [Hbhd Hperm]]]]]]]]]]]]]].
  assert (Htour : is_tour N (body ++ [start])).
  { exists body, start. auto. }
  exists (body ++ [start]), (weight (wt cm) (pairs (body ++ [start]))).
  split; [exact Hrun|]. split; [exact Htour|]. split.
  { apply exact_total_cost_weight with (N := N); try assumption.
    apply tour_steps; assumption. }
  intros tour c' Ht Hc'.
  rewrite (@exact_total_cost_weight N cm tour Hsq Hfin Hsym) in Hc'
    by (apply tour_steps; assumption).
  injection Hc' as <-.
  (* the route is no longer than the Eulerian walk *)
  destruct (@closed_walk_shape start walk Hwlen Hhd Hlast) as [l Hl].
  assert (Hlt : forall y, In y l -> y < N).
  { intros y Hy. apply Hcover. rewrite Hl. right. apply in_or_app. auto. }
  assert (Hroute : body ++ [start] = start :: first_occ [start] l ++ [start]).
  { rewrite Hbody, Hl. simpl.
    rewrite first_occ_app_seen by (left; reflexivity). reflexivity. }
  assert (H1 : (weight (wt cm) (pairs (body ++ [start]))
                <= weight (wt cm) (pairs walk))%Z).
  { rewrite Hroute, Hl.
    apply (@shortcut_cost N cm Hvalid Hmetric); assumption. }
  (* the walk weighs twice the spanning tree *)
  assert (H2 : weight (wt cm) (pairs walk)
               = (2 * weight (wt cm) (ends (gedges T)))%Z).
  { rewrite <- (weight_norm (wt cm) (wt_sym cm) (pairs walk)).
    rewrite (weight_perm (wt cm) HP).
    pose proof (dup_medges_perm (mf_gwf HT)) as HP'.
    unfold ends.
    rewrite (weight_perm (wt cm)
               (Permutation_map norm (Permutation_map strip HP'))).
    rewrite !map_app, weight_app.
    change (map strip (map swap3 (gedges T))) with (ends (map swap3 (gedges T))).
    rewrite ends_swap.
    change (map strip (gedges T)) with (ends (gedges T)).
    rewrite (weight_norm (wt cm) (wt_sym cm)). lia. }
  (* the spanning tree weighs no more than the tour *)
  destruct Ht as [tbody [s [-> [Hs HPt]]]].
  assert (H3 : (weight (wt cm) (ends (gedges T))
                <= weight (wt cm) (pairs tbody))%Z).
  { apply (mf_minimum HT). apply tour_path_spanning; [lia | assumption]. }
  assert (H4 : (weight (wt cm) (pairs tbody)
                <= weight (wt cm) (pairs (tbody ++ [s])))%Z).
  { assert (Hlent : length tbody = N).
    { apply Permutation_length in HPt. rewrite length_seq in HPt. exact HPt. }
    assert (Hne : tbody <> []) by (intros ->; simpl in Hlent; lia).
    destruct (exists_last Hne) as [r [x Hx]].
    subst tbody. rewrite pairs_snoc, weight_app. simpl.
    assert (Hxs : x < N /\ s < N).
    { split.
      - assert (In x (r ++ [x])) by (apply in_or_app; right; left; reflexivity).
        apply (Permutation_in _ HPt) in H. apply in_seq in H. lia.
      - assert (In s (r ++ [x])).
        { destruct r; simpl in Hs; subst; left; reflexivity. }
        apply (Permutation_in _ HPt) in H. apply in_seq in H. lia. }
    pose proof (@wt_nonneg N cm Hvalid Hmetric x s (proj1 Hxs) (proj2 Hxs)). lia. }
  lia.
Qed.

(* ================================================================== *)
(** * The float that [_calc_total_cost] returns                         *)
(* ================================================================== *)

Lemma magnitude_cons cm a b ps :
  magnitude cm ((a, b) :: ps) = (Z.abs (entry cm a b) + magnitude cm ps)%Z.
Proof. reflexivity. Qed.

Lemma magnitude_nonneg cm ps : (0 <= magnitude cm ps)%Z.
Proof.
  induction ps as [|[a b] ps IH]; [unfold magnitude; simpl; lia|].
  rewrite magnitude_cons. lia.
Qed.

Lemma getitem2_ok (cm : CostMatrix) a b x :
  getitem2 cm a b = Ok x ->
  a < length cm /\ b < length (nth a cm []) /\ nth b (nth a cm []) None = x.
Proof.
  unfold getitem2. destruct (nth_error cm a) as [row|] eqn:Hr; [|discriminate].
  destruct (nth_error row b) as [y|] eqn:Hy; [|discriminate].
  intros H. inversion H; subst.
  assert (Hrow : nth a cm [] = row) by (apply nth_error_nth; assumption).
  rewrite Hrow. split.
  - apply nth_error_Some. congruence.
  - split; [apply nth_error_Some; congruence | apply nth_error_nth; assumption].
Qed.

(** Below 2^53 in magnitude every integer is a float. *)
Lemma round_small z : (Z.abs z < 2 ^ 53)%Z -> round_to_float z = Finite z.
Proof.
  intros Hz. unfold round_to_float.
  assert (Hlog : (Z.log2 (Z.abs z) - 52 <= 0)%Z).
  { destruct (Z.eq_dec (Z.abs z) 0) as [->|Hne]; [simpl; lia|].
    assert (Hpos : (0 < Z.abs z)%Z) by lia.
    pose proof (proj1 (Z.log2_lt_pow2 (Z.abs z) 53 Hpos) Hz). lia. }
  apply Z.leb_le in Hlog. cbv zeta. rewrite Hlog. reflexivity.
Qed.

Lemma float_of_int_small z :
  (Z.abs z < 2 ^ 53)%Z -> float_of_int z = Ok (Finite z).
Proof. intros Hz. unfold float_of_int. rewrite round_small by exact Hz. reflexivity. Qed.

Lemma small_in_float_range z : (Z.abs z < 2 ^ 53)%Z -> in_float_range z = true.
Proof.
  intros Hz. unfold in_float_range. rewrite float_of_int_small by exact Hz.
  reflexivity.
Qed.

Lemma exact_float_weights N cm : exact_weights N cm -> float_weights N cm.
Proof.
  intros H i j z Hi Hj Hz. apply small_in_float_range.
  pose proof (H i j z Hi Hj Hz). nia.
Qed.

(** The index loop of [_calc_total_cost] walks the steps of the route. *)
Lemma calc_total_cost_pairs route cm :
  _calc_total_cost route cm =
  foldM (fun tot '(a, b) => x <- getitem2 cm a b ;; float_plus tot x)
        (pairs route) (Finite 0).
Proof.
  unfold _calc_total_cost. generalize (Finite 0).
  induction route as [|a [|b route] IH]; intros z0; try reflexivity.
  replace (length (a :: b :: route) - 1) with (S (length (b :: route) - 1))
    by (simpl; lia).
  rewrite <- cons_seq, <- seq_shift. cbn [foldM].
  change (getitem (a :: b :: route) 0) with (Ok a).
  change (getitem (a :: b :: route) (0 + 1)) with (Ok b).
  cbn [bind pairs foldM].
  destruct (getitem2 cm a b) as [x|e]; [|reflexivity]. cbn [bind].
  destruct (float_plus z0 x) as [z|e]; [|reflexivity]. cbn [bind].
  rewrite foldM_map. rewrite <- IH. apply foldM_ext. intros s i _.
  replace (S i + 1) with (S (i + 1)) by lia. reflexivity.
Qed.

(** Where every number read converts to a float, the float loop raises what
    the exact sum raises and returns where it returns. *)
Lemma float_steps_follow cm ps :
  (forall a b z, In (a, b) ps -> getitem2 cm a b = Ok (Some z) ->
                 in_float_range z = true) ->
  forall s t,
    match foldM (fun tot '(a, b) =>
                   x <- getitem2 cm a b ;; z <- as_number x ;; Ok (tot + z)%Z)
                ps s with
    | Ok _ => exists f,
        foldM (fun tot '(a, b) => x <- getitem2 cm a b ;; float_plus tot x)
              ps t = Ok f
    | Raise e =>
        foldM (fun tot '(a, b) => x <- getitem2 cm a b ;; float_plus tot x)
              ps t = Raise e
    end.
Proof.
  induction ps as [|[a b] ps IH]; intros Hin s t.
  - cbn [foldM]. eexists; reflexivity.
  - cbn [foldM].
    destruct (getitem2 cm a b) as [[z|]|e] eqn:Hg; cbn [bind as_number float_plus];
      try reflexivity.
    pose proof (Hin a b z (or_introl eq_refl) Hg) as Hz.
    unfold in_float_range in Hz.
    destruct (float_of_int z) as [f|e]; [|discriminate]. cbn [bind].
    apply IH. intros a' b' z' Hin'. apply Hin. right. exact Hin'.
Qed.

(** Where the magnitudes add up to less than 2^53, no step rounds. *)
Lemma float_steps_exact cm ps : forall s c,
  foldM (fun tot '(a, b) =>
           x <- getitem2 cm a b ;; z <- as_number x ;; Ok (tot + z)%Z)
        ps s = Ok c ->
  (Z.abs s + magnitude cm ps < 2 ^ 53)%Z ->
  foldM (fun tot '(a, b) => x <- getitem2 cm a b ;; float_plus tot x)
        ps (Finite s) = Ok (Finite c).
Proof.
  induction ps as [|[a b] ps IH]; intros s c Hrun Hm.
  - cbn [foldM] in *. congruence.
  - cbn [foldM] in *.
    destruct (getitem2 cm a b) as [[z|]|e] eqn:Hg;
      cbn [bind as_number] in Hrun; try discriminate.
    destruct (getitem2_ok _ _ _ Hg) as (_ & _ & Hnth).
    assert (He : entry cm a b = z) by (unfold entry; rewrite Hnth; reflexivity).
    rewrite magnitude_cons, He in Hm.
    pose proof (magnitude_nonneg cm ps) as H0.
    cbn [bind float_plus]. rewrite float_of_int_small by lia. cbn [bind float_add].
    rewrite round_small by lia. apply IH; [exact Hrun | lia].
Qed.

Lemma calc_total_cost_follows N cm route :
  square N cm -> float_weights N cm ->
  match exact_total_cost route cm with
  | Ok _ => exists f, _calc_total_cost route cm = Ok f
  | Raise e => _calc_total_cost route cm = Raise e
  end.
Proof.
  intros Hsq Hfl. rewrite exact_total_cost_pairs, calc_total_cost_pairs.
  apply float_steps_follow. intros a b z _ Hg.
  destruct (getitem2_ok _ _ _ Hg) as (Ha & Hb & Hnth).
  destruct Hsq as [Hlen Hrows]. rewrite Hlen in Ha.
  assert (Hrow : length (nth a cm []) = N) by (apply Hrows, nth_In; lia).
  apply (Hfl a b z); [exact Ha | lia | exact Hnth].
Qed.

Lemma calc_total_cost_exact cm route c :
  exact_total_cost route cm = Ok c ->
  (magnitude cm (pairs route) < 2 ^ 53)%Z ->
  _calc_total_cost route cm = Ok (Finite c).
Proof.
  intros Hrun Hm. rewrite exact_total_cost_pairs in Hrun.
  rewrite calc_total_cost_pairs. apply float_steps_exact; [exact Hrun|].
  simpl Z.abs. lia.
Qed.

(** Under [exact_weights], at most [N] steps inside the matrix stay below
    2^53. *)
Lemma steps_magnitude N cm ps :
  exact_weights N cm -> length ps <= N ->
  (forall a b, In (a, b) ps -> a < N /\ b < N) ->
  (magnitude cm ps < 2 ^ 53)%Z.
Proof.
  intros Hex Hlen Hin.
  assert (Hgen : (Z.of_nat N * magnitude cm ps
                  <= Z.of_nat (length ps) * (2 ^ 53 - 1))%Z).
  { clear Hlen. induction ps as [|[a b] ps IH].
    - unfold magnitude. simpl. lia.
    - rewrite magnitude_cons. cbn [length].
      specialize (IH ltac:(intros; apply Hin; right; assumption)).
      destruct (Hin a b (or_introl eq_refl)) as [Ha Hb].
      assert (He : (Z.of_nat N * Z.abs (entry cm a b) <= 2 ^ 53 - 1)%Z).
      { unfold entry.
        destruct (nth b (nth a cm []) None) as [z|] eqn:Hz.
        - pose proof (Hex a b z Ha Hb Hz). lia.
        - simpl. lia. }
      rewrite Nat2Z.inj_succ. lia. }
  destruct ps as [|p ps]; [unfold magnitude; simpl; lia|].
  assert (HN : (0 < Z.of_nat N)%Z) by (simpl in Hlen; lia).
  assert (Hl : (Z.of_nat (length (p :: ps)) <= Z.of_nat N)%Z) by lia.
  nia.
Qed.

Lemma tour_length N tour : is_tour N tour -> length (pairs tour) = N.
Proof.
  intros [body [s [-> [_ HP]]]]. rewrite pairs_length, length_app.
  rewrite (Permutation_length HP), length_seq. simpl. lia.
Qed.

(* ================================================================== *)
(** * [G.edges] reports every edge once                                 *)
(* ================================================================== *)

Lemma report_from es u seen :
  ~ In u seen ->
  map wnorm (map (fun '(v, w) => (u, v, w))
                 (filter (fun e => negb (memb (fst e) seen)) (adj_of es u)))
  = map wnorm (filter (fun e => incident u e && negb (touches seen e)) es).
Proof.
  intros Hu. apply memb_false in Hu.
  induction es as [|[[a b] w] es IH]; simpl; [reflexivity|].
  destruct (Nat.eqb_spec a u) as [->|Ha].
  - simpl. rewrite Hu. simpl. destruct (memb b seen); simpl; rewrite IH; reflexivity.
  - destruct (Nat.eqb_spec b u) as [->|Hb].
    + simpl. rewrite Hu, orb_false_r.
      destruct (memb a seen); simpl; rewrite IH; [reflexivity|].
      f_equal. rewrite (Nat.min_comm u a), (Nat.max_comm u a). reflexivity.
    + simpl. exact IH.
Qed.

Lemma edges_from_perm es ns seen :
  NoDup ns -> (forall x, In x ns -> ~ In x seen) ->
  Permutation (map wnorm (edges_from es ns seen))
              (map wnorm (filter (fun e => touches ns e && negb (touches seen e)) es)).
Proof.
  intros Hnd. revert seen. induction Hnd as [|u ns Hu Hnd IH]; intros seen Hs.
  - simpl. assert (H : filter (fun e => touches [] e && negb (touches seen e)) es = []).
    { induction es as [|[[a b] w] es IHes]; simpl; auto. }
    rewrite H. constructor.
  - simpl. rewrite map_app. rewrite report_from by (apply Hs; left; reflexivity).
    eapply perm_trans.
    + apply Permutation_app_head. apply IH.
      intros x Hx [<-|Hin]; [contradiction|].
      eapply Hs; [right; exact Hx | exact Hin].
    + rewrite <- map_app. apply Permutation_map. apply filter_split.
      * intros [[a b] w]. simpl.
        destruct (Nat.eqb a u) eqn:Ea; destruct (Nat.eqb b u) eqn:Eb;
          destruct (memb a ns); destruct (memb b ns);
          destruct (memb a seen); destruct (memb b seen);
          rewrite ?(Nat.eqb_sym u a), ?(Nat.eqb_sym u b), ?Ea, ?Eb; reflexivity.
      * intros [[a b] w]. simpl.
        destruct (Nat.eqb a u) eqn:Ea; destruct (Nat.eqb b u) eqn:Eb;
          destruct (memb a ns); destruct (memb b ns);
          destruct (memb a seen); destruct (memb b seen);
          rewrite ?(Nat.eqb_sym u a), ?(Nat.eqb_sym u b), ?Ea, ?Eb; reflexivity.
Qed.

(** [G.edges] is the edge list of [G], up to order and orientation. *)
Lemma edges_data_perm G :
  NoDup (gnodes G) ->
  (forall a b d, In (a, b, d) (gedges G) -> In a (gnodes G) /\ In b (gnodes G)) ->
  Permutation (map wnorm (edges_data G)) (map wnorm (gedges G)).
Proof.
  intros Hnd Hwf. unfold edges_data.
  eapply perm_trans; [apply edges_from_perm; [assumption | intros ? ? []]|].
  assert (H : filter (fun e => touches (gnodes G) e && negb (touches [] e)) (gedges G)
              = gedges G).
  { assert (Hgen : forall es, incl es (gedges G) ->
              filter (fun e => touches (gnodes G) e && negb (touches [] e)) es = es).
    { induction es as [|[[a b] w] es IH]; intros Hi; simpl; [reflexivity|].
      destruct (Hwf a b w (Hi _ (or_introl eq_refl))) as [Ha _].
      apply memb_In in Ha. rewrite Ha. simpl. f_equal. apply IH.
      intros e He. apply Hi. right; assumption. }
    apply Hgen, incl_refl. }
  rewrite H. apply Permutation_refl.
Qed.

Lemma edges_data_in G u v w :
  NoDup (gnodes G) ->
  (forall a b d, In (a, b, d) (gedges G) -> In a (gnodes G) /\ In b (gnodes G)) ->
  (In (u, v, w) (edges_data G) \/ In (v, u, w) (edges_data G) <->
   In (u, v, w) (gedges G) \/ In (v, u, w) (gedges G)).
Proof.
  intros Hnd Hwf. rewrite <- !in_map_wnorm.
  pose proof (@edges_data_perm G Hnd Hwf) as HP. split; intros H.
  - eapply Permutation_in; eassumption.
  - eapply Permutation_in; [apply Permutation_sym|]; eassumption.
Qed.

Lemma edges_data_ends_at G v :
  NoDup (gnodes G) ->
  (forall a b d, In (a, b, d) (gedges G) -> In a (gnodes G) /\ In b (gnodes G)) ->
  ends_at v (edges_data G) = ends_at v (gedges G).
Proof.
  intros Hnd Hwf.
  rewrite <- (ends_at_wnorm v (edges_data G)), <- (ends_at_wnorm v (gedges G)).
  apply ends_at_perm. apply edges_data_perm; assumption.
Qed.

Lemma edges_data_norm_perm G :
  NoDup (gnodes G) ->
  (forall a b d, In (a, b, d) (gedges G) -> In a (gnodes G) /\ In b (gnodes G)) ->
  Permutation (map norm (ends (edges_data G))) (map norm (ends (gedges G))).
Proof.
  intros Hnd Hwf. rewrite <- !ends_wnorm. unfold ends.
  apply Permutation_map. apply edges_data_perm; assumption.
Qed.

(* ================================================================== *)
(** * Odd-degree vertices                                               *)
(* ================================================================== *)

Lemma occurrences_in a L : NoDup L -> In a L -> occurrences a L = 1.
Proof.
  induction 1 as [|x L Hx Hnd IH]; simpl; intros Hin; [destruct Hin|].
  destruct (Nat.eqb_spec a x) as [->|Hne].
  - rewrite occurrences_notin by assumption. reflexivity.
  - destruct Hin as [->|Hin]; [congruence|]. apply IH. assumption.
Qed.

(** The handshake lemma: degrees add up to twice the number of edges. *)
Lemma degree_sum_twice es V :
  NoDup V -> (forall a b d, In (a, b, d) es -> In a V /\ In b V) ->
  degree_sum es V = 2 * length es.
Proof.
  intros Hnd. induction es as [|[[a b] d] es IH]; intros H.
  - clear. unfold degree_sum. induction V; simpl; auto.
  - destruct (H a b d (or_introl eq_refl)) as [Ha Hb].
    assert (Hs : degree_sum ((a, b, d) :: es) V
                 = occurrences a V + occurrences b V + degree_sum es V).
    { clear. unfold degree_sum, occurrences.
      induction V as [|v V IHV]; simpl; [reflexivity|].
      simpl in IHV. rewrite IHV.
      destruct (Nat.eqb a v); destruct (Nat.eqb b v); simpl; lia. }
    rewrite Hs, IH by (intros; eapply H; right; eassumption).
    rewrite !occurrences_in by assumption. simpl. lia.
Qed.

Lemma degree_sum_parity es V :
  Nat.even (degree_sum es V)
  = Nat.even (length (filter (fun v => negb (Nat.even (ends_at v es))) V)).
Proof.
  induction V as [|v V IH]; [reflexivity|].
  cbn [degree_sum fold_right filter].
  change (fold_right (fun v n => ends_at v es + n) 0 V) with (degree_sum es V).
  rewrite Nat.even_add, IH.
  destruct (Nat.even (ends_at v es)) eqn:He; cbn [negb length].
  - destruct (Nat.even (length _)); reflexivity.
  - rewrite Nat.even_succ, <- Nat.negb_even.
    destruct (Nat.even (length _)); reflexivity.
Qed.

(** A graph has an even number of vertices of odd degree. *)
Lemma odd_vertices_even T :
  gwf T -> Nat.even (length (odd_vertices T)) = true.
Proof.
  intros Hwf. pose proof Hwf as [Hnd He]. unfold odd_vertices.
  erewrite filter_ext; [|intros v; rewrite (degree_ends_at v Hwf); reflexivity].
  rewrite <- degree_sum_parity, degree_sum_twice; auto.
  - rewrite Nat.even_mul. reflexivity.
  - intros a b d Hin. apply He in Hin. tauto.
Qed.

(* ================================================================== *)
(** * Removing the even-degree vertices                                 *)
(* ================================================================== *)

Lemma filter_compose {A : Type} (p q : A -> bool) (l : list A) :
  filter p (filter q l) = filter (fun x => q x && p x) l.
Proof.
  induction l as [|x l IH]; simpl; [reflexivity|].
  destruct (q x); simpl; [destruct (p x)|]; rewrite IH; reflexivity.
Qed.

Lemma filter_all {A : Type} (p : A -> bool) (l : list A) :
  (forall x, In x l -> p x = true) -> filter p l = l.
Proof.
  induction l as [|x l IH]; simpl; intros H; [reflexivity|].
  rewrite H by (left; reflexivity). f_equal. apply IH.
  intros; apply H; right; assumption.
Qed.

Lemma remove_fold (ev : vertex -> bool) L :
  NoDup L -> forall R0, (forall v, In v L -> In v (gnodes R0)) ->
  foldM (fun R v => if ev v then remove_node v R else Ok R) L R0
  = Ok (mk_graph (filter (fun x => negb (memb x (filter ev L))) (gnodes R0))
                 (filter (fun e => negb (touches (filter ev L) e)) (gedges R0))).
Proof.
  induction 1 as [|v L Hv Hnd IH]; intros R0 HR.
  - cbn [foldM filter].
    rewrite (filter_all (fun x => negb (memb x [])) (gnodes R0))
      by reflexivity.
    rewrite (filter_all (fun e => negb (touches [] e)) (gedges R0))
      by (intros [[a b] w] _; reflexivity).
    destruct R0; reflexivity.
  - simpl. destruct (ev v) eqn:Hev.
    + unfold remove_node.
      assert (Hin : memb v (gnodes R0) = true)
        by (apply memb_In, HR; left; reflexivity).
      rewrite Hin. simpl. rewrite IH.
      * simpl. rewrite !filter_compose. f_equal. f_equal.
        -- apply filter_ext. intros x. simpl.
           rewrite (Nat.eqb_sym x v). destruct (Nat.eqb v x); reflexivity.
        -- apply filter_ext. intros [[a b] w]. simpl.
           rewrite (Nat.eqb_sym a v), (Nat.eqb_sym b v).
           destruct (Nat.eqb v a); destruct (Nat.eqb v b);
             destruct (memb a (filter ev L)); destruct (memb b (filter ev L));
             reflexivity.
      * intros x Hx. simpl. apply filter_In. split.
        -- apply HR. right; assumption.
        -- apply negb_true_iff, Nat.eqb_neq. intros ->. contradiction.
    + simpl. apply IH. intros x Hx. apply HR. right; assumption.
Qed.

Lemma memb_filter_self (ev : vertex -> bool) V x :
  In x V -> memb x (filter ev V) = ev x.
Proof.
  intros Hx. destruct (ev x) eqn:He.
  - apply memb_In. apply filter_In. auto.
  - apply memb_false. intros Hin. apply filter_In in Hin. destruct Hin. congruence.
Qed.

(** The graph handed to the matcher. *)
Lemma remove_even_degree_vertices_eq G T :
  NoDup (gnodes T) -> gnodes T = gnodes G ->
  _remove_even_degree_vertices G T
  = Ok (mk_graph (odd_vertices T)
                 (filter (fun e => negb (touches (even_vertices T) e))
                         (edges_data G))).
Proof.
  intros Hnd Heq. unfold _remove_even_degree_vertices.
  rewrite remove_fold; [|assumption|].
  - simpl. f_equal. f_equal. unfold odd_vertices. rewrite <- Heq.
    apply filter_ext_in. intros x Hx.
    rewrite memb_filter_self by assumption. reflexivity.
  - intros v Hv. simpl. rewrite <- Heq. assumption.
Qed.

Lemma NoDup_map_filter (A B : Type) (key : A -> B) (keep : A -> bool) xs :
  NoDup (map key xs) -> NoDup (map key (filter keep xs)).
Proof.
  induction xs as [|x xs IH]; simpl; intros H; [constructor|].
  inversion H as [|? ? Hx Hnd]; subst.
  destruct (keep x); simpl; [|apply IH; assumption].
  constructor; [|apply IH; assumption].
  intros Hin. apply Hx. apply in_map_iff in Hin.
  destruct Hin as [y [Hy Hin]]. apply filter_In in Hin.
  apply in_map_iff. exists y. tauto.
Qed.

Lemma in_odd_vertices T v :
  In v (odd_vertices T) <-> In v (gnodes T) /\ Nat.even (degree T v) = false.
Proof.
  unfold odd_vertices. rewrite filter_In, negb_true_iff. tauto.
Qed.

Lemma memb_even_vertices T v :
  In v (gnodes T) ->
  memb v (even_vertices T) = Nat.even (degree T v).
Proof.
  intros Hv. unfold even_vertices.
  apply (memb_filter_self (fun v => Nat.even (degree T v)) _ _ Hv).
Qed.

Lemma removed_graph_complete N cm T :
  square N cm -> finite_weights N cm -> 2 <= N -> mst_facts N cm T ->
  exists R,
    _remove_even_degree_vertices (_create_weighted_graph cm) T = Ok R /\
    odd_complete cm T R.
Proof.
  intros Hsq Hfin HN HT.
  set (G := _create_weighted_graph cm).
  assert (Hnd : NoDup (gnodes G)) by apply gnodes_create_nodup.
  assert (Hwf : forall a b d, In (a, b, d) (gedges G) ->
                              In a (gnodes G) /\ In b (gnodes G)).
  { intros a b d Hin. unfold G in *. rewrite gedges_create in Hin.
    apply (in_upper_pairs _ _ _ Hsq) in Hin.
    rewrite !(gnodes_create _ Hsq HN). lia. }
  eexists. split.
  - apply remove_even_degree_vertices_eq; [apply (mf_nodup HT) | apply (mf_same HT)].
  - constructor; simpl.
    + reflexivity.
    + unfold odd_vertices. apply NoDup_filter. apply (mf_nodup HT).
    + intros u v w. unfold get_adj. simpl. rewrite adj_of_spec, !filter_In.
      rewrite !in_odd_vertices, !(mf_nodes HT).
      assert (Hin : In (u, v, w) (edges_data G) \/ In (v, u, w) (edges_data G) <->
                    u < N /\ v < N /\ u <> v /\ w = Some (wt cm u v)).
      { rewrite (@edges_data_in G u v w Hnd Hwf).
        rewrite <- adj_of_spec. apply (get_adj_create _ _ _ Hsq Hfin). }
      split.
      * intros H.
        assert (Hboth : (In (u, v, w) (edges_data G) \/ In (v, u, w) (edges_data G))
                        /\ memb u (even_vertices T) = false
                        /\ memb v (even_vertices T) = false).
        { destruct H as [[H1 H2]|[H1 H2]]; simpl in H2;
            apply negb_true_iff, orb_false_iff in H2; tauto. }
        destruct Hboth as [H1 [H2 H3]]. apply Hin in H1.
        destruct H1 as [Hu [Hv [Hne Hw]]].
        rewrite memb_even_vertices in H2 by (apply (mf_nodes HT); assumption).
        rewrite memb_even_vertices in H3 by (apply (mf_nodes HT); assumption).
        tauto.
      * intros [[Hu Hdu] [[Hv Hdv] [Hne Hw]]].
        assert (H1 : In (u, v, w) (edges_data G) \/ In (v, u, w) (edges_data G))
          by (apply Hin; tauto).
        assert (H2 : memb u (even_vertices T) = false)
          by (rewrite memb_even_vertices by (apply (mf_nodes HT); assumption);
              assumption).
        assert (H3 : memb v (even_vertices T) = false)
          by (rewrite memb_even_vertices by (apply (mf_nodes HT); assumption);
              assumption).
        destruct H1 as [H1|H1]; [left | right]; (split; [exact H1|]);
          simpl; rewrite H2, H3; reflexivity.
    + unfold ends. rewrite map_map. apply NoDup_map_filter.
      rewrite <- map_map. fold (ends (edges_data G)).
      eapply Permutation_NoDup.
      * apply Permutation_sym. apply (@edges_data_norm_perm G Hnd Hwf).
      * unfold G. rewrite gedges_create. apply upper_pairs_norm_nodup.
Qed.

(* ================================================================== *)
(** * The matching                                                      *)
(* ================================================================== *)

Lemma pair_up_ends L :
  Nat.even (length L) = true -> matching_ends (pair_up L) = L.
Proof.
  assert (H : forall n L, length L <= n -> Nat.even (length L) = true ->
                          matching_ends (pair_up L) = L).
  { induction n as [|n IH]; intros [|a [|b L']] Hlen Hev; simpl in *;
      try reflexivity; try discriminate; try lia.
    f_equal. f_equal. apply IH; [lia | assumption]. }
  apply (H (length L)). lia.
Qed.

Lemma matching_ends_length m : length (matching_ends m) = 2 * length m.
Proof. induction m as [|[a b] m IH]; simpl; [reflexivity | lia]. Qed.

Lemma in_matching_ends m x :
  In x (matching_ends m) <-> exists a b, In (a, b) m /\ (x = a \/ x = b).
Proof.
  unfold matching_ends. rewrite in_flat_map. split.
  - intros [[a b] [Hin Hx]]. simpl in Hx. exists a, b.
    destruct Hx as [<-|[<-|[]]]; auto.
  - intros [a [b [Hin Hx]]]. exists (a, b). split; [assumption|].
    simpl. destruct Hx as [-> | ->]; auto.
Qed.

Lemma matching_distinct m a b :
  NoDup (matching_ends m) -> In (a, b) m -> a <> b.
Proof.
  induction m as [|[x y] m IH]; simpl; intros Hnd Hin; [destruct Hin|].
  inversion Hnd as [|? ? Hx Hnd']; subst. inversion Hnd' as [|? ? Hy Hnd'']; subst.
  destruct Hin as [Heq|Hin].
  - inversion Heq; subst. intros ->. apply Hx. left. reflexivity.
  - apply IH; assumption.
Qed.

Lemma matching_norm_nodup m :
  NoDup (matching_ends m) -> NoDup (map norm m).
Proof.
  induction m as [|[a b] m IH]; simpl; intros Hnd; [constructor|].
  inversion Hnd as [|? ? Ha Hnd']; subst. inversion Hnd' as [|? ? Hb Hnd'']; subst.
  constructor; [|apply IH; assumption].
  intros Hin. change (norm (a, b)) with (norm (a, b)) in Hin.
  apply in_map_norm in Hin. apply Hb.
  apply in_matching_ends.
  destruct Hin as [H|H]; [exists a, b | exists b, a]; auto.
Qed.

Lemma ends_negw es : ends (map negw es) = ends es.
Proof.
  unfold ends. rewrite map_map. apply map_ext. intros [[a b] w]. reflexivity.
Qed.

Lemma ends_tag cm m : ends (map (tag cm) m) = m.
Proof.
  unfold ends. rewrite map_map. rewrite <- (map_id m) at 2.
  apply map_ext. intros [a b]. reflexivity.
Qed.

Lemma negate_weights_fold E : forall G0,
  (forall a b w, In (a, b, w) E -> exists z, w = Some z) ->
  foldM (fun tmpGraph '(u, v, w) =>
           z <- as_number w ;;
           Ok (add_edge u v (Some (- z)%Z) tmpGraph)) E G0
  = Ok (add_edges (map negw E) G0).
Proof.
  induction E as [|[[a b] w] E IH]; intros G0 H; simpl; [reflexivity|].
  destruct (H a b w (or_introl eq_refl)) as [z ->]. simpl.
  apply IH. intros; eapply H; right; eassumption.
Qed.

Lemma dict_get_unique d b w0 :
  (exists w, In (b, w) d) -> (forall w, In (b, w) d -> w = w0) ->
  dict_get d b = Some w0.
Proof.
  induction d as [|[k x] d IH]; simpl; intros [w Hw] Hall; [destruct Hw|].
  destruct (Nat.eqb_spec k b) as [->|Hne].
  - f_equal. apply Hall. left. reflexivity.
  - apply IH.
    + destruct Hw as [Heq|Hw]; [inversion Heq; congruence | eauto].
    + intros; apply Hall; right; assumption.
Qed.

Lemma adj_ends es a b :
  adj (ends es) a b <-> exists w, In (a, b, w) es \/ In (b, a, w) es.
Proof.
  unfold adj. rewrite !in_ends. split.
  - intros [[w H]|[w H]]; exists w; auto.
  - intros [w [H|H]]; [left | right]; exists w; assumption.
Qed.

Lemma weight_opp (f g : vertex -> vertex -> Z) m :
  (forall a b, In (a, b) m -> f a b = (- g a b)%Z) ->
  weight f m = (- weight g m)%Z.
Proof.
  induction m as [|[a b] m IH]; simpl; intros H; [reflexivity|].
  rewrite IH by (intros; apply H; right; assumption).
  rewrite (H a b) by (left; reflexivity). lia.
Qed.

Lemma ends_at_tag cm v m :
  ends_at v (map (tag cm) m) = occurrences v (matching_ends m).
Proof.
  induction m as [|[a b] m IH]; simpl; [reflexivity|].
  rewrite IH, (Nat.eqb_sym a v), (Nat.eqb_sym b v). unfold occurrences. lia.
Qed.

Section Matching.

Variable cm : CostMatrix.
Variables T R : Graph.
Hypothesis HR : odd_complete cm T R.

Local Abbreviation negated := (negated R).

Lemma odd_nodup : NoDup (odd_vertices T).
Proof. rewrite <- (oc_nodes HR). apply (oc_nodup HR). Qed.

Lemma removed_within a b d :
  In (a, b, d) (gedges R) -> In a (gnodes R) /\ In b (gnodes R).
Proof.
  intros Hin. rewrite (oc_nodes HR).
  assert (H : In (b, d) (get_adj R a))
    by (unfold get_adj; apply adj_of_spec; left; assumption).
  apply (oc_adj HR) in H. tauto.
Qed.

Lemma removed_edges_data a b w :
  In (a, b, w) (edges_data R) \/ In (b, a, w) (edges_data R) <->
  In a (odd_vertices T) /\ In b (odd_vertices T) /\ a <> b /\
  w = Some (wt cm a b).
Proof.
  rewrite (@edges_data_in R a b w (oc_nodup HR) removed_within).
  rewrite <- adj_of_spec. apply (oc_adj HR).
Qed.

Lemma removed_edges_data_nodup : NoDup (map norm (ends (edges_data R))).
Proof.
  eapply Permutation_NoDup.
  - apply Permutation_sym.
    apply (@edges_data_norm_perm R (oc_nodup HR) removed_within).
  - apply (oc_simple HR).
Qed.

Lemma negate_weights_ok : negate_weights R = Ok negated.
Proof.
  unfold negate_weights. apply negate_weights_fold.
  intros a b w Hin.
  assert (H : In (a, b, w) (edges_data R) \/ In (b, a, w) (edges_data R))
    by (left; assumption).
  apply removed_edges_data in H. exists (wt cm a b). tauto.
Qed.

Lemma gedges_negated : gedges negated = map negw (edges_data R).
Proof.
  unfold negated. rewrite gedges_add_edges_fresh; [reflexivity|].
  simpl. rewrite ends_negw. apply removed_edges_data_nodup.
Qed.

Lemma negated_adj a b :
  adj (ends (gedges negated)) a b <->
  In a (odd_vertices T) /\ In b (odd_vertices T) /\ a <> b.
Proof.
  rewrite gedges_negated, ends_negw, adj_ends. split.
  - intros [w H]. apply removed_edges_data in H. tauto.
  - intros H. exists (Some (wt cm a b)). apply removed_edges_data. tauto.
Qed.

Lemma negated_weight a b :
  In a (odd_vertices T) -> In b (odd_vertices T) -> a <> b ->
  gweight negated a b = (- wt cm a b)%Z.
Proof.
  intros Ha Hb Hne. unfold gweight, edge_weight.
  assert (Hadj : forall w, In (b, w) (get_adj negated a) <->
                           w = Some (- wt cm a b)%Z).
  { intros w. unfold get_adj. rewrite adj_of_spec, gedges_negated.
    rewrite !in_map_iff. split.
    - intros [[[[x y] d] [Heq Hin]]|[[[x y] d] [Heq Hin]]];
        simpl in Heq; inversion Heq; subst.
      + assert (H : In (a, b, d) (edges_data R) \/ In (b, a, d) (edges_data R))
          by (left; assumption).
        apply removed_edges_data in H. destruct H as [_ [_ [_ ->]]]. reflexivity.
      + assert (H : In (a, b, d) (edges_data R) \/ In (b, a, d) (edges_data R))
          by (right; assumption).
        apply removed_edges_data in H. destruct H as [_ [_ [_ ->]]]. reflexivity.
    - intros ->.
      assert (H : In (a, b, Some (wt cm a b)) (edges_data R) \/
                  In (b, a, Some (wt cm a b)) (edges_data R))
        by (apply removed_edges_data; tauto).
      destruct H as [H|H]; [left | right];
        eexists; (split; [|exact H]); reflexivity. }
  assert (Hnode : memb a (gnodes negated) = true).
  { apply memb_In. unfold negated. apply gnodes_add_edges. right.
    assert (H : In (b, Some (- wt cm a b)%Z) (get_adj negated a))
      by (apply Hadj; reflexivity).
    unfold get_adj in H. apply adj_of_spec in H. rewrite gedges_negated in H.
    destruct H as [H|H]; eexists _, _, _; (split; [exact H|]); auto. }
  rewrite Hnode.
  rewrite (@dict_get_unique _ b (Some (- wt cm a b)%Z)); [reflexivity | |].
  - eexists. apply Hadj. reflexivity.
  - intros w Hw. apply Hadj. assumption.
Qed.

Lemma removed_weight a b :
  In a (odd_vertices T) -> In b (odd_vertices T) -> a <> b ->
  edge_weight R a b = Ok (Some (wt cm a b)).
Proof.
  intros Ha Hb Hne. unfold edge_weight.
  assert (Hnode : memb a (gnodes R) = true)
    by (apply memb_In; rewrite (oc_nodes HR); assumption).
  rewrite Hnode.
  rewrite (@dict_get_unique _ b (Some (wt cm a b))); [reflexivity | |].
  - eexists. apply (oc_adj HR). eauto.
  - intros w Hw. apply (oc_adj HR) in Hw. tauto.
Qed.

(** The matchings of the negated graph are the sets of disjoint pairs of
    odd vertices. *)
Lemma negated_matching m :
  is_matching negated m <->
  NoDup (matching_ends m) /\ incl (matching_ends m) (odd_vertices T).
Proof.
  unfold is_matching. split.
  - intros [Hedges Hnd]. split; [assumption|].
    intros x Hx. apply in_matching_ends in Hx.
    destruct Hx as [a [b [Hin Hx]]]. apply Hedges, negated_adj in Hin.
    destruct Hx as [-> | ->]; tauto.
  - intros [Hnd Hincl]. split; [|assumption].
    intros a b Hin. apply negated_adj.
    split; [|split].
    + apply Hincl, in_matching_ends. eauto.
    + apply Hincl, in_matching_ends. eauto.
    + eapply matching_distinct; eassumption.
Qed.

Lemma perfect_is_matching m :
  perfect_matching (odd_vertices T) m -> is_matching negated m.
Proof.
  intros HP. apply negated_matching. split.
  - eapply Permutation_NoDup; [apply Permutation_sym; exact HP | apply odd_nodup].
  - intros x Hx. eapply Permutation_in; eassumption.
Qed.

Lemma perfect_length m :
  perfect_matching (odd_vertices T) m -> 2 * length m = length (odd_vertices T).
Proof.
  intros HP. rewrite <- matching_ends_length. apply Permutation_length. exact HP.
Qed.

(** On the complete graph over an even number of vertices, a matching of
    the largest cardinality is perfect, and one of the largest negated
    weight among those is a perfect matching of the least weight. *)
Lemma contract_min_perfect m :
  Nat.even (length (odd_vertices T)) = true ->
  matcher_contract negated m ->
  perfect_matching (odd_vertices T) m /\
  forall m', perfect_matching (odd_vertices T) m' ->
             (weight (wt cm) m <= weight (wt cm) m')%Z.
Proof.
  intros Hev [Hm [Hcard Hmax]].
  pose proof (pair_up_ends _ Hev) as Hpair.
  assert (Hp0 : perfect_matching (odd_vertices T) (pair_up (odd_vertices T)))
    by (unfold perfect_matching; rewrite Hpair; apply Permutation_refl).
  pose proof (Hcard _ (perfect_is_matching Hp0)) as Hge.
  pose proof (perfect_length Hp0) as Hlen0.
  pose proof Hm as Hm'. apply negated_matching in Hm'. destruct Hm' as [Hnd Hincl].
  assert (Hle : 2 * length m <= length (odd_vertices T)).
  { rewrite <- matching_ends_length. apply NoDup_incl_length; assumption. }
  assert (Hperf : perfect_matching (odd_vertices T) m).
  { apply NoDup_Permutation_bis; try assumption.
    rewrite matching_ends_length. lia. }
  split; [exact Hperf|].
  intros m' HP'.
  assert (Hw : forall x, is_matching negated x ->
                         weight (gweight negated) x = (- weight (wt cm) x)%Z).
  { intros x Hx. apply weight_opp. intros a b Hin.
    destruct Hx as [Hx _]. apply Hx, negated_adj in Hin.
    apply negated_weight; tauto. }
  pose proof (Hmax m' (perfect_is_matching HP')) as Hcmp.
  rewrite (Hw m' (perfect_is_matching HP')), (Hw m Hm) in Hcmp.
  pose proof (perfect_length HP'). pose proof (perfect_length Hperf).
  lia.
Qed.

Lemma matching_graph_fold (mwm : list edge) : forall G0,
  (forall a b, In (a, b) mwm ->
               In a (odd_vertices T) /\ In b (odd_vertices T) /\ a <> b) ->
  foldM (fun matchingGraph '(a, b) =>
           w <- edge_weight R a b ;;
           Ok (add_edge a b w matchingGraph)) mwm G0
  = Ok (add_edges (map (tag cm) mwm) G0).
Proof.
  induction mwm as [|[a b] m IH]; intros G0 H; simpl; [reflexivity|].
  destruct (H a b (or_introl eq_refl)) as [Ha [Hb Hne]].
  rewrite (removed_weight Ha Hb Hne). simpl.
  apply IH. intros; apply H; right; assumption.
Qed.

End Matching.

(* ================================================================== *)
(** * The matching graph and the merged multigraph                      *)
(* ================================================================== *)

Lemma gwf_within G :
  gwf G -> forall a b d, In (a, b, d) (gedges G) ->
                         In a (gnodes G) /\ In b (gnodes G).
Proof. intros [_ H] a b d Hin. apply H in Hin. tauto. Qed.

Lemma edges_data_within G a b d :
  gwf G -> In (a, b, d) (edges_data G) -> In a (gnodes G) /\ In b (gnodes G).
Proof.
  intros Hwf Hin. pose proof Hwf as [Hnd _].
  assert (H : In (a, b, d) (edges_data G) \/ In (b, a, d) (edges_data G))
    by (left; assumption).
  apply (@edges_data_in G a b d Hnd (gwf_within Hwf)) in H.
  destruct H as [H|H]; apply (gwf_within Hwf) in H; tauto.
Qed.

Lemma matching_graph_ok cm T R mwm :
  odd_complete cm T R ->
  perfect_matching (odd_vertices T) mwm ->
  exists MG,
    foldM (fun matchingGraph '(a, b) =>
             w <- edge_weight R a b ;;
             Ok (add_edge a b w matchingGraph)) mwm empty_graph = Ok MG /\
    gwf MG /\ gedges MG = map (tag cm) mwm /\
    (forall x, In x (gnodes MG) <-> In x (odd_vertices T)).
Proof.
  intros HR HP.
  assert (Hnd : NoDup (matching_ends mwm)).
  { eapply Permutation_NoDup; [apply Permutation_sym; exact HP|].
    apply (odd_nodup HR). }
  assert (Hin : forall a b, In (a, b) mwm ->
                  In a (odd_vertices T) /\ In b (odd_vertices T) /\ a <> b).
  { intros a b Hab. split; [|split].
    - apply (Permutation_in _ HP), in_matching_ends. eauto.
    - apply (Permutation_in _ HP), in_matching_ends. eauto.
    - eapply matching_distinct; eassumption. }
  exists (add_edges (map (tag cm) mwm) empty_graph).
  split; [apply (matching_graph_fold HR); exact Hin|].
  assert (Hedges : gedges (add_edges (map (tag cm) mwm) empty_graph)
                   = map (tag cm) mwm).
  { rewrite gedges_add_edges_fresh; [reflexivity|].
    simpl. rewrite ends_tag. apply matching_norm_nodup. exact Hnd. }
  assert (Hnodes : forall x, In x (gnodes (add_edges (map (tag cm) mwm) empty_graph))
                             <-> In x (matching_ends mwm)).
  { intros x. rewrite gnodes_add_edges, in_matching_ends. simpl. split.
    - intros [[]|[u [v [w [Huv Hx]]]]]. exists u, v. split; [|exact Hx].
      apply in_map_iff in Huv. destruct Huv as [[a b] [Heq Hab]].
      unfold tag in Heq. simpl in Heq. inversion Heq; subst. exact Hab.
    - intros [a [b [Hab Hx]]]. right. exists a, b, (Some (wt cm a b)).
      split; [|exact Hx].
      apply in_map_iff. exists (a, b). split; [reflexivity | exact Hab]. }
  split; [|split].
  - split; [apply nodup_add_edges; constructor|].
    intros a b d Hab. rewrite Hedges in Hab.
    apply in_map_iff in Hab. destruct Hab as [[x y] [Heq Hxy]].
    unfold tag in Heq. simpl in Heq. inversion Heq; subst.
    rewrite !Hnodes. split; [|split].
    + apply in_matching_ends. eauto.
    + apply in_matching_ends. eauto.
    + eapply matching_distinct; eassumption.
  - exact Hedges.
  - intros x. rewrite Hnodes. split; intros Hx.
    + eapply Permutation_in; eassumption.
    + eapply Permutation_in; [apply Permutation_sym|]; eassumption.
Qed.

Lemma merge_medges T MG :
  medges (_merge_two_graphs T MG) = edges_data T ++ edges_data MG.
Proof.
  unfold _merge_two_graphs, MultiGraph_of.
  change (medges (madd_edges (edges_data MG)
                    (madd_edges (edges_data T) (mk_multi (gnodes T) [])))
          = edges_data T ++ edges_data MG).
  rewrite !medges_madd_edges. reflexivity.
Qed.

Lemma merge_mnodes T MG :
  gwf T -> gwf MG -> incl (gnodes MG) (gnodes T) ->
  mnodes (_merge_two_graphs T MG) = gnodes T.
Proof.
  intros HT HMG Hincl. unfold _merge_two_graphs, MultiGraph_of.
  change (mnodes (madd_edges (edges_data MG)
                    (madd_edges (edges_data T) (mk_multi (gnodes T) [])))
          = gnodes T).
  assert (H1 : mnodes (madd_edges (edges_data T) (mk_multi (gnodes T) []))
               = gnodes T).
  { rewrite mnodes_madd_edges_present; [reflexivity|].
    intros u v d Hin. simpl. eapply edges_data_within; eassumption. }
  rewrite mnodes_madd_edges_present; [exact H1|].
  intros u v d Hin. rewrite H1.
  destruct (@edges_data_within MG u v d HMG Hin). auto.
Qed.

Lemma merge_mwf T MG : mwf (_merge_two_graphs T MG).
Proof.
  unfold _merge_two_graphs, MultiGraph_of.
  change (mwf (madd_edges (edges_data MG)
                 (madd_edges (edges_data T) (mk_multi (gnodes T) [])))).
  apply mwf_madd_edges, mwf_madd_edges. intros u v w [].
Qed.

(** In the merged multigraph a vertex has its tree degree plus its degree
    in the matching graph. *)
Lemma merge_degree T MG v :
  gwf T -> gwf MG ->
  mdegree (_merge_two_graphs T MG) v = degree T v + degree MG v.
Proof.
  intros HT HMG. unfold mdegree. rewrite merge_medges, ends_at_app.
  pose proof HT as [HndT _]. pose proof HMG as [HndM _].
  rewrite (@edges_data_ends_at T v HndT (gwf_within HT)).
  rewrite (@edges_data_ends_at MG v HndM (gwf_within HMG)).
  rewrite (degree_ends_at v HT), (degree_ends_at v HMG). reflexivity.
Qed.

Lemma merge_conn T MG x y :
  gwf T -> conn (ends (gedges T)) x y ->
  conn (ends (medges (_merge_two_graphs T MG))) x y.
Proof.
  intros HT. apply conn_norm_incl. intros e He.
  rewrite merge_medges, ends_app, map_app. apply in_or_app. left.
  pose proof HT as [Hnd _].
  eapply Permutation_in; [|exact He].
  apply Permutation_sym. apply (@edges_data_norm_perm T Hnd (gwf_within HT)).
Qed.

Lemma merge_connected T MG :
  gwf T -> gwf MG -> incl (gnodes MG) (gnodes T) -> graph_connected T ->
  connected (_merge_two_graphs T MG).
Proof.
  intros HT HMG Hincl [Hne Hc]. split.
  - rewrite merge_mnodes by assumption. exact Hne.
  - rewrite merge_mnodes by assumption. intros x y Hx Hy.
    apply merge_conn; auto.
Qed.

Lemma matching_degree cm T mwm MG v :
  gwf MG -> gedges MG = map (tag cm) mwm ->
  NoDup (odd_vertices T) ->
  perfect_matching (odd_vertices T) mwm ->
  degree MG v = if Nat.even (degree T v) then 0
                else if memb v (gnodes T) then 1 else 0.
Proof.
  intros HMG Hedges Hnd HP.
  rewrite (degree_ends_at v HMG), Hedges, ends_at_tag.
  assert (Hnd' : NoDup (matching_ends mwm))
    by (eapply Permutation_NoDup; [apply Permutation_sym; exact HP | exact Hnd]).
  destruct (Nat.even (degree T v)) eqn:Hev.
  - apply occurrences_notin. intros Hin.
    apply (Permutation_in _ HP), in_odd_vertices in Hin.
    destruct Hin. congruence.
  - destruct (memb v (gnodes T)) eqn:Hm.
    + apply occurrences_in; [exact Hnd'|].
      apply (Permutation_in _ (Permutation_sym HP)), in_odd_vertices.
      apply memb_In in Hm. tauto.
    + apply occurrences_notin. intros Hin.
      apply (Permutation_in _ HP), in_odd_vertices in Hin.
      apply memb_false in Hm. tauto.
Qed.

(** The Christofides pipeline, stage by stage. *)
Lemma christofides_stages N cm start mwm :
  square N cm -> finite_weights N cm -> float_weights N cm -> 2 <= N ->
  start < N -> matcher_ok mwm cm ->
  exists T R MG walk body,
    minimum_spanning_tree (_create_weighted_graph cm) = Ok T /\
    mst_facts N cm T /\
    _remove_even_degree_vertices (_create_weighted_graph cm) T = Ok R /\
    odd_complete cm T R /\
    Nat.even (length (odd_vertices T)) = true /\
    _match_minimal_weight mwm R = Ok MG /\
    gwf MG /\
    (forall a b w, In (a, b, w) (gedges MG) -> w = Some (wt cm a b)) /\
    perfect_matching (odd_vertices T) (ends (gedges MG)) /\
    (forall m', perfect_matching (odd_vertices T) m' ->
                (weight (wt cm) (ends (gedges MG)) <= weight (wt cm) m')%Z) /\
    mnodes (_merge_two_graphs T MG) = gnodes T /\
    connected (_merge_two_graphs T MG) /\
    (forall v, In v (gnodes T) ->
       mdegree (_merge_two_graphs T MG) v
       = degree T v + (if Nat.even (degree T v) then 0 else 1)) /\
    even_degrees (_merge_two_graphs T MG) /\
    _create_eulerian_path (_merge_two_graphs T MG) start = Ok walk /\
    length walk = length (medges (_merge_two_graphs T MG)) + 1 /\
    hd start walk = start /\ last walk start = start /\
    body = first_occ [] walk /\
    christofides_algorithm mwm cm start = Ok (body ++ [start]) /\
    hd start body = start /\ Permutation body (seq 0 N).
Proof.
  intros Hsq Hfin Hfl HN Hstart Hmatch.
  destruct (mst_of_matrix Hsq Hfin Hfl HN) as [T [Hrun HT]].
  destruct (removed_graph_complete Hsq Hfin HN HT) as [R [Hrem HR]].
  pose proof (odd_vertices_even (mf_gwf HT)) as Hev.
  pose proof (Hmatch T R (negated R) Hrun Hrem (negate_weights_ok HR)) as Hc.
  destruct (contract_min_perfect HR Hev Hc) as [Hperf Hmin].
  destruct (matching_graph_ok HR Hperf) as [MG [Hfold [HMG [Hedges HnMG]]]].
  set (M := _merge_two_graphs T MG).
  assert (Hmmw : _match_minimal_weight mwm R = Ok MG).
  { unfold _match_minimal_weight. rewrite (negate_weights_ok HR). simpl.
    exact Hfold. }
  assert (Hincl : incl (gnodes MG) (gnodes T)).
  { intros x Hx. apply HnMG, in_odd_vertices in Hx. tauto. }
  assert (Hnodes : mnodes M = gnodes T)
    by (apply merge_mnodes; [apply (mf_gwf HT) | assumption | assumption]).
  assert (Hconn : connected M).
  { apply merge_connected; try assumption;
      [apply (mf_gwf HT) | apply (mf_connected HT)]. }
  assert (Hdeg : forall v, In v (gnodes T) ->
            mdegree M v = degree T v + (if Nat.even (degree T v) then 0 else 1)).
  { intros v Hv. unfold M. rewrite (merge_degree v (mf_gwf HT) HMG).
    rewrite (@matching_degree cm T _ MG v HMG Hedges (odd_nodup HR) Hperf).
    apply memb_In in Hv. rewrite Hv. reflexivity. }
  assert (Heven : even_degrees M).
  { intros v Hv. rewrite Hnodes in Hv. rewrite (Hdeg v Hv).
    rewrite Nat.even_add.
    destruct (Nat.even (degree T v)); reflexivity. }
  assert (Hlen : length (gnodes T) = N)
    by (apply nodes_length; [apply (mf_nodup HT) | apply (mf_nodes HT)]).
  assert (Hedge : forall v, In v (mnodes M) ->
                            exists y, adj (ends (medges M)) v y).
  { intros v Hv. rewrite Hnodes in Hv.
    destruct (@connected_has_edge T v (mf_connected HT)) as [y Hy];
      [lia | apply (mf_nodup HT) | assumption|].
    exists y. apply in_map_norm. unfold M.
    rewrite merge_medges, ends_app, map_app. apply in_or_app. left.
    eapply Permutation_in.
    - apply Permutation_sym.
      apply (@edges_data_norm_perm T (mf_nodup HT) (gwf_within (mf_gwf HT))).
    - apply in_map_norm. exact Hy. }
  assert (Hsin : In start (mnodes M))
    by (rewrite Hnodes; apply (mf_nodes HT); assumption).
  assert (HE : 1 <= length (medges M)).
  { destruct (Hedge start Hsin) as [y Hy].
    destruct (medges M); [destruct Hy as [[]|[]] | simpl; lia]. }
  destruct (@create_eulerian_path_ok M start (merge_mwf T MG) Hconn Heven Hsin HE)
    as [walk [Hwalk [Hwlen [Hhd [Hlast HP]]]]].
  assert (Hcover : forall x, In x walk <-> x < N).
  { intros x. rewrite <- (mf_nodes HT), <- Hnodes.
    apply walk_vertices; try assumption; [apply merge_mwf | lia]. }
  destruct (@shortcut_route N start walk Hhd) as [body [Hham [Hbody [Hbhd Hbperm]]]];
    [lia | assumption|].
  exists T, R, MG, walk, body.
  split; [exact Hrun|]. split; [exact HT|]. split; [exact Hrem|].
  split; [exact HR|]. split; [exact Hev|]. split; [exact Hmmw|].
  split; [exact HMG|].
  split.
  { intros a b w Hin. rewrite Hedges in Hin. apply in_map_iff in Hin.
    destruct Hin as [[x y] [Heq _]]. unfold tag in Heq. simpl in Heq.
    inversion Heq; subst. reflexivity. }
  rewrite Hedges, ends_tag.
  split; [exact Hperf|]. split; [exact Hmin|]. split; [exact Hnodes|].
  split; [exact Hconn|]. split; [exact Hdeg|]. split; [exact Heven|].
  split; [exact Hwalk|]. split; [exact Hwlen|]. split; [exact Hhd|].
  split; [exact Hlast|]. split; [exact Hbody|].
  split; [|split; assumption].
  unfold christofides_algorithm. cbv zeta. rewrite Hrun. simpl.
  rewrite Hrem. simpl. rewrite Hmmw. simpl. fold M. rewrite Hwalk. simpl.
  exact Hham.
Qed.

(* ================================================================== *)
(** * Relabelling the cost matrix                                       *)
(* ================================================================== *)

Lemma mapM_ok {A B : Type} (f : A -> result B) (g : A -> B) (l : list A) :
  (forall a, In a l -> f a = Ok (g a)) -> mapM f l = Ok (map g l).
Proof.
  induction l as [|a l IH]; simpl; intros H; [reflexivity|].
  rewrite H by (left; reflexivity). simpl.
  rewrite IH by (intros; apply H; right; assumption). reflexivity.
Qed.

Lemma getitem_nth {A : Type} (l : list A) (i : nat) (d : A) :
  i < length l -> getitem l i = Ok (nth i l d).
Proof.
  intros Hi. unfold getitem.
  destruct (nth_error l i) as [x|] eqn:Hx.
  - f_equal. symmetry. apply nth_error_nth. assumption.
  - apply nth_error_None in Hx. lia.
Qed.

Lemma getitem2_nth N (cm : CostMatrix) i j :
  square N cm -> i < N -> j < N ->
  getitem2 cm i j = Ok (nth j (nth i cm []) None).
Proof.
  intros [Hlen Hrows] Hi Hj. unfold getitem2.
  destruct (nth_error cm i) as [row|] eqn:Hr.
  2:{ apply nth_error_None in Hr. lia. }
  assert (Hrow : nth i cm [] = row) by (apply nth_error_nth; assumption).
  assert (Hl : length row = N).
  { apply Hrows. eapply nth_error_In; eassumption. }
  destruct (nth_error row j) as [x|] eqn:Hx.
  2:{ apply nth_error_None in Hx. lia. }
  f_equal. rewrite Hrow. symmetry. apply nth_error_nth. assumption.
Qed.

Lemma index_ok l x :
  In x l -> exists s, index l x = Ok s /\ s < length l /\ nth s l 0 = x /\
                      forall t, t < s -> nth t l 0 <> x.
Proof.
  induction l as [|y l IH]; simpl; intros Hin; [destruct Hin|].
  destruct (Nat.eqb_spec y x) as [->|Hne].
  - exists 0. split; [reflexivity|]. split; [lia|]. split; [reflexivity|].
    intros t Ht. lia.
  - destruct Hin as [Heq|Hin]; [contradiction|].
    destruct (IH Hin) as [s [Hs [Hlt [Hnth Hfirst]]]].
    exists (S s). rewrite Hs. simpl. split; [reflexivity|].
    split; [lia|]. split; [exact Hnth|].
    intros [|t] Ht; [exact Hne | apply Hfirst; lia].
Qed.

Lemma relabeled_square N cm perm : square N (relabeled N cm perm).
Proof.
  unfold relabeled. split.
  - rewrite length_map, length_seq. reflexivity.
  - intros row Hrow. apply in_map_iff in Hrow. destruct Hrow as [i [<- _]].
    rewrite length_map, length_seq. reflexivity.
Qed.

Lemma relabeled_nth N cm perm i j :
  i < N -> j < N ->
  nth j (nth i (relabeled N cm perm) []) None
  = nth (nth j perm 0) (nth (nth i perm 0) cm []) None.
Proof.
  intros Hi Hj. unfold relabeled.
  rewrite (nth_indep _ [] (map (fun j => nth (nth j perm 0)
                                 (nth (nth 0 perm 0) cm []) None) (seq 0 N)))
    by (rewrite length_map, length_seq; assumption).
  rewrite (map_nth (fun i => map (fun j => nth (nth j perm 0)
                                 (nth (nth i perm 0) cm []) None) (seq 0 N))).
  rewrite seq_nth by assumption. simpl.
  rewrite (nth_indep _ None (nth (nth 0 perm 0) (nth (nth i perm 0) cm []) None))
    by (rewrite length_map, length_seq; assumption).
  rewrite (map_nth (fun j => nth (nth j perm 0) (nth (nth i perm 0) cm []) None)).
  rewrite seq_nth by assumption. reflexivity.
Qed.

Lemma perm_nth_lt N perm i :
  Permutation perm (seq 0 N) -> i < N -> nth i perm 0 < N.
Proof.
  intros HP Hi.
  assert (Hlen : length perm = N)
    by (rewrite (Permutation_length HP); apply length_seq).
  assert (Hin : In (nth i perm 0) perm) by (apply nth_In; lia).
  apply (Permutation_in _ HP), in_seq in Hin. lia.
Qed.

Lemma relabel_ok N cm start perm :
  square N cm -> start < N -> Permutation perm (seq 0 N) ->
  exists s,
    relabel cm start perm = Ok (relabeled N cm perm, s) /\
    s < N /\ nth s perm 0 = start /\ forall t, t < s -> nth t perm 0 <> start.
Proof.
  intros Hsq Hstart HP. pose proof Hsq as [Hlen _].
  assert (Hplen : length perm = N)
    by (rewrite (Permutation_length HP); apply length_seq).
  assert (Hin : In start perm).
  { apply (Permutation_in _ (Permutation_sym HP)), in_seq. lia. }
  destruct (index_ok _ _ Hin) as [s [Hs [Hlt [Hnth Hfirst]]]].
  exists s. unfold relabel. rewrite Hlen.
  rewrite (@mapM_ok _ _ _
             (fun i => map (fun j => nth (nth j perm 0)
                                       (nth (nth i perm 0) cm []) None)
                           (seq 0 N))).
  - simpl. rewrite Hs. simpl. split; [reflexivity|].
    split; [lia|]. split; assumption.
  - intros i Hi. apply in_seq in Hi. apply mapM_ok.
    intros j Hj. apply in_seq in Hj.
    rewrite (getitem_nth perm 0) by lia. simpl.
    rewrite (getitem_nth perm 0) by lia. simpl.
    apply (getitem2_nth Hsq); apply perm_nth_lt; assumption || lia.
Qed.

(** Relabelling keeps the matrix a valid input. *)
Lemma relabeled_valid N cm perm :
  valid_matrix N cm -> Permutation perm (seq 0 N) ->
  valid_matrix N (relabeled N cm perm).
Proof.
  intros [Hsq [Hd [Hf Hs]]] HP.
  assert (Hplen : length perm = N)
    by (rewrite (Permutation_length HP); apply length_seq).
  assert (Hnd : NoDup perm)
    by (eapply Permutation_NoDup; [apply Permutation_sym; exact HP | apply seq_NoDup]).
  split; [apply relabeled_square|]. split; [|split].
  - intros i Hi. rewrite relabeled_nth by assumption.
    apply Hd. apply perm_nth_lt; assumption.
  - intros i j Hi Hj Hne. rewrite relabeled_nth by assumption.
    apply Hf; try (apply perm_nth_lt; assumption).
    intros Heq. apply Hne.
    apply (proj1 (NoDup_nth perm 0) Hnd); lia.
  - intros i j Hi Hj. rewrite !relabeled_nth by assumption.
    apply Hs; apply perm_nth_lt; assumption.
Qed.

(* ================================================================== *)
(** * Fixtures                                                          *)
(* ================================================================== *)

Ltac small_index i :=
  repeat (destruct i as [|i]; [|try lia]); try lia.

Ltac valid_small :=
  split; [split; [reflexivity |
                  intros row Hrow; simpl in Hrow;
                  repeat (destruct Hrow as [<-|Hrow]; [reflexivity|]);
                  destruct Hrow]|];
  split; [intros i Hi; small_index i; reflexivity|];
  split; [intros i j Hi Hj Hne; small_index i; small_index j;
          simpl; eexists; reflexivity|];
  intros i j Hi Hj; small_index i; small_index j; reflexivity.

Ltac weights_small :=
  intros i j z Hi Hj Hz; small_index i; small_index j;
  simpl in Hz; inversion Hz; subst; vm_compute; reflexivity.

Lemma one_vertex_valid : valid_matrix 1 one_vertex.
Proof. valid_small. Qed.

Lemma three_vertices_valid : valid_matrix 3 three_vertices.
Proof. valid_small. Qed.

Lemma three_on_a_line_valid : valid_matrix 3 three_on_a_line.
Proof. valid_small. Qed.

Lemma four_with_tie_valid : valid_matrix 4 four_with_tie.
Proof. valid_small. Qed.

Lemma three_far_apart_valid : valid_matrix 3 three_far_apart.
Proof. valid_small. Qed.

(** Prim's algorithm calls [isnan] on the first weight it meets, and the
    conversion to a float overflows: nothing is returned, whatever the
    start and the matcher. *)
Lemma far_apart_overflows start mwm :
  minimum_spanning_tree (_create_weighted_graph three_far_apart)
  = Raise OverflowError /\
  double_tree_algorithm three_far_apart start = Raise OverflowError /\
  christofides_algorithm mwm three_far_apart start = Raise OverflowError.
Proof.
  assert (H : minimum_spanning_tree (_create_weighted_graph three_far_apart)
              = Raise OverflowError) by (vm_compute; reflexivity).
  split; [exact H|].
  unfold double_tree_algorithm, christofides_algorithm. cbv zeta.
  rewrite H. split; reflexivity.
Qed.

Lemma one_vertex_float : float_weights 1 one_vertex.
Proof. weights_small. Qed.

Lemma three_vertices_float : float_weights 3 three_vertices.
Proof. weights_small. Qed.

Lemma three_on_a_line_exact : exact_weights 3 three_on_a_line.
Proof. weights_small. Qed.

Lemma three_on_a_line_float : float_weights 3 three_on_a_line.
Proof. weights_small. Qed.

Lemma four_with_tie_float : float_weights 4 four_with_tie.
Proof. weights_small. Qed.

(** On the three-vertex example the matcher is handed the single edge
    between the two leaves of the tree, and choosing it honours the
    contract. *)
Lemma pick_0_2_ok : matcher_ok pick_0_2 three_vertices.
Proof.
  intros T R tmp HT HR Htmp.
  vm_compute in HT. inversion HT; subst T; clear HT.
  vm_compute in HR. inversion HR; subst R; clear HR.
  vm_compute in Htmp. inversion Htmp; subst tmp; clear Htmp.
  assert (Hends : forall m, is_matching (mk_graph [0; 2] [(0, 2, Some (-3)%Z)]) m ->
                            incl (matching_ends m) [0; 2]).
  { intros m [Hedges _] x Hx. apply in_matching_ends in Hx.
    destruct Hx as [a [b [Hab Hx]]]. apply Hedges in Hab. simpl in Hab.
    destruct Hab as [[Heq|[]]|[Heq|[]]]; inversion Heq; subst;
      destruct Hx as [-> | ->]; simpl; auto. }
  split; [|split].
  - split.
    + intros a b [Heq|[]]. inversion Heq; subst. left. left. reflexivity.
    + simpl. repeat constructor; simpl; intuition congruence.
  - intros m' Hm'. pose proof (Hends m' Hm') as Hincl.
    destruct Hm' as [_ Hnd].
    pose proof (NoDup_incl_length Hnd Hincl) as Hlen.
    rewrite matching_ends_length in Hlen. simpl in *. lia.
  - intros m' Hm' Hlen. destruct m' as [|[a b] [|e m']]; try discriminate.
    destruct Hm' as [Hedges _].
    specialize (Hedges a b (or_introl eq_refl)). simpl in Hedges.
    destruct Hedges as [[Heq|[]]|[Heq|[]]]; inversion Heq; subst;
      vm_compute; discriminate.
Qed.

(* ================================================================== *)
(** * The orchestrators return tours                                    *)
(* ================================================================== *)

Lemma closed_tour_intro N start body :
  hd start body = start -> Permutation body (seq 0 N) ->
  closed_tour N start (body ++ [start]).
Proof.
  intros Hhd HP. split; [|split; [|split]].
  - rewrite length_app, (Permutation_length HP), length_seq. reflexivity.
  - destruct body; [reflexivity | exact Hhd].
  - apply last_last.
  - rewrite removelast_last. exact HP.
Qed.

(** C1, counterexample: on the valid 1x1 matrix with start 0 both
    orchestrators raise instead of returning a route; and so they do on the
    valid 3x3 matrix whose weights are [2 ** 1024], where the conversion to
    a float overflows in Prim's algorithm. *)
Lemma one_vertex_raises :
  valid_matrix 1 one_vertex /\ 0 < 1 /\
  double_tree_algorithm one_vertex 0 = Raise NetworkXPointlessConcept /\
  christofides_algorithm (fun _ => []) one_vertex 0
  = Raise NetworkXPointlessConcept /\
  (forall mwm, exists e, christofides_algorithm mwm one_vertex 0 = Raise e) /\
  valid_matrix 3 three_far_apart /\ 0 < 3 /\
  double_tree_algorithm three_far_apart 0 = Raise OverflowError /\
  (forall mwm, christofides_algorithm mwm three_far_apart 0
               = Raise OverflowError).
Proof.
  split; [apply one_vertex_valid|]. split; [lia|].
  split; [reflexivity|]. split; [reflexivity|].
  split.
  2:{ split; [apply three_far_apart_valid|]. split; [lia|].
      split; [apply (far_apart_overflows 0 (fun _ => []))|].
      intros mwm. apply (far_apart_overflows 0 mwm). }
  intros mwm. unfold christofides_algorithm. cbv zeta.
  change (minimum_spanning_tree (_create_weighted_graph one_vertex))
    with (Ok empty_graph : result Graph).
  cbn [bind].
  change (_remove_even_degree_vertices (_create_weighted_graph one_vertex) empty_graph)
    with (Ok empty_graph : result Graph).
  cbn [bind]. unfold _match_minimal_weight.
  change (negate_weights empty_graph) with (Ok empty_graph : result Graph).
  cbn [bind].
  destruct (mwm empty_graph) as [|[a b] m]; simpl; eauto.
Qed.

(** C1, amended: for a valid matrix on at least two vertices, none of
    whose weights is beyond the range of a float, and a start among the
    vertices, the double-tree orchestrator returns a list of N+1 vertices
    that begins and ends at the start and whose other entries are the N
    vertices, each once; so does the Christofides orchestrator when the
    library matcher keeps its contract on the graph it is handed. *)
Theorem orchestrators_return_tours N cm start mwm :
  valid_matrix N cm -> float_weights N cm -> 2 <= N -> start < N ->
  matcher_ok mwm cm ->
  (exists route, double_tree_algorithm cm start = Ok route /\
                 closed_tour N start route) /\
  (exists route, christofides_algorithm mwm cm start = Ok route /\
                 closed_tour N start route).
Proof.
  intros [Hsq [_ [Hfin _]]] Hfl HN Hstart Hmatch. split.
  - destruct (double_tree_stages Hsq Hfin Hfl HN Hstart)
      as [T [walk [body [_ [_ [_ [_ [_ [_ [_ [_ [_ [Hrun [Hhd HP]]]]]]]]]]]]]].
    exists (body ++ [start]). split; [exact Hrun|].
    apply closed_tour_intro; assumption.
  - destruct (christofides_stages Hsq Hfin Hfl HN Hstart Hmatch)
      as [T [R [MG [walk [body H]]]]].
    decompose [and] H. exists (body ++ [start]). split; [assumption|].
    apply closed_tour_intro; assumption.
Qed.

Lemma orchestrators_return_tours_witness :
  (exists route, double_tree_algorithm three_vertices 0 = Ok route /\
                 closed_tour 3 0 route) /\
  (exists route, christofides_algorithm pick_0_2 three_vertices 0 = Ok route /\
                 closed_tour 3 0 route).
Proof.
  apply (@orchestrators_return_tours 3 three_vertices 0 pick_0_2).
  - apply three_vertices_valid.
  - apply three_vertices_float.
  - lia.
  - lia.
  - apply pick_0_2_ok.
Defined.

(* ================================================================== *)
(** * The double-tree bound                                             *)
(* ================================================================== *)

(** Under [exact_weights] the float cost of a tour is its exact cost. *)
Lemma tour_cost_exact N cm tour c :
  exact_weights N cm -> 2 <= N -> is_tour N tour ->
  exact_total_cost tour cm = Ok c ->
  _calc_total_cost tour cm = Ok (Finite c).
Proof.
  intros Hex HN Ht Hc. apply calc_total_cost_exact; [exact Hc|].
  apply (@steps_magnitude N cm (pairs tour) Hex).
  - rewrite (tour_length Ht). lia.
  - intros a b Hab. destruct (@tour_steps N tour HN Ht a b Hab) as (Ha & Hb & _).
    auto.
Qed.

Lemma three_on_a_line_metric : metric 3 three_on_a_line.
Proof.
  split.
  - intros i j Hi Hj Hne. small_index i; small_index j; vm_compute; discriminate.
  - intros i j k Hi Hj Hk H1 H2 H3.
    small_index i; small_index j; small_index k; vm_compute; discriminate.
Qed.

Lemma three_far_apart_metric : metric 3 three_far_apart.
Proof.
  split.
  - intros i j Hi Hj Hne. small_index i; small_index j; vm_compute; discriminate.
  - intros i j k Hi Hj Hk H1 H2 H3.
    small_index i; small_index j; small_index k; vm_compute; discriminate.
Qed.

(** C2, counterexample: on the three-vertex example, which breaks the
    triangle inequality, the returned route costs 5, more than 4; on the
    valid (and trivially metric) 1x1 matrix nothing is returned; and
    nothing is returned on the valid metric 3x3 matrix whose weights are
    [2 ** 1024], beyond the range of a float. *)
Lemma three_vertices_cost_5 :
  valid_matrix 3 three_vertices /\
  ~ metric 3 three_vertices /\
  double_tree_algorithm three_vertices 0 = Ok [0; 1; 2; 0] /\
  _calc_total_cost [0; 1; 2; 0] three_vertices = Ok (Finite 5) /\
  (4 < 5)%Z /\
  metric 1 one_vertex /\
  double_tree_algorithm one_vertex 0 = Raise NetworkXPointlessConcept /\
  valid_matrix 3 three_far_apart /\
  metric 3 three_far_apart /\
  double_tree_algorithm three_far_apart 0 = Raise OverflowError.
Proof.
  split; [apply three_vertices_valid|]. split.
  { intros [_ Htri].
    specialize (Htri 0 1 2). vm_compute in Htri.
    apply Htri; try lia; reflexivity. }
  split; [reflexivity|]. split; [reflexivity|]. split; [lia|].
  split.
  { split.
    - intros i j Hi Hj Hne. lia.
    - intros i j k Hi Hj Hk H1 H2 H3. lia. }
  split; [reflexivity|].
  split; [apply three_far_apart_valid|]. split; [apply three_far_apart_metric|].
  apply (far_apart_overflows 0 (fun _ => [])).
Qed.

(** C2, amended: for every valid cost matrix on at least two vertices
    with non-negative weights that obey the triangle inequality, none of
    them beyond the range of a float, the double-tree orchestrator returns
    a tour whose weights add up to at most twice those of any tour; when
    the weights are small enough for the float sums to be exact (N times
    any weight below 2^53), the cost that [_calc_total_cost] returns for
    the route is at most twice the cost it returns for any tour.  The
    three-vertex example with w(0,1) = 1, w(1,2) = 1, w(0,2) = 3 is not
    such a matrix, and its route [0; 1; 2; 0] costs 5. *)
Theorem double_tree_within_twice_optimal :
  (forall N cm start,
      valid_matrix N cm -> metric N cm -> float_weights N cm ->
      2 <= N -> start < N ->
      exists route,
        double_tree_algorithm cm start = Ok route /\
        closed_tour N start route /\
        (forall tour, is_tour N tour ->
           (weight (wt cm) (pairs route)
            <= 2 * weight (wt cm) (pairs tour))%Z) /\
        (exact_weights N cm ->
         exists c,
           _calc_total_cost route cm = Ok (Finite c) /\
           forall tour, is_tour N tour ->
             exists c', _calc_total_cost tour cm = Ok (Finite c') /\
                        (c <= 2 * c')%Z)) /\
  (double_tree_algorithm three_vertices 0 = Ok [0; 1; 2; 0] /\
   _calc_total_cost [0; 1; 2; 0] three_vertices = Ok (Finite 5)).
Proof.
  split; [|split; reflexivity].
  intros N cm start Hvalid Hmetric Hfl HN Hstart.
  destruct (double_tree_two_approx Hvalid Hmetric Hfl HN Hstart)
    as [route [c [Hrun [Htour [Hcost Hopt]]]]].
  exists route. split; [exact Hrun|].
  pose proof Hvalid as [Hsq [_ [Hfin Hsym]]].
  assert (Hall : forall tour, is_tour N tour ->
            exact_total_cost tour cm = Ok (weight (wt cm) (pairs tour))).
  { intros tour Ht.
    apply (@exact_total_cost_weight N cm tour Hsq Hfin Hsym (tour_steps HN Ht)). }
  assert (Hc : c = weight (wt cm) (pairs route)).
  { pose proof (Hall route Htour) as Hr. rewrite Hcost in Hr.
    injection Hr as Hr. exact Hr. }
  split.
  { destruct (double_tree_stages Hsq Hfin Hfl HN Hstart)
      as [T [walk [body [_ [_ [_ [_ [_ [_ [_ [_ [_ [Hrun' [Hhd HP]]]]]]]]]]]]]].
    rewrite Hrun in Hrun'. inversion Hrun'; subst.
    apply closed_tour_intro; assumption. }
  split.
  { intros tour Ht. rewrite <- Hc. apply (Hopt tour _ Ht (Hall tour Ht)). }
  intros Hex. exists c. split.
  { apply (tour_cost_exact Hex HN Htour Hcost). }
  intros tour Ht. exists (weight (wt cm) (pairs tour)).
  split; [apply (tour_cost_exact Hex HN Ht (Hall tour Ht))
         | apply (Hopt tour _ Ht (Hall tour Ht))].
Qed.

Lemma double_tree_within_twice_optimal_witness :
  exists route,
    double_tree_algorithm three_on_a_line 0 = Ok route /\
    closed_tour 3 0 route /\
    (forall tour, is_tour 3 tour ->
       (weight (wt three_on_a_line) (pairs route)
        <= 2 * weight (wt three_on_a_line) (pairs tour))%Z) /\
    (exact_weights 3 three_on_a_line ->
     exists c,
       _calc_total_cost route three_on_a_line = Ok (Finite c) /\
       forall tour, is_tour 3 tour ->
         exists c', _calc_total_cost tour three_on_a_line = Ok (Finite c') /\
                    (c <= 2 * c')%Z).
Proof.
  apply (proj1 double_tree_within_twice_optimal 3 three_on_a_line 0).
  - apply three_on_a_line_valid.
  - apply three_on_a_line_metric.
  - apply three_on_a_line_float.
  - lia.
  - lia.
Defined.

(* ================================================================== *)
(** * The graphs of the Christofides pipeline, for every size           *)
(* ================================================================== *)

Lemma small_matrix_graph N cm :
  square N cm -> N <= 1 -> _create_weighted_graph cm = empty_graph.
Proof.
  intros [Hlen Hrows] HN.
  destruct cm as [|row [|row' cm]]; [reflexivity | | simpl in Hlen; lia].
  assert (Hrow : length row = N) by (apply Hrows; left; reflexivity).
  simpl in Hlen. subst N.
  destruct row as [|x [|y row]]; simpl in Hrow; try lia. reflexivity.
Qed.

Lemma empty_odd_complete cm : odd_complete cm empty_graph empty_graph.
Proof.
  constructor; simpl.
  - reflexivity.
  - constructor.
  - intros u v w. unfold get_adj, odd_vertices. simpl. tauto.
  - constructor.
Qed.

Lemma empty_gwf : gwf empty_graph.
Proof. split; [constructor | intros a b d []]. Qed.

(** The first stages: the tree and the graph handed to the matcher. *)
Lemma christofides_front N cm :
  square N cm -> finite_weights N cm -> float_weights N cm ->
  exists T R,
    minimum_spanning_tree (_create_weighted_graph cm) = Ok T /\
    _remove_even_degree_vertices (_create_weighted_graph cm) T = Ok R /\
    gwf T /\ odd_complete cm T R /\
    (forall x, In x (gnodes T) -> x < N) /\
    (forall x y, In x (gnodes T) -> In y (gnodes T) ->
                 conn (ends (gedges T)) x y) /\
    (2 <= N -> gnodes T <> []).
Proof.
  intros Hsq Hfin Hfl. destruct (Nat.le_gt_cases 2 N) as [HN|HN].
  - destruct (mst_of_matrix Hsq Hfin Hfl HN) as [T [Hrun HT]].
    destruct (removed_graph_complete Hsq Hfin HN HT) as [R [Hrem HR]].
    exists T, R. split; [exact Hrun|]. split; [exact Hrem|].
    split; [apply (mf_gwf HT)|]. split; [exact HR|].
    split; [intros x Hx; apply (mf_nodes HT); exact Hx|].
    destruct (mf_connected HT) as [Hne Hc]. split; [exact Hc|].
    intros _. exact Hne.
  - exists empty_graph, empty_graph.
    rewrite (small_matrix_graph Hsq) by lia.
    split; [reflexivity|]. split; [reflexivity|].
    split; [apply empty_gwf|]. split; [apply empty_odd_complete|].
    split; [intros x []|]. split; [intros x y []|]. lia.
Qed.

(** The later stages: the matching graph and the merged multigraph. *)
Lemma christofides_back cm T R mwm :
  gwf T -> odd_complete cm T R ->
  matcher_contract (negated R) (mwm (negated R)) ->
  exists MG,
    _match_minimal_weight mwm R = Ok MG /\
    gwf MG /\
    (forall a b w, In (a, b, w) (gedges MG) -> w = Some (wt cm a b)) /\
    perfect_matching (odd_vertices T) (ends (gedges MG)) /\
    (forall m', perfect_matching (odd_vertices T) m' ->
                (weight (wt cm) (ends (gedges MG)) <= weight (wt cm) m')%Z) /\
    mnodes (_merge_two_graphs T MG) = gnodes T /\
    (forall v, In v (gnodes T) ->
       degree MG v = if Nat.even (degree T v) then 0 else 1) /\
    (forall v, mdegree (_merge_two_graphs T MG) v = degree T v + degree MG v).
Proof.
  intros HT HR Hc.
  pose proof (odd_vertices_even HT) as Hev.
  destruct (contract_min_perfect HR Hev Hc) as [Hperf Hmin].
  destruct (matching_graph_ok HR Hperf) as [MG [Hfold [HMG [Hedges HnMG]]]].
  exists MG.
  split.
  { unfold _match_minimal_weight. rewrite (negate_weights_ok HR). simpl.
    exact Hfold. }
  split; [exact HMG|].
  split.
  { intros a b w Hin. rewrite Hedges in Hin. apply in_map_iff in Hin.
    destruct Hin as [[x y] [Heq _]]. unfold tag in Heq. simpl in Heq.
    inversion Heq; subst. reflexivity. }
  rewrite Hedges, ends_tag.
  split; [exact Hperf|]. split; [exact Hmin|].
  split.
  { apply merge_mnodes; [exact HT | exact HMG|].
    intros x Hx. apply HnMG, in_odd_vertices in Hx. tauto. }
  split.
  { intros v Hv.
    rewrite (@matching_degree cm T _ MG v HMG Hedges (odd_nodup HR) Hperf).
    apply memb_In in Hv. rewrite Hv. reflexivity. }
  intros v. apply merge_degree; assumption.
Qed.

(* ================================================================== *)
(** * The odd-vertex matcher                                            *)
(* ================================================================== *)

(** C3: on a valid matrix none of whose weights is beyond the range of a
    float, so that the spanning tree is returned and the matching step
    reached, with a matcher that keeps its contract: the graph handed to
    the matcher has exactly the tree vertices of odd degree as its nodes,
    their number is even, any two of them are joined by an edge that weighs
    what the cost matrix says, and nothing else is an edge; the matching
    graph built from the matcher's answer on the negated weights carries
    the original weights and is a perfect matching of the odd vertices that
    weighs no more than any other. *)
Theorem matching_on_odd_vertices N cm mwm :
  valid_matrix N cm -> float_weights N cm -> matcher_ok mwm cm ->
  exists T R MG,
    minimum_spanning_tree (_create_weighted_graph cm) = Ok T /\
    _remove_even_degree_vertices (_create_weighted_graph cm) T = Ok R /\
    _match_minimal_weight mwm R = Ok MG /\
    gnodes R = odd_vertices T /\
    Nat.even (length (odd_vertices T)) = true /\
    (forall u v w,
        In (v, w) (get_adj R u) <->
        In u (odd_vertices T) /\ In v (odd_vertices T) /\ u <> v /\
        w = Some (wt cm u v)) /\
    perfect_matching (odd_vertices T) (ends (gedges MG)) /\
    (forall a b w, In (a, b, w) (gedges MG) -> w = Some (wt cm a b)) /\
    (forall m', perfect_matching (odd_vertices T) m' ->
                (weight (wt cm) (ends (gedges MG)) <= weight (wt cm) m')%Z).
Proof.
  intros [Hsq [_ [Hfin _]]] Hfl Hmatch.
  destruct (christofides_front Hsq Hfin Hfl) as [T [R [Hrun [Hrem [HT [HR _]]]]]].
  pose proof (Hmatch T R (negated R) Hrun Hrem (negate_weights_ok HR)) as Hc.
  destruct (christofides_back mwm HT HR Hc)
    as [MG [Hmmw [_ [Hw [Hperf [Hmin _]]]]]].
  exists T, R, MG.
  split; [exact Hrun|]. split; [exact Hrem|]. split; [exact Hmmw|].
  split; [apply (oc_nodes HR)|]. split; [apply (odd_vertices_even HT)|].
  split; [apply (oc_adj HR)|]. split; [exact Hperf|]. split; assumption.
Qed.

Lemma matching_on_odd_vertices_witness :
  exists T R MG,
    minimum_spanning_tree (_create_weighted_graph three_vertices) = Ok T /\
    _remove_even_degree_vertices (_create_weighted_graph three_vertices) T = Ok R /\
    _match_minimal_weight pick_0_2 R = Ok MG /\
    gnodes R = odd_vertices T /\
    Nat.even (length (odd_vertices T)) = true /\
    (forall u v w,
        In (v, w) (get_adj R u) <->
        In u (odd_vertices T) /\ In v (odd_vertices T) /\ u <> v /\
        w = Some (wt three_vertices u v)) /\
    perfect_matching (odd_vertices T) (ends (gedges MG)) /\
    (forall a b w, In (a, b, w) (gedges MG) -> w = Some (wt three_vertices a b)) /\
    (forall m', perfect_matching (odd_vertices T) m' ->
                (weight (wt three_vertices) (ends (gedges MG))
                 <= weight (wt three_vertices) m')%Z).
Proof.
  apply (@matching_on_odd_vertices 3 three_vertices pick_0_2).
  - apply three_vertices_valid.
  - apply three_vertices_float.
  - apply pick_0_2_ok.
Defined.

(* ================================================================== *)
(** * The merged multigraph                                             *)
(* ================================================================== *)

(** C4, counterexample: on the valid 1x1 matrix the tree, the graph for
    the matcher and the matching graph have no vertex, the matcher keeps its
    contract, and the merged multigraph is the null graph: the library
    does not find it connected, it raises. *)
Lemma one_vertex_merges_nothing :
  valid_matrix 1 one_vertex /\
  matcher_ok (fun _ => []) one_vertex /\
  minimum_spanning_tree (_create_weighted_graph one_vertex) = Ok empty_graph /\
  _remove_even_degree_vertices (_create_weighted_graph one_vertex) empty_graph
  = Ok empty_graph /\
  _match_minimal_weight (fun _ => []) empty_graph = Ok empty_graph /\
  _merge_two_graphs empty_graph empty_graph = empty_multi /\
  is_connected empty_multi = Raise NetworkXPointlessConcept /\
  is_eulerian empty_multi = Raise NetworkXPointlessConcept.
Proof.
  split; [apply one_vertex_valid|]. split.
  { intros T R tmp HT HR Htmp.
    vm_compute in HT. inversion HT; subst T; clear HT.
    vm_compute in HR. inversion HR; subst R; clear HR.
    vm_compute in Htmp. inversion Htmp; subst tmp; clear Htmp.
    split; [|split].
    - split; [intros a b [] | constructor].
    - intros m' [Hedges _]. destruct m' as [|[a b] m']; [simpl; lia|].
      destruct (Hedges a b (or_introl eq_refl)) as [[]|[]].
    - intros m' _ Hlen. destruct m'; [simpl; lia | discriminate]. }
  repeat split; reflexivity.
Qed.

(** C4, amended: on a valid matrix on at least two vertices, none of whose
    weights is beyond the range of a float, with a matcher that keeps its
    contract, the merged multigraph holds the edges of the tree and those
    of the matching graph, each once; it has a vertex and any two of its
    vertices are joined; every vertex has even degree: a vertex of even
    tree degree keeps its degree and meets no matching edge, a vertex of
    odd tree degree meets exactly one; and the library finds it connected
    and Eulerian. *)
Theorem merged_multigraph_is_even N cm mwm :
  valid_matrix N cm -> float_weights N cm -> 2 <= N -> matcher_ok mwm cm ->
  exists T R MG,
    minimum_spanning_tree (_create_weighted_graph cm) = Ok T /\
    _remove_even_degree_vertices (_create_weighted_graph cm) T = Ok R /\
    _match_minimal_weight mwm R = Ok MG /\
    medges (_merge_two_graphs T MG) = edges_data T ++ edges_data MG /\
    mnodes (_merge_two_graphs T MG) = gnodes T /\
    mnodes (_merge_two_graphs T MG) <> [] /\
    (forall x y, In x (mnodes (_merge_two_graphs T MG)) ->
                 In y (mnodes (_merge_two_graphs T MG)) ->
                 conn (ends (medges (_merge_two_graphs T MG))) x y) /\
    (forall v, In v (mnodes (_merge_two_graphs T MG)) ->
               Nat.even (mdegree (_merge_two_graphs T MG) v) = true) /\
    (forall v, In v (gnodes T) -> Nat.even (degree T v) = true ->
               degree MG v = 0 /\
               mdegree (_merge_two_graphs T MG) v = degree T v) /\
    (forall v, In v (gnodes T) -> Nat.even (degree T v) = false ->
               degree MG v = 1 /\
               mdegree (_merge_two_graphs T MG) v = degree T v + 1) /\
    is_connected (_merge_two_graphs T MG) = Ok true /\
    is_eulerian (_merge_two_graphs T MG) = Ok true.
Proof.
  intros [Hsq [_ [Hfin _]]] Hfl HN Hmatch.
  destruct (christofides_front Hsq Hfin Hfl)
    as [T [R [Hrun [Hrem [HT [HR [_ [Hconn Hne]]]]]]]].
  pose proof (Hmatch T R (negated R) Hrun Hrem (negate_weights_ok HR)) as Hc.
  destruct (christofides_back mwm HT HR Hc)
    as [MG [Hmmw [HMG [_ [_ [_ [Hnodes [HdegM Hdeg]]]]]]]].
  assert (Hpair : forall x y, In x (mnodes (_merge_two_graphs T MG)) ->
                    In y (mnodes (_merge_two_graphs T MG)) ->
                    conn (ends (medges (_merge_two_graphs T MG))) x y).
  { rewrite Hnodes. intros x y Hx Hy. apply merge_conn; auto. }
  assert (Heven : forall v, In v (mnodes (_merge_two_graphs T MG)) ->
                    Nat.even (mdegree (_merge_two_graphs T MG) v) = true).
  { rewrite Hnodes. intros v Hv. rewrite Hdeg, (HdegM v Hv), Nat.even_add.
    destruct (Nat.even (degree T v)); reflexivity. }
  assert (Hcon : connected (_merge_two_graphs T MG)).
  { split; [rewrite Hnodes; apply Hne; exact HN | exact Hpair]. }
  exists T, R, MG.
  split; [exact Hrun|]. split; [exact Hrem|]. split; [exact Hmmw|].
  split; [apply merge_medges|]. split; [exact Hnodes|].
  split; [apply Hcon|].
  split; [exact Hpair|]. split; [exact Heven|].
  split.
  { intros v Hv He. rewrite Hdeg, (HdegM v Hv), He. split; [reflexivity | lia]. }
  split.
  { intros v Hv He. rewrite Hdeg, (HdegM v Hv), He. split; reflexivity. }
  split.
  - apply is_connected_true; [apply merge_mwf | exact Hcon].
  - apply is_eulerian_true; [apply merge_mwf | exact Hcon | exact Heven].
Qed.

Lemma merged_multigraph_is_even_witness :
  exists T R MG,
    minimum_spanning_tree (_create_weighted_graph three_vertices) = Ok T /\
    _remove_even_degree_vertices (_create_weighted_graph three_vertices) T = Ok R /\
    _match_minimal_weight pick_0_2 R = Ok MG /\
    medges (_merge_two_graphs T MG) = edges_data T ++ edges_data MG /\
    mnodes (_merge_two_graphs T MG) = gnodes T /\
    mnodes (_merge_two_graphs T MG) <> [] /\
    (forall x y, In x (mnodes (_merge_two_graphs T MG)) ->
                 In y (mnodes (_merge_two_graphs T MG)) ->
                 conn (ends (medges (_merge_two_graphs T MG))) x y) /\
    (forall v, In v (mnodes (_merge_two_graphs T MG)) ->
               Nat.even (mdegree (_merge_two_graphs T MG) v) = true) /\
    (forall v, In v (gnodes T) -> Nat.even (degree T v) = true ->
               degree MG v = 0 /\
               mdegree (_merge_two_graphs T MG) v = degree T v) /\
    (forall v, In v (gnodes T) -> Nat.even (degree T v) = false ->
               degree MG v = 1 /\
               mdegree (_merge_two_graphs T MG) v = degree T v + 1) /\
    is_connected (_merge_two_graphs T MG) = Ok true /\
    is_eulerian (_merge_two_graphs T MG) = Ok true.
Proof.
  apply (@merged_multigraph_is_even 3 three_vertices pick_0_2).
  - apply three_vertices_valid.
  - apply three_vertices_float.
  - lia.
  - apply pick_0_2_ok.
Defined.

(* ================================================================== *)
(** * The double-tree constructor                                       *)
(* ================================================================== *)

Lemma path_tree_gwf : gwf path_tree.
Proof.
  split.
  - simpl. repeat constructor; simpl; intuition congruence.
  - intros a b d Hin. simpl in Hin.
    destruct Hin as [Heq|[Heq|[]]]; inversion Heq; subst; simpl;
      repeat split; auto; discriminate.
Qed.

(** C5: the edges of the doubled multigraph are the edges of the tree,
    each once in either direction with its weight, so that every edge of
    the tree has become two parallel edges of its weight; every degree is
    twice the tree degree, hence even; vertices joined in the tree are
    joined in the multigraph, so that the multigraph is connected when the
    tree is, and on two vertices or more the library finds it so. *)
Theorem duplicate_doubles_the_tree T :
  gwf T ->
  Permutation (medges (_duplicate_weighted_graph T))
              (gedges T ++ map swap3 (gedges T)) /\
  (forall u v d, count_edge u v d (medges (_duplicate_weighted_graph T))
                 = 2 * count_edge u v d (gedges T)) /\
  (forall v, mdegree (_duplicate_weighted_graph T) v = 2 * degree T v /\
             Nat.even (mdegree (_duplicate_weighted_graph T) v) = true) /\
  (forall x y, conn (ends (gedges T)) x y ->
               conn (ends (medges (_duplicate_weighted_graph T))) x y) /\
  ((forall x y, In x (gnodes T) -> In y (gnodes T) ->
                conn (ends (gedges T)) x y) ->
   forall x y, In x (mnodes (_duplicate_weighted_graph T)) ->
               In y (mnodes (_duplicate_weighted_graph T)) ->
               conn (ends (medges (_duplicate_weighted_graph T))) x y) /\
  (graph_connected T -> 2 <= length (gnodes T) ->
   is_connected (_duplicate_weighted_graph T) = Ok true).
Proof.
  intros HT.
  split; [apply dup_medges_perm; exact HT|].
  split; [intros u v d; apply dup_count; exact HT|].
  split.
  { intros v. rewrite (dup_degree v HT). split; [reflexivity|].
    rewrite Nat.even_mul. reflexivity. }
  split; [intros x y; apply dup_conn; exact HT|].
  split.
  { intros Hc x y Hx Hy. apply dup_conn; [exact HT|].
    assert (Hin : forall z, In z (mnodes (_duplicate_weighted_graph T)) ->
                            In z (gnodes T)).
    { intros z Hz. apply (dup_mnodes z HT) in Hz. destruct Hz as [t Ht].
      destruct Ht as [H|H]; apply in_ends in H; destruct H as [w H];
        apply HT in H; tauto. }
    apply Hc; apply Hin; assumption. }
  intros Hc Hlen. apply is_connected_true; [apply dup_mwf|].
  apply dup_connected; assumption.
Qed.

Lemma duplicate_doubles_the_tree_witness :
  Permutation (medges (_duplicate_weighted_graph path_tree))
              (gedges path_tree ++ map swap3 (gedges path_tree)) /\
  (forall u v d, count_edge u v d (medges (_duplicate_weighted_graph path_tree))
                 = 2 * count_edge u v d (gedges path_tree)) /\
  (forall v, mdegree (_duplicate_weighted_graph path_tree) v
             = 2 * degree path_tree v /\
             Nat.even (mdegree (_duplicate_weighted_graph path_tree) v) = true) /\
  (forall x y, conn (ends (gedges path_tree)) x y ->
               conn (ends (medges (_duplicate_weighted_graph path_tree))) x y) /\
  ((forall x y, In x (gnodes path_tree) -> In y (gnodes path_tree) ->
                conn (ends (gedges path_tree)) x y) ->
   forall x y, In x (mnodes (_duplicate_weighted_graph path_tree)) ->
               In y (mnodes (_duplicate_weighted_graph path_tree)) ->
               conn (ends (medges (_duplicate_weighted_graph path_tree))) x y) /\
  (graph_connected path_tree -> 2 <= length (gnodes path_tree) ->
   is_connected (_duplicate_weighted_graph path_tree) = Ok true).
Proof.
  apply (@duplicate_doubles_the_tree path_tree). apply path_tree_gwf.
Defined.

(* ================================================================== *)
(** * The Eulerian circuit extractor                                    *)
(* ================================================================== *)

Lemma double_edge_mwf : mwf double_edge.
Proof.
  intros u v w Hin. simpl in Hin.
  destruct Hin as [Heq|[Heq|[]]]; inversion Heq; subst; simpl; auto.
Qed.

Lemma double_edge_connected : connected double_edge.
Proof. apply is_connected_true; [apply double_edge_mwf | reflexivity]. Qed.

Lemma double_edge_even : even_degrees double_edge.
Proof. apply even_degrees_forallb. reflexivity. Qed.

Lemma not_eulerian_raises M start :
  mwf M -> ~ (connected M /\ even_degrees M) ->
  _create_eulerian_path M start
  = Raise (match mnodes M with
           | [] => NetworkXPointlessConcept
           | _ :: _ => NetworkXError
           end).
Proof.
  intros Hwf Hn. unfold _create_eulerian_path, eulerian_circuit, is_eulerian.
  destruct (forallb (fun v => Nat.even (mdegree M v)) (mnodes M)) eqn:Hb.
  - apply even_degrees_forallb in Hb.
    assert (Hnc : ~ connected M) by tauto.
    destruct (mnodes M) as [|r V'] eqn:HV.
    + unfold is_connected. rewrite HV. reflexivity.
    + rewrite (is_connected_false Hwf); [reflexivity | | exact Hnc].
      rewrite HV. discriminate.
  - destruct (mnodes M); [discriminate | reflexivity].
Qed.

(** C6: on a connected multigraph with even degrees and at least one edge
    the extractor returns, from any start vertex of it, a walk of one
    vertex more than there are edges, from the start back to the start,
    whose steps are the edges of the multigraph, each once; on a multigraph
    that is not connected or has a vertex of odd degree it raises. *)
Theorem eulerian_extractor M start :
  mwf M ->
  (connected M -> even_degrees M -> In start (mnodes M) ->
   1 <= length (medges M) ->
   exists walk,
     _create_eulerian_path M start = Ok walk /\
     length walk = length (medges M) + 1 /\
     hd start walk = start /\ last walk start = start /\
     Permutation (map norm (pairs walk)) (map norm (ends (medges M)))) /\
  (~ (connected M /\ even_degrees M) ->
   _create_eulerian_path M start
   = Raise (match mnodes M with
            | [] => NetworkXPointlessConcept
            | _ :: _ => NetworkXError
            end)).
Proof.
  intros Hwf. split.
  - intros Hc He Hs HE. apply create_eulerian_path_ok; assumption.
  - apply not_eulerian_raises. exact Hwf.
Qed.

Lemma eulerian_extractor_witness :
  exists walk,
    _create_eulerian_path double_edge 0 = Ok walk /\
    length walk = length (medges double_edge) + 1 /\
    hd 0 walk = 0 /\ last walk 0 = 0 /\
    Permutation (map norm (pairs walk)) (map norm (ends (medges double_edge))).
Proof.
  apply (proj1 (@eulerian_extractor double_edge 0 double_edge_mwf)).
  - apply double_edge_connected.
  - apply double_edge_even.
  - simpl. auto.
  - simpl. lia.
Defined.

(* ================================================================== *)
(** * The spanning tree                                                 *)
(* ================================================================== *)

(** C7, counterexample: on four vertices, with 0 and 1 in the tree, the
    edges (0,3) and (1,2) are both candidates of the least weight 2; the
    tree takes (0,3), whose destination is not the lowest, and so differs
    from the tree that the lowest destination would give; and on the valid
    3x3 matrix whose weights are [2 ** 1024] no tree is computed. *)
Lemma tie_not_broken_by_lowest_destination :
  valid_matrix 4 four_with_tie /\
  prim_mst_edges (_create_weighted_graph four_with_tie)
  = Ok [(0, 1, Some 1%Z); (0, 3, Some 2%Z); (3, 2, Some 1%Z)] /\
  In (0, 3) (candidates (seq 0 4) [1; 0]) /\
  In (1, 2) (candidates (seq 0 4) [1; 0]) /\
  wt four_with_tie 0 3 = wt four_with_tie 1 2 /\
  2 < 3 /\
  ties_broken_by lowest_destination (wt four_with_tie) (seq 0 4) [0]
                 [(0, 1); (0, 3); (3, 2)] = false /\
  ties_broken_by lowest_destination (wt four_with_tie) (seq 0 4) [0]
                 [(0, 1); (1, 2); (2, 3)] = true /\
  valid_matrix 3 three_far_apart /\
  minimum_spanning_tree (_create_weighted_graph three_far_apart)
  = Raise OverflowError.
Proof.
  split; [apply four_with_tie_valid|].
  split; [reflexivity|].
  split; [simpl; tauto|]. split; [simpl; tauto|].
  split; [reflexivity|]. split; [lia|]. split; [reflexivity|].
  split; [reflexivity|].
  split; [apply three_far_apart_valid|].
  apply (far_apart_overflows 0 (fun _ => [])).
Qed.

(** C7, amended: for a valid matrix on at least two vertices, none of
    whose weights is beyond the range of a float, the spanning
    tree spans the N vertices, is connected and free of cycles, has N-1
    edges and weighs no more than any spanning tree; it is a function of
    the matrix, and among candidate edges of equal weight it takes the one
    that entered the frontier first: the one leaving the vertex reached
    earlier and, out of one vertex, the one with the lower destination. *)
Theorem spanning_tree_is_minimum N cm :
  valid_matrix N cm -> float_weights N cm -> 2 <= N ->
  exists T,
    minimum_spanning_tree (_create_weighted_graph cm) = Ok T /\
    (forall T', minimum_spanning_tree (_create_weighted_graph cm) = Ok T' ->
                T' = T) /\
    NoDup (gnodes T) /\ (forall x, In x (gnodes T) <-> x < N) /\
    graph_connected T /\
    acyclic (ends (gedges T)) /\
    length (gedges T) = N - 1 /\
    (forall u v d, In (u, v, d) (gedges T) -> d = Some (wt cm u v)) /\
    (forall T', spanning_tree (seq 0 N) T' ->
                (weight (wt cm) (ends (gedges T)) <= weight (wt cm) T')%Z) /\
    prim_mst_edges (_create_weighted_graph cm) = Ok (gedges T) /\
    ties_broken_by first_pushed (wt cm) (seq 0 N) [0] (ends (gedges T)) = true.
Proof.
  intros [Hsq [_ [Hfin _]]] Hfl HN.
  destruct (mst_of_matrix Hsq Hfin Hfl HN) as [T [Hrun HT]].
  exists T. split; [exact Hrun|].
  split; [intros T' HT'; congruence|].
  split; [apply (mf_nodup HT)|]. split; [apply (mf_nodes HT)|].
  split; [apply (mf_connected HT)|]. split; [apply (mf_acyclic HT)|].
  split.
  { destruct (mf_tree HT) as [Hlen _]. unfold ends in Hlen.
    rewrite length_map, length_seq in Hlen. lia. }
  split; [apply (mf_weights HT)|]. split; [apply (mf_minimum HT)|].
  split; [apply (mf_prim HT) | apply (mf_ties HT)].
Qed.

Lemma spanning_tree_is_minimum_witness :
  exists T,
    minimum_spanning_tree (_create_weighted_graph four_with_tie) = Ok T /\
    (forall T', minimum_spanning_tree (_create_weighted_graph four_with_tie) = Ok T' ->
                T' = T) /\
    NoDup (gnodes T) /\ (forall x, In x (gnodes T) <-> x < 4) /\
    graph_connected T /\
    acyclic (ends (gedges T)) /\
    length (gedges T) = 4 - 1 /\
    (forall u v d, In (u, v, d) (gedges T) -> d = Some (wt four_with_tie u v)) /\
    (forall T', spanning_tree (seq 0 4) T' ->
                (weight (wt four_with_tie) (ends (gedges T))
                 <= weight (wt four_with_tie) T')%Z) /\
    prim_mst_edges (_create_weighted_graph four_with_tie) = Ok (gedges T) /\
    ties_broken_by first_pushed (wt four_with_tie) (seq 0 4) [0]
                   (ends (gedges T)) = true.
Proof.
  apply (@spanning_tree_is_minimum 4 four_with_tie).
  - apply four_with_tie_valid.
  - apply four_with_tie_float.
  - lia.
Defined.

(* ================================================================== *)
(** * The shuffler                                                      *)
(* ================================================================== *)

(** C8: when the generator draws a permutation of the indices, the
    shuffler returns an N x N matrix whose entry (i, j) is the entry
    (perm[i], perm[j]) of the original, and the position of the original
    start in the permutation. *)
Theorem shuffle_relabels N cm start w :
  square N cm -> start < N ->
  Permutation (draws w (drawn w)) (seq 0 N) ->
  exists shuffled s w',
    _shuffle_cost_matrix cm start w = Ok (shuffled, s, w') /\
    square N shuffled /\
    (forall i j, i < N -> j < N ->
       getitem2 shuffled i j
       = getitem2 cm (nth i (draws w (drawn w)) 0) (nth j (draws w (drawn w)) 0)) /\
    s < N /\ nth s (draws w (drawn w)) 0 = start /\
    index (draws w (drawn w)) start = Ok s.
Proof.
  intros Hsq Hstart HP.
  destruct (relabel_ok Hsq Hstart HP) as [s [Hrun [Hs [Hnth Hfirst]]]].
  exists (relabeled N cm (draws w (drawn w))), s,
         (mk_world (draws w) (S (drawn w)) (ticks w) (ticked w)).
  split.
  { unfold _shuffle_cost_matrix, sample. cbv zeta. rewrite Hrun. reflexivity. }
  split; [apply relabeled_square|].
  split.
  { intros i j Hi Hj.
    rewrite (getitem2_nth (relabeled_square N cm (draws w (drawn w))) Hi Hj).
    rewrite (getitem2_nth Hsq (perm_nth_lt HP Hi) (perm_nth_lt HP Hj)).
    rewrite relabeled_nth by assumption. reflexivity. }
  split; [exact Hs|]. split; [exact Hnth|].
  unfold relabel in Hrun.
  destruct (mapM _ _) as [m|e]; simpl in Hrun; [|discriminate].
  destruct (index (draws w (drawn w)) start) as [s'|e]; simpl in Hrun;
    [|discriminate].
  inversion Hrun; subst. reflexivity.
Qed.

Lemma shuffle_relabels_witness :
  exists shuffled s w',
    _shuffle_cost_matrix three_vertices 0 rotating_world = Ok (shuffled, s, w') /\
    square 3 shuffled /\
    (forall i j, i < 3 -> j < 3 ->
       getitem2 shuffled i j
       = getitem2 three_vertices
           (nth i (draws rotating_world (drawn rotating_world)) 0)
           (nth j (draws rotating_world (drawn rotating_world)) 0)) /\
    s < 3 /\ nth s (draws rotating_world (drawn rotating_world)) 0 = 0 /\
    index (draws rotating_world (drawn rotating_world)) 0 = Ok s.
Proof.
  apply (@shuffle_relabels 3 three_vertices 0 rotating_world).
  - apply three_vertices_valid.
  - lia.
  - simpl.
    apply (perm_trans (l' := [0; 2; 1])); [apply perm_swap|].
    apply perm_skip. apply perm_swap.
Defined.

(* ================================================================== *)
(** * Where the harness takes its permutations from                     *)
(* ================================================================== *)

Lemma same_draws_next w1 w2 t1 t2 :
  same_draws w1 w2 ->
  same_draws (mk_world (draws w1) (S (drawn w1)) (ticks w1) t1)
             (mk_world (draws w2) (S (drawn w2)) (ticks w2) t2).
Proof.
  intros H k. simpl. specialize (H (S k)).
  rewrite !Nat.add_succ_r in H. exact H.
Qed.

Lemma same_draws_time w1 w2 :
  same_draws w1 w2 -> same_draws (snd (time w1)) (snd (time w2)).
Proof. intros H k. simpl. apply H. Qed.

Section SameDraws.

Variable max_weight_matching : Graph -> list (vertex * vertex).
Variable costMatrix : CostMatrix.
Variable start : vertex.

Lemma trial_agree st1 st2 :
  agree st1 st2 ->
  agree_results (trial max_weight_matching costMatrix start st1)
                (trial max_weight_matching costMatrix start st2).
Proof.
  destruct st1 as [m1 w1], st2 as [m2 w2]. intros [Hm Hw]. simpl in Hm, Hw.
  unfold trial, _shuffle_cost_matrix, sample. cbv zeta.
  pose proof (Hw 0) as H0. rewrite !Nat.add_0_r in H0. rewrite <- H0.
  destruct (relabel costMatrix start (draws w1 (drawn w1)))
    as [[shuffled s]|e]; simpl; [|reflexivity].
  destruct (double_tree_algorithm shuffled s) as [r1|e]; simpl; [|reflexivity].
  destruct (_calc_total_cost r1 shuffled) as [c1|e]; simpl; [|reflexivity].
  destruct (christofides_algorithm max_weight_matching shuffled s) as [r2|e];
    simpl; [|reflexivity].
  destruct (_calc_total_cost r2 shuffled) as [c2|e]; simpl; [|reflexivity].
  split.
  - unfold routes_and_costs in *. simpl. inversion Hm. congruence.
  - intros k. simpl. specialize (Hw (S k)).
    rewrite !Nat.add_succ_r in Hw. exact Hw.
Qed.

Lemma trials_agree (l : list nat) : forall st1 st2,
  agree st1 st2 ->
  agree_results
    (foldM (fun st _ => trial max_weight_matching costMatrix start st) l st1)
    (foldM (fun st _ => trial max_weight_matching costMatrix start st) l st2).
Proof.
  induction l as [|x l IH]; intros st1 st2 H; simpl; [exact H|].
  pose proof (trial_agree H) as Ht.
  destruct (trial max_weight_matching costMatrix start st1) as [st1'|e1];
    destruct (trial max_weight_matching costMatrix start st2) as [st2'|e2];
    simpl in *; try contradiction.
  - apply IH. exact Ht.
  - exact Ht.
Qed.

End SameDraws.

(** C9, counterexample: the harness is given the matrix, the start and
    the number of trials, and no generator or seed; with these three
    arguments fixed, the routes it reports change with the state in which
    the process-wide generator happens to be. *)
Lemma routes_follow_the_global_generator :
  outcome (run_two_algorithms pair_nodes three_vertices 0 1 identity_world)
  = Ok ([[0; 1; 2; 0]], [Finite 5], [[0; 2; 1; 0]], [Finite 5]) /\
  outcome (run_two_algorithms pair_nodes three_vertices 0 1 rotating_world)
  = Ok ([[1; 2; 0; 1]], [Finite 5], [[1; 2; 0; 1]], [Finite 5]) /\
  [[0; 1; 2; 0]] <> [[1; 2; 0; 1]].
Proof.
  split; [vm_compute; reflexivity|]. split; [vm_compute; reflexivity|].
  discriminate.
Qed.

(** C9, amended: the permutations come from the process-wide generator,
    which the harness reads and advances without taking a generator or a
    seed of its own; two runs on the same arguments that find this
    generator in the same state, as after seeding it alike, draw the same
    permutations and report the same routes and costs, or raise alike. *)
Theorem same_generator_state_same_trials mwm cm start times w1 w2 :
  same_draws w1 w2 ->
  outcome (run_two_algorithms mwm cm start times w1)
  = outcome (run_two_algorithms mwm cm start times w2).
Proof.
  intros Hw. unfold run_two_algorithms.
  pose proof (@trials_agree mwm cm start (seq 0 times)
                (mk_measurements [] [] [] [] [] [], w1)
                (mk_measurements [] [] [] [] [] [], w2)) as H.
  destruct (foldM _ (seq 0 times) (_, w1)) as [[m1 v1]|e1];
    destruct (foldM _ (seq 0 times) (_, w2)) as [[m2 v2]|e2]; simpl in *.
  - destruct H as [Hm _]; [split; [reflexivity | exact Hw]|].
    simpl in Hm. rewrite Hm. reflexivity.
  - destruct H. split; [reflexivity | exact Hw].
  - destruct H. split; [reflexivity | exact Hw].
  - rewrite H; [reflexivity|]. split; [reflexivity | exact Hw].
Qed.

Lemma same_generator_state_same_trials_witness :
  outcome (run_two_algorithms pair_nodes three_vertices 0 2 rotating_world)
  = outcome (run_two_algorithms pair_nodes three_vertices 0 2 ticking_world).
Proof.
  apply (@same_generator_state_same_trials
           pair_nodes three_vertices 0 2 rotating_world ticking_world).
  intros k. reflexivity.
Defined.

(* ================================================================== *)
(** * The program over a store of objects                               *)
(* ================================================================== *)

(** ** The rules of [keeps] *)

Module StoreFacts.

Import Store.

Lemma replace_at_length l o cs : length (replace_at l o cs) = length cs.
Proof.
  revert l. induction cs as [|c cs IH]; intros [|l]; simpl; auto.
Qed.

Lemma replace_at_other l o cs k :
  k <> l -> nth_error (replace_at l o cs) k = nth_error cs k.
Proof.
  revert l k. induction cs as [|c cs IH]; intros [|l] [|k] H; simpl; auto;
    congruence.
Qed.

Lemma keeps_ret n {A : Type} (a : A) (Q : A -> Prop) : Q a -> keeps n (ret a) Q.
Proof.
  intros HQ s Hs. simpl. split; [exact Hs|]. split; [reflexivity|].
  intros a' Ha. inversion Ha; subst. exact HQ.
Qed.

Lemma keeps_bind n {A B : Type} (m : St A) (k : A -> St B)
    (P : A -> Prop) (Q : B -> Prop) :
  keeps n m P -> (forall a, P a -> keeps n (k a) Q) -> keeps n (sbind m k) Q.
Proof.
  intros Hm Hk s Hs. unfold sbind.
  destruct (Hm s Hs) as [Hlen [Hsame HP]].
  destruct (m s) as [[a|e] s1]; simpl in *.
  - destruct (Hk a (HP a eq_refl) s1 Hlen) as [Hlen' [Hsame' HQ]].
    split; [exact Hlen'|]. split; [|exact HQ].
    intros l Hl. rewrite Hsame' by exact Hl. apply Hsame. exact Hl.
  - split; [exact Hlen|]. split; [exact Hsame|]. intros a Ha. discriminate.
Qed.

Lemma keeps_weaken n {A : Type} (m : St A) (P Q : A -> Prop) :
  keeps n m P -> (forall a, P a -> Q a) -> keeps n m Q.
Proof.
  intros Hm HPQ s Hs. destruct (Hm s Hs) as [Hlen [Hsame HP]].
  split; [exact Hlen|]. split; [exact Hsame|]. intros a Ha. apply HPQ, HP, Ha.
Qed.

Lemma keeps_lift n {A : Type} (r : result A) : keeps n (lift r) (fun _ => True).
Proof.
  intros s Hs. simpl. split; [exact Hs|]. split; [reflexivity | trivial].
Qed.

Lemma keeps_alloc n o : keeps n (alloc o) (fun l => n <= l).
Proof.
  intros s Hs. simpl. rewrite length_app. split; [lia|]. split.
  - intros l Hl. apply nth_error_app1. lia.
  - intros a Ha. inversion Ha; subst. exact Hs.
Qed.

Lemma keeps_load n l : keeps n (load l) (fun _ => True).
Proof.
  intros s Hs. unfold load. destruct (nth_error (cells s) l); simpl;
    (split; [exact Hs|]); (split; [reflexivity | trivial]).
Qed.

Lemma keeps_put n l o : n <= l -> keeps n (put l o) (fun _ => True).
Proof.
  intros Hl s Hs. simpl. rewrite replace_at_length. split; [exact Hs|].
  split; [|trivial]. intros k Hk. apply replace_at_other. lia.
Qed.

Lemma keeps_for n {A : Type} (l : list A) (body : A -> St unit) :
  (forall a, keeps n (body a) (fun _ => True)) ->
  keeps n (for_ l body) (fun _ => True).
Proof.
  intros Hb. induction l as [|a l IH]; simpl.
  - apply keeps_ret. trivial.
  - eapply keeps_bind; [apply Hb|]. intros _ _. exact IH.
Qed.

Lemma keeps_sum n (l : list nat) (body : pyfloat -> nat -> St pyfloat) :
  (forall acc i, keeps n (body acc i) (fun _ => True)) ->
  forall acc, keeps n (sum_st l body acc) (fun _ => True).
Proof.
  intros Hb. induction l as [|i l IH]; intros acc; simpl.
  - apply keeps_ret. trivial.
  - eapply keeps_bind; [apply Hb|]. intros acc' _. apply IH.
Qed.

Lemma keeps_sample n population k :
  keeps n (sample_st population k) (fun _ => True).
Proof.
  intros s Hs. unfold sample_st, sample. simpl.
  split; [exact Hs|]. split; [reflexivity | trivial].
Qed.

Lemma keeps_time n : keeps n time_st (fun _ => True).
Proof.
  intros s Hs. unfold time_st, time. simpl.
  split; [exact Hs|]. split; [reflexivity | trivial].
Qed.

Ltac keeps_read :=
  eapply keeps_bind; [apply keeps_load|];
  intros [? | ? | ? | ? | ? | ? | ? | ?] _;
  first [apply keeps_ret; trivial | apply keeps_lift].

Lemma keeps_load_matrix n l : keeps n (load_matrix l) (fun _ => True).
Proof. unfold load_matrix. keeps_read. Qed.

Lemma keeps_load_row n l : keeps n (load_row l) (fun _ => True).
Proof. unfold load_row. keeps_read. Qed.

Lemma keeps_load_graph n l : keeps n (load_graph l) (fun _ => True).
Proof. unfold load_graph. keeps_read. Qed.

Lemma keeps_load_multi n l : keeps n (load_multi l) (fun _ => True).
Proof. unfold load_multi. keeps_read. Qed.

Lemma keeps_load_path n l : keeps n (load_path l) (fun _ => True).
Proof. unfold load_path. keeps_read. Qed.

Lemma keeps_load_routes n l : keeps n (load_routes l) (fun _ => True).
Proof. unfold load_routes. keeps_read. Qed.

Lemma keeps_load_numbers n l : keeps n (load_numbers l) (fun _ => True).
Proof. unfold load_numbers. keeps_read. Qed.

Lemma keeps_load_floats n l : keeps n (load_floats l) (fun _ => True).
Proof. unfold load_floats. keeps_read. Qed.

Lemma keeps_matrix_row n l i : keeps n (matrix_row l i) (fun _ => True).
Proof.
  unfold matrix_row.
  eapply keeps_bind; [apply keeps_load_matrix|]. intros rows _.
  eapply keeps_bind; [apply keeps_lift|]. intros r _.
  apply keeps_load_row.
Qed.

Lemma keeps_matrix_entry n l i j : keeps n (matrix_entry l i j) (fun _ => True).
Proof.
  unfold matrix_entry.
  eapply keeps_bind; [apply keeps_matrix_row|]. intros row _.
  apply keeps_lift.
Qed.

Lemma keeps_graph_do n g f : n <= g -> keeps n (graph_do g f) (fun _ => True).
Proof.
  intros Hg. unfold graph_do.
  eapply keeps_bind; [apply keeps_load_graph|]. intros G _.
  eapply keeps_bind; [apply keeps_lift|]. intros G' _.
  apply keeps_put. exact Hg.
Qed.

Lemma keeps_multi_do n m f : n <= m -> keeps n (multi_do m f) (fun _ => True).
Proof.
  intros Hm. unfold multi_do.
  eapply keeps_bind; [apply keeps_load_multi|]. intros M _.
  apply keeps_put. exact Hm.
Qed.

Lemma keeps_path_append n p v : n <= p -> keeps n (path_append p v) (fun _ => True).
Proof.
  intros Hp. unfold path_append.
  eapply keeps_bind; [apply keeps_load_path|]. intros l _.
  apply keeps_put. exact Hp.
Qed.

Lemma keeps_row_append n p x : n <= p -> keeps n (row_append p x) (fun _ => True).
Proof.
  intros Hp. unfold row_append.
  eapply keeps_bind; [apply keeps_load_row|]. intros l _.
  apply keeps_put. exact Hp.
Qed.

Lemma keeps_matrix_append n p r :
  n <= p -> keeps n (matrix_append p r) (fun _ => True).
Proof.
  intros Hp. unfold matrix_append.
  eapply keeps_bind; [apply keeps_load_matrix|]. intros l _.
  apply keeps_put. exact Hp.
Qed.

Lemma keeps_routes_append n p r :
  n <= p -> keeps n (routes_append p r) (fun _ => True).
Proof.
  intros Hp. unfold routes_append.
  eapply keeps_bind; [apply keeps_load_routes|]. intros l _.
  apply keeps_put. exact Hp.
Qed.

Lemma keeps_numbers_append n p z :
  n <= p -> keeps n (numbers_append p z) (fun _ => True).
Proof.
  intros Hp. unfold numbers_append.
  eapply keeps_bind; [apply keeps_load_numbers|]. intros l _.
  apply keeps_put. exact Hp.
Qed.

Lemma keeps_floats_append n p f :
  n <= p -> keeps n (floats_append p f) (fun _ => True).
Proof.
  intros Hp. unfold floats_append.
  eapply keeps_bind; [apply keeps_load_floats|]. intros l _.
  apply keeps_put. exact Hp.
Qed.

(** ** Each function writes to the objects it has created, and to no
    other *)

Lemma create_weighted_graph_keeps n costMatrix :
  keeps n (_create_weighted_graph_st costMatrix) (fun l => n <= l).
Proof.
  unfold _create_weighted_graph_st.
  eapply keeps_bind; [apply keeps_alloc|]. intros graph Hg.
  eapply keeps_bind; [apply keeps_load_matrix|]. intros rows _.
  eapply keeps_bind.
  - apply keeps_for. intros i.
    eapply keeps_bind; [apply keeps_matrix_row|]. intros row _.
    apply keeps_for. intros j.
    eapply keeps_bind; [apply keeps_matrix_entry|]. intros x _.
    apply keeps_graph_do. exact Hg.
  - intros _ _. apply keeps_ret. exact Hg.
Qed.

Lemma minimum_spanning_tree_keeps n graph :
  keeps n (minimum_spanning_tree_st graph) (fun l => n <= l).
Proof.
  unfold minimum_spanning_tree_st.
  eapply keeps_bind; [apply keeps_load_graph|]. intros G _.
  eapply keeps_bind; [apply keeps_lift|]. intros T _.
  apply keeps_alloc.
Qed.

Lemma duplicate_weighted_graph_keeps n graph :
  keeps n (_duplicate_weighted_graph_st graph) (fun l => n <= l).
Proof.
  unfold _duplicate_weighted_graph_st.
  eapply keeps_bind; [apply keeps_alloc|]. intros dup Hd.
  eapply keeps_bind; [apply keeps_load_graph|]. intros G _.
  eapply keeps_bind.
  - apply keeps_for. intros v. apply keeps_for. intros [w d].
    apply keeps_multi_do. exact Hd.
  - intros _ _. apply keeps_ret. exact Hd.
Qed.

Lemma create_eulerian_path_keeps n eulerianGraph start :
  keeps n (_create_eulerian_path_st eulerianGraph start) (fun l => n <= l).
Proof.
  unfold _create_eulerian_path_st.
  eapply keeps_bind; [apply keeps_load_multi|]. intros M _.
  eapply keeps_bind; [apply keeps_lift|]. intros eulerianEdges _.
  eapply keeps_bind; [apply keeps_alloc|]. intros eulerianPath Hp.
  eapply keeps_bind; [apply keeps_lift|]. intros last _.
  eapply keeps_bind; [apply keeps_path_append; exact Hp|]. intros _ _.
  apply keeps_ret. exact Hp.
Qed.

Lemma create_hamiltonian_path_keeps n eulerianPath :
  keeps n (_create_hamiltonian_path_st eulerianPath) (fun l => n <= l).
Proof.
  unfold _create_hamiltonian_path_st.
  eapply keeps_bind; [apply keeps_alloc|]. intros hamiltonianPath Hh.
  eapply keeps_bind; [apply keeps_alloc|]. intros existedVertice He.
  eapply keeps_bind; [apply keeps_load_path|]. intros path _.
  eapply keeps_bind.
  - apply keeps_for. intros vertex.
    eapply keeps_bind; [apply keeps_load_path|]. intros existed _.
    destruct (memb vertex existed); [apply keeps_ret; trivial|].
    eapply keeps_bind; [apply keeps_path_append; exact Hh|]. intros _ _.
    apply keeps_path_append. exact He.
  - intros _ _.
    eapply keeps_bind; [apply keeps_lift|]. intros first _.
    eapply keeps_bind; [apply keeps_path_append; exact Hh|]. intros _ _.
    apply keeps_ret. exact Hh.
Qed.

Lemma remove_even_degree_vertices_keeps n graph spanningTree :
  keeps n (_remove_even_degree_vertices_st graph spanningTree) (fun l => n <= l).
Proof.
  unfold _remove_even_degree_vertices_st.
  eapply keeps_bind; [apply keeps_load_graph|]. intros G _.
  eapply keeps_bind; [apply keeps_alloc|]. intros removedGraph Hr.
  eapply keeps_bind; [apply keeps_load_graph|]. intros T _.
  eapply keeps_bind.
  - apply keeps_for. intros v.
    destruct (Nat.even (degree T v)); [|apply keeps_ret; trivial].
    apply keeps_graph_do. exact Hr.
  - intros _ _. apply keeps_ret. exact Hr.
Qed.

Lemma merge_two_graphs_keeps n graph1 graph2 :
  keeps n (_merge_two_graphs_st graph1 graph2) (fun l => n <= l).
Proof.
  unfold _merge_two_graphs_st.
  eapply keeps_bind; [apply keeps_load_graph|]. intros G1 _.
  eapply keeps_bind; [apply keeps_alloc|]. intros mergedGraph Hm.
  eapply keeps_bind; [apply keeps_load_graph|]. intros G2 _.
  eapply keeps_bind.
  - apply keeps_for. intros [[u v] w]. apply keeps_multi_do. exact Hm.
  - intros _ _. apply keeps_ret. exact Hm.
Qed.

Lemma double_tree_algorithm_keeps n costMatrix start :
  keeps n (double_tree_algorithm_st costMatrix start) (fun l => n <= l).
Proof.
  unfold double_tree_algorithm_st.
  eapply keeps_bind; [apply create_weighted_graph_keeps|]. intros graph _.
  eapply keeps_bind; [apply minimum_spanning_tree_keeps|]. intros spanningTree _.
  eapply keeps_bind; [apply duplicate_weighted_graph_keeps|]. intros dup _.
  eapply keeps_bind; [apply create_eulerian_path_keeps|]. intros eulerianPath _.
  apply create_hamiltonian_path_keeps.
Qed.

Lemma match_minimal_weight_keeps mwm n graph :
  keeps n (_match_minimal_weight_st mwm graph) (fun l => n <= l).
Proof.
  unfold _match_minimal_weight_st.
  eapply keeps_bind; [apply keeps_alloc|]. intros tmpGraph Ht.
  eapply keeps_bind; [apply keeps_load_graph|]. intros G _.
  eapply keeps_bind.
  - apply keeps_for. intros [[u v] w].
    eapply keeps_bind; [apply keeps_lift|]. intros z _.
    apply keeps_graph_do. exact Ht.
  - intros _ _.
    eapply keeps_bind; [apply keeps_load_graph|]. intros tmp _.
    eapply keeps_bind; [apply keeps_alloc|]. intros matchingGraph Hm.
    eapply keeps_bind.
    + apply keeps_for. intros [a b].
      eapply keeps_bind; [apply keeps_lift|]. intros w _.
      apply keeps_graph_do. exact Hm.
    + intros _ _. apply keeps_ret. exact Hm.
Qed.

Lemma christofides_algorithm_keeps mwm n costMatrix start :
  keeps n (christofides_algorithm_st mwm costMatrix start) (fun l => n <= l).
Proof.
  unfold christofides_algorithm_st.
  eapply keeps_bind; [apply create_weighted_graph_keeps|]. intros graph _.
  eapply keeps_bind; [apply minimum_spanning_tree_keeps|]. intros spanningTree _.
  eapply keeps_bind; [apply remove_even_degree_vertices_keeps|].
  intros removedGraph _.
  eapply keeps_bind; [apply match_minimal_weight_keeps|]. intros matchingGraph _.
  eapply keeps_bind; [apply merge_two_graphs_keeps|]. intros mergedGraph _.
  eapply keeps_bind; [apply create_eulerian_path_keeps|]. intros eulerianPath _.
  apply create_hamiltonian_path_keeps.
Qed.

Lemma shuffle_cost_matrix_keeps n costMatrix start :
  keeps n (_shuffle_cost_matrix_st costMatrix start) (fun r => n <= fst r).
Proof.
  unfold _shuffle_cost_matrix_st.
  eapply keeps_bind; [apply keeps_alloc|]. intros shuffled Hs.
  eapply keeps_bind; [apply keeps_load_matrix|]. intros rows _.
  eapply keeps_bind; [apply keeps_sample|]. intros shuffledIndices _.
  eapply keeps_bind.
  - apply keeps_for. intros i.
    eapply keeps_bind; [apply keeps_alloc|]. intros tmp Ht.
    eapply keeps_bind.
    + apply keeps_for. intros j.
      eapply keeps_bind; [apply keeps_lift|]. intros si _.
      eapply keeps_bind; [apply keeps_lift|]. intros sj _.
      eapply keeps_bind; [apply keeps_matrix_entry|]. intros x _.
      apply keeps_row_append. exact Ht.
    + intros _ _. apply keeps_matrix_append. exact Hs.
  - intros _ _.
    eapply keeps_bind; [apply keeps_lift|]. intros shuffledStart _.
    apply keeps_ret. exact Hs.
Qed.

Lemma calc_total_cost_keeps n route costMatrix :
  keeps n (_calc_total_cost_st route costMatrix) (fun _ => True).
Proof.
  unfold _calc_total_cost_st.
  eapply keeps_bind; [apply keeps_load_path|]. intros path _.
  apply keeps_sum. intros acc i.
  eapply keeps_bind; [apply keeps_lift|]. intros a _.
  eapply keeps_bind; [apply keeps_lift|]. intros b _.
  eapply keeps_bind; [apply keeps_matrix_entry|]. intros x _.
  apply keeps_lift.
Qed.

Lemma run_two_algorithms_keeps mwm n costMatrix start times :
  keeps n (run_two_algorithms_st mwm costMatrix start times) (fun _ => True).
Proof.
  unfold run_two_algorithms_st.
  eapply keeps_bind; [apply keeps_alloc|]. intros doubleTreeRoutes H1.
  eapply keeps_bind; [apply keeps_alloc|]. intros doubleTreeCosts H2.
  eapply keeps_bind; [apply keeps_alloc|]. intros doubleTreeTimes H3.
  eapply keeps_bind; [apply keeps_alloc|]. intros christofidesRoutes H4.
  eapply keeps_bind; [apply keeps_alloc|]. intros christofidesCosts H5.
  eapply keeps_bind; [apply keeps_alloc|]. intros christofidesTimes H6.
  eapply keeps_bind; [|intros _ _; apply keeps_ret; trivial].
  apply keeps_for. intros _.
  eapply keeps_bind; [apply shuffle_cost_matrix_keeps|].
  intros [shuffledCostMatrix shuffledStart] _.
  eapply keeps_bind; [apply keeps_time|]. intros ready _.
  eapply keeps_bind; [apply double_tree_algorithm_keeps|]. intros route _.
  eapply keeps_bind; [apply keeps_time|]. intros finish _.
  eapply keeps_bind; [apply keeps_routes_append; exact H1|]. intros _ _.
  eapply keeps_bind; [apply calc_total_cost_keeps|]. intros cost _.
  eapply keeps_bind; [apply keeps_floats_append; exact H2|]. intros _ _.
  eapply keeps_bind; [apply keeps_numbers_append; exact H3|]. intros _ _.
  eapply keeps_bind; [apply keeps_time|]. intros ready' _.
  eapply keeps_bind; [apply christofides_algorithm_keeps|]. intros route' _.
  eapply keeps_bind; [apply keeps_time|]. intros finish' _.
  eapply keeps_bind; [apply keeps_routes_append; exact H4|]. intros _ _.
  eapply keeps_bind; [apply calc_total_cost_keeps|]. intros cost' _.
  eapply keeps_bind; [apply keeps_floats_append; exact H5|]. intros _ _.
  apply keeps_numbers_append. exact H6.
Qed.

Lemma keeps_preserved {A : Type} (m : St A) (Q : A -> Prop) s :
  keeps (length (cells s)) m Q ->
  preserved s (snd (m s)) /\ forall a, fst (m s) = Ok a -> Q a.
Proof.
  intros H. destruct (H s (Nat.le_refl _)) as [_ [Hsame HQ]].
  split; [|exact HQ].
  intros l o Hl. rewrite Hsame; [exact Hl|].
  apply nth_error_Some. congruence.
Qed.

End StoreFacts.

(* ================================================================== *)
(** * The inputs are left as they were                                  *)
(* ================================================================== *)

(** On the example the functions over the store return what the functions
    over values return. *)
Lemma store_runs_agree :
  (let '(r, s) := Store.double_tree_algorithm_st 3 0 three_vertices_store in
   match r with
   | Ok l => nth_error (Store.cells s) l
   | Raise _ => None
   end) = Some (Store.OPath [0; 1; 2; 0]) /\
  double_tree_algorithm three_vertices 0 = Ok [0; 1; 2; 0] /\
  (let '(r, s) := Store.christofides_algorithm_st pair_nodes 3 0 three_vertices_store in
   match r with
   | Ok l => nth_error (Store.cells s) l
   | Raise _ => None
   end) = Some (Store.OPath [0; 2; 1; 0]) /\
  christofides_algorithm pair_nodes three_vertices 0 = Ok [0; 2; 1; 0] /\
  (let '(r, s) := Store.run_two_algorithms_st pair_nodes 3 0 1 three_vertices_store in
   match r with
   | Ok (dr, dc, _, cr, cc, _) =>
       (nth_error (Store.cells s) dc, nth_error (Store.cells s) cc)
   | Raise _ => (None, None)
   end) = (Some (Store.OFloats [Finite 5]), Some (Store.OFloats [Finite 5])).
Proof.
  repeat split; vm_compute; reflexivity.
Qed.

(** C10: whatever objects the store holds when one of the orchestrators,
    the harness or the cost computation is called, the cost matrix and
    its rows among them, each of them is in its place and unchanged when
    the call ends, by returning or by raising; the graph, the tree, the
    graph for the matcher, the matching graph, the merged multigraph, the
    relabelled matrix and the routes are objects that did not exist
    before; and the removal of vertices returns such a new object and
    leaves the graph it was handed as it was. *)
Theorem calls_leave_their_inputs mwm s costMatrix start times route
    graph spanningTree graph2 :
  Store.preserved s (snd (Store.double_tree_algorithm_st costMatrix start s)) /\
  Store.preserved s (snd (Store.christofides_algorithm_st mwm costMatrix start s)) /\
  Store.preserved s (snd (Store.run_two_algorithms_st mwm costMatrix start times s)) /\
  Store.preserved s (snd (Store._calc_total_cost_st route costMatrix s)) /\
  (Store.preserved s (snd (Store._create_weighted_graph_st costMatrix s)) /\
   forall l, fst (Store._create_weighted_graph_st costMatrix s) = Ok l ->
             length (Store.cells s) <= l) /\
  (Store.preserved s (snd (Store.minimum_spanning_tree_st graph s)) /\
   forall l, fst (Store.minimum_spanning_tree_st graph s) = Ok l ->
             length (Store.cells s) <= l) /\
  (Store.preserved s (snd (Store._remove_even_degree_vertices_st graph spanningTree s)) /\
   forall l, fst (Store._remove_even_degree_vertices_st graph spanningTree s) = Ok l ->
             length (Store.cells s) <= l) /\
  (Store.preserved s (snd (Store._match_minimal_weight_st mwm graph s)) /\
   forall l, fst (Store._match_minimal_weight_st mwm graph s) = Ok l ->
             length (Store.cells s) <= l) /\
  (Store.preserved s (snd (Store._merge_two_graphs_st graph graph2 s)) /\
   forall l, fst (Store._merge_two_graphs_st graph graph2 s) = Ok l ->
             length (Store.cells s) <= l) /\
  (Store.preserved s (snd (Store._duplicate_weighted_graph_st graph s)) /\
   forall l, fst (Store._duplicate_weighted_graph_st graph s) = Ok l ->
             length (Store.cells s) <= l) /\
  (Store.preserved s (snd (Store._shuffle_cost_matrix_st costMatrix start s)) /\
   forall r, fst (Store._shuffle_cost_matrix_st costMatrix start s) = Ok r ->
             length (Store.cells s) <= fst r) /\
  (forall l, fst (Store.double_tree_algorithm_st costMatrix start s) = Ok l ->
             length (Store.cells s) <= l) /\
  (forall l, fst (Store.christofides_algorithm_st mwm costMatrix start s) = Ok l ->
             length (Store.cells s) <= l).
Proof.
  pose proof (@StoreFacts.keeps_preserved _ _ _ s
                (@StoreFacts.double_tree_algorithm_keeps _ costMatrix start)) as [H1 H1'].
  pose proof (@StoreFacts.keeps_preserved _ _ _ s
                (@StoreFacts.christofides_algorithm_keeps mwm _ costMatrix start))
    as [H2 H2'].
  pose proof (@StoreFacts.keeps_preserved _ _ _ s
                (@StoreFacts.run_two_algorithms_keeps mwm _ costMatrix start times))
    as [H3 _].
  pose proof (@StoreFacts.keeps_preserved _ _ _ s
                (@StoreFacts.calc_total_cost_keeps _ route costMatrix)) as [H4 _].
  pose proof (@StoreFacts.keeps_preserved _ _ _ s
                (@StoreFacts.create_weighted_graph_keeps _ costMatrix)) as H5.
  pose proof (@StoreFacts.keeps_preserved _ _ _ s
                (@StoreFacts.minimum_spanning_tree_keeps _ graph)) as H6.
  pose proof (@StoreFacts.keeps_preserved _ _ _ s
                (@StoreFacts.remove_even_degree_vertices_keeps _ graph spanningTree))
    as H7.
  pose proof (@StoreFacts.keeps_preserved _ _ _ s
                (@StoreFacts.match_minimal_weight_keeps mwm _ graph)) as H8.
  pose proof (@StoreFacts.keeps_preserved _ _ _ s
                (@StoreFacts.merge_two_graphs_keeps _ graph graph2)) as H9.
  pose proof (@StoreFacts.keeps_preserved _ _ _ s
                (@StoreFacts.duplicate_weighted_graph_keeps _ graph)) as H10.
  pose proof (@StoreFacts.keeps_preserved _ _ _ s
                (@StoreFacts.shuffle_cost_matrix_keeps _ costMatrix start)) as H11.
  repeat (split; [assumption|]). assumption.
Qed.

(* ================================================================== *)
(** * The shortcutter on any walk                                       *)
(* ================================================================== *)

Lemma first_occ_snoc seen l x :
  first_occ seen (l ++ [x]) =
  first_occ seen l ++ (if memb x seen || memb x l then [] else [x]).
Proof.
  revert seen. induction l as [|y l IH]; intros seen; simpl.
  - rewrite orb_false_r. destruct (memb x seen); reflexivity.
  - destruct (memb y seen) eqn:Hy.
    + rewrite IH. f_equal.
      destruct (Nat.eqb_spec x y) as [->|Hne]; simpl; [|reflexivity].
      rewrite Hy. reflexivity.
    + simpl. rewrite IH. f_equal. simpl.
      destruct (Nat.eqb x y), (memb x seen); reflexivity.
Qed.

Lemma first_occ_rev_nodup l :
  first_occ [] l = rev (nodup Nat.eq_dec (rev l)).
Proof.
  induction l as [|x l IH] using rev_ind; [reflexivity|].
  rewrite first_occ_snoc, rev_app_distr. simpl.
  destruct (in_dec Nat.eq_dec x (rev l)) as [Hin|Hnot].
  - apply in_rev in Hin. apply memb_In in Hin. rewrite Hin, app_nil_r. exact IH.
  - assert (Hm : memb x l = false).
    { apply memb_false. intros H. apply Hnot. apply in_rev in H. exact H. }
    rewrite Hm. simpl. rewrite IH. reflexivity.
Qed.

Lemma first_occ_nodup_id seen l :
  NoDup l -> (forall x, In x l -> ~ In x seen) -> first_occ seen l = l.
Proof.
  revert seen. induction l as [|y l IH]; intros seen Hnd Hd; simpl; [reflexivity|].
  inversion Hnd as [|? ? Hy Hnd']; subst.
  assert (Hm : memb y seen = false).
  { apply memb_false. apply Hd. left; reflexivity. }
  rewrite Hm. f_equal. apply IH; [assumption|].
  intros x Hx [<-|Hs]; [contradiction|].
  apply (Hd x); [right; assumption | assumption].
Qed.

(** A list without repeats that is closed by its own head comes back as it
    is. *)
Lemma create_hamiltonian_path_fixed s body :
  NoDup (s :: body) ->
  _create_hamiltonian_path ((s :: body) ++ [s]) = Ok ((s :: body) ++ [s]).
Proof.
  intros Hnd. change ((s :: body) ++ [s]) with (s :: (body ++ [s])) at 1.
  rewrite create_hamiltonian_path_eq.
  change (s :: (body ++ [s])) with ((s :: body) ++ [s]).
  rewrite first_occ_snoc.
  rewrite (@first_occ_nodup_id [] (s :: body) Hnd) by (intros x _ []).
  simpl. rewrite Nat.eqb_refl. simpl. rewrite app_nil_r. reflexivity.
Qed.

(** X1: the shortcutter raises [IndexError] on the empty walk and on no
    other; on a walk that starts at [s] it returns the vertices of the walk
    in the order of their first visit, each once, followed by [s]. *)
Theorem hamiltonian_path_first_visits (eulerianPath : list vertex) :
  _create_hamiltonian_path eulerianPath =
  match eulerianPath with
  | [] => Raise IndexError
  | s :: _ => Ok (rev (nodup Nat.eq_dec (rev eulerianPath)) ++ [s])
  end.
Proof.
  destruct eulerianPath as [|s l]; [reflexivity|].
  rewrite create_hamiltonian_path_eq, first_occ_rev_nodup. reflexivity.
Qed.

(** X2: shortcutting twice is shortcutting once: a route the shortcutter
    has returned is returned unchanged when it is handed back. *)
Theorem hamiltonian_path_idempotent (walk route : list vertex) :
  _create_hamiltonian_path walk = Ok route ->
  _create_hamiltonian_path route = Ok route.
Proof.
  destruct walk as [|s l]; [discriminate|].
  rewrite create_hamiltonian_path_eq. intros H. injection H as <-.
  assert (Hb : first_occ [] (s :: l) = s :: first_occ [s] l) by reflexivity.
  pose proof (first_occ_nodup [] (s :: l)) as Hnd. rewrite Hb in *.
  apply create_hamiltonian_path_fixed. exact Hnd.
Qed.

Lemma hamiltonian_path_idempotent_witness :
  _create_hamiltonian_path [0; 1; 0; 2; 1; 0] = Ok [0; 1; 2; 0] /\
  _create_hamiltonian_path [0; 1; 2; 0] = Ok [0; 1; 2; 0].
Proof.
  split; [reflexivity|].
  apply (@hamiltonian_path_idempotent [0; 1; 0; 2; 1; 0] [0; 1; 2; 0]).
  reflexivity.
Defined.

(* ================================================================== *)
(** * The cost of any route                                             *)
(* ================================================================== *)

Lemma steps_fold N cm ps z0 :
  square N cm ->
  (forall a b, In (a, b) ps -> a < N /\ b < N) ->
  foldM (fun tot '(a, b) =>
           x <- getitem2 cm a b ;; z <- as_number x ;; Ok (tot + z)%Z)
        ps z0
  = if forallb (numeric_step cm) ps
    then Ok (z0 + weight (entry cm) ps)%Z
    else Raise TypeError.
Proof.
  intros Hsq. revert z0. induction ps as [|[a b] ps IH]; intros z0 H.
  - simpl. f_equal. lia.
  - destruct (H a b (or_introl eq_refl)) as [Ha Hb].
    cbn [foldM forallb]. rewrite (getitem2_nth Hsq Ha Hb). cbn [bind].
    assert (Hw : weight (entry cm) ((a, b) :: ps)
                 = (entry cm a b + weight (entry cm) ps)%Z) by reflexivity.
    rewrite Hw. unfold numeric_step at 1. unfold entry at 1. cbn [fst snd].
    destruct (nth b (nth a cm []) None) as [z|]; cbn [as_number bind andb];
      [|reflexivity].
    rewrite IH by (intros; apply H; right; assumption).
    destruct (forallb (numeric_step cm) ps); [|reflexivity].
    f_equal. lia.
Qed.

(** Within the matrix the cost is the sum of the entries along the route,
    unless a step reads [None]. *)
Lemma exact_total_cost_within N cm route :
  square N cm -> (forall x, In x route -> x < N) ->
  exact_total_cost route cm
  = if forallb (numeric_step cm) (pairs route)
    then Ok (weight (entry cm) (pairs route))
    else Raise TypeError.
Proof.
  intros Hsq Hr. rewrite exact_total_cost_pairs.
  rewrite (@steps_fold N) by
    (assumption || (intros a b Hin; apply pairs_in in Hin; destruct Hin; auto)).
  reflexivity.
Qed.

Lemma numeric_step_valid N cm a b :
  valid_matrix N cm -> a < N -> b < N ->
  numeric_step cm (a, b) = negb (stays (a, b)).
Proof.
  intros [_ [Hd [Hf _]]] Ha Hb. unfold numeric_step, stays. simpl.
  destruct (Nat.eqb_spec a b) as [->|Hne]; simpl.
  - rewrite (Hd b Hb). reflexivity.
  - destruct (Hf a b Ha Hb Hne) as [z ->]. reflexivity.
Qed.

Lemma forallb_perm {A : Type} (f : A -> bool) l1 l2 :
  Permutation l1 l2 -> forallb f l1 = forallb f l2.
Proof.
  induction 1; simpl; try congruence.
  - destruct (f x), (f y); reflexivity.
Qed.

Lemma pairs_app_cons l a b r :
  pairs ((l ++ [a]) ++ b :: r) = pairs (l ++ [a]) ++ (a, b) :: pairs (b :: r).
Proof.
  induction l as [|x l IH]; [reflexivity|].
  simpl. destruct (l ++ [a]) as [|y t] eqn:E.
  - destruct l; discriminate.
  - simpl in *. rewrite IH. reflexivity.
Qed.

Lemma pairs_rev l : pairs (rev l) = rev (map swap_step (pairs l)).
Proof.
  induction l as [|a [|b l] IH]; try reflexivity.
  change (rev (a :: b :: l)) with (rev (b :: l) ++ [a]).
  change (rev (b :: l)) with (rev l ++ [b]) at 1.
  rewrite pairs_snoc.
  change (rev l ++ [b]) with (rev (b :: l)). rewrite IH. reflexivity.
Qed.

Lemma exact_total_cost_valid N cm route :
  valid_matrix N cm -> (forall x, In x route -> x < N) ->
  exact_total_cost route cm
  = if existsb stays (pairs route)
    then Raise TypeError
    else Ok (weight (entry cm) (pairs route)).
Proof.
  intros Hv Hr. rewrite (@exact_total_cost_within N) by (apply Hv || assumption).
  assert (Heq : forallb (numeric_step cm) (pairs route)
                = negb (existsb stays (pairs route))).
  { assert (Hin : forall a b, In (a, b) (pairs route) -> a < N /\ b < N).
    { intros a b H. apply pairs_in in H. destruct H; auto. }
    induction (pairs route) as [|[a b] ps IH]; [reflexivity|].
    simpl. destruct (Hin a b (or_introl eq_refl)) as [Ha Hb].
    rewrite (numeric_step_valid Hv Ha Hb), negb_orb.
    rewrite IH by (intros; apply Hin; right; assumption). reflexivity. }
  rewrite Heq. destruct (existsb stays (pairs route)); reflexivity.
Qed.

(** ** From the exact sum to the float *)

Lemma magnitude_perm cm ps ps' :
  Permutation ps ps' -> magnitude cm ps = magnitude cm ps'.
Proof. intros HP. unfold magnitude. apply weight_perm. exact HP. Qed.

(** Where the magnitudes along the steps add up to less than 2^53, every
    number read converts. *)
Lemma magnitude_in_range cm ps :
  (magnitude cm ps < 2 ^ 53)%Z ->
  forall a b z, In (a, b) ps -> getitem2 cm a b = Ok (Some z) ->
                in_float_range z = true.
Proof.
  induction ps as [|[x y] ps IH]; intros Hm a b z Hin Hg; [destruct Hin|].
  rewrite magnitude_cons in Hm. pose proof (magnitude_nonneg cm ps) as H0.
  destruct Hin as [Heq|Hin].
  - inversion Heq; subst. destruct (getitem2_ok _ _ _ Hg) as (_ & _ & Hnth).
    assert (He : entry cm a b = z) by (unfold entry; rewrite Hnth; reflexivity).
    rewrite He in Hm. apply small_in_float_range. lia.
  - apply (IH ltac:(lia) a b z Hin Hg).
Qed.

(** Where the magnitudes along the route add up to less than 2^53, the
    float is the exact sum, and what the exact sum raises is raised. *)
Lemma calc_total_cost_small cm route :
  (magnitude cm (pairs route) < 2 ^ 53)%Z ->
  _calc_total_cost route cm
  = match exact_total_cost route cm with
    | Ok c => Ok (Finite c)
    | Raise e => Raise e
    end.
Proof.
  intros Hm. destruct (exact_total_cost route cm) as [c|e] eqn:He.
  - apply calc_total_cost_exact; assumption.
  - rewrite calc_total_cost_pairs. rewrite exact_total_cost_pairs in He.
    pose proof (@float_steps_follow cm (pairs route)
                  (magnitude_in_range cm (pairs route) Hm) 0%Z (Finite 0)) as H.
    rewrite He in H. exact H.
Qed.

(** X3: on a valid matrix none of whose weights is beyond the range of a
    float, the cost of a route that stays within the matrix is a float when
    no step stays at a vertex, and it is the sum of the entries along the
    steps when their magnitudes add up to less than 2^53; a step from a
    vertex to itself reads the diagonal and raises [TypeError]. *)
Theorem total_cost_on_valid_matrix N cm route :
  valid_matrix N cm -> float_weights N cm ->
  (forall x, In x route -> x < N) ->
  (existsb stays (pairs route) = true ->
   _calc_total_cost route cm = Raise TypeError) /\
  (existsb stays (pairs route) = false ->
   (exists f, _calc_total_cost route cm = Ok f) /\
   ((magnitude cm (pairs route) < 2 ^ 53)%Z ->
    _calc_total_cost route cm
    = Ok (Finite (weight (entry cm) (pairs route))))).
Proof.
  intros Hv Hfl Hr.
  pose proof (@exact_total_cost_valid N cm route Hv Hr) as He.
  pose proof (@calc_total_cost_follows N cm route (proj1 Hv) Hfl) as Hf.
  split.
  - intros Hst. rewrite Hst in He. rewrite He in Hf. exact Hf.
  - intros Hst. rewrite Hst in He. rewrite He in Hf. split; [exact Hf|].
    intros Hm. apply calc_total_cost_exact; assumption.
Qed.

Lemma total_cost_on_valid_matrix_witness :
  _calc_total_cost [0; 1; 2; 0] three_vertices = Ok (Finite 5) /\
  _calc_total_cost [0; 1; 1; 2] three_vertices = Raise TypeError.
Proof.
  assert (H1 : forall x, In x [0; 1; 2; 0] -> x < 3) by (simpl; intros x Hx; lia).
  assert (H2 : forall x, In x [0; 1; 1; 2] -> x < 3) by (simpl; intros x Hx; lia).
  split.
  - apply (proj2 (proj2 (@total_cost_on_valid_matrix 3 three_vertices [0; 1; 2; 0]
                           three_vertices_valid three_vertices_float H1)
                        eq_refl)).
    vm_compute. reflexivity.
  - apply (proj1 (@total_cost_on_valid_matrix 3 three_vertices [0; 1; 1; 2]
                    three_vertices_valid three_vertices_float H2)).
    reflexivity.
Defined.

Lemma numeric_step_swap N cm e :
  symmetric N cm -> fst e < N -> snd e < N ->
  numeric_step cm (swap_step e) = numeric_step cm e.
Proof.
  intros Hs Ha Hb. unfold numeric_step, swap_step. simpl.
  rewrite (Hs (snd e) (fst e)) by assumption. reflexivity.
Qed.

Lemma entry_swap N cm a b :
  symmetric N cm -> a < N -> b < N -> entry cm b a = entry cm a b.
Proof.
  intros Hs Ha Hb. unfold entry. rewrite (Hs b a) by assumption. reflexivity.
Qed.

Lemma numeric_steps_swap N cm ps :
  symmetric N cm -> (forall a b, In (a, b) ps -> a < N /\ b < N) ->
  forallb (numeric_step cm) (map swap_step ps) = forallb (numeric_step cm) ps.
Proof.
  intros Hs. induction ps as [|[a b] ps IH]; intros Hin; [reflexivity|].
  simpl. destruct (Hin a b (or_introl eq_refl)) as [Ha Hb].
  rewrite (@numeric_step_swap N cm (a, b) Hs Ha Hb).
  rewrite IH by (intros; apply Hin; right; assumption). reflexivity.
Qed.

Lemma weight_entry_swap N cm ps :
  symmetric N cm -> (forall a b, In (a, b) ps -> a < N /\ b < N) ->
  weight (entry cm) (map swap_step ps) = weight (entry cm) ps.
Proof.
  intros Hs. induction ps as [|[a b] ps IH]; intros Hin; [reflexivity|].
  simpl. destruct (Hin a b (or_introl eq_refl)) as [Ha Hb].
  rewrite (entry_swap Hs Ha Hb).
  rewrite IH by (intros; apply Hin; right; assumption). reflexivity.
Qed.

Lemma exact_total_cost_rev N cm route :
  square N cm -> symmetric N cm -> (forall x, In x route -> x < N) ->
  exact_total_cost (rev route) cm = exact_total_cost route cm.
Proof.
  intros Hsq Hs Hr.
  rewrite (@exact_total_cost_within N cm (rev route)) by
    (assumption || (intros x Hx; apply Hr; apply in_rev; assumption)).
  rewrite (@exact_total_cost_within N cm route) by assumption.
  rewrite pairs_rev.
  assert (Hin : forall a b, In (a, b) (pairs route) -> a < N /\ b < N).
  { intros a b H. apply pairs_in in H. destruct H; auto. }
  rewrite (forallb_perm _ (Permutation_sym (Permutation_rev _))).
  rewrite (weight_perm (entry cm) (Permutation_sym (Permutation_rev _))).
  rewrite (numeric_steps_swap _ Hs Hin), (weight_entry_swap _ Hs Hin).
  reflexivity.
Qed.

Lemma magnitude_swap N cm ps :
  symmetric N cm -> (forall a b, In (a, b) ps -> a < N /\ b < N) ->
  magnitude cm (map swap_step ps) = magnitude cm ps.
Proof.
  intros Hs. induction ps as [|[a b] ps IH]; intros Hin; [reflexivity|].
  cbn [map]. unfold swap_step at 1. cbn [fst snd].
  rewrite !magnitude_cons. destruct (Hin a b (or_introl eq_refl)) as [Ha Hb].
  rewrite (entry_swap Hs Ha Hb).
  rewrite IH by (intros; apply Hin; right; assumption). reflexivity.
Qed.

Lemma magnitude_rev N cm route :
  symmetric N cm -> (forall x, In x route -> x < N) ->
  magnitude cm (pairs (rev route)) = magnitude cm (pairs route).
Proof.
  intros Hs Hr. rewrite pairs_rev.
  rewrite (magnitude_perm cm (Permutation_sym (Permutation_rev _))).
  apply (@magnitude_swap N); [exact Hs|].
  intros a b H. apply pairs_in in H. destruct H; auto.
Qed.

(** X4: on a symmetric square matrix a route whose magnitudes add up to
    less than 2^53, so that no step of the float sum rounds, costs the same
    walked backwards, and fails the same way when it fails. *)
Theorem total_cost_of_reversed_route N cm route :
  square N cm -> symmetric N cm -> (forall x, In x route -> x < N) ->
  (magnitude cm (pairs route) < 2 ^ 53)%Z ->
  _calc_total_cost (rev route) cm = _calc_total_cost route cm.
Proof.
  intros Hsq Hs Hr Hm.
  rewrite (calc_total_cost_small cm route Hm).
  rewrite (calc_total_cost_small cm (rev route))
    by (rewrite (@magnitude_rev N cm route Hs Hr); exact Hm).
  rewrite (@exact_total_cost_rev N cm route Hsq Hs Hr). reflexivity.
Qed.

Lemma total_cost_of_reversed_route_witness :
  _calc_total_cost (rev [0; 2; 1; 3; 0]) four_with_tie
  = _calc_total_cost [0; 2; 1; 3; 0] four_with_tie.
Proof.
  apply (@total_cost_of_reversed_route 4 four_with_tie [0; 2; 1; 3; 0]).
  - apply four_with_tie_valid.
  - apply four_with_tie_valid.
  - simpl. intros x Hx. lia.
  - vm_compute. reflexivity.
Defined.

Lemma pairs_join l b r :
  l <> [] -> pairs (l ++ b :: r) = pairs l ++ (last l 0, b) :: pairs (b :: r).
Proof.
  induction l as [|x [|y t] IH]; intros Hne; [congruence | reflexivity |].
  change (pairs ((x :: y :: t) ++ b :: r))
    with ((x, y) :: pairs ((y :: t) ++ b :: r)).
  rewrite IH by discriminate. reflexivity.
Qed.

Lemma closed_steps a u b v :
  pairs ((a :: u) ++ (b :: v) ++ [a])
  = pairs (a :: u) ++ (last (a :: u) 0, b)
    :: pairs (b :: v) ++ [(last (b :: v) 0, a)].
Proof.
  change ((b :: v) ++ [a]) with (b :: (v ++ [a])).
  rewrite pairs_join by discriminate. f_equal. f_equal.
  change (b :: (v ++ [a])) with ((b :: v) ++ [a]).
  rewrite pairs_join by discriminate. reflexivity.
Qed.

(** Started at [a] or at [b], a closed tour takes the same steps. *)
Lemma closed_steps_perm a u b v :
  Permutation (pairs ((a :: u) ++ (b :: v) ++ [a]))
              (pairs ((b :: v) ++ (a :: u) ++ [b])).
Proof.
  rewrite !closed_steps.
  set (P := pairs (a :: u)). set (Q := pairs (b :: v)).
  set (e1 := (last (a :: u) 0, b)). set (e2 := (last (b :: v) 0, a)).
  apply Permutation_trans with (e1 :: (Q ++ [e2]) ++ P).
  - apply (Permutation_app_comm P (e1 :: Q ++ [e2])).
  - replace (Q ++ e2 :: P ++ [e1]) with ((Q ++ e2 :: P) ++ e1 :: [])
      by (rewrite <- app_assoc; reflexivity).
    apply Permutation_cons_app. rewrite app_nil_r.
    rewrite <- app_assoc. apply Permutation_refl.
Qed.

Lemma exact_total_cost_rotated N cm a u b v :
  square N cm ->
  (forall x, In x ((a :: u) ++ b :: v) -> x < N) ->
  exact_total_cost ((a :: u) ++ (b :: v) ++ [a]) cm
  = exact_total_cost ((b :: v) ++ (a :: u) ++ [b]) cm.
Proof.
  intros Hsq Hr.
  assert (Ha : a < N) by (apply Hr; left; reflexivity).
  assert (Hb : b < N) by (apply Hr; apply in_or_app; right; left; reflexivity).
  rewrite (@exact_total_cost_within N cm ((a :: u) ++ (b :: v) ++ [a])).
  2: assumption.
  2:{ intros x Hx. apply in_app_or in Hx. destruct Hx as [Hx|Hx].
      - apply Hr. apply in_or_app. left. exact Hx.
      - apply in_app_or in Hx. destruct Hx as [Hx|[<-|[]]]; [|exact Ha].
        apply Hr. apply in_or_app. right. exact Hx. }
  rewrite (@exact_total_cost_within N cm ((b :: v) ++ (a :: u) ++ [b])).
  2: assumption.
  2:{ intros x Hx. apply in_app_or in Hx. destruct Hx as [Hx|Hx].
      - apply Hr. apply in_or_app. right. exact Hx.
      - apply in_app_or in Hx. destruct Hx as [Hx|[<-|[]]]; [|exact Hb].
        apply Hr. apply in_or_app. left. exact Hx. }
  pose proof (closed_steps_perm a u b v) as HP.
  rewrite (forallb_perm _ HP), (weight_perm (entry cm) HP). reflexivity.
Qed.

(** X5: a closed tour whose magnitudes add up to less than 2^53, so that
    no step of the float sum rounds, costs the same from whichever of its
    vertices it is started: the tour through [a :: u], then [b :: v], and
    back to [a] costs what the tour through [b :: v], then [a :: u], and
    back to [b] costs. *)
Theorem total_cost_of_rotated_tour N cm a u b v :
  square N cm ->
  (forall x, In x ((a :: u) ++ b :: v) -> x < N) ->
  (magnitude cm (pairs ((a :: u) ++ (b :: v) ++ [a])) < 2 ^ 53)%Z ->
  _calc_total_cost ((a :: u) ++ (b :: v) ++ [a]) cm
  = _calc_total_cost ((b :: v) ++ (a :: u) ++ [b]) cm.
Proof.
  intros Hsq Hr Hm.
  rewrite (calc_total_cost_small cm _ Hm).
  rewrite (calc_total_cost_small cm ((b :: v) ++ (a :: u) ++ [b]))
    by (rewrite <- (magnitude_perm cm (closed_steps_perm a u b v)); exact Hm).
  rewrite (@exact_total_cost_rotated N cm a u b v Hsq Hr). reflexivity.
Qed.

Lemma total_cost_of_rotated_tour_witness :
  _calc_total_cost [0; 1; 2; 3; 0] four_with_tie
  = _calc_total_cost [2; 3; 0; 1; 2] four_with_tie.
Proof.
  apply (@total_cost_of_rotated_tour 4 four_with_tie 0 [1] 2 [3]).
  - apply four_with_tie_valid.
  - simpl. intros x Hx. lia.
  - vm_compute. reflexivity.
Defined.

(* ================================================================== *)
(** * Routes that leave the matrix                                      *)
(* ================================================================== *)

Lemma getitem2_outside N cm a b :
  square N cm -> N <= a \/ N <= b -> getitem2 cm a b = Raise IndexError.
Proof.
  intros [Hlen Hrows] H. unfold getitem2.
  destruct (nth_error cm a) as [row|] eqn:Hr; [|reflexivity].
  assert (Hl : length row = N).
  { apply Hrows. eapply nth_error_In; eassumption. }
  assert (Ha : a < N).
  { rewrite <- Hlen. apply nth_error_Some. congruence. }
  destruct (nth_error row b) as [x|] eqn:Hx; [|reflexivity].
  assert (b < length row) by (apply nth_error_Some; congruence). lia.
Qed.

Lemma steps_fold_outside N cm ps z0 :
  valid_matrix N cm ->
  existsb stays ps = false ->
  (exists a b, In (a, b) ps /\ (N <= a \/ N <= b)) ->
  foldM (fun tot '(a, b) =>
           x <- getitem2 cm a b ;; z <- as_number x ;; Ok (tot + z)%Z)
        ps z0
  = Raise IndexError.
Proof.
  intros Hv. pose proof Hv as [Hsq [Hd [Hf Hs]]].
  revert z0. induction ps as [|[a b] ps IH]; intros z0 Hst Hout.
  - destruct Hout as [a [b [[] _]]].
  - cbn [existsb] in Hst. apply orb_false_iff in Hst. destruct Hst as [Hab Hst].
    unfold stays in Hab. cbn [fst snd] in Hab. apply Nat.eqb_neq in Hab.
    cbn [foldM].
    destruct (le_lt_dec N a) as [Ha|Ha].
    { rewrite (@getitem2_outside N cm a b Hsq) by (left; exact Ha). reflexivity. }
    destruct (le_lt_dec N b) as [Hb|Hb].
    { rewrite (@getitem2_outside N cm a b Hsq) by (right; exact Hb). reflexivity. }
    rewrite (getitem2_entry Hsq Hf Hs Ha Hb Hab). cbn [bind as_number].
    apply IH; [exact Hst|].
    destruct Hout as [x [y [[Heq|Hin] Hxy]]].
    + inversion Heq; subst. lia.
    + exists x, y. auto.
Qed.

(** X6: the cost computation checks no bounds of its own: a route of
    fewer than two vertices costs nothing, whatever it names; on a valid
    matrix none of whose weights is beyond the range of a float, a route of
    two or more vertices, none visited twice in a row, that names a vertex
    outside the matrix raises [IndexError]. *)
Theorem total_cost_outside_the_matrix N cm route :
  valid_matrix N cm ->
  (length route <= 1 -> _calc_total_cost route cm = Ok (Finite 0)) /\
  (float_weights N cm ->
   2 <= length route -> existsb stays (pairs route) = false ->
   (exists x, In x route /\ N <= x) ->
   _calc_total_cost route cm = Raise IndexError).
Proof.
  intros Hv. split.
  - intros Hlen. destruct route as [|a [|b route]]; try reflexivity.
    simpl in Hlen. lia.
  - intros Hfl Hlen Hst [x [Hx HN]].
    pose proof (@calc_total_cost_follows N cm route (proj1 Hv) Hfl) as Hf.
    assert (He : exact_total_cost route cm = Raise IndexError).
    { rewrite exact_total_cost_pairs.
      apply (@steps_fold_outside N); [assumption | assumption |].
      destruct (pairs_cover route x Hlen Hx) as [y [Hy|Hy]].
      + exists x, y. auto.
      + exists y, x. auto. }
    rewrite He in Hf. exact Hf.
Qed.

Lemma total_cost_outside_the_matrix_witness :
  _calc_total_cost [7] three_vertices = Ok (Finite 0) /\
  _calc_total_cost [0; 1; 3; 0] three_vertices = Raise IndexError.
Proof.
  destruct (@total_cost_outside_the_matrix 3 three_vertices [7]
              three_vertices_valid) as [H1 _].
  destruct (@total_cost_outside_the_matrix 3 three_vertices [0; 1; 3; 0]
              three_vertices_valid) as [_ H2].
  split.
  - apply H1. simpl. lia.
  - apply H2.
    + apply three_vertices_float.
    + simpl. lia.
    + reflexivity.
    + exists 3. split; [simpl; auto | lia].
Defined.

(* ================================================================== *)
(** * What the shortcut costs                                           *)
(* ================================================================== *)

Lemma weight_entry_wt N cm ps :
  symmetric N cm -> (forall a b, In (a, b) ps -> a < N /\ b < N) ->
  weight (entry cm) ps = weight (wt cm) ps.
Proof.
  intros Hs. induction ps as [|[a b] ps IH]; intros Hin; [reflexivity|].
  simpl. destruct (Hin a b (or_introl eq_refl)) as [Ha Hb].
  rewrite (entry_wt Hs Ha Hb).
  rewrite IH by (intros; apply Hin; right; assumption). reflexivity.
Qed.

Lemma last_default {A : Type} (l : list A) (d d' : A) :
  l <> [] -> last l d = last l d'.
Proof.
  induction l as [|a [|b l] IH]; intros Hne; [congruence | reflexivity |].
  apply IH. discriminate.
Qed.

Lemma no_stay_steps l a b :
  existsb stays (pairs l) = false -> In (a, b) (pairs l) -> a <> b.
Proof.
  intros Hst Hin Heq. subst b.
  assert (H : existsb stays (pairs l) = true).
  { apply existsb_exists. exists (a, a). split; [assumption|].
    apply Nat.eqb_refl. }
  congruence.
Qed.

(** In exact arithmetic shortcutting a closed walk within a valid metric
    matrix does not cost. *)
Lemma shortcut_exact N cm walk c :
  valid_matrix N cm -> metric N cm ->
  (forall x, In x walk -> x < N) ->
  2 <= length walk -> last walk 0 = hd 0 walk ->
  exact_total_cost walk cm = Ok c ->
  exists route c',
    _create_hamiltonian_path walk = Ok route /\
    (forall a b, In (a, b) (pairs route) -> a < N /\ b < N) /\
    c = weight (wt cm) (pairs walk) /\
    exact_total_cost route cm = Ok c' /\
    c' = weight (wt cm) (pairs route) /\ (c' <= c)%Z.
Proof.
  intros Hv Hm Hr Hlen Hclosed Hc.
  pose proof Hv as [Hsq [Hd [Hf Hs]]].
  destruct walk as [|s w]; [simpl in Hlen; lia|].
  destruct (@closed_walk_shape s (s :: w) Hlen eq_refl) as [l Hl].
  { rewrite (@last_default _ (s :: w) s 0) by discriminate. exact Hclosed. }
  injection Hl as Hw. subst w.
  rewrite (@exact_total_cost_valid N cm _ Hv Hr) in Hc.
  destruct (existsb stays (pairs (s :: l ++ [s]))) eqn:Hst; [discriminate|].
  injection Hc as <-.
  assert (Hs_lt : s < N) by (apply Hr; left; reflexivity).
  assert (Hl_lt : forall y, In y l -> y < N).
  { intros y Hy. apply Hr. right. apply in_or_app. left. exact Hy. }
  assert (Hsteps : forall a b, In (a, b) (pairs (s :: l ++ [s])) -> a < N /\ b < N).
  { intros a b H. apply pairs_in in H. destruct H; split; apply Hr; assumption. }
  pose proof (weight_entry_wt _ Hs Hsteps) as Hcw.
  rewrite create_hamiltonian_path_eq.
  assert (Hbody : first_occ [] (s :: l ++ [s]) = s :: first_occ [s] l).
  { simpl. rewrite first_occ_app_seen by (left; reflexivity). reflexivity. }
  rewrite Hbody.
  (* the walk leaves [s] at once, so the route has a second vertex *)
  destruct l as [|x l].
  { simpl in Hst. unfold stays in Hst. simpl in Hst.
    rewrite Nat.eqb_refl in Hst. discriminate. }
  assert (Hxs : x <> s).
  { intros ->. simpl in Hst. unfold stays in Hst. simpl in Hst.
    rewrite Nat.eqb_refl in Hst. discriminate. }
  pose proof (first_occ_nodup [] (s :: (x :: l) ++ [s])) as Hnd.
  rewrite Hbody in Hnd.
  assert (Hbin : forall y, In y (first_occ [s] (x :: l)) -> y < N /\ y <> s).
  { intros y Hy. apply first_occ_in in Hy. destruct Hy as [Hy Hn].
    split; [apply Hl_lt; exact Hy|]. intros ->. apply Hn. left; reflexivity. }
  assert (Hne : first_occ [s] (x :: l) <> []).
  { cbn [first_occ]. assert (Hmx : memb x [s] = false).
    { apply memb_false. intros [H|[]]. congruence. }
    rewrite Hmx. discriminate. }
  destruct (exists_last Hne) as [r [z Hz]].
  assert (Hroute :
    forall a b, In (a, b) (pairs ((s :: first_occ [s] (x :: l)) ++ [s])) ->
                a < N /\ b < N /\ a <> b).
  { intros a b Hin. rewrite Hz in Hin.
    change ((s :: r ++ [z]) ++ [s]) with (((s :: r) ++ [z]) ++ [s]) in Hin.
    rewrite pairs_snoc in Hin. apply in_app_or in Hin.
    destruct Hin as [Hin|[Heq|[]]].
    - change ((s :: r) ++ [z]) with (s :: r ++ [z]) in Hin. rewrite <- Hz in Hin.
      pose proof (pairs_nodup_neq Hnd Hin) as Hab.
      apply pairs_in in Hin. destruct Hin as [Ha Hb].
      assert (Hall : forall y, In y (s :: first_occ [s] (x :: l)) -> y < N).
      { intros y [<-|Hy]; [exact Hs_lt | apply Hbin; exact Hy]. }
      auto.
    - inversion Heq; subst a b.
      assert (Hzin : In z (first_occ [s] (x :: l))).
      { rewrite Hz. apply in_or_app. right. left; reflexivity. }
      destruct (Hbin z Hzin). auto. }
  eexists. eexists. split; [reflexivity|].
  split; [intros a b Hab; destruct (Hroute a b Hab) as (? & ? & ?); auto|].
  split; [exact Hcw|]. split.
  - apply (@exact_total_cost_weight N); assumption.
  - split; [reflexivity|].
    eapply Z.le_trans; [|apply Z.eq_le_incl; symmetry; exact Hcw].
    change ((s :: first_occ [s] (x :: l)) ++ [s])
      with (s :: first_occ [s] (x :: l) ++ [s]).
    apply (@shortcut_cost N cm Hv Hm); assumption.
Qed.

(** On a valid metric matrix the magnitudes along steps within the matrix
    add up to their weight. *)
Lemma magnitude_metric N cm ps :
  valid_matrix N cm -> metric N cm ->
  (forall a b, In (a, b) ps -> a < N /\ b < N) ->
  magnitude cm ps = weight (wt cm) ps.
Proof.
  intros Hv Hm. induction ps as [|[a b] ps IH]; intros Hin; [reflexivity|].
  rewrite magnitude_cons. destruct (Hin a b (or_introl eq_refl)) as [Ha Hb].
  rewrite IH by (intros; apply Hin; right; assumption).
  pose proof (@wt_nonneg N cm Hv Hm a b Ha Hb) as Hnn.
  destruct Hv as [Hsq [Hd [Hf Hs]]].
  rewrite (entry_wt Hs Ha Hb).
  rewrite Z.abs_eq by assumption. reflexivity.
Qed.

(** X7: on a valid metric matrix shortcutting does not cost: when the
    magnitudes along a closed walk within the matrix add up to less than
    2^53, so that no step of the float sum rounds, and the cost of the walk
    is defined, the route the shortcutter makes of it has a cost too, and no
    greater one. *)
Theorem shortcut_never_costs_more N cm walk c :
  valid_matrix N cm -> metric N cm ->
  (forall x, In x walk -> x < N) ->
  2 <= length walk -> last walk 0 = hd 0 walk ->
  (magnitude cm (pairs walk) < 2 ^ 53)%Z ->
  _calc_total_cost walk cm = Ok (Finite c) ->
  exists route c',
    _create_hamiltonian_path walk = Ok route /\
    _calc_total_cost route cm = Ok (Finite c') /\ (c' <= c)%Z.
Proof.
  intros Hv Hm Hr Hlen Hclosed Hmag Hc.
  rewrite (calc_total_cost_small cm walk Hmag) in Hc.
  destruct (exact_total_cost walk cm) as [c0|e] eqn:He; [|discriminate].
  injection Hc as ->.
  destruct (@shortcut_exact N cm walk c Hv Hm Hr Hlen Hclosed He)
    as (route & c' & Hrun & Hin & Hcw & Hexact & Hc' & Hle).
  exists route, c'. split; [exact Hrun|]. split; [|exact Hle].
  apply calc_total_cost_exact; [exact Hexact|].
  rewrite (@magnitude_metric N cm (pairs route) Hv Hm Hin), <- Hc'.
  assert (Hwalk : magnitude cm (pairs walk) = c).
  { rewrite Hcw. apply (@magnitude_metric N cm (pairs walk) Hv Hm).
    intros a b H. apply pairs_in in H. destruct H; auto. }
  lia.
Qed.

Lemma shortcut_never_costs_more_witness :
  exists route c',
    _create_hamiltonian_path [0; 1; 2; 1; 0] = Ok route /\
    _calc_total_cost route three_on_a_line = Ok (Finite c') /\ (c' <= 4)%Z.
Proof.
  apply (@shortcut_never_costs_more 3 three_on_a_line [0; 1; 2; 1; 0] 4).
  - apply three_on_a_line_valid.
  - split.
    + intros i j Hi Hj Hne. small_index i; small_index j; vm_compute; congruence.
    + intros i j k Hi Hj Hk H1 H2 H3.
      small_index i; small_index j; small_index k; vm_compute; congruence.
  - simpl. intros x Hx. lia.
  - simpl. lia.
  - reflexivity.
  - vm_compute. reflexivity.
  - reflexivity.
Defined.

(* ================================================================== *)
(** * The shuffler on any input                                         *)
(* ================================================================== *)

Lemma index_missing l x : ~ In x l -> index l x = Raise ValueError.
Proof.
  induction l as [|y l IH]; simpl; intros Hn; [reflexivity|].
  destruct (Nat.eqb_spec y x) as [->|Hne]; [exfalso; apply Hn; left; reflexivity|].
  rewrite IH by (intros H; apply Hn; right; exact H). reflexivity.
Qed.

Lemma getitem2_inside (cm : CostMatrix) i j :
  i < length cm -> j < length (nth i cm []) ->
  getitem2 cm i j = Ok (nth j (nth i cm []) None).
Proof.
  intros Hi Hj. unfold getitem2.
  destruct (nth_error cm i) as [row|] eqn:Hr.
  2:{ apply nth_error_None in Hr. lia. }
  assert (Hrow : nth i cm [] = row) by (apply nth_error_nth; assumption).
  rewrite Hrow in *.
  destruct (nth_error row j) as [x|] eqn:Hx.
  2:{ apply nth_error_None in Hx. lia. }
  f_equal. symmetry. apply nth_error_nth. assumption.
Qed.

(** With rows of [N] entries or more, the loops of the shuffler fill the
    relabelled matrix. *)
Lemma relabel_eq N cm start perm :
  length cm = N -> (forall row, In row cm -> N <= length row) ->
  Permutation perm (seq 0 N) ->
  relabel cm start perm
  = (s <- index perm start ;; Ok (relabeled N cm perm, s)).
Proof.
  intros Hlen Hrows HP.
  assert (Hplen : length perm = N)
    by (rewrite (Permutation_length HP); apply length_seq).
  unfold relabel. rewrite Hlen.
  rewrite (@mapM_ok _ _ _
             (fun i => map (fun j => nth (nth j perm 0)
                                       (nth (nth i perm 0) cm []) None)
                           (seq 0 N))).
  - reflexivity.
  - intros i Hi. apply in_seq in Hi. apply mapM_ok.
    intros j Hj. apply in_seq in Hj.
    rewrite (getitem_nth perm 0) by lia. simpl.
    rewrite (getitem_nth perm 0) by lia. simpl.
    assert (Hpi : nth i perm 0 < N) by (apply perm_nth_lt; assumption || lia).
    assert (Hpj : nth j perm 0 < N) by (apply perm_nth_lt; assumption || lia).
    apply getitem2_inside; [lia|].
    assert (N <= length (nth (nth i perm 0) cm [])); [|lia].
    apply Hrows. apply nth_In. lia.
Qed.

Lemma square_rows N cm :
  square N cm -> length cm = N /\ forall row, In row cm -> N <= length row.
Proof.
  intros [Hlen Hrows]. split; [exact Hlen|].
  intros row Hin. rewrite (Hrows row Hin). lia.
Qed.

Lemma shuffle_eq N cm start w :
  length cm = N -> (forall row, In row cm -> N <= length row) ->
  Permutation (draws w (drawn w)) (seq 0 N) ->
  _shuffle_cost_matrix cm start w
  = (s <- index (draws w (drawn w)) start ;;
     Ok (relabeled N cm (draws w (drawn w)), s,
         mk_world (draws w) (S (drawn w)) (ticks w) (ticked w))).
Proof.
  intros Hlen Hrows HP. unfold _shuffle_cost_matrix, sample. cbv zeta.
  rewrite (@relabel_eq N cm start _ Hlen Hrows HP).
  destruct (index (draws w (drawn w)) start); reflexivity.
Qed.

(** X8: the start is looked up only after the matrix is relabelled, and
    is not checked before: with a start that is no index of the square
    matrix -- any start at all when the matrix is empty -- the shuffler
    raises [ValueError]. *)
Theorem shuffle_start_outside N cm start w :
  square N cm -> Permutation (draws w (drawn w)) (seq 0 N) ->
  N <= start ->
  _shuffle_cost_matrix cm start w = Raise ValueError.
Proof.
  intros Hsq HP Hstart. destruct (square_rows Hsq) as [Hlen Hrows].
  rewrite (@shuffle_eq N cm start w Hlen Hrows HP).
  rewrite index_missing; [reflexivity|].
  intros Hin. apply (Permutation_in _ HP), in_seq in Hin. lia.
Qed.

Lemma shuffle_start_outside_witness :
  _shuffle_cost_matrix three_vertices 3 rotating_world = Raise ValueError /\
  _shuffle_cost_matrix [] 0 (mk_world (fun _ => []) 0 (fun _ => 0%Z) 0)
  = Raise ValueError.
Proof.
  split.
  - apply (@shuffle_start_outside 3 three_vertices 3 rotating_world).
    + apply three_vertices_valid.
    + vm_compute.
      apply (Permutation_cons_app [0; 1] [] 2). apply Permutation_refl.
    + lia.
  - apply (@shuffle_start_outside 0 [] 0).
    + split; [reflexivity | intros row []].
    + apply Permutation_refl.
    + lia.
Defined.

Lemma relabeled_entry N cm perm i j :
  i < N -> j < N ->
  entry (relabeled N cm perm) i j = entry cm (nth i perm 0) (nth j perm 0).
Proof.
  intros Hi Hj. unfold entry. rewrite relabeled_nth by assumption. reflexivity.
Qed.

Lemma perm_nth_inj N perm i j :
  Permutation perm (seq 0 N) -> i < N -> j < N ->
  nth i perm 0 = nth j perm 0 -> i = j.
Proof.
  intros HP Hi Hj Heq.
  assert (Hplen : length perm = N)
    by (rewrite (Permutation_length HP); apply length_seq).
  assert (Hnd : NoDup perm)
    by (eapply Permutation_NoDup; [apply Permutation_sym; exact HP | apply seq_NoDup]).
  apply (proj1 (NoDup_nth perm 0) Hnd); lia.
Qed.

Lemma relabeled_metric N cm perm :
  Permutation perm (seq 0 N) -> metric N cm -> metric N (relabeled N cm perm).
Proof.
  intros HP [Hpos Htri]. split.
  - intros i j Hi Hj Hne. rewrite relabeled_entry by assumption.
    apply Hpos; try (apply perm_nth_lt; assumption).
    intros Heq. apply Hne. eapply perm_nth_inj; eassumption.
  - intros i j k Hi Hj Hk Hij Hjk Hik. rewrite !relabeled_entry by assumption.
    apply Htri; try (apply perm_nth_lt; assumption);
      intros Heq; [apply Hij | apply Hjk | apply Hik];
      eapply perm_nth_inj; eassumption.
Qed.

(** X9: shuffling keeps the input contract: from a valid matrix the
    shuffler makes a valid matrix -- square, [None] on the diagonal, numbers
    elsewhere, symmetric -- that is metric when the original is, with a start
    inside it; it takes one sample from the generator and leaves the clock
    alone. *)
Theorem shuffle_keeps_the_contract N cm start w :
  valid_matrix N cm -> start < N ->
  Permutation (draws w (drawn w)) (seq 0 N) ->
  exists shuffled s w',
    _shuffle_cost_matrix cm start w = Ok (shuffled, s, w') /\
    valid_matrix N shuffled /\
    (metric N cm -> metric N shuffled) /\
    s < N /\
    drawn w' = S (drawn w) /\ ticked w' = ticked w.
Proof.
  intros Hv Hstart HP. pose proof Hv as [Hsq _].
  destruct (square_rows Hsq) as [Hlen Hrows].
  assert (Hin : In start (draws w (drawn w))).
  { apply (Permutation_in _ (Permutation_sym HP)), in_seq. lia. }
  destruct (index_ok _ _ Hin) as [s [Hs [Hlt _]]].
  exists (relabeled N cm (draws w (drawn w))), s,
         (mk_world (draws w) (S (drawn w)) (ticks w) (ticked w)).
  rewrite (@shuffle_eq N cm start w Hlen Hrows HP), Hs.
  split; [reflexivity|].
  split; [apply relabeled_valid; assumption|].
  split; [apply relabeled_metric; assumption|].
  rewrite (Permutation_length HP), length_seq in Hlt.
  split; [exact Hlt|]. split; reflexivity.
Qed.

Lemma rotating_draw : Permutation (draws rotating_world (drawn rotating_world)) (seq 0 3).
Proof.
  vm_compute.
  apply (Permutation_cons_app [0; 1] [] 2). apply Permutation_refl.
Qed.

Lemma shuffle_keeps_the_contract_witness :
  exists shuffled s w',
    _shuffle_cost_matrix three_vertices 0 rotating_world = Ok (shuffled, s, w') /\
    valid_matrix 3 shuffled /\
    (metric 3 three_vertices -> metric 3 shuffled) /\
    s < 3 /\
    drawn w' = S (drawn rotating_world) /\ ticked w' = ticked rotating_world.
Proof.
  apply (@shuffle_keeps_the_contract 3 three_vertices 0 rotating_world).
  - apply three_vertices_valid.
  - lia.
  - apply rotating_draw.
Defined.

(* ================================================================== *)
(** * Costs in the shuffled matrix                                      *)
(* ================================================================== *)

Lemma pairs_map (f : vertex -> vertex) l :
  pairs (map f l) = map (fun e => (f (fst e), f (snd e))) (pairs l).
Proof.
  induction l as [|a [|b l] IH]; try reflexivity.
  change (pairs (map f (a :: b :: l)))
    with ((f a, f b) :: pairs (map f (b :: l))).
  rewrite IH. reflexivity.
Qed.

(** In the relabelled matrix a route costs what the route read back
    through the permutation costs in the original. *)
Lemma relabeled_cost N cm perm route :
  square N cm -> Permutation perm (seq 0 N) ->
  (forall x, In x route -> x < N) ->
  _calc_total_cost route (relabeled N cm perm)
  = _calc_total_cost (map (fun i => nth i perm 0) route) cm.
Proof.
  intros Hsq HP Hr. rewrite !calc_total_cost_pairs, pairs_map, foldM_map.
  apply foldM_ext. intros t [a b] Hin. cbn [fst snd].
  apply pairs_in in Hin. destruct Hin as [Ha Hb].
  apply Hr in Ha. apply Hr in Hb.
  rewrite (getitem2_nth (relabeled_square N cm perm) Ha Hb).
  rewrite (getitem2_nth Hsq (perm_nth_lt HP Ha) (perm_nth_lt HP Hb)).
  rewrite relabeled_nth by assumption. reflexivity.
Qed.

(** X10: a cost in the shuffled matrix is a cost in the original: the
    route read back through the drawn permutation costs, in the original
    matrix, what the route costs in the shuffled one. *)
Theorem shuffled_cost_is_original_cost N cm start w shuffled s w' route :
  square N cm -> Permutation (draws w (drawn w)) (seq 0 N) ->
  _shuffle_cost_matrix cm start w = Ok (shuffled, s, w') ->
  (forall x, In x route -> x < N) ->
  _calc_total_cost route shuffled
  = _calc_total_cost (map (fun i => nth i (draws w (drawn w)) 0) route) cm.
Proof.
  intros Hsq HP Hrun Hr. destruct (square_rows Hsq) as [Hlen Hrows].
  rewrite (@shuffle_eq N cm start w Hlen Hrows HP) in Hrun.
  destruct (index (draws w (drawn w)) start) as [s0|e]; [|discriminate].
  injection Hrun as <- _ _.
  apply relabeled_cost; assumption.
Qed.

Lemma shuffled_cost_is_original_cost_witness :
  exists shuffled s w',
    _shuffle_cost_matrix three_vertices 0 rotating_world = Ok (shuffled, s, w') /\
    _calc_total_cost [1; 2; 0; 1] shuffled
    = _calc_total_cost
        (map (fun i => nth i (draws rotating_world (drawn rotating_world)) 0)
             [1; 2; 0; 1])
        three_vertices.
Proof.
  destruct (_shuffle_cost_matrix three_vertices 0 rotating_world)
    as [[[shuffled s] w']|e] eqn:Hrun; [|vm_compute in Hrun; discriminate].
  exists shuffled, s, w'. split; [reflexivity|].
  apply (@shuffled_cost_is_original_cost 3 three_vertices 0 rotating_world
           shuffled s w' [1; 2; 0; 1]).
  - apply three_vertices_valid.
  - apply rotating_draw.
  - exact Hrun.
  - simpl. intros x Hx. lia.
Defined.

(* ================================================================== *)
(** * Rows of the wrong length                                          *)
(* ================================================================== *)

Lemma mapM_raises {A B : Type} (f : A -> result B) (l : list A) (e : exn) :
  (forall a, In a l -> (exists b, f a = Ok b) \/ f a = Raise e) ->
  (exists a, In a l /\ f a = Raise e) ->
  mapM f l = Raise e.
Proof.
  induction l as [|a l IH]; intros Hall [x [Hx Hfx]]; [destruct Hx|].
  simpl. destruct (Hall a (or_introl eq_refl)) as [[b Hb]|Hb].
  - rewrite Hb. simpl. rewrite IH; [reflexivity | |].
    + intros; apply Hall; right; assumption.
    + destruct Hx as [->|Hx]; [congruence|]. exists x. auto.
  - rewrite Hb. reflexivity.
Qed.

Lemma mapM_either {A B : Type} (f : A -> result B) (l : list A) (e : exn) :
  (forall a, In a l -> (exists b, f a = Ok b) \/ f a = Raise e) ->
  (exists bs, mapM f l = Ok bs) \/ mapM f l = Raise e.
Proof.
  induction l as [|a l IH]; intros Hall; [left; eexists; reflexivity|].
  simpl. destruct (Hall a (or_introl eq_refl)) as [[b Hb]|Hb]; rewrite Hb; simpl.
  - destruct IH as [[bs Hbs]|Hbs].
    + intros; apply Hall; right; assumption.
    + rewrite Hbs. left. eexists; reflexivity.
    + rewrite Hbs. right. reflexivity.
  - right. reflexivity.
Qed.

Lemma getitem2_either (cm : CostMatrix) i j :
  (exists x, getitem2 cm i j = Ok x) \/ getitem2 cm i j = Raise IndexError.
Proof.
  unfold getitem2. destruct (nth_error cm i) as [row|]; [|right; reflexivity].
  destruct (nth_error row j) as [x|]; [left; eexists|right]; reflexivity.
Qed.

Lemma relabel_entry_either (cm : CostMatrix) perm i j :
  i < length perm -> j < length perm ->
  (exists x, (si <- getitem perm i ;; sj <- getitem perm j ;;
              getitem2 cm si sj) = Ok x)
  \/ (si <- getitem perm i ;; sj <- getitem perm j ;; getitem2 cm si sj)
     = Raise IndexError.
Proof.
  intros Hi Hj. rewrite (getitem_nth perm 0 Hi). cbn [bind].
  rewrite (getitem_nth perm 0 Hj). cbn [bind]. apply getitem2_either.
Qed.

(** X11: the shuffler trusts the rows to be as long as the matrix is
    tall.  A row that is shorter makes it raise [IndexError]; rows that are
    longer are cut: the shuffled matrix is square and holds the entries at
    the drawn indices. *)
Theorem shuffle_ragged_matrix cm start w :
  Permutation (draws w (drawn w)) (seq 0 (length cm)) ->
  ((exists row, In row cm /\ length row < length cm) ->
   _shuffle_cost_matrix cm start w = Raise IndexError) /\
  ((forall row, In row cm -> length cm <= length row) -> start < length cm ->
   exists shuffled s w',
     _shuffle_cost_matrix cm start w = Ok (shuffled, s, w') /\
     square (length cm) shuffled /\
     forall i j, i < length cm -> j < length cm ->
       getitem2 shuffled i j
       = Ok (nth (nth j (draws w (drawn w)) 0)
                 (nth (nth i (draws w (drawn w)) 0) cm []) None)).
Proof.
  intros HP. set (perm := draws w (drawn w)) in *. set (N := length cm) in *.
  assert (Hplen : length perm = N)
    by (rewrite (Permutation_length HP); apply length_seq).
  split.
  - intros [row [Hrow Hshort]].
    unfold _shuffle_cost_matrix, sample. cbv zeta. fold perm.
    unfold relabel. fold N.
    destruct (In_nth cm row [] Hrow) as [ri [Hri Hnth]]. fold N in Hri.
    assert (Hri_in : In ri perm).
    { apply (Permutation_in _ (Permutation_sym HP)), in_seq. lia. }
    destruct (In_nth perm ri 0 Hri_in) as [i0 [Hi0 Hpi]].
    assert (HL_in : In (length row) perm).
    { apply (Permutation_in _ (Permutation_sym HP)), in_seq. lia. }
    destruct (In_nth perm (length row) 0 HL_in) as [j0 [Hj0 Hpj]].
    rewrite (@mapM_raises _ _ _ (seq 0 N) IndexError); [reflexivity | |].
    + intros i Hi. apply in_seq in Hi.
      apply mapM_either. intros j Hj. apply in_seq in Hj.
      apply relabel_entry_either; lia.
    + exists i0. split; [apply in_seq; lia|].
      apply mapM_raises.
      * intros j Hj. apply in_seq in Hj. apply relabel_entry_either; lia.
      * exists j0. split; [apply in_seq; lia|].
        rewrite (getitem_nth perm 0 Hi0). cbn [bind].
        rewrite (getitem_nth perm 0 Hj0). cbn [bind].
        rewrite Hpi, Hpj. unfold getitem2.
        rewrite (nth_error_nth' cm [] Hri), Hnth.
        assert (Hnone : nth_error row (length row) = None)
          by (apply nth_error_None; lia).
        rewrite Hnone. reflexivity.
  - intros Hrows Hstart.
    assert (Hin : In start perm).
    { apply (Permutation_in _ (Permutation_sym HP)), in_seq. lia. }
    destruct (index_ok _ _ Hin) as [s [Hs _]].
    exists (relabeled N cm perm), s,
           (mk_world (draws w) (S (drawn w)) (ticks w) (ticked w)).
    rewrite (@shuffle_eq N cm start w eq_refl Hrows HP). fold perm.
    rewrite Hs. split; [reflexivity|].
    split; [apply relabeled_square|].
    intros i j Hi Hj.
    rewrite (getitem2_nth (relabeled_square N cm perm) Hi Hj).
    rewrite relabeled_nth by assumption. reflexivity.
Qed.

Lemma shuffle_ragged_matrix_witness :
  _shuffle_cost_matrix short_row 0 rotating_world = Raise IndexError /\
  exists shuffled s w',
    _shuffle_cost_matrix long_rows 0 rotating_world = Ok (shuffled, s, w') /\
    square 3 shuffled /\
    forall i j, i < 3 -> j < 3 ->
      getitem2 shuffled i j
      = Ok (nth (nth j [2; 0; 1] 0) (nth (nth i [2; 0; 1] 0) long_rows []) None).
Proof.
  split.
  - apply (@shuffle_ragged_matrix short_row 0 rotating_world rotating_draw).
    exists [Some 1%Z; None]. split; [simpl; auto | simpl; lia].
  - apply (@shuffle_ragged_matrix long_rows 0 rotating_world rotating_draw).
    + intros row Hrow. simpl in Hrow.
      repeat (destruct Hrow as [<-|Hrow]; [simpl; lia|]). destruct Hrow.
    + simpl. lia.
Defined.

(* ================================================================== *)
(** * Shuffling twice                                                   *)
(* ================================================================== *)

Lemma index_sound l x s :
  index l x = Ok s -> s < length l /\ nth s l 0 = x.
Proof.
  revert s. induction l as [|y l IH]; simpl; intros s H; [discriminate|].
  destruct (Nat.eqb_spec y x) as [->|Hne].
  - injection H as <-. split; [lia | reflexivity].
  - destruct (index l x) as [i|e]; simpl in H; [|discriminate].
    injection H as <-. destruct (IH i eq_refl). split; [lia | assumption].
Qed.

Lemma index_unique l x s :
  NoDup l -> s < length l -> nth s l 0 = x -> index l x = Ok s.
Proof.
  intros Hnd Hs Hx.
  assert (Hin : In x l) by (rewrite <- Hx; apply nth_In; assumption).
  destruct (index_ok _ _ Hin) as [t [Ht [Hlt [Hnth _]]]].
  rewrite Ht. f_equal.
  apply (proj1 (NoDup_nth l 0) Hnd); congruence || lia.
Qed.

Lemma compose_nth N p q i :
  Permutation q (seq 0 N) -> i < N ->
  nth i (compose p q) 0 = nth (nth i q 0) p 0.
Proof.
  intros HQ Hi. unfold compose.
  assert (Hqlen : length q = N)
    by (rewrite (Permutation_length HQ); apply length_seq).
  rewrite (nth_indep _ 0 (nth 0 p 0)) by (rewrite length_map; lia).
  apply (map_nth (fun i => nth i p 0)).
Qed.

Lemma nodup_map_distinct (f : nat -> nat) (l : list nat) :
  NoDup l -> (forall a b, In a l -> In b l -> f a = f b -> a = b) ->
  NoDup (map f l).
Proof.
  induction l as [|a l IH]; intros Hnd Hinj; [constructor|].
  inversion Hnd as [|? ? Ha Hnd']; subst. simpl. constructor.
  - intros Hin. apply in_map_iff in Hin. destruct Hin as [b [Hb Hbin]].
    apply Ha. rewrite (Hinj a b); [assumption | left; reflexivity
                                   | right; assumption | congruence].
  - apply IH; [assumption|]. intros x y Hx Hy. apply Hinj; right; assumption.
Qed.

Lemma compose_perm N p q :
  Permutation p (seq 0 N) -> Permutation q (seq 0 N) ->
  Permutation (compose p q) (seq 0 N).
Proof.
  intros HPp HQ.
  assert (Hplen : length p = N)
    by (rewrite (Permutation_length HPp); apply length_seq).
  assert (Hqlen : length q = N)
    by (rewrite (Permutation_length HQ); apply length_seq).
  assert (Hnq : NoDup q)
    by (eapply Permutation_NoDup; [apply Permutation_sym; exact HQ | apply seq_NoDup]).
  assert (Hq_lt : forall x, In x q -> x < N).
  { intros x Hx. apply (Permutation_in _ HQ), in_seq in Hx. lia. }
  apply NoDup_Permutation_bis.
  - unfold compose. apply nodup_map_distinct; [exact Hnq|].
    intros a b Ha Hb Heq.
    apply (perm_nth_inj HPp); [apply Hq_lt, Ha | apply Hq_lt, Hb | exact Heq].
  - unfold compose. rewrite length_seq, length_map. lia.
  - intros x Hx. unfold compose in Hx. apply in_map_iff in Hx.
    destruct Hx as [b [<- Hb]]. apply in_seq.
    pose proof (perm_nth_lt HPp (Hq_lt b Hb)). lia.
Qed.

(** X12: two shuffles make one: relabelling by the indices [p] and then
    by the indices [q] gives the matrix and the start that relabelling once
    by [p[q[0]], p[q[1]], ...] gives. *)
Theorem shuffles_compose N cm start p q cm1 s1 cm2 s2 :
  square N cm ->
  Permutation p (seq 0 N) -> Permutation q (seq 0 N) ->
  relabel cm start p = Ok (cm1, s1) ->
  relabel cm1 s1 q = Ok (cm2, s2) ->
  relabel cm start (compose p q) = Ok (cm2, s2).
Proof.
  intros Hsq HPp HQ H1 H2.
  destruct (square_rows Hsq) as [Hlen Hrows].
  rewrite (@relabel_eq N cm start p Hlen Hrows HPp) in H1.
  destruct (index p start) as [i1|e] eqn:Hi1; [|discriminate].
  injection H1 as <- <-.
  destruct (square_rows (relabeled_square N cm p)) as [Hlen1 Hrows1].
  rewrite (@relabel_eq N _ i1 q Hlen1 Hrows1 HQ) in H2.
  destruct (index q i1) as [i2|e] eqn:Hi2; [|discriminate].
  injection H2 as <- <-.
  pose proof (@compose_perm N p q HPp HQ) as HR.
  rewrite (@relabel_eq N cm start _ Hlen Hrows HR).
  destruct (index_sound _ _ Hi1) as [Hlt1 Hn1].
  destruct (index_sound _ _ Hi2) as [Hlt2 Hn2].
  assert (Hqlen : length q = N)
    by (rewrite (Permutation_length HQ); apply length_seq).
  rewrite (@index_unique (compose p q) start i2).
  - cbn [bind]. f_equal. f_equal. unfold relabeled.
    apply map_ext_in. intros i Hi. apply in_seq in Hi.
    apply map_ext_in. intros j Hj. apply in_seq in Hj.
    rewrite !(@compose_nth N p q _ HQ) by lia.
    fold (relabeled N cm p).
    rewrite relabeled_nth by (apply perm_nth_lt; assumption || lia).
    reflexivity.
  - eapply Permutation_NoDup; [apply Permutation_sym; exact HR | apply seq_NoDup].
  - unfold compose. rewrite length_map. exact Hlt2.
  - rewrite (@compose_nth N p q _ HQ) by lia. rewrite Hn2. exact Hn1.
Qed.

Lemma shuffles_compose_witness :
  relabel three_vertices 0 (compose [2; 0; 1] [1; 2; 0])
  = Ok (three_vertices, 0).
Proof.
  apply (@shuffles_compose 3 three_vertices 0 [2; 0; 1] [1; 2; 0]
           [[None; Some 3; Some 1]; [Some 3; None; Some 1]; [Some 1; Some 1; None]]%Z
           1 three_vertices 0).
  - apply three_vertices_valid.
  - apply (Permutation_cons_app [0; 1] [] 2). apply Permutation_refl.
  - apply (Permutation_cons_app [0] [2] 1). apply perm_swap.
  - reflexivity.
  - reflexivity.
Defined.

(* ================================================================== *)
(** * What the graph builder reads                                      *)
(* ================================================================== *)

Lemma upper_pairs_agree cm cm' :
  length cm = length cm' ->
  (forall i, i < length cm -> length (nth i cm []) = length (nth i cm' [])) ->
  (forall i j, i < j -> nth j (nth i cm []) None = nth j (nth i cm' []) None) ->
  upper_pairs cm = upper_pairs cm'.
Proof.
  intros Hlen Hrows Hup. unfold upper_pairs. rewrite <- Hlen.
  rewrite !flat_map_concat_map. f_equal.
  apply map_ext_in. intros i Hi. apply in_seq in Hi.
  rewrite <- (Hrows i) by lia.
  apply map_ext_in. intros j Hj. apply in_seq in Hj.
  rewrite (Hup i j) by lia. reflexivity.
Qed.

(** X13: only the entries above the diagonal are read.  Two matrices of
    the same shape that agree above the diagonal give the same graph, and
    so the same answer from either orchestrator: the diagonal and the
    entries below it are never looked at, and nothing checks that the
    matrix is symmetric. *)
Theorem only_the_upper_triangle_is_read cm cm' start mwm :
  length cm = length cm' ->
  (forall i, i < length cm -> length (nth i cm []) = length (nth i cm' [])) ->
  (forall i j, i < j -> nth j (nth i cm []) None = nth j (nth i cm' []) None) ->
  _create_weighted_graph cm = _create_weighted_graph cm' /\
  double_tree_algorithm cm start = double_tree_algorithm cm' start /\
  christofides_algorithm mwm cm start = christofides_algorithm mwm cm' start.
Proof.
  intros Hlen Hrows Hup.
  assert (HG : _create_weighted_graph cm = _create_weighted_graph cm').
  { rewrite !create_weighted_graph_fold.
    rewrite (upper_pairs_agree cm cm' Hlen Hrows Hup). reflexivity. }
  split; [exact HG|].
  unfold double_tree_algorithm, christofides_algorithm. cbv zeta.
  rewrite HG. split; reflexivity.
Qed.

Lemma only_the_upper_triangle_is_read_witness :
  _create_weighted_graph three_vertices
  = _create_weighted_graph three_vertices_lopsided /\
  double_tree_algorithm three_vertices 0
  = double_tree_algorithm three_vertices_lopsided 0 /\
  christofides_algorithm pick_0_2 three_vertices 0
  = christofides_algorithm pick_0_2 three_vertices_lopsided 0.
Proof.
  apply (@only_the_upper_triangle_is_read three_vertices three_vertices_lopsided
           0 pick_0_2).
  - reflexivity.
  - intros i Hi. simpl in Hi. small_index i; reflexivity.
  - intros i j Hij.
    destruct i as [|[|[|i]]]; destruct j as [|[|[|j]]]; try lia; try reflexivity;
      simpl; destruct j; reflexivity.
Defined.

(* ================================================================== *)
(** * The complete graph, entry by entry                                *)
(* ================================================================== *)

Lemma add_edges_app es1 es2 G :
  add_edges (es1 ++ es2) G = add_edges es2 (add_edges es1 G).
Proof. unfold add_edges. apply fold_left_app. Qed.

Lemma gnodes_add_node_fresh u G :
  ~ In u (gnodes G) -> gnodes (add_node u G) = gnodes G ++ [u].
Proof.
  intros H. unfold add_node. apply memb_false in H. rewrite H. reflexivity.
Qed.

Lemma gnodes_first_row (g : nat -> pyval) k :
  1 <= k ->
  gnodes (add_edges (map (fun j => (0, j, g j)) (seq 1 k)) empty_graph)
  = seq 0 (S k).
Proof.
  induction k as [|k IH]; intros Hk; [lia|].
  destruct k as [|k]; [reflexivity|].
  rewrite seq_S, map_app, add_edges_app.
  remember (add_edges (map (fun j => (0, j, g j)) (seq 1 (S k))) empty_graph)
    as G eqn:HG.
  assert (HnG : gnodes G = seq 0 (S (S k))) by (apply IH; lia).
  change (gnodes (add_edge 0 (1 + S k) (g (1 + S k)) G) = seq 0 (S (S (S k)))).
  rewrite gnodes_add_edge_eq.
  rewrite (@add_node_present 0 G) by (rewrite HnG; left; reflexivity).
  rewrite gnodes_add_node_fresh.
  - rewrite HnG. symmetry. apply (seq_S (S (S k)) 0).
  - rewrite HnG. intros Hin. apply in_seq in Hin. lia.
Qed.

Lemma upper_pairs_rows N cm :
  square N cm -> 1 <= N ->
  upper_pairs cm
  = map (fun j => (0, j, nth j (nth 0 cm []) None)) (seq 1 (N - 1))
    ++ flat_map (fun i =>
                   map (fun j => (i, j, nth j (nth i cm []) None))
                       (seq (S i) (length (nth i cm []) - S i)))
                (seq 1 (N - 1)).
Proof.
  intros [Hlen Hrows] HN. unfold upper_pairs. rewrite Hlen.
  destruct N as [|N]; [lia|].
  assert (H0 : length (nth 0 cm []) = S N).
  { apply Hrows. apply nth_In. lia. }
  replace (S N - 1) with N by lia.
  change (seq 0 (S N)) with (0 :: seq 1 N). cbn [flat_map].
  rewrite H0. replace (S N - 1) with N by lia. reflexivity.
Qed.

Lemma gnodes_create_seq N cm :
  square N cm -> 2 <= N -> gnodes (_create_weighted_graph cm) = seq 0 N.
Proof.
  intros Hsq HN. rewrite create_weighted_graph_fold.
  rewrite (upper_pairs_rows Hsq) by lia. rewrite add_edges_app.
  rewrite gnodes_add_edges_present.
  - rewrite gnodes_first_row by lia. f_equal. lia.
  - intros u v w Hin. rewrite gnodes_first_row by lia.
    replace (S (N - 1)) with N by lia.
    assert (Hup : In (u, v, w) (upper_pairs cm)).
    { rewrite (upper_pairs_rows Hsq) by lia. apply in_or_app. right. exact Hin. }
    apply (in_upper_pairs _ _ _ Hsq) in Hup.
    split; apply in_seq; lia.
Qed.

Lemma triangle_count (N : nat) (g : nat -> nat -> wedge) k : forall s,
  s + k = N ->
  2 * length (flat_map (fun i => map (g i) (seq (S i) (N - S i))) (seq s k))
  = k * (k - 1).
Proof.
  induction k as [|k IH]; intros s Hs; [reflexivity|].
  simpl seq. cbn [flat_map]. rewrite length_app, length_map, length_seq.
  specialize (IH (S s) ltac:(lia)).
  replace (N - S s) with k by lia. nia.
Qed.

Lemma upper_pairs_count N cm :
  square N cm -> 2 * length (upper_pairs cm) = N * (N - 1).
Proof.
  intros [Hlen Hrows]. unfold upper_pairs. rewrite Hlen.
  rewrite <- (@triangle_count N (fun i j => (i, j, nth j (nth i cm []) None)) N 0)
    by lia.
  f_equal. f_equal. rewrite !flat_map_concat_map. f_equal.
  apply map_ext_in. intros i Hi. apply in_seq in Hi.
  assert (Hi' : length (nth i cm []) = N) by (apply Hrows, nth_In; lia).
  rewrite Hi'. reflexivity.
Qed.

Lemma dict_get_some d v w : dict_get d v = Some w -> In (v, w) d.
Proof.
  induction d as [|[k x] d IH]; simpl; [discriminate|].
  destruct (Nat.eqb_spec k v) as [->|Hne].
  - intros H. injection H as <-. left; reflexivity.
  - intros H. right. apply IH. exact H.
Qed.

Lemma dict_get_none d v : dict_get d v = None -> forall w, ~ In (v, w) d.
Proof.
  induction d as [|[k x] d IH]; simpl; intros H w; [tauto|].
  destruct (Nat.eqb_spec k v) as [->|Hne]; [discriminate|].
  intros [Heq|Hin]; [inversion Heq; congruence | eapply IH; eassumption].
Qed.

(** X14: the graph of a valid matrix on two or more vertices is the
    complete graph on [0 .. N-1], the nodes in that order, with
    [N (N - 1) / 2] edges; the weight looked up between two distinct
    vertices is the matrix entry, and looking up a vertex against itself
    or against a vertex outside the matrix raises [KeyError]. *)
Theorem weighted_graph_is_complete N cm :
  valid_matrix N cm -> 2 <= N ->
  gnodes (_create_weighted_graph cm) = seq 0 N /\
  2 * length (gedges (_create_weighted_graph cm)) = N * (N - 1) /\
  (forall i j, i < N -> j < N -> i <> j ->
     edge_weight (_create_weighted_graph cm) i j
     = Ok (nth j (nth i cm []) None)) /\
  (forall i j, i = j \/ N <= i \/ N <= j ->
     edge_weight (_create_weighted_graph cm) i j = Raise KeyError).
Proof.
  intros [Hsq [Hd [Hf Hs]]] HN.
  pose proof (gnodes_create_seq Hsq HN) as Hnodes.
  split; [exact Hnodes|].
  split; [rewrite gedges_create; apply upper_pairs_count; assumption|].
  split.
  - intros i j Hi Hj Hne. unfold edge_weight. rewrite Hnodes.
    assert (Hm : memb i (seq 0 N) = true) by (apply memb_In, in_seq; lia).
    rewrite Hm.
    destruct (dict_get (get_adj (_create_weighted_graph cm) i) j) as [w|] eqn:Hg.
    + apply dict_get_some in Hg. apply (get_adj_create _ _ _ Hsq Hf) in Hg.
      destruct Hg as [_ [_ [_ ->]]]. f_equal.
      rewrite <- (entry_wt Hs Hi Hj). unfold entry.
      destruct (Hf i j Hi Hj Hne) as [z ->]. reflexivity.
    + exfalso. apply (dict_get_none _ _ Hg (Some (wt cm i j))).
      apply (get_adj_create _ _ _ Hsq Hf). auto.
  - intros i j Hout. unfold edge_weight. rewrite Hnodes.
    destruct (memb i (seq 0 N)) eqn:Hm; [|reflexivity].
    destruct (dict_get (get_adj (_create_weighted_graph cm) i) j) as [w|] eqn:Hg;
      [|reflexivity].
    exfalso. apply dict_get_some in Hg. apply (get_adj_create _ _ _ Hsq Hf) in Hg.
    apply memb_In, in_seq in Hm. lia.
Qed.

Lemma weighted_graph_is_complete_witness :
  gnodes (_create_weighted_graph four_with_tie) = seq 0 4 /\
  2 * length (gedges (_create_weighted_graph four_with_tie)) = 4 * (4 - 1) /\
  (forall i j, i < 4 -> j < 4 -> i <> j ->
     edge_weight (_create_weighted_graph four_with_tie) i j
     = Ok (nth j (nth i four_with_tie []) None)) /\
  (forall i j, i = j \/ 4 <= i \/ 4 <= j ->
     edge_weight (_create_weighted_graph four_with_tie) i j = Raise KeyError).
Proof.
  apply (@weighted_graph_is_complete 4 four_with_tie).
  - apply four_with_tie_valid.
  - lia.
Defined.

(* ================================================================== *)
(** * Matrices without an entry above the diagonal                      *)
(* ================================================================== *)

Lemma upper_pairs_none cm :
  (forall i, i < length cm -> length (nth i cm []) <= S i) ->
  upper_pairs cm = [].
Proof.
  intros H. unfold upper_pairs.
  assert (Hgen : forall l, (forall i, In i l -> i < length cm) ->
            flat_map (fun i => map (fun j => (i, j, nth j (nth i cm []) None))
                                   (seq (S i) (length (nth i cm []) - S i))) l
            = []).
  { induction l as [|i l IH]; intros Hl; [reflexivity|].
    cbn [flat_map]. rewrite IH by (intros; apply Hl; right; assumption).
    pose proof (H i (Hl i (or_introl eq_refl))) as Hi.
    replace (length (nth i cm []) - S i) with 0 by lia. reflexivity. }
  apply Hgen. intros i Hi. apply in_seq in Hi. lia.
Qed.

(** X15: a matrix with no entry above the diagonal -- the empty matrix,
    a single row of one entry, rows that stop at the diagonal -- gives the
    graph without nodes, on which both orchestrators raise
    [NetworkXPointlessConcept], whatever the start, the matcher answering
    the empty graph with the empty matching. *)
Theorem no_entry_above_the_diagonal cm start mwm :
  (forall i, i < length cm -> length (nth i cm []) <= S i) ->
  mwm empty_graph = [] ->
  _create_weighted_graph cm = empty_graph /\
  double_tree_algorithm cm start = Raise NetworkXPointlessConcept /\
  christofides_algorithm mwm cm start = Raise NetworkXPointlessConcept.
Proof.
  intros H Hm.
  assert (HG : _create_weighted_graph cm = empty_graph).
  { rewrite create_weighted_graph_fold, (upper_pairs_none cm H). reflexivity. }
  split; [exact HG|].
  unfold double_tree_algorithm, christofides_algorithm. cbv zeta. rewrite HG.
  split; [reflexivity|].
  change (minimum_spanning_tree empty_graph) with (Ok empty_graph : result Graph).
  cbn [bind].
  change (_remove_even_degree_vertices empty_graph empty_graph)
    with (Ok empty_graph : result Graph).
  cbn [bind]. unfold _match_minimal_weight.
  change (negate_weights empty_graph) with (Ok empty_graph : result Graph).
  cbn [bind]. rewrite Hm. reflexivity.
Qed.

Lemma no_entry_above_the_diagonal_witness :
  _create_weighted_graph lower_triangle = empty_graph /\
  double_tree_algorithm lower_triangle 0 = Raise NetworkXPointlessConcept /\
  christofides_algorithm (fun _ => []) lower_triangle 0
  = Raise NetworkXPointlessConcept.
Proof.
  apply (@no_entry_above_the_diagonal lower_triangle 0 (fun _ => [])).
  - intros i Hi. simpl in Hi. small_index i; simpl; lia.
  - reflexivity.
Defined.

(* ================================================================== *)
(** * A start outside the matrix                                        *)
(* ================================================================== *)

Lemma eulerian_path_outside M start :
  mwf M -> connected M -> even_degrees M -> ~ In start (mnodes M) ->
  _create_eulerian_path M start = Raise NetworkXError.
Proof.
  intros Hwf Hc He Hn. unfold _create_eulerian_path, eulerian_circuit.
  rewrite is_eulerian_true by assumption. cbn [bind negb].
  apply memb_false in Hn. rewrite Hn. reflexivity.
Qed.

(** X16: the start is not checked against the matrix; it first matters
    when the circuit is asked for.  On a valid matrix of two or more
    vertices, none of whose weights is beyond the range of a float, a start
    outside it makes both orchestrators raise [NetworkXError], after the
    tree and the matching have been built. *)
Theorem start_outside_the_matrix N cm start mwm :
  valid_matrix N cm -> float_weights N cm -> 2 <= N -> matcher_ok mwm cm ->
  N <= start ->
  double_tree_algorithm cm start = Raise NetworkXError /\
  christofides_algorithm mwm cm start = Raise NetworkXError.
Proof.
  intros [Hsq [Hd [Hf Hs]]] Hfl HN Hmatch Hstart. split.
  - destruct (@double_tree_stages N cm 0 Hsq Hf Hfl HN ltac:(lia))
      as [T [walk [body [Hrun [HT [Hwalk _]]]]]].
    unfold double_tree_algorithm. cbv zeta. rewrite Hrun. cbn [bind].
    assert (Hlen : length (gnodes T) = N)
      by (apply nodes_length; [apply (mf_nodup HT) | apply (mf_nodes HT)]).
    rewrite eulerian_path_outside; [reflexivity | apply dup_mwf | | |].
    + apply dup_connected; [apply (mf_gwf HT) | apply (mf_connected HT) | lia].
    + intros v _. rewrite dup_degree by apply (mf_gwf HT).
      rewrite Nat.even_mul. reflexivity.
    + rewrite dup_mnodes by apply (mf_gwf HT). intros [y Hy].
      assert (Hin : In start (gnodes T)).
      { destruct Hy as [H|H]; apply in_ends in H; destruct H as [w H];
          apply (mf_gwf HT) in H; tauto. }
      apply (mf_nodes HT) in Hin. lia.
  - destruct (@christofides_stages N cm 0 mwm Hsq Hf Hfl HN ltac:(lia) Hmatch)
      as [T [R [MG [walk [body [Hrun [HT [Hrem [_ [_ [Hmmw [HMG [_ [_ [_
          [Hnodes [Hconn [_ [Heven _]]]]]]]]]]]]]]]]]]].
    unfold christofides_algorithm. cbv zeta. rewrite Hrun. cbn [bind].
    rewrite Hrem. cbn [bind]. rewrite Hmmw. cbn [bind].
    rewrite eulerian_path_outside; [reflexivity | | assumption | assumption |].
    + apply merge_mwf.
    + rewrite Hnodes. intros Hin. apply (mf_nodes HT) in Hin. lia.
Qed.

Lemma start_outside_the_matrix_witness :
  double_tree_algorithm three_vertices 3 = Raise NetworkXError /\
  christofides_algorithm pick_0_2 three_vertices 3 = Raise NetworkXError.
Proof.
  apply (@start_outside_the_matrix 3 three_vertices 3 pick_0_2).
  - apply three_vertices_valid.
  - apply three_vertices_float.
  - lia.
  - apply pick_0_2_ok.
  - lia.
Defined.

(* ================================================================== *)
(** * The Christofides bound                                            *)
(* ================================================================== *)

Lemma filter_perm {A : Type} (f : A -> bool) l1 l2 :
  Permutation l1 l2 -> Permutation (filter f l1) (filter f l2).
Proof.
  induction 1 as [|x l1 l2 HP IH|x y l|l1 l2 l3 H12 IH12 H23 IH23]; simpl.
  - constructor.
  - destruct (f x); [constructor|]; assumption.
  - destruct (f x), (f y); try apply Permutation_refl. apply perm_swap.
  - eapply Permutation_trans; eassumption.
Qed.

(** The first entry a filter keeps splits the list. *)
Lemma filter_first {A : Type} (f : A -> bool) l x r :
  filter f l = x :: r ->
  exists pre post, l = pre ++ x :: post /\ filter f pre = [] /\
                   r = filter f post.
Proof.
  induction l as [|y l IH]; simpl; [discriminate|].
  destruct (f y) eqn:Hy.
  - intros H. injection H as -> <-. exists [], l. auto.
  - intros H. destruct (IH H) as [pre [post [-> [Hpre Hr]]]].
    exists (y :: pre), post. simpl. rewrite Hy. auto.
Qed.

Section MetricWalks.

Variable N : nat.
Variable cm : CostMatrix.
Hypothesis Hvalid : valid_matrix N cm.
Hypothesis Hmetric : metric N cm.

(** Leaving vertices out from between the two ends of a walk does not
    lengthen it. *)
Lemma walk_cost_filter (f : vertex -> bool) l : forall a z,
  a < N -> z < N -> (forall y, In y l -> y < N) ->
  (walk_cost cm (a :: filter f l ++ [z]) <= walk_cost cm (a :: l ++ [z]))%Z.
Proof.
  induction l as [|x l IH]; intros a z Ha Hz Hl; simpl filter; [simpl; lia|].
  assert (Hx : x < N) by (apply Hl; left; reflexivity).
  assert (Hl' : forall y, In y l -> y < N) by (intros; apply Hl; right; assumption).
  destruct (f x).
  - change ((x :: filter f l) ++ [z]) with (x :: filter f l ++ [z]).
    change ((x :: l) ++ [z]) with (x :: l ++ [z]).
    rewrite !(walk_cost_cons cm). pose proof (IH x z Hx Hz Hl'). lia.
  - eapply Z.le_trans; [apply IH; assumption|].
    change ((x :: l) ++ [z]) with (x :: l ++ [z]).
    apply (@walk_cost_skip N cm Hvalid Hmetric); try assumption.
    intros y Hy. apply in_app_or in Hy. destruct Hy as [Hy|[<-|[]]]; auto.
Qed.

(** The closed walk through the vertices a filter keeps is no longer than
    the closed walk through them all. *)
Lemma closed_walk_filter (f : vertex -> bool) l :
  (forall y, In y l -> y < N) ->
  (walk_cost cm (filter f l ++ [hd 0%nat (filter f l)])
   <= walk_cost cm (l ++ [hd 0%nat l]))%Z.
Proof.
  intros Hl. destruct (filter f l) as [|o0 r] eqn:Hfl.
  - destruct l as [|x0 l']; [apply Z.le_refl|].
    change (walk_cost cm ([] ++ [hd 0 []])) with 0%Z.
    apply (@walk_cost_nonneg N cm Hvalid Hmetric).
    intros x Hx. apply in_app_or in Hx. destruct Hx as [Hx|[<-|[]]]; [auto|].
    apply Hl. left; reflexivity.
  - destruct (filter_first f l Hfl) as [pre [post [-> [Hpre ->]]]].
    assert (Ho : o0 < N) by (apply Hl, in_or_app; right; left; reflexivity).
    assert (Hpost : forall y, In y post -> y < N).
    { intros y Hy. apply Hl, in_or_app. right. right. exact Hy. }
    assert (Hprel : forall y, In y pre -> y < N).
    { intros y Hy. apply Hl, in_or_app. left. exact Hy. }
    cbn [hd]. destruct pre as [|p0 pre].
    + simpl app. cbn [hd].
      apply walk_cost_filter; assumption.
    + cbn [app hd].
      change (p0 :: pre ++ o0 :: post) with ((p0 :: pre) ++ o0 :: post).
      rewrite <- app_assoc.
      change ((o0 :: post) ++ [p0]) with (o0 :: post ++ [p0]).
      unfold walk_cost at 2.
      change (p0 :: pre ++ o0 :: post ++ [p0])
        with ((p0 :: pre) ++ (o0 :: post) ++ [p0]).
      rewrite (weight_perm (wt cm) (closed_steps_perm p0 pre o0 post)).
      fold (walk_cost cm ((o0 :: post) ++ (p0 :: pre) ++ [o0])).
      change ((o0 :: post) ++ (p0 :: pre) ++ [o0])
        with (o0 :: (post ++ (p0 :: pre) ++ [o0])).
      rewrite app_assoc.
      assert (Hf : filter f post = filter f (post ++ p0 :: pre)).
      { rewrite filter_app, Hpre, app_nil_r. reflexivity. }
      rewrite Hf. apply walk_cost_filter; try assumption.
      intros y Hy. apply in_app_or in Hy. destruct Hy as [Hy|Hy]; auto.
Qed.

End MetricWalks.

Lemma weight_cons (w : vertex -> vertex -> Z) a b E :
  weight w ((a, b) :: E) = (w a b + weight w E)%Z.
Proof. reflexivity. Qed.

(** Along a closed walk of even length the steps fall alternately to two
    pairings of its vertices. *)
Lemma alternate_steps (w : vertex -> vertex -> Z) n : forall l z,
  length l <= n -> Nat.even (length l) = true ->
  weight w (pairs (l ++ [z]))
  = (weight w (pair_up l) + weight w (pair_up (tl (l ++ [z]))))%Z.
Proof.
  induction n as [|n IH]; intros [|a [|b r]] z Hlen Hev; simpl in Hlen;
    try reflexivity; try discriminate; try lia.
  change (Nat.even (length (a :: b :: r))) with (Nat.even (length r)) in Hev.
  specialize (IH r z ltac:(lia) Hev).
  destruct r as [|c r']; [simpl; lia|].
  assert (E1 : pairs ((a :: b :: c :: r') ++ [z])
               = (a, b) :: (b, c) :: pairs ((c :: r') ++ [z])) by reflexivity.
  assert (E2 : pair_up (a :: b :: c :: r') = (a, b) :: pair_up (c :: r'))
    by reflexivity.
  assert (E3 : pair_up (tl ((a :: b :: c :: r') ++ [z]))
               = (b, c) :: pair_up (tl ((c :: r') ++ [z]))) by reflexivity.
  rewrite E1, E2, E3, !weight_cons, IH. lia.
Qed.

(** Any closed walk through an even number of vertices, each once, is made
    of two perfect matchings of them. *)
Lemma two_matchings (w : vertex -> vertex -> Z) (L o : list vertex) :
  Permutation o L -> Nat.even (length o) = true ->
  exists m1 m2,
    perfect_matching L m1 /\ perfect_matching L m2 /\
    (weight w m1 + weight w m2 = weight w (pairs (o ++ [hd 0%nat o])))%Z.
Proof.
  intros HP Hev. destruct o as [|a r].
  - exists [], []. apply Permutation_nil in HP. subst L.
    repeat split; constructor.
  - exists (pair_up (a :: r)), (pair_up (r ++ [a])).
    assert (Hev' : Nat.even (length (r ++ [a])) = true).
    { rewrite length_app, Nat.add_comm. exact Hev. }
    split; [|split].
    + unfold perfect_matching. rewrite pair_up_ends by assumption. exact HP.
    + unfold perfect_matching. rewrite pair_up_ends by assumption.
      eapply Permutation_trans; [|exact HP].
      apply (Permutation_app_comm r [a]).
    + cbn [hd].
      rewrite (@alternate_steps w (length (a :: r)) (a :: r) a (le_n _) Hev).
      reflexivity.
Qed.

(** On the three vertices on a line the tree is the line, its two ends
    are the odd vertices, and the matcher joins them. *)
Lemma pick_0_2_on_a_line : matcher_ok pick_0_2 three_on_a_line.
Proof.
  intros T R tmp HT HR Htmp.
  vm_compute in HT. inversion HT; subst T; clear HT.
  vm_compute in HR. inversion HR; subst R; clear HR.
  vm_compute in Htmp. inversion Htmp; subst tmp; clear Htmp.
  assert (Hends : forall m, is_matching (mk_graph [0; 2] [(0, 2, Some (-2)%Z)]) m ->
                            incl (matching_ends m) [0; 2]).
  { intros m [Hedges _] x Hx. apply in_matching_ends in Hx.
    destruct Hx as [a [b [Hab Hx]]]. apply Hedges in Hab. simpl in Hab.
    destruct Hab as [[Heq|[]]|[Heq|[]]]; inversion Heq; subst;
      destruct Hx as [-> | ->]; simpl; auto. }
  split; [|split].
  - split.
    + intros a b [Heq|[]]. inversion Heq; subst. left. left. reflexivity.
    + simpl. repeat constructor; simpl; intuition congruence.
  - intros m' Hm'. pose proof (Hends m' Hm') as Hincl.
    destruct Hm' as [_ Hnd].
    pose proof (NoDup_incl_length Hnd Hincl) as Hlen.
    rewrite matching_ends_length in Hlen. simpl in *. lia.
  - intros m' Hm' Hlen. destruct m' as [|[a b] [|e m']]; try discriminate.
    destruct Hm' as [Hedges _].
    specialize (Hedges a b (or_introl eq_refl)). simpl in Hedges.
    destruct Hedges as [[Heq|[]]|[Heq|[]]]; inversion Heq; subst;
      vm_compute; discriminate.
Qed.

(** The Christofides route costs at most one and a half times any tour of
    a metric matrix. *)
Lemma christofides_three_halves N cm start mwm :
  valid_matrix N cm -> metric N cm -> float_weights N cm -> 2 <= N ->
  start < N -> matcher_ok mwm cm ->
  exists route c,
    christofides_algorithm mwm cm start = Ok route /\
    closed_tour N start route /\ is_tour N route /\
    exact_total_cost route cm = Ok c /\
    forall tour c', is_tour N tour -> exact_total_cost tour cm = Ok c' ->
                    (2 * c <= 3 * c')%Z.
Proof.
  intros Hvalid Hmetric Hfl HN Hstart Hmatch.
  pose proof Hvalid as [Hsq [Hdiag [Hfin Hsym]]].
  destruct (christofides_stages Hsq Hfin Hfl HN Hstart Hmatch)
    as (T & R & MG & walk & body & Hrun & HT & Hrem & HR & Hev & Hmmw & HMG
        & HwMG & Hperf & Hmin & Hnodes & Hconn & Hdeg & Heven & Hwalk & Hwlen
        & Hhd & Hlast & Hbody & Hroute & Hbhd & Hbperm).
  set (M := _merge_two_graphs T MG) in *.
  (* the walk takes every edge of the merged multigraph once *)
  assert (Hsin : In start (mnodes M))
    by (rewrite Hnodes; apply (mf_nodes HT); assumption).
  assert (HE : 1 <= length (medges M)).
  { destruct (medges M) eqn:HmE; [|simpl; lia].
    exfalso. destruct Hconn as [_ Hc]. rewrite HmE in Hc.
    assert (H1 : In 0 (mnodes M)) by (rewrite Hnodes; apply (mf_nodes HT); lia).
    assert (H2 : In 1 (mnodes M)) by (rewrite Hnodes; apply (mf_nodes HT); lia).
    specialize (Hc 0 1 H1 H2). inversion Hc as [|? ? ? Hadj _]; subst.
    destruct Hadj as [[]|[]]. }
  destruct (@create_eulerian_path_ok M start (merge_mwf T MG) Hconn Heven Hsin HE)
    as [walk' [Hwalk' [_ [_ [_ HP]]]]].
  rewrite Hwalk in Hwalk'. injection Hwalk' as <-.
  assert (Htour : is_tour N (body ++ [start])) by (exists body, start; auto).
  exists (body ++ [start]), (weight (wt cm) (pairs (body ++ [start]))).
  split; [exact Hroute|].
  split; [apply closed_tour_intro; assumption|].
  split; [exact Htour|].
  split.
  { apply exact_total_cost_weight with (N := N); try assumption.
    apply tour_steps; assumption. }
  intros tour c' Ht Hc'.
  rewrite (@exact_total_cost_weight N cm tour Hsq Hfin Hsym) in Hc'
    by (apply tour_steps; assumption).
  injection Hc' as <-.
  (* the route is no longer than the Eulerian walk *)
  assert (Hwl : 2 <= length walk) by lia.
  assert (Hcover : forall x, In x walk -> x < N).
  { intros x Hx. destruct (@pairs_cover walk x Hwl Hx) as [y Hy].
    apply in_map_norm in Hy. apply (Permutation_in _ HP) in Hy.
    apply in_map_norm in Hy. apply (mf_nodes HT). rewrite <- Hnodes.
    destruct Hy as [H|H]; apply in_ends in H; destruct H as [w H];
      apply (merge_mwf T MG) in H; tauto. }
  destruct (@closed_walk_shape start walk Hwl Hhd Hlast) as [l Hl].
  assert (Hlt : forall y, In y l -> y < N).
  { intros y Hy. apply Hcover. rewrite Hl. right. apply in_or_app. auto. }
  assert (Hrt : body ++ [start] = start :: first_occ [start] l ++ [start]).
  { rewrite Hbody, Hl. simpl.
    rewrite first_occ_app_seen by (left; reflexivity). reflexivity. }
  assert (H1 : (weight (wt cm) (pairs (body ++ [start]))
                <= weight (wt cm) (pairs walk))%Z).
  { rewrite Hrt, Hl. apply (@shortcut_cost N cm Hvalid Hmetric); assumption. }
  (* the walk weighs what the tree and the matching weigh *)
  assert (H2 : weight (wt cm) (pairs walk)
               = (weight (wt cm) (ends (gedges T))
                  + weight (wt cm) (ends (gedges MG)))%Z).
  { rewrite <- (weight_norm (wt cm) (wt_sym cm) (pairs walk)).
    rewrite (weight_perm (wt cm) HP). unfold M.
    rewrite merge_medges, ends_app, map_app, weight_app.
    rewrite (weight_perm (wt cm)
               (@edges_data_norm_perm T (mf_nodup HT) (gwf_within (mf_gwf HT)))).
    pose proof HMG as [HndMG _].
    rewrite (weight_perm (wt cm)
               (@edges_data_norm_perm MG HndMG (gwf_within HMG))).
    rewrite !(weight_norm (wt cm) (wt_sym cm)). reflexivity. }
  (* the tree weighs no more than the tour *)
  destruct Ht as [tbody [s [-> [Hs HPt]]]].
  assert (Hlent : length tbody = N).
  { apply Permutation_length in HPt. rewrite length_seq in HPt. exact HPt. }
  assert (Htlt : forall x, In x tbody -> x < N).
  { intros x Hx. apply (Permutation_in _ HPt), in_seq in Hx. lia. }
  assert (Hshd : s = hd 0 tbody).
  { destruct tbody; [simpl in Hlent; lia | simpl in *; congruence]. }
  assert (Hs_lt : s < N).
  { rewrite Hshd. apply Htlt. destruct tbody; [simpl in Hlent; lia|].
    left; reflexivity. }
  assert (H3 : (weight (wt cm) (ends (gedges T))
                <= weight (wt cm) (pairs (tbody ++ [s])))%Z).
  { eapply Z.le_trans.
    - apply (mf_minimum HT). apply (@tour_path_spanning N tbody); [lia | assumption].
    - assert (Hne : tbody <> []) by (intros ->; simpl in Hlent; lia).
      destruct (exists_last Hne) as [r [x Hx]].
      rewrite Hx, pairs_snoc, weight_app. simpl.
      assert (Hx_lt : x < N).
      { apply Htlt. rewrite Hx. apply in_or_app; right; left; reflexivity. }
      pose proof (@wt_nonneg N cm Hvalid Hmetric x s Hx_lt Hs_lt).
      lia. }
  (* twice the matching weighs no more than the tour *)
  set (odd := fun v => negb (Nat.even (degree T v))).
  assert (HPo : Permutation (filter odd tbody) (odd_vertices T)).
  { unfold odd_vertices. fold odd. apply filter_perm.
    eapply Permutation_trans; [exact HPt|]. apply Permutation_sym.
    apply NoDup_Permutation; [apply (mf_nodup HT) | apply seq_NoDup|].
    intros x. rewrite (mf_nodes HT), in_seq. lia. }
  assert (Hevo : Nat.even (length (filter odd tbody)) = true).
  { rewrite (Permutation_length HPo). exact Hev. }
  destruct (two_matchings (wt cm) HPo Hevo) as [m1 [m2 [Hm1 [Hm2 Hsum]]]].
  pose proof (Hmin m1 Hm1) as Hle1. pose proof (Hmin m2 Hm2) as Hle2.
  pose proof (@closed_walk_filter N cm Hvalid Hmetric odd tbody Htlt) as H4.
  unfold walk_cost in H4. rewrite <- Hshd in H4.
  lia.
Qed.

(** X17: for every valid cost matrix on at least two vertices with
    non-negative weights that obey the triangle inequality, none of them
    beyond the range of a float, the Christofides orchestrator -- the
    matcher keeping its contract -- returns a tour whose weights add up to
    at most one and a half times those of any tour; when the weights are
    small enough for the float sums to be exact (N times any weight below
    2^53), the cost that [_calc_total_cost] returns for the route is at
    most one and a half times the cost it returns for any tour. *)
Theorem christofides_within_three_halves N cm start mwm :
  valid_matrix N cm -> metric N cm -> float_weights N cm ->
  2 <= N -> start < N -> matcher_ok mwm cm ->
  exists route,
    christofides_algorithm mwm cm start = Ok route /\
    closed_tour N start route /\
    (forall tour, is_tour N tour ->
       (2 * weight (wt cm) (pairs route)
        <= 3 * weight (wt cm) (pairs tour))%Z) /\
    (exact_weights N cm ->
     exists c,
       _calc_total_cost route cm = Ok (Finite c) /\
       forall tour, is_tour N tour ->
         exists c', _calc_total_cost tour cm = Ok (Finite c') /\
                    (2 * c <= 3 * c')%Z).
Proof.
  intros Hvalid Hmetric Hfl HN Hstart Hmatch.
  destruct (@christofides_three_halves N cm start mwm Hvalid Hmetric
              Hfl HN Hstart Hmatch)
    as (route & c & Hrun & Hclosed & Htour & Hcost & Hopt).
  exists route. split; [exact Hrun|]. split; [exact Hclosed|].
  pose proof Hvalid as [Hsq [_ [Hfin Hsym]]].
  assert (Hall : forall tour, is_tour N tour ->
            exact_total_cost tour cm = Ok (weight (wt cm) (pairs tour))).
  { intros tour Ht.
    apply (@exact_total_cost_weight N cm tour Hsq Hfin Hsym (tour_steps HN Ht)). }
  assert (Hc : c = weight (wt cm) (pairs route)).
  { pose proof (Hall route Htour) as Hr. rewrite Hcost in Hr.
    injection Hr as Hr. exact Hr. }
  split.
  { intros tour Ht. rewrite <- Hc. apply (Hopt tour _ Ht (Hall tour Ht)). }
  intros Hex. exists c. split.
  { apply (tour_cost_exact Hex HN Htour Hcost). }
  intros tour Ht. exists (weight (wt cm) (pairs tour)).
  split; [apply (tour_cost_exact Hex HN Ht (Hall tour Ht))
         | apply (Hopt tour _ Ht (Hall tour Ht))].
Qed.

Lemma christofides_within_three_halves_witness :
  exists route,
    christofides_algorithm pick_0_2 three_on_a_line 0 = Ok route /\
    closed_tour 3 0 route /\
    (forall tour, is_tour 3 tour ->
       (2 * weight (wt three_on_a_line) (pairs route)
        <= 3 * weight (wt three_on_a_line) (pairs tour))%Z) /\
    (exact_weights 3 three_on_a_line ->
     exists c,
       _calc_total_cost route three_on_a_line = Ok (Finite c) /\
       forall tour, is_tour 3 tour ->
         exists c', _calc_total_cost tour three_on_a_line = Ok (Finite c') /\
                    (2 * c <= 3 * c')%Z).
Proof.
  apply (@christofides_within_three_halves 3 three_on_a_line 0 pick_0_2).
  - apply three_on_a_line_valid.
  - apply three_on_a_line_metric.
  - apply three_on_a_line_float.
  - lia.
  - lia.
  - apply pick_0_2_on_a_line.
Defined.

(* ================================================================== *)
(** * The harness, trial by trial                                       *)
(* ================================================================== *)

Section Trials.

Variable mwm : Graph -> list (vertex * vertex).
Variable cm : CostMatrix.
Variable start : vertex.


(** A trial whose five steps return. *)
Lemma trial_run m w shuffled s r1 c1 r2 c2 :
  relabel cm start (draws w (drawn w)) = Ok (shuffled, s) ->
  double_tree_algorithm shuffled s = Ok r1 ->
  _calc_total_cost r1 shuffled = Ok c1 ->
  christofides_algorithm mwm shuffled s = Ok r2 ->
  _calc_total_cost r2 shuffled = Ok c2 ->
  trial mwm cm start (m, w)
  = Ok (append_trial m r1 c1 (double_tree_time w) r2 c2 (christofides_time w),
        after_trial w).
Proof.
  intros H1 H2 H3 H4 H5.
  unfold trial, _shuffle_cost_matrix, sample. cbv zeta.
  rewrite H1. simpl. rewrite H2. simpl. rewrite H3. simpl.
  rewrite H4. simpl. rewrite H5. reflexivity.
Qed.

Local Abbreviation trials := (foldM (fun st (_ : nat) => trial mwm cm start st)).


(** The loop returns when each of its trials does, and what holds of the
    entries of each trial holds of the lists. *)
Lemma trials_run
    (P : nat -> list vertex -> pyfloat -> list vertex -> pyfloat -> Prop)
    (l : list nat) : forall m0 w0,
  (forall k m, k < length l ->
     exists r1 c1 r2 c2,
       (forall t,
          trial mwm cm start
            (m, mk_world (draws w0) (drawn w0 + k) (ticks w0) t)
          = Ok (append_trial m r1 c1
                  (double_tree_time
                     (mk_world (draws w0) (drawn w0 + k) (ticks w0) t))
                  r2 c2
                  (christofides_time
                     (mk_world (draws w0) (drawn w0 + k) (ticks w0) t)),
                after_trial (mk_world (draws w0) (drawn w0 + k) (ticks w0) t)))
       /\ P (drawn w0 + k) r1 c1 r2 c2) ->
  exists m w' rs1 cs1 rs2 cs2,
    trials l (m0, w0) = Ok (m, w') /\
    doubleTreeRoutes m = doubleTreeRoutes m0 ++ rs1 /\
    doubleTreeCosts m = doubleTreeCosts m0 ++ cs1 /\
    christofidesRoutes m = christofidesRoutes m0 ++ rs2 /\
    christofidesCosts m = christofidesCosts m0 ++ cs2 /\
    length rs1 = length l /\ length cs1 = length l /\
    length rs2 = length l /\ length cs2 = length l /\
    forall k, k < length l ->
      P (drawn w0 + k) (nth k rs1 []) (nth k cs1 (Finite 0))
        (nth k rs2 []) (nth k cs2 (Finite 0)).
Proof.
  induction l as [|x l IH]; intros m0 w0 Hall.
  - exists m0, w0, [], [], [], []. rewrite !app_nil_r. simpl.
    repeat split; try reflexivity. intros k Hk. lia.
  - destruct (Hall 0 m0 ltac:(simpl; lia)) as (r1 & c1 & r2 & c2 & Ht & HP).
    specialize (Ht (ticked w0)). rewrite Nat.add_0_r in Ht, HP.
    assert (Hw0 : mk_world (draws w0) (drawn w0) (ticks w0) (ticked w0) = w0)
      by (destruct w0; reflexivity).
    rewrite Hw0 in Ht.
    destruct (IH (append_trial m0 r1 c1 (double_tree_time w0) r2 c2
                               (christofides_time w0))
                 (after_trial w0))
      as (m & w' & rs1 & cs1 & rs2 & cs2 & Hrun & E1 & E2 & E3 & E4
          & L1 & L2 & L3 & L4 & Hk).
    { intros k m Hlt. cbn [after_trial draws drawn ticks].
      destruct (Hall (S k) m ltac:(simpl; lia)) as (a1 & b1 & a2 & b2 & Hs & HPs).
      exists a1, b1, a2, b2. replace (S (drawn w0) + k) with (drawn w0 + S k) by lia.
      split; assumption. }
    exists m, w', (r1 :: rs1), (c1 :: cs1), (r2 :: rs2), (c2 :: cs2).
    cbn [foldM]. rewrite Ht. cbn [bind].
    cbn [append_trial doubleTreeRoutes doubleTreeCosts christofidesRoutes
         christofidesCosts] in E1, E2, E3, E4.
    rewrite E1, E2, E3, E4, <- !app_assoc. cbn [length app].
    split; [exact Hrun|].
    repeat split; try reflexivity; try lia.
    intros [|k] Hlt.
    + rewrite Nat.add_0_r. exact HP.
    + cbn [nth]. specialize (Hk k ltac:(lia)).
      cbn [after_trial drawn] in Hk.
      replace (drawn w0 + S k) with (S (drawn w0) + k) by lia. exact Hk.
Qed.

End Trials.



(* ================================================================== *)
(** * Routes and tours, shuffled and read back                          *)
(* ================================================================== *)

Lemma unshuffle_indices perm :
  unshuffle perm (seq 0 (length perm)) = perm.
Proof.
  unfold unshuffle. apply nth_ext with (d := 0) (d' := 0).
  - rewrite length_map, length_seq. reflexivity.
  - intros n Hn. rewrite length_map, length_seq in Hn.
    rewrite (nth_indep _ 0 (nth 0 perm 0)) by (rewrite length_map, length_seq; lia).
    rewrite (map_nth (fun i => nth i perm 0)), seq_nth by lia. reflexivity.
Qed.

Lemma unshuffle_position perm x :
  In x perm -> nth (position perm x) perm 0 = x.
Proof.
  intros Hin. unfold position.
  destruct (index_ok _ _ Hin) as [s [Hs [_ [Hnth _]]]]. rewrite Hs. exact Hnth.
Qed.

Lemma position_indices perm :
  NoDup perm -> map (position perm) perm = seq 0 (length perm).
Proof.
  intros Hnd. apply nth_ext with (d := 0) (d' := 0).
  - rewrite length_map, length_seq. reflexivity.
  - intros n Hn. rewrite length_map in Hn.
    rewrite (nth_indep _ 0 (position perm 0)) by (rewrite length_map; lia).
    rewrite (map_nth (position perm)), seq_nth by lia.
    unfold position. rewrite (@index_unique perm (nth n perm 0) n Hnd Hn eq_refl).
    reflexivity.
Qed.

Lemma last_map {A B : Type} (f : A -> B) (l : list A) (d : A) :
  last (map f l) (f d) = f (last l d).
Proof.
  induction l as [|a [|b l] IH]; try reflexivity. exact IH.
Qed.

Lemma removelast_map {A B : Type} (f : A -> B) (l : list A) :
  removelast (map f l) = map f (removelast l).
Proof.
  induction l as [|a [|b l] IH]; try reflexivity.
  change (removelast (map f (a :: b :: l)))
    with (f a :: removelast (map f (b :: l))).
  rewrite IH. reflexivity.
Qed.

Lemma closed_tour_within N s route x :
  closed_tour N s route -> s < N -> In x route -> x < N.
Proof.
  intros (Hlen & Hhd & Hlast & HP) Hs Hx.
  destruct (@exists_last _ route) as [body [z Hz]].
  { intros ->. simpl in Hlen. lia. }
  subst route. rewrite last_last in Hlast. subst z.
  rewrite removelast_last in HP.
  apply in_app_or in Hx. destruct Hx as [Hx|[<-|[]]]; [|exact Hs].
  apply (Permutation_in _ HP), in_seq in Hx. lia.
Qed.

(** A tour of the shuffled matrix read back is a tour of the original. *)
Lemma closed_tour_unshuffle N perm s route :
  Permutation perm (seq 0 N) -> closed_tour N s route ->
  closed_tour N (nth s perm 0) (unshuffle perm route).
Proof.
  intros HPp (Hlen & Hhd & Hlast & HP).
  assert (Hplen : length perm = N)
    by (rewrite (Permutation_length HPp); apply length_seq).
  unfold unshuffle. split; [|split; [|split]].
  - rewrite length_map. exact Hlen.
  - destruct route as [|a route]; [simpl in Hlen; lia|].
    simpl in *. rewrite Hhd. reflexivity.
  - rewrite (last_map (fun i => nth i perm 0)), Hlast. reflexivity.
  - rewrite removelast_map.
    eapply Permutation_trans; [apply Permutation_map; exact HP|].
    fold (unshuffle perm (seq 0 N)). rewrite <- Hplen, unshuffle_indices.
    rewrite Hplen. exact HPp.
Qed.

(** A tour of the original has its tour of the shuffled matrix. *)
Lemma is_tour_position N perm tour :
  1 <= N -> Permutation perm (seq 0 N) -> is_tour N tour ->
  is_tour N (map (position perm) tour) /\
  unshuffle perm (map (position perm) tour) = tour.
Proof.
  intros HN HPp (body & s & -> & Hhd & HP).
  assert (Hplen : length perm = N)
    by (rewrite (Permutation_length HPp); apply length_seq).
  assert (Hnd : NoDup perm)
    by (eapply Permutation_NoDup; [apply Permutation_sym; exact HPp | apply seq_NoDup]).
  assert (Hblen : length body = N)
    by (rewrite (Permutation_length HP); apply length_seq).
  assert (Hbody : forall x, In x body -> In x perm).
  { intros x Hx. apply (Permutation_in _ (Permutation_sym HPp)).
    apply (Permutation_in _ HP). exact Hx. }
  split.
  - exists (map (position perm) body), (position perm s).
    rewrite map_app. split; [reflexivity|]. split.
    + destruct body as [|a body]; [reflexivity|]. simpl in *. congruence.
    + eapply Permutation_trans.
      * apply Permutation_map.
        eapply Permutation_trans; [exact HP | apply Permutation_sym; exact HPp].
      * rewrite position_indices by assumption. rewrite Hplen.
        apply Permutation_refl.
  - unfold unshuffle. rewrite map_map.
    rewrite <- (map_id (body ++ [s])) at 2. apply map_ext_in.
    intros x Hx. apply unshuffle_position.
    apply in_app_or in Hx. destruct Hx as [Hx|[<-|[]]]; [apply Hbody; exact Hx|].
    destruct body as [|a body]; [simpl in Hblen; lia|].
    simpl in Hhd. subst a. apply Hbody. left; reflexivity.
Qed.

(* ================================================================== *)
(** * The harness on a valid matrix                                     *)
(* ================================================================== *)

Lemma relabeled_float N cm perm :
  Permutation perm (seq 0 N) -> float_weights N cm ->
  float_weights N (relabeled N cm perm).
Proof.
  intros HP Hfl i j z Hi Hj Hz. rewrite relabeled_nth in Hz by assumption.
  apply (Hfl (nth i perm 0) (nth j perm 0) z);
    [apply (perm_nth_lt HP Hi) | apply (perm_nth_lt HP Hj) | exact Hz].
Qed.

Lemma relabeled_exact N cm perm :
  Permutation perm (seq 0 N) -> exact_weights N cm ->
  exact_weights N (relabeled N cm perm).
Proof.
  intros HP Hex i j z Hi Hj Hz. rewrite relabeled_nth in Hz by assumption.
  apply (Hex (nth i perm 0) (nth j perm 0) z);
    [apply (perm_nth_lt HP Hi) | apply (perm_nth_lt HP Hj) | exact Hz].
Qed.

Lemma trial_good N cm start mwm perm :
  valid_matrix N cm -> float_weights N cm -> 2 <= N -> start < N ->
  Permutation perm (seq 0 N) ->
  matcher_ok mwm (relabeled N cm perm) ->
  exists r1 c1 r2 c2,
    honest_entries N cm start perm r1 c1 r2 c2 /\
    forall m w, draws w (drawn w) = perm ->
      trial mwm cm start (m, w)
      = Ok (append_trial m r1 c1 (double_tree_time w) r2 c2 (christofides_time w),
            after_trial w).
Proof.
  intros Hv Hfl HN Hstart HP Hmatch. pose proof Hv as [Hsq [_ [Hfin Hsym]]].
  set (cm' := relabeled N cm perm) in *.
  pose proof (relabeled_valid Hv HP) as Hv'. fold cm' in Hv'.
  pose proof (relabeled_float HP Hfl) as Hfl'. fold cm' in Hfl'.
  pose proof Hv' as [Hsq' [_ [Hfin' Hsym']]].
  destruct (relabel_ok Hsq Hstart HP) as [s [Hrel [Hs [Hnth _]]]]. fold cm' in Hrel.
  destruct (double_tree_stages Hsq' Hfin' Hfl' HN Hs)
    as (T & walk & body & _ & _ & _ & _ & _ & _ & _ & _ & _ & Hrun1 & Hhd1 & HP1).
  destruct (christofides_stages Hsq' Hfin' Hfl' HN Hs Hmatch)
    as (T2 & R & MG & walk2 & body2 & _ & _ & _ & _ & _ & _ & _ & _ & _ & _ & _
        & _ & _ & _ & _ & _ & _ & _ & _ & Hrun2 & Hhd2 & HP2).
  pose proof (closed_tour_intro _ Hhd1 HP1) as Ht1.
  pose proof (closed_tour_intro _ Hhd2 HP2) as Ht2.
  assert (Hi1 : is_tour N (body ++ [s])) by (exists body, s; auto).
  assert (Hi2 : is_tour N (body2 ++ [s])) by (exists body2, s; auto).
  pose proof (@exact_total_cost_weight N cm' _ Hsq' Hfin' Hsym' (tour_steps HN Hi1))
    as He1.
  pose proof (@exact_total_cost_weight N cm' _ Hsq' Hfin' Hsym' (tour_steps HN Hi2))
    as He2.
  pose proof (@calc_total_cost_follows N cm' (body ++ [s]) Hsq' Hfl') as Hf1.
  rewrite He1 in Hf1. destruct Hf1 as [c1 Hc1].
  pose proof (@calc_total_cost_follows N cm' (body2 ++ [s]) Hsq' Hfl') as Hf2.
  rewrite He2 in Hf2. destruct Hf2 as [c2 Hc2].
  exists (body ++ [s]), c1, (body2 ++ [s]), c2.
  split.
  - split; [|split; [|split; [|split]]].
    + rewrite <- Hnth. apply closed_tour_unshuffle; assumption.
    + rewrite <- Hnth. apply closed_tour_unshuffle; assumption.
    + unfold unshuffle. rewrite <- (@relabeled_cost N cm perm _ Hsq HP).
      * exact Hc1.
      * intros x. apply (@closed_tour_within N s _ x Ht1 Hs).
    + unfold unshuffle. rewrite <- (@relabeled_cost N cm perm _ Hsq HP).
      * exact Hc2.
      * intros x. apply (@closed_tour_within N s _ x Ht2 Hs).
    + intros Hm Hex.
      pose proof (relabeled_metric HP Hm) as Hm'. fold cm' in Hm'.
      pose proof (relabeled_exact HP Hex) as Hex'. fold cm' in Hex'.
      pose proof (tour_cost_exact Hex' HN Hi1 He1) as Hx1.
      pose proof (tour_cost_exact Hex' HN Hi2 He2) as Hx2.
      rewrite Hc1 in Hx1. rewrite Hc2 in Hx2.
      injection Hx1 as ->. injection Hx2 as ->.
      eexists. eexists. split; [reflexivity|]. split; [reflexivity|].
      intros tour Htour.
      destruct (@is_tour_position N perm tour ltac:(lia) HP Htour) as [Htour' Hback].
      pose proof (@exact_total_cost_weight N cm tour Hsq Hfin Hsym
                    (tour_steps HN Htour)) as Hcost.
      pose proof (tour_cost_exact Hex HN Htour Hcost) as Hfcost.
      exists (weight (wt cm) (pairs tour)). split; [exact Hfcost|].
      pose proof (@exact_total_cost_weight N cm' _ Hsq' Hfin' Hsym'
                    (tour_steps HN Htour')) as Hcost'.
      assert (Hsame : weight (wt cm') (pairs (map (position perm) tour))
                      = weight (wt cm) (pairs tour)).
      { pose proof (tour_cost_exact Hex' HN Htour' Hcost') as Hf'.
        unfold cm' in Hf'. rewrite (@relabeled_cost N cm perm _ Hsq HP) in Hf'.
        - fold (unshuffle perm (map (position perm) tour)) in Hf'.
          rewrite Hback, Hfcost in Hf'. injection Hf' as Hf'. symmetry. exact Hf'.
        - intros x Hx. destruct Htour' as (b & z & Hb & Hz & HPb).
          rewrite Hb in Hx. apply in_app_or in Hx.
          assert (Hbl : forall y, In y b -> y < N).
          { intros y Hy. apply (Permutation_in _ HPb), in_seq in Hy. lia. }
          destruct Hx as [Hx|[<-|[]]]; [apply Hbl; exact Hx|].
          apply Hbl. destruct b as [|a b].
          * apply Permutation_length in HPb. rewrite length_seq in HPb.
            simpl in HPb. lia.
          * simpl in Hz. subst a. left; reflexivity. }
      rewrite Hsame in Hcost'.
      split.
      * destruct (double_tree_two_approx Hv' Hm' Hfl' HN Hs)
          as (route & c & Hr & _ & Hc & Hbound).
        rewrite Hrun1 in Hr. injection Hr as <-.
        rewrite He1 in Hc. injection Hc as <-.
        apply (Hbound _ _ Htour' Hcost').
      * destruct (christofides_three_halves Hv' Hm' Hfl' HN Hs Hmatch)
          as (route & c & Hr & _ & _ & Hc & Hbound).
        rewrite Hrun2 in Hr. injection Hr as <-.
        rewrite He2 in Hc. injection Hc as <-.
        apply (Hbound _ _ Htour' Hcost').
  - intros m w Hw. apply trial_run with (shuffled := cm') (s := s);
      try assumption. rewrite Hw. exact Hrel.
Qed.

(** On a valid matrix none of whose weights is beyond the range of a float,
    with permutations drawn and the matcher keeping its contract on each
    shuffled matrix, the run returns and every trial has honest entries. *)
Lemma harness_good N cm start times w mwm :
  valid_matrix N cm -> float_weights N cm -> 2 <= N -> start < N ->
  (forall k, k < times -> Permutation (draws w (drawn w + k)) (seq 0 N)) ->
  (forall k, k < times ->
     matcher_ok mwm (relabeled N cm (draws w (drawn w + k)))) ->
  exists m w',
    run_two_algorithms mwm cm start times w = Ok (m, w') /\
    forall k, k < times ->
      honest_entries N cm start (draws w (drawn w + k))
        (nth k (doubleTreeRoutes m) []) (nth k (doubleTreeCosts m) (Finite 0))
        (nth k (christofidesRoutes m) [])
        (nth k (christofidesCosts m) (Finite 0)).
Proof.
  intros Hv Hfl HN Hstart Hperm Hmatch. unfold run_two_algorithms.
  destruct (@trials_run mwm cm start
              (fun d => honest_entries N cm start (draws w d))
              (seq 0 times) (mk_measurements [] [] [] [] [] []) w)
    as (m & w' & rs1 & cs1 & rs2 & cs2 & Hrun & E1 & E2 & E3 & E4 & _ & _ & _ & _
        & Hk).
  { intros k m Hlt. rewrite length_seq in Hlt.
    destruct (@trial_good N cm start mwm (draws w (drawn w + k)) Hv Hfl HN Hstart
                (Hperm k Hlt) (Hmatch k Hlt))
      as (r1 & c1 & r2 & c2 & Hhon & Htrial).
    exists r1, c1, r2, c2. split; [|exact Hhon].
    intros t. apply Htrial. reflexivity. }
  exists m, w'. split; [exact Hrun|].
  intros k Hlt. rewrite length_seq in Hk.
  cbn [doubleTreeRoutes doubleTreeCosts christofidesRoutes christofidesCosts app]
    in E1, E2, E3, E4.
  rewrite E1, E2, E3, E4. apply Hk. exact Hlt.
Qed.

(** X19: on a valid matrix of two or more vertices, none of whose weights
    is beyond the range of a float, with a start inside it, permutations
    drawn and the matcher keeping its contract on each shuffled matrix, the
    harness returns; each route it reports, read back through the
    permutation of its trial, is a tour of the original matrix from the
    original start, and the cost reported with it is the float that
    [_calc_total_cost] returns for that tour in the original matrix. *)
Theorem harness_reports_tours_and_their_costs N cm start times w mwm :
  valid_matrix N cm -> float_weights N cm -> 2 <= N -> start < N ->
  (forall k, k < times -> Permutation (draws w (drawn w + k)) (seq 0 N)) ->
  (forall k, k < times ->
     matcher_ok mwm (relabeled N cm (draws w (drawn w + k)))) ->
  exists m w',
    run_two_algorithms mwm cm start times w = Ok (m, w') /\
    forall k, k < times ->
      closed_tour N start
        (unshuffle (draws w (drawn w + k)) (nth k (doubleTreeRoutes m) [])) /\
      closed_tour N start
        (unshuffle (draws w (drawn w + k)) (nth k (christofidesRoutes m) [])) /\
      _calc_total_cost
        (unshuffle (draws w (drawn w + k)) (nth k (doubleTreeRoutes m) [])) cm
      = Ok (nth k (doubleTreeCosts m) (Finite 0)) /\
      _calc_total_cost
        (unshuffle (draws w (drawn w + k)) (nth k (christofidesRoutes m) [])) cm
      = Ok (nth k (christofidesCosts m) (Finite 0)).
Proof.
  intros Hv Hfl HN Hstart Hperm Hmatch.
  destruct (@harness_good N cm start times w mwm Hv Hfl HN Hstart Hperm Hmatch)
    as (m & w' & Hrun & Hk).
  exists m, w'. split; [exact Hrun|].
  intros k Hlt. destruct (Hk k Hlt) as (H1 & H2 & H3 & H4 & _).
  split; [exact H1|]. split; [exact H2|]. split; [exact H3 | exact H4].
Qed.

(** X20: when the matrix is metric as well, and its weights small enough
    for the float sums to be exact (N times any weight below 2^53), every
    cost the harness reports is within its bound of every tour of the
    original matrix: the double-tree costs within twice, the Christofides
    costs within one and a half times. *)
Theorem harness_costs_within_bounds N cm start times w mwm :
  valid_matrix N cm -> metric N cm -> exact_weights N cm ->
  2 <= N -> start < N ->
  (forall k, k < times -> Permutation (draws w (drawn w + k)) (seq 0 N)) ->
  (forall k, k < times ->
     matcher_ok mwm (relabeled N cm (draws w (drawn w + k)))) ->
  exists m w',
    run_two_algorithms mwm cm start times w = Ok (m, w') /\
    forall k tour, k < times -> is_tour N tour ->
      exists c1 c2 c',
        nth k (doubleTreeCosts m) (Finite 0) = Finite c1 /\
        nth k (christofidesCosts m) (Finite 0) = Finite c2 /\
        _calc_total_cost tour cm = Ok (Finite c') /\
        (c1 <= 2 * c')%Z /\ (2 * c2 <= 3 * c')%Z.
Proof.
  intros Hv Hm Hex HN Hstart Hperm Hmatch.
  destruct (@harness_good N cm start times w mwm Hv (exact_float_weights Hex)
              HN Hstart Hperm Hmatch)
    as (m & w' & Hrun & Hk).
  exists m, w'. split; [exact Hrun|].
  intros k tour Hlt Htour.
  destruct (Hk k Hlt) as (_ & _ & _ & _ & Hbound).
  destruct (Hbound Hm Hex) as (z1 & z2 & E1 & E2 & Hall).
  destruct (Hall tour Htour) as (c' & Hc' & B1 & B2).
  exists z1, z2, c'. auto.
Qed.

(** The three vertices on a line as the generator of [rotating_world]
    relabels them; the tree is the path 0 - 2 - 1, and pairing the two
    nodes the matcher is handed joins its ends. *)
Lemma pair_nodes_rotated :
  matcher_ok pair_nodes (relabeled 3 three_on_a_line [2; 0; 1]).
Proof.
  intros T R tmp HT HR Htmp.
  vm_compute in HT. inversion HT; subst T; clear HT.
  vm_compute in HR. inversion HR; subst R; clear HR.
  vm_compute in Htmp. inversion Htmp; subst tmp; clear Htmp.
  assert (Hends : forall m, is_matching (mk_graph [0; 1] [(0, 1, Some (-2)%Z)]) m ->
                            incl (matching_ends m) [0; 1]).
  { intros m [Hedges _] x Hx. apply in_matching_ends in Hx.
    destruct Hx as [a [b [Hab Hx]]]. apply Hedges in Hab. simpl in Hab.
    destruct Hab as [[Heq|[]]|[Heq|[]]]; inversion Heq; subst;
      destruct Hx as [-> | ->]; simpl; auto. }
  split; [|split].
  - split.
    + intros a b [Heq|[]]. inversion Heq; subst. left. left. reflexivity.
    + simpl. repeat constructor; simpl; intuition congruence.
  - intros m' Hm'. pose proof (Hends m' Hm') as Hincl.
    destruct Hm' as [_ Hnd].
    pose proof (NoDup_incl_length Hnd Hincl) as Hlen.
    rewrite matching_ends_length in Hlen. simpl in *. lia.
  - intros m' Hm' Hlen. destruct m' as [|[a b] [|e m']]; try discriminate.
    destruct Hm' as [Hedges _].
    specialize (Hedges a b (or_introl eq_refl)). simpl in Hedges.
    destruct Hedges as [[Heq|[]]|[Heq|[]]]; inversion Heq; subst;
      vm_compute; discriminate.
Qed.

Lemma harness_reports_tours_and_their_costs_witness :
  exists m w',
    run_two_algorithms pair_nodes three_on_a_line 0 2 rotating_world = Ok (m, w') /\
    forall k, k < 2 ->
      closed_tour 3 0 (unshuffle [2; 0; 1] (nth k (doubleTreeRoutes m) [])) /\
      closed_tour 3 0 (unshuffle [2; 0; 1] (nth k (christofidesRoutes m) [])) /\
      _calc_total_cost (unshuffle [2; 0; 1] (nth k (doubleTreeRoutes m) []))
                       three_on_a_line
      = Ok (nth k (doubleTreeCosts m) (Finite 0)) /\
      _calc_total_cost (unshuffle [2; 0; 1] (nth k (christofidesRoutes m) []))
                       three_on_a_line
      = Ok (nth k (christofidesCosts m) (Finite 0)).
Proof.
  apply (@harness_reports_tours_and_their_costs 3 three_on_a_line 0 2
           rotating_world pair_nodes).
  - apply three_on_a_line_valid.
  - apply three_on_a_line_float.
  - lia.
  - lia.
  - intros k _. apply rotating_draw.
  - intros k _. apply pair_nodes_rotated.
Defined.

Lemma harness_costs_within_bounds_witness :
  exists m w',
    run_two_algorithms pair_nodes three_on_a_line 0 2 rotating_world = Ok (m, w') /\
    forall k tour, k < 2 -> is_tour 3 tour ->
      exists c1 c2 c',
        nth k (doubleTreeCosts m) (Finite 0) = Finite c1 /\
        nth k (christofidesCosts m) (Finite 0) = Finite c2 /\
        _calc_total_cost tour three_on_a_line = Ok (Finite c') /\
        (c1 <= 2 * c')%Z /\ (2 * c2 <= 3 * c')%Z.
Proof.
  apply (@harness_costs_within_bounds 3 three_on_a_line 0 2
           rotating_world pair_nodes).
  - apply three_on_a_line_valid.
  - apply three_on_a_line_metric.
  - apply three_on_a_line_exact.
  - lia.
  - lia.
  - intros k _. apply rotating_draw.
  - intros k _. apply pair_nodes_rotated.
Defined.

(* ================================================================== *)
(** * Merging any two graphs                                            *)
(* ================================================================== *)

Lemma edges_data_length G :
  gwf G -> length (edges_data G) = length (gedges G).
Proof.
  intros HG. pose proof HG as [Hnd _].
  pose proof (@edges_data_perm G Hnd (gwf_within HG)) as HP.
  apply Permutation_length in HP. rewrite !length_map in HP. exact HP.
Qed.

(** X21: merging collapses nothing: in the multigraph made of any two
    simple graphs, the degree of every vertex is the sum of its degrees in
    the two, and the edges number as many as those of the two together, an
    edge the two have in common being there twice. *)
Theorem merge_adds_degrees graph1 graph2 :
  gwf graph1 -> gwf graph2 ->
  (forall v, mdegree (_merge_two_graphs graph1 graph2) v
             = degree graph1 v + degree graph2 v) /\
  length (medges (_merge_two_graphs graph1 graph2))
  = length (gedges graph1) + length (gedges graph2).
Proof.
  intros H1 H2. split.
  - intros v. apply merge_degree; assumption.
  - rewrite merge_medges, length_app, !edges_data_length by assumption.
    reflexivity.
Qed.

Lemma wedge_01_12_gwf : gwf wedge_01_12.
Proof.
  split.
  - repeat constructor; simpl; intuition congruence.
  - intros a b d Hin. simpl in Hin.
    destruct Hin as [H|[H|[]]]; inversion H; subst; simpl; intuition congruence.
Qed.

Lemma wedge_01_02_gwf : gwf wedge_01_02.
Proof.
  split.
  - repeat constructor; simpl; intuition congruence.
  - intros a b d Hin. simpl in Hin.
    destruct Hin as [H|[H|[]]]; inversion H; subst; simpl; intuition congruence.
Qed.

Lemma merge_adds_degrees_witness :
  (forall v, mdegree (_merge_two_graphs wedge_01_12 wedge_01_02) v
             = degree wedge_01_12 v + degree wedge_01_02 v) /\
  length (medges (_merge_two_graphs wedge_01_12 wedge_01_02)) = 2 + 2.
Proof.
  apply (@merge_adds_degrees wedge_01_12 wedge_01_02).
  - apply wedge_01_12_gwf.
  - apply wedge_01_02_gwf.
Defined.

(* ================================================================== *)
(** * Removing the even-degree vertices of any tree from any graph      *)
(* ================================================================== *)

Lemma remove_fold_filter (ev : vertex -> bool) L : forall R0,
  foldM (fun R v => if ev v then remove_node v R else Ok R) L R0
  = foldM (fun R v => remove_node v R) (filter ev L) R0.
Proof.
  induction L as [|v L IH]; intros R0; [reflexivity|].
  cbn [foldM filter]. destruct (ev v); cbn [foldM bind].
  - destruct (remove_node v R0); [apply IH | reflexivity].
  - apply IH.
Qed.

Lemma remove_all_ok L :
  NoDup L -> forall R0, (forall v, In v L -> In v (gnodes R0)) ->
  foldM (fun R v => remove_node v R) L R0
  = Ok (mk_graph (filter (fun x => negb (memb x L)) (gnodes R0))
                 (filter (fun e => negb (touches L e)) (gedges R0))).
Proof.
  intros Hnd R0 HR.
  pose proof (@remove_fold (fun _ => true) L Hnd R0 HR) as H.
  assert (HL : filter (fun _ : vertex => true) L = L).
  { clear. induction L as [|a L IH]; simpl; [reflexivity | rewrite IH; reflexivity]. }
  rewrite HL in H. rewrite <- H. apply foldM_ext. intros; reflexivity.
Qed.

Lemma remove_missing_raises L :
  NoDup L -> forall R0, (exists v, In v L /\ ~ In v (gnodes R0)) ->
  foldM (fun R v => remove_node v R) L R0 = Raise NetworkXError.
Proof.
  induction 1 as [|a L Ha Hnd IH]; intros R0 [v [Hv Hn]]; [destruct Hv|].
  cbn [foldM]. unfold remove_node at 1.
  destruct (memb a (gnodes R0)) eqn:Hm; [|reflexivity].
  cbn [bind]. apply IH. exists v.
  destruct Hv as [->|Hv].
  - apply memb_In in Hm. contradiction.
  - split; [exact Hv|]. simpl. rewrite filter_In. tauto.
Qed.

(** X22: the vertex remover on any graph and any tree: when every tree
    vertex of even degree is a node of the graph, the result is the copy of
    the graph without those vertices and without the edges at them, nodes
    of the graph beyond the tree staying; when one of them is no node of
    the graph, [NetworkXError] is raised. *)
Theorem remove_even_degree_vertices_in_general graph spanningTree :
  NoDup (gnodes spanningTree) ->
  ((forall v, In v (even_vertices spanningTree) -> In v (gnodes graph)) ->
   _remove_even_degree_vertices graph spanningTree
   = Ok (mk_graph
           (filter (fun x => negb (memb x (even_vertices spanningTree)))
                   (gnodes graph))
           (filter (fun e => negb (touches (even_vertices spanningTree) e))
                   (edges_data graph)))) /\
  ((exists v, In v (even_vertices spanningTree) /\ ~ In v (gnodes graph)) ->
   _remove_even_degree_vertices graph spanningTree = Raise NetworkXError).
Proof.
  intros Hnd. unfold _remove_even_degree_vertices.
  rewrite remove_fold_filter. fold (even_vertices spanningTree).
  assert (Hnd' : NoDup (even_vertices spanningTree))
    by (apply NoDup_filter; exact Hnd).
  split.
  - intros Hin. rewrite remove_all_ok by assumption. reflexivity.
  - intros Hout. apply remove_missing_raises; assumption.
Qed.

Lemma remove_even_degree_vertices_in_general_witness :
  _remove_even_degree_vertices (_create_weighted_graph four_with_tie) path_0123
  = Ok (mk_graph [0; 3] [(0, 3, Some 2%Z)]) /\
  _remove_even_degree_vertices wedge_01_12 path_0123 = Ok (mk_graph [0] []) /\
  _remove_even_degree_vertices (mk_graph [0; 1] [(0, 1, Some 1%Z)]) path_0123
  = Raise NetworkXError.
Proof.
  assert (Hnd : NoDup (gnodes path_0123)).
  { repeat constructor; simpl; intuition congruence. }
  split; [|split].
  - rewrite (proj1 (@remove_even_degree_vertices_in_general
                      (_create_weighted_graph four_with_tie) path_0123 Hnd)).
    + reflexivity.
    + vm_compute. intuition.
  - rewrite (proj1 (@remove_even_degree_vertices_in_general
                      wedge_01_12 path_0123 Hnd)).
    + reflexivity.
    + vm_compute. intuition.
  - apply (proj2 (@remove_even_degree_vertices_in_general
                    (mk_graph [0; 1] [(0, 1, Some 1%Z)]) path_0123 Hnd)).
    exists 2. split; [vm_compute; auto|]. simpl. intuition congruence.
Defined.

(* ================================================================== *)
(** * The matcher on a graph with a weight missing                      *)
(* ================================================================== *)

Lemma negate_weights_missing E : forall G0,
  (exists a b, In (a, b, None) E) ->
  foldM (fun tmpGraph '(u, v, w) =>
           z <- as_number w ;;
           Ok (add_edge u v (Some (- z)%Z) tmpGraph)) E G0
  = Raise TypeError.
Proof.
  induction E as [|[[u v] w] E IH]; intros G0 [a [b Hin]]; [destruct Hin|].
  cbn [foldM]. destruct w as [z|]; [|reflexivity].
  cbn [as_number bind]. apply IH.
  destruct Hin as [Heq|Hin]; [discriminate|]. exists a, b. exact Hin.
Qed.

(** X23: an edge whose weight is [None] makes the matching step raise
    [TypeError] when it negates the weights, before the matcher is asked,
    so whatever the matcher would answer. *)
Theorem match_minimal_weight_missing_weight mwm graph :
  (exists a b, In (a, b, None) (edges_data graph)) ->
  _match_minimal_weight mwm graph = Raise TypeError.
Proof.
  intros H. unfold _match_minimal_weight, negate_weights.
  rewrite negate_weights_missing by assumption. reflexivity.
Qed.

Lemma match_minimal_weight_missing_weight_witness :
  _match_minimal_weight pick_0_2
    (mk_graph [0; 1; 2] [(0, 1, Some 1%Z); (0, 2, None)])
  = Raise TypeError.
Proof.
  apply match_minimal_weight_missing_weight.
  exists 0, 2. vm_compute. auto.
Defined.

(* ================================================================== *)
(** * The circuit extractor without edges                               *)
(* ================================================================== *)

Lemma closure_no_edges n S : closure n [] S = S.
Proof. induction n as [|n IH]; [reflexivity | exact IH]. Qed.

(** X24: a multigraph without edges never yields a path: with no node
    the extractor raises [NetworkXPointlessConcept]; with the one node
    [start] the circuit is empty and taking its last edge raises
    [IndexError]; with two or more nodes, or a start that is no node, it
    raises [NetworkXError]. *)
Theorem eulerian_path_without_edges nodes start :
  NoDup nodes ->
  _create_eulerian_path (mk_multi nodes []) start
  = match nodes with
    | [] => Raise NetworkXPointlessConcept
    | [v] => if Nat.eqb start v then Raise IndexError else Raise NetworkXError
    | _ :: _ :: _ => Raise NetworkXError
    end.
Proof.
  intros Hnd. destruct nodes as [|v [|u rest]].
  - reflexivity.
  - unfold _create_eulerian_path, eulerian_circuit, is_eulerian, is_connected.
    simpl. rewrite Nat.eqb_refl. simpl.
    destruct (Nat.eqb start v); reflexivity.
  - unfold _create_eulerian_path, eulerian_circuit, is_eulerian, is_connected.
    cbn [mnodes medges mdegree ends_at].
    assert (Hev : forallb (fun _ : vertex => Nat.even 0) (v :: u :: rest) = true).
    { apply forallb_forall. intros; reflexivity. }
    rewrite Hev. rewrite closure_no_edges.
    assert (Hu : memb u [v] = false).
    { apply memb_false. intros [->|[]].
      inversion Hnd as [|? ? Hn _]. apply Hn. left; reflexivity. }
    cbn [forallb]. rewrite Hu, andb_false_r. reflexivity.
Qed.

Lemma eulerian_path_without_edges_witness :
  _create_eulerian_path (mk_multi [4] []) 4 = Raise IndexError /\
  _create_eulerian_path (mk_multi [4; 5] []) 4 = Raise NetworkXError.
Proof.
  split.
  - apply (@eulerian_path_without_edges [4] 4).
    repeat constructor; simpl; intuition.
  - apply (@eulerian_path_without_edges [4; 5] 4).
    repeat constructor; simpl; intuition congruence.
Defined.

(* ================================================================== *)
(** * Prim's algorithm on a graph with a weight missing                 *)
(* ================================================================== *)

(** One sweep of [push_edges] returns, having pushed an entry for every
    neighbour it does not skip, or is stopped by a weight it cannot
    take. *)
Lemma push_edges_cases u skip a fr c :
  ((forall v d, In (v, d) a -> ~ In v skip -> ~ unusable d) /\
   exists pushed,
     push_edges u skip a (fr, c) = Ok (fr ++ pushed, c + length pushed) /\
     length pushed <= length a /\
     forall v d, In (v, d) a -> ~ In v skip ->
                 exists e, In e pushed /\ f_v e = v)
  \/ (exists v d, In (v, d) a /\ ~ In v skip /\ unusable d /\
      push_edges u skip a (fr, c) = Raise (raised_by d)).
Proof.
  revert fr c. induction a as [|[v d] a IH]; intros fr c.
  - left. split; [intros v d []|]. exists []. simpl.
    rewrite app_nil_r, Nat.add_0_r.
    split; [reflexivity|]. split; [lia|]. intros v d [].
  - unfold push_edges in *. cbn [foldM].
    destruct (memb v skip) eqn:Hm.
    + cbn [bind].
      destruct (IH fr c)
        as [[Hall [p [Hrun [Hlen Hcov]]]]|(x & y & Hx & Hs & Hbad & Hrun)].
      * left. split.
        { intros x y [Heq|Hin] Hs; [|eapply Hall; eassumption].
          inversion Heq; subst. apply memb_In in Hm. contradiction. }
        exists p. split; [exact Hrun|]. split; [simpl; lia|].
        intros x y [Heq|Hin] Hs; [|eapply Hcov; eassumption].
        inversion Heq; subst. apply memb_In in Hm. contradiction.
      * right. exists x, y. split; [right; exact Hx|]. auto.
    + apply memb_false in Hm. destruct d as [z|].
      * cbn [as_number bind]. destruct (in_float_range z) eqn:Hz.
        -- rewrite (isnan_in_range _ Hz). cbn [bind].
           destruct (IH (fr ++ [mk_fentry z c u v (Some z)]) (S c))
             as [[Hall [p [Hrun [Hlen Hcov]]]]|(x & y & Hx & Hs & Hbad & Hrun)].
           ++ left. split.
              { intros x y [Heq|Hin] Hs; [|eapply Hall; eassumption].
                inversion Heq; subst. simpl. congruence. }
              exists (mk_fentry z c u v (Some z) :: p). rewrite Hrun.
              rewrite <- app_assoc. simpl.
              split; [f_equal; f_equal; lia|]. split; [lia|].
              intros x y [Heq|Hin] Hs.
              ** inversion Heq; subst. eexists. split; [left; reflexivity|].
                 reflexivity.
              ** destruct (Hcov x y Hin Hs) as [e [He Hv]].
                 exists e. split; [right; exact He | exact Hv].
           ++ right. exists x, y. split; [right; exact Hx|]. auto.
        -- right. exists v, (Some z). split; [left; reflexivity|].
           split; [exact Hm|]. split; [exact Hz|].
           rewrite (isnan_beyond _ Hz). reflexivity.
      * right. exists v, None. split; [left; reflexivity|].
        split; [exact Hm|]. split; [exact I | reflexivity].
Qed.

Section MissingWeight.

Variable G : Graph.

(** Two nodes joined by an edge whose weight cannot be taken. *)
Variables i j : vertex.
Variable d0 : pyval.
Hypothesis d0_unusable : unusable d0.
Hypothesis i_j : i <> j.
Hypothesis missing_i : In (j, d0) (get_adj G i).
Hypothesis missing_j : In (i, d0) (get_adj G j).

(** Every node is joined to every other. *)
Hypothesis complete : forall a b,
  In a (gnodes G) -> In b (gnodes G) -> a <> b ->
  exists d, In (b, d) (get_adj G a).

(** While both ends of the edge are yet to be reached, the loop cannot
    return: it reaches one of them, or is stopped by another weight. *)
Lemma prim_grow_missing fuel : forall nds visited frontier c out,
  NoDup nds -> incl nds (gnodes G) -> incl visited (gnodes G) ->
  (forall x, In x nds -> ~ In x visited) ->
  visited <> [] ->
  (forall a b, In a visited -> In b nds ->
               exists e, In e frontier /\ f_v e = b) ->
  length frontier + adj_sum (gedges G) nds < fuel ->
  In i nds -> In j nds ->
  stopped_by_weight G (prim_grow fuel G nds visited frontier c out).
Proof.
  induction fuel as [|fuel IH];
    intros nds visited frontier c out Hnd Hnds Hvis Hdis Hne Hfr Hfuel Hi Hj;
    [lia|].
  cbn [prim_grow].
  destruct nds as [|n0 nds0] eqn:En; [destruct Hi|]. rewrite <- En in *.
  destruct (heappop frontier) as [[e fr]|] eqn:Hpop.
  2:{ exfalso. apply heappop_none in Hpop. subst frontier.
      destruct visited as [|a visited]; [congruence|].
      destruct (Hfr a i (or_introl eq_refl) Hi) as [e [[] _]]. }
  destruct (heappop_some _ Hpop) as [Hperm _].
  assert (Hlen : length frontier = S (length fr)).
  { rewrite (Permutation_length Hperm). reflexivity. }
  destruct (memb (f_v e) visited || negb (memb (f_v e) nds)) eqn:Hskip.
  - (* the entry leads nowhere new *)
    apply IH; try assumption.
    + intros a b Ha Hb. destruct (Hfr a b Ha Hb) as [x [Hx Hxv]].
      apply (Permutation_in _ Hperm) in Hx. destruct Hx as [<-|Hx].
      * exfalso. apply orb_true_iff in Hskip. destruct Hskip as [Hs|Hs].
        -- apply memb_In in Hs. rewrite Hxv in Hs. apply (Hdis b Hb Hs).
        -- apply negb_true_iff, memb_false in Hs. rewrite Hxv in Hs.
           contradiction.
      * exists x. auto.
    + lia.
  - (* the entry reaches a new node *)
    apply orb_false_iff in Hskip. destruct Hskip as [Hv1 Hv2].
    apply memb_false in Hv1. apply negb_false_iff, memb_In in Hv2.
    set (v := f_v e) in *.
    destruct (push_edges_cases v (v :: visited) (get_adj G v) fr c)
      as [[Hall [p [Hrun [Hplen Hcov]]]]|(x & y & Hx & _ & Hbad & Hrun)];
      rewrite Hrun.
    2:{ exists v, x, y. split; [exact Hx|]. split; [exact Hbad | reflexivity]. }
    cbn [bind].
    assert (Hvi : v <> i).
    { intros Heq. apply (Hall j d0); [rewrite Heq; exact missing_i| |exact d0_unusable].
      intros [Hjv|Hjv]; [congruence|]. apply (Hdis j Hj Hjv). }
    assert (Hvj : v <> j).
    { intros Heq. apply (Hall i d0); [rewrite Heq; exact missing_j| |exact d0_unusable].
      intros [Hiv|Hiv]; [congruence|]. apply (Hdis i Hi Hiv). }
    apply IH.
    + apply nodup_remove_v. exact Hnd.
    + intros x Hx. apply in_remove_v in Hx. apply Hnds. tauto.
    + intros x [<-|Hx]; [apply Hnds; exact Hv2 | apply Hvis; exact Hx].
    + intros x Hx [Heq|Hin]; apply in_remove_v in Hx.
      * destruct Hx as [_ Hx]. congruence.
      * destruct Hx as [Hx _]. apply (Hdis x Hx Hin).
    + discriminate.
    + intros a b Ha Hb. apply in_remove_v in Hb. destruct Hb as [Hb Hbv].
      destruct Ha as [<-|Ha].
      * destruct (complete (Hnds v Hv2) (Hnds b Hb)) as [d Hd]; [congruence|].
        destruct (Hcov b d Hd) as [x [Hx Hxv]].
        { intros [Heq|Hin]; [congruence | apply (Hdis b Hb Hin)]. }
        exists x. split; [apply in_or_app; right; exact Hx | exact Hxv].
      * destruct (Hfr a b Ha Hb) as [x [Hx Hxv]].
        apply (Permutation_in _ Hperm) in Hx. destruct Hx as [<-|Hx].
        -- fold v in Hxv. congruence.
        -- exists x. split; [apply in_or_app; left; exact Hx | exact Hxv].
    + rewrite length_app.
      pose proof (@adj_sum_remove (gedges G) nds v Hnd Hv2) as Hsum.
      unfold get_adj in Hplen. lia.
    + apply in_remove_v. split; [exact Hi | congruence].
    + apply in_remove_v. split; [exact Hj | congruence].
Qed.

Hypothesis nodes_nodup : NoDup (gnodes G).
Hypothesis i_node : In i (gnodes G).
Hypothesis j_node : In j (gnodes G).

Lemma prim_mst_edges_missing : stopped_by_weight G (prim_mst_edges G).
Proof.
  assert (HEV : exists u rest, gnodes G = u :: rest).
  { pose proof i_node as Hin. destruct (gnodes G) as [|u rest]; [destruct Hin|].
    exists u, rest. reflexivity. }
  destruct HEV as (u & rest & EV).
  pose proof nodes_nodup as Hnd0. rewrite EV in Hnd0.
  inversion Hnd0 as [|? ? Hu Hnd]; subst.
  pose proof i_node as Hi0. rewrite EV in Hi0.
  pose proof j_node as Hj0. rewrite EV in Hj0.
  unfold prim_mst_edges. rewrite EV.
  cbn [length prim_components].
  destruct (push_edges_cases u [] (get_adj G u) [] 0)
    as [[Hall [p [Hrun [Hplen Hcov]]]]|(x & y & Hx & _ & Hbad & Hrun)];
    rewrite Hrun.
  2:{ exists u, x, y. split; [exact Hx|]. split; [exact Hbad | reflexivity]. }
  cbn [bind app].
  assert (Hui : u <> i).
  { intros Heq. apply (Hall j d0); [rewrite Heq; exact missing_i| |exact d0_unusable].
    intros []. }
  assert (Huj : u <> j).
  { intros Heq. apply (Hall i d0); [rewrite Heq; exact missing_j| |exact d0_unusable].
    intros []. }
  match goal with
  | |- context [prim_grow ?f G ?n ?v ?fr ?c ?o] =>
      assert (Hg : stopped_by_weight G (prim_grow f G n v fr c o))
  end.
  { apply prim_grow_missing.
    - assumption.
    - intros x Hx. rewrite EV. right. exact Hx.
    - intros x [<-|[]]. rewrite EV. left; reflexivity.
    - intros x Hx [<-|[]]. contradiction.
    - discriminate.
    - intros a b [<-|[]] Hb.
      destruct (@complete u b) as [d Hd].
      + rewrite EV. left; reflexivity.
      + rewrite EV. right; exact Hb.
      + intros ->. contradiction.
      + destruct (Hcov b d Hd) as [x [Hx Hxv]]; [intros []|].
        exists x. auto.
    - pose proof (@adj_sum_bound (gedges G) (u :: rest) Hnd0) as Hb.
      simpl in Hb. unfold get_adj in Hplen. lia.
    - destruct Hi0 as [Heq|Hin]; [congruence | exact Hin].
    - destruct Hj0 as [Heq|Hin]; [congruence | exact Hin]. }
  destruct Hg as (a & b & d & Hin & Hbad & Hg). rewrite Hg.
  exists a, b, d. split; [exact Hin|]. split; [exact Hbad | reflexivity].
Qed.

End MissingWeight.

(** In the graph of a square matrix every vertex has every other for a
    neighbour, with the entry above the diagonal for weight. *)
Lemma get_adj_create_any N cm u v w :
  square N cm ->
  (In (v, w) (get_adj (_create_weighted_graph cm) u) <->
   u < N /\ v < N /\ u <> v /\ w = upper cm u v).
Proof.
  intros Hsq. unfold get_adj. rewrite gedges_create, adj_of_spec.
  rewrite !(in_upper_pairs _ _ _ Hsq). unfold upper. split.
  - intros [[Huv [Hv ->]]|[Hvu [Hu ->]]].
    + repeat split; try lia. rewrite Nat.min_l, Nat.max_r by lia. reflexivity.
    + repeat split; try lia. rewrite Nat.min_r, Nat.max_l by lia. reflexivity.
  - intros [Hu [Hv [Hne ->]]].
    destruct (Nat.lt_ge_cases u v).
    + left. rewrite Nat.min_l, Nat.max_r by lia. repeat split; lia.
    + right. rewrite Nat.min_r, Nat.max_l by lia. repeat split; lia.
Qed.

(** X25: a weight above the diagonal that Prim's algorithm cannot take --
    [None], which is not read as a missing road, or an int beyond the
    range of a float -- stops the spanning tree step, and with it both
    orchestrators, whatever the start and the matcher: all three raise the
    exception of one such entry above the diagonal, [TypeError] for [None]
    and [OverflowError] for an int beyond the range; [TypeError] when no
    number of the matrix is beyond the range of a float. *)
Theorem missing_weight_above_the_diagonal N cm start mwm i j :
  square N cm -> i < j -> j < N ->
  unusable (nth j (nth i cm []) None) ->
  exists e,
    minimum_spanning_tree (_create_weighted_graph cm) = Raise e /\
    double_tree_algorithm cm start = Raise e /\
    christofides_algorithm mwm cm start = Raise e /\
    (exists a b, a < b /\ b < N /\
                 unusable (nth b (nth a cm []) None) /\
                 e = raised_by (nth b (nth a cm []) None)) /\
    (float_weights N cm -> e = TypeError).
Proof.
  intros Hsq Hij Hj Hbad.
  set (G := _create_weighted_graph cm).
  set (d0 := nth j (nth i cm []) None) in *.
  assert (Hup : upper cm i j = d0).
  { unfold upper. rewrite Nat.min_l, Nat.max_r by lia. reflexivity. }
  assert (Hup' : upper cm j i = d0).
  { unfold upper. rewrite Nat.min_r, Nat.max_l by lia. reflexivity. }
  assert (Hnodes : forall x, In x (gnodes G) <-> x < N).
  { intros x. apply gnodes_create; [assumption | lia]. }
  assert (Hprim : stopped_by_weight G (prim_mst_edges G)).
  { apply (@prim_mst_edges_missing G i j d0).
    - exact Hbad.
    - lia.
    - apply (get_adj_create_any _ _ _ Hsq). repeat split; try lia. congruence.
    - apply (get_adj_create_any _ _ _ Hsq). repeat split; try lia. congruence.
    - intros a b Ha Hb Hab. exists (upper cm a b).
      apply (get_adj_create_any _ _ _ Hsq).
      apply Hnodes in Ha. apply Hnodes in Hb. repeat split; assumption.
    - apply gnodes_create_nodup.
    - apply Hnodes. lia.
    - apply Hnodes. lia. }
  destruct Hprim as (a & b & d & Hin & Hd & Hprim).
  apply (get_adj_create_any _ _ _ Hsq) in Hin.
  destruct Hin as (Ha & Hb & Hab & ->).
  assert (Hmst : minimum_spanning_tree G = Raise (raised_by (upper cm a b))).
  { unfold minimum_spanning_tree. rewrite Hprim. reflexivity. }
  exists (raised_by (upper cm a b)).
  split; [exact Hmst|].
  unfold double_tree_algorithm, christofides_algorithm. cbv zeta. fold G.
  rewrite Hmst. split; [reflexivity|]. split; [reflexivity|]. split.
  - exists (Nat.min a b), (Nat.max a b).
    split; [lia|]. split; [lia|]. split; [exact Hd | reflexivity].
  - intros Hfl. unfold upper in *.
    destruct (nth (Nat.max a b) (nth (Nat.min a b) cm []) None) as [z|] eqn:Hz;
      [|reflexivity].
    exfalso. simpl in Hd.
    rewrite (Hfl (Nat.min a b) (Nat.max a b) z) in Hd;
      [discriminate | lia | lia | exact Hz].
Qed.

(** From vertex 0 the first sweep of Prim's algorithm meets the long road
    before the missing one, and [isnan] overflows. *)
Lemma long_road_overflows :
  minimum_spanning_tree (_create_weighted_graph three_with_a_long_road)
  = Raise OverflowError /\
  double_tree_algorithm three_with_a_long_road 0 = Raise OverflowError /\
  christofides_algorithm pick_0_2 three_with_a_long_road 0 = Raise OverflowError.
Proof. vm_compute. repeat split. Qed.

Lemma missing_weight_above_the_diagonal_witness :
  exists e,
    minimum_spanning_tree (_create_weighted_graph four_without_a_road)
    = Raise e /\
    double_tree_algorithm four_without_a_road 0 = Raise e /\
    christofides_algorithm pick_0_2 four_without_a_road 0 = Raise e /\
    (exists a b, a < b /\ b < 4 /\
                 unusable (nth b (nth a four_without_a_road []) None) /\
                 e = raised_by (nth b (nth a four_without_a_road []) None)) /\
    (float_weights 4 four_without_a_road -> e = TypeError).
Proof.
  apply (@missing_weight_above_the_diagonal 4 four_without_a_road 0 pick_0_2 1 3).
  - split; [reflexivity|]. intros row Hrow. simpl in Hrow.
    repeat (destruct Hrow as [<-|Hrow]; [reflexivity|]). destruct Hrow.
  - lia.
  - lia.
  - exact I.
Defined.

(* ================================================================== *)
(** * [sawayaka.py]: the stores and the directions service              *)
(* ================================================================== *)

Module SawayakaFacts.

Import Sawayaka.

(** ** Loops and sequences of requests *)

Lemma for_each_app {A S : Type} (f : S -> A -> io S) l1 l2 s sent :
  for_each f (l1 ++ l2) s sent =
  match for_each f l1 s sent with
  | (Done s', sent') => for_each f l2 s' sent'
  | (Fails e, sent') => (Fails e, sent')
  end.
Proof.
  revert s sent. induction l1 as [|a l1 IH]; intros s sent; [reflexivity|].
  cbn [for_each app]. unfold io_bind.
  destruct (f s a sent) as [[s'|e] sent']; [apply IH | reflexivity].
Qed.

Lemma for_each_one {A S : Type} (f : S -> A -> io S) a s sent :
  for_each f [a] s sent =
  match f s a sent with
  | (Done s', sent') => (Done s', sent')
  | (Fails e, sent') => (Fails e, sent')
  end.
Proof. reflexivity. Qed.

Lemma serve_app net q1 q2 sent :
  serve net (q1 ++ q2) sent =
  match serve net q1 sent with
  | (Done l1, sent') =>
      match serve net q2 sent' with
      | (Done l2, sent'') => (Done (l1 ++ l2), sent'')
      | (Fails e, sent'') => (Fails e, sent'')
      end
  | (Fails e, sent') => (Fails e, sent')
  end.
Proof.
  revert sent. induction q1 as [|q q1 IH]; intros sent.
  - cbn [app serve]. destruct (serve net q2 sent) as [[l2|e] s2]; reflexivity.
  - cbn [app serve]. destruct (answered net (length sent) q) as [leg|e];
      [|reflexivity].
    rewrite IH. destruct (serve net q1 (sent ++ [q])) as [[l1|e] s1];
      [|reflexivity].
    destruct (serve net q2 s1) as [[l2|e] s2]; reflexivity.
Qed.

(** A sequence that was served to its end. *)
Lemma serve_done net qs : forall sent legs sent',
  serve net qs sent = (Done legs, sent') ->
  sent' = sent ++ qs /\ length legs = length qs /\
  forall k q, nth_error qs k = Some q ->
              answered net (length sent + k) q = Done (nth k legs JNone).
Proof.
  induction qs as [|q qs IH]; intros sent legs sent' H; cbn [serve] in H.
  - inversion H; subst. rewrite app_nil_r. split; [reflexivity|].
    split; [reflexivity|]. intros [|k] q' Hq; discriminate.
  - destruct (answered net (length sent) q) as [leg|e] eqn:Ha; [|discriminate].
    destruct (serve net qs (sent ++ [q])) as [[l|e] s1] eqn:Hs; [|discriminate].
    inversion H; subst. destruct (IH _ _ _ Hs) as (E1 & E2 & E3).
    split; [rewrite E1, <- app_assoc; reflexivity|].
    split; [cbn [length]; rewrite E2; reflexivity|].
    intros [|k] q' Hq; cbn [nth_error] in Hq.
    + inversion Hq; subst. rewrite Nat.add_0_r. exact Ha.
    + specialize (E3 k q' Hq). rewrite length_app in E3. cbn [length] in E3.
      replace (length sent + S k) with (length sent + 1 + k) by lia.
      exact E3.
Qed.

(** Every request answered: the sequence is served to its end. *)
Lemma serve_good net qs : forall sent,
  (forall k q, nth_error qs k = Some q ->
               exists leg, answered net (length sent + k) q = Done leg) ->
  exists legs, serve net qs sent = (Done legs, sent ++ qs).
Proof.
  induction qs as [|q qs IH]; intros sent H.
  - exists []. cbn [serve]. rewrite app_nil_r. reflexivity.
  - cbn [serve]. destruct (H 0 q eq_refl) as [leg Hleg].
    rewrite Nat.add_0_r in Hleg. rewrite Hleg.
    destruct (IH (sent ++ [q])) as [legs Hlegs].
    { intros k q' Hq. destruct (H (S k) q' Hq) as [l Hl]. exists l.
      rewrite length_app. cbn [length].
      replace (length sent + 1 + k) with (length sent + S k) by lia.
      exact Hl. }
    rewrite Hlegs. exists (leg :: legs). rewrite <- app_assoc. reflexivity.
Qed.

(** The first request that fails ends the sequence. *)
Lemma serve_fail net qs : forall sent k q e,
  nth_error qs k = Some q ->
  (forall k' q', k' < k -> nth_error qs k' = Some q' ->
                 exists leg, answered net (length sent + k') q' = Done leg) ->
  answered net (length sent + k) q = Fails e ->
  serve net qs sent = (Fails e, sent ++ firstn (S k) qs).
Proof.
  induction qs as [|q0 qs IH]; intros sent k q e Hq Hgood Hbad;
    [destruct k; discriminate|].
  cbn [serve]. destruct k as [|k]; cbn [nth_error] in Hq.
  - inversion Hq; subst. rewrite Nat.add_0_r in Hbad. rewrite Hbad.
    reflexivity.
  - destruct (Hgood 0 q0 ltac:(lia) eq_refl) as [leg Hleg].
    rewrite Nat.add_0_r in Hleg. rewrite Hleg.
    rewrite (IH (sent ++ [q0]) k q e Hq).
    + cbn [firstn]. rewrite <- app_assoc. reflexivity.
    + intros k' q' Hk' Hq'.
      destruct (Hgood (S k') q' ltac:(lia) Hq') as [l Hl]. exists l.
      rewrite length_app. cbn [length].
      replace (length sent + 1 + k') with (length sent + S k') by lia.
      exact Hl.
    + rewrite length_app. cbn [length].
      replace (length sent + 1 + k) with (length sent + S k) by lia.
      exact Hbad.
Qed.

(** ** One row of the constructor *)

Lemma in_pairs_of_rows n m a b :
  In (a, b) (pairs_of_rows n m) <-> a < m /\ a < b /\ b < n.
Proof.
  unfold pairs_of_rows. rewrite in_flat_map. split.
  - intros [i [Hi Hin]]. apply in_seq in Hi. apply in_map_iff in Hin.
    destruct Hin as [j [Heq Hj]]. inversion Heq; subst. apply in_seq in Hj.
    lia.
  - intros (Ha & Hab & Hb). exists a. split; [apply in_seq; lia|].
    apply in_map_iff. exists b. split; [reflexivity | apply in_seq; lia].
Qed.

Lemma pairs_of_rows_S n m :
  pairs_of_rows n (S m)
  = pairs_of_rows n m ++ map (fun j => (m, j)) (seq (S m) (n - S m)).
Proof.
  unfold pairs_of_rows. rewrite seq_S, flat_map_app. cbn [flat_map Nat.add].
  rewrite app_nil_r. reflexivity.
Qed.

Section Row.

Variable net : maps.
Variable rows : list (list json).
Variable i : nat.
Hypothesis i_store : i < length _ADDRESSES.
Hypothesis rows_so_far : length rows = i.
Hypothesis rows_full : forall row, In row rows -> length row = length _ADDRESSES.

(** Left of the diagonal the entries are copied from the rows above. *)
Lemma entries_below js : (forall j, In j js -> j < i) -> forall acc sent,
  for_each (directions_entry net rows i) js acc sent
  = (Done (acc ++ map (fun j => nth i (nth j rows []) JNone) js), sent).
Proof.
  induction js as [|j js IH]; intros Hjs acc sent.
  - cbn [for_each map]. rewrite app_nil_r. reflexivity.
  - assert (Hj : j < i) by (apply Hjs; left; reflexivity).
    cbn [for_each map]. unfold io_bind at 1. unfold directions_entry at 1.
    destruct (Nat.ltb_spec i j) as [Hc|_]; [lia|].
    destruct (Nat.ltb_spec j i) as [_|Hc]; [|lia].
    assert (Hrow : length (nth j rows []) = length _ADDRESSES)
      by (apply rows_full, nth_In; lia).
    unfold io_bind, of_result, finish.
    rewrite (getitem_nth rows [] (i := j)) by lia. cbv beta iota.
    rewrite (getitem_nth (nth j rows []) JNone (i := i)) by lia. cbv beta iota.
    rewrite IH by (intros; apply Hjs; right; assumption).
    rewrite <- app_assoc. reflexivity.
Qed.

(** Right of the diagonal each entry is asked for. *)
Lemma entries_above js :
  (forall j, In j js -> i < j /\ j < length _ADDRESSES) -> forall acc sent,
  for_each (directions_entry net rows i) js acc sent
  = match serve net (map (route_request i) js) sent with
    | (Done legs, sent') => (Done (acc ++ legs), sent')
    | (Fails e, sent') => (Fails e, sent')
    end.
Proof.
  induction js as [|j js IH]; intros Hjs acc sent.
  - cbn [for_each map serve]. rewrite app_nil_r. reflexivity.
  - destruct (Hjs j (or_introl eq_refl)) as [Hij Hj].
    cbn [for_each map serve]. unfold io_bind at 1. unfold directions_entry at 1.
    destruct (Nat.ltb_spec i j) as [_|Hc]; [|lia].
    unfold io_bind, of_result, call, finish.
    rewrite (getitem_nth _ADDRESSES String.EmptyString (i := i)) by lia.
    cbv beta iota.
    rewrite (getitem_nth _ADDRESSES String.EmptyString (i := j)) by lia.
    cbv beta iota.
    fold (route_request i j). unfold answered.
    destruct (directions net (length sent) (route_request i j)) as [r|e];
      [|reflexivity].
    destruct (first_leg r) as [leg|e]; [|reflexivity].
    rewrite IH by (intros; apply Hjs; right; assumption).
    destruct (serve net (map (route_request i) js) (sent ++ [route_request i j]))
      as [[legs|e] s1]; [|reflexivity].
    rewrite <- app_assoc. reflexivity.
Qed.

(** The whole row. *)
Lemma row_served sent :
  directions_row net rows i sent
  = match serve net (map (route_request i)
                         (seq (S i) (length _ADDRESSES - S i))) sent with
    | (Done legs, sent') =>
        (Done (rows ++ [map (fun j => nth i (nth j rows []) JNone) (seq 0 i)
                        ++ JNone :: legs]), sent')
    | (Fails e, sent') => (Fails e, sent')
    end.
Proof.
  unfold directions_row, io_bind.
  assert (Hseq : seq 0 (length _ADDRESSES)
                 = seq 0 i ++ [i] ++ seq (S i) (length _ADDRESSES - S i)).
  { replace (length _ADDRESSES) with (i + S (length _ADDRESSES - S i)) at 1
      by lia.
    rewrite seq_app. cbn [Nat.add seq app]. reflexivity. }
  rewrite Hseq, for_each_app, entries_below
    by (intros j Hj; apply in_seq in Hj; lia).
  rewrite for_each_app. cbn [app for_each]. unfold io_bind at 1.
  unfold directions_entry at 1.
  rewrite Nat.ltb_irrefl. unfold finish at 1 2.
  rewrite entries_above by (intros j Hj; apply in_seq in Hj; lia).
  destruct (serve net _ sent) as [[legs|e] s1]; [|reflexivity].
  unfold finish. rewrite <- app_assoc. reflexivity.
Qed.

End Row.

(** ** The rows of the constructor *)

Lemma nth_error_chunk m len k a b :
  nth_error (map (fun j => (m, j)) (seq (S m) len)) k = Some (a, b) ->
  a = m /\ b = S m + k /\ k < len.
Proof.
  intros H. assert (Hk : k < len).
  { assert (Hs : nth_error (map (fun j => (m, j)) (seq (S m) len)) k <> None)
      by congruence.
    apply nth_error_Some in Hs.
    rewrite length_map, length_seq in Hs. exact Hs. }
  rewrite nth_error_map, nth_error_seq in H.
  destruct (Nat.ltb_spec k len) as [_|Hc]; [|lia].
  cbn [option_map] in H. inversion H; subst. auto.
Qed.

(** The outer loop after [n] rows: the requests of those rows have been
    served in order, and the rows hold the legs answered, [None] on the
    diagonal and the mirror image below it; or the first request that
    failed has ended the loop. *)
Lemma rows_served net n : n <= length _ADDRESSES -> forall sent,
  match serve net (map request_for (pairs_of_rows (length _ADDRESSES) n)) sent
  with
  | (Done legs, sent') =>
      exists rows,
        for_each (directions_row net) (seq 0 n) [] sent = (Done rows, sent') /\
        length rows = n /\
        (forall row, In row rows -> length row = length _ADDRESSES) /\
        (forall k a b,
            nth_error (pairs_of_rows (length _ADDRESSES) n) k = Some (a, b) ->
            nth b (nth a rows []) JNone = nth k legs JNone) /\
        (forall a, a < n -> nth a (nth a rows []) JNone = JNone) /\
        (forall a b, b < a -> a < n ->
                     nth b (nth a rows []) JNone = nth a (nth b rows []) JNone)
  | (Fails e, sent') =>
      for_each (directions_row net) (seq 0 n) [] sent = (Fails e, sent')
  end.
Proof.
  induction n as [|n IH]; intros Hn sent.
  - cbn [pairs_of_rows seq flat_map map serve for_each]. exists [].
    split; [reflexivity|]. split; [reflexivity|].
    split; [intros row []|]. split; [intros [|k] a b H; discriminate|].
    split; intros; lia.
  - specialize (IH ltac:(lia) sent).
    rewrite pairs_of_rows_S, map_app, serve_app, seq_S, for_each_app.
    cbn [Nat.add].
    destruct (serve net (map request_for (pairs_of_rows (length _ADDRESSES) n))
                    sent) as [[l1|e] s1] eqn:Hs1.
    2:{ rewrite IH. reflexivity. }
    destruct IH as (rows & Hrun & Hlen & Hfull & Hleg & Hdiag & Hsym).
    rewrite Hrun, for_each_one.
    rewrite (@row_served net rows n ltac:(lia) Hlen Hfull s1).
    rewrite map_map.
    assert (Hmap : map (fun x : nat => request_for (n, x))
                       (seq (S n) (length _ADDRESSES - S n))
                   = map (route_request n) (seq (S n) (length _ADDRESSES - S n)))
      by reflexivity.
    rewrite Hmap.
    destruct (serve net (map (route_request n)
                             (seq (S n) (length _ADDRESSES - S n))) s1)
      as [[l2|e] s2] eqn:Hs2; [|reflexivity].
    destruct (serve_done _ _ _ Hs1) as (_ & Hl1 & _).
    rewrite length_map in Hl1.
    destruct (serve_done _ _ _ Hs2) as (_ & Hl2 & _).
    rewrite length_map, length_seq in Hl2.
    set (lower := map (fun j => nth n (nth j rows []) JNone) (seq 0 n)).
    assert (Hlow : length lower = n)
      by (unfold lower; rewrite length_map, length_seq; reflexivity).
    set (row := lower ++ JNone :: l2).
    assert (Hlast : nth n (rows ++ [row]) [] = row).
    { rewrite app_nth2 by lia. rewrite Hlen, Nat.sub_diag. reflexivity. }
    assert (Hold : forall a, a < n -> nth a (rows ++ [row]) [] = nth a rows []).
    { intros a Ha. apply app_nth1. lia. }
    exists (rows ++ [row]). split; [reflexivity|].
    split; [rewrite length_app; cbn [length]; lia|].
    split.
    { intros r Hr. apply in_app_iff in Hr. destruct Hr as [Hr|[<-|[]]].
      - apply Hfull. exact Hr.
      - unfold row. rewrite length_app. cbn [length]. lia. }
    split.
    { intros k a b Hk.
      destruct (Nat.lt_ge_cases k (length (pairs_of_rows (length _ADDRESSES) n)))
        as [Hlt|Hge].
      - rewrite nth_error_app1 in Hk by exact Hlt.
        assert (Ha : a < n).
        { apply nth_error_In, in_pairs_of_rows in Hk. lia. }
        rewrite (Hold a Ha), (app_nth1 l1 l2) by lia. apply Hleg. exact Hk.
      - rewrite nth_error_app2 in Hk by exact Hge.
        apply nth_error_chunk in Hk. destruct Hk as (-> & -> & Hk).
        rewrite Hlast. unfold row.
        rewrite (app_nth2 lower) by lia. rewrite Hlow.
        replace (S n + (k - length (pairs_of_rows (length _ADDRESSES) n)) - n)
          with (S (k - length (pairs_of_rows (length _ADDRESSES) n))) by lia.
        cbn [nth]. rewrite (app_nth2 l1 l2) by lia. rewrite Hl1. reflexivity. }
    split.
    { intros a Ha. destruct (Nat.eq_dec a n) as [->|Hne].
      - rewrite Hlast. unfold row. rewrite (app_nth2 lower) by lia.
        rewrite Hlow, Nat.sub_diag. reflexivity.
      - rewrite Hold by lia. apply Hdiag. lia. }
    intros a b Hba Ha. destruct (Nat.eq_dec a n) as [->|Hne].
    + rewrite Hlast, (Hold b Hba). unfold row.
      rewrite (app_nth1 lower) by lia. unfold lower.
      rewrite (nth_indep _ JNone (nth n (nth 0 rows []) JNone))
        by (rewrite length_map, length_seq; lia).
      rewrite (map_nth (fun j => nth n (nth j rows []) JNone)).
      rewrite seq_nth by lia. reflexivity.
    + rewrite !Hold by lia. apply Hsym; lia.
Qed.

(** ** The constructor *)

Lemma answered_done net k q leg :
  answered net k q = Done leg <->
  exists result_, directions net k q = Done result_ /\ first_leg result_ = Ok leg.
Proof.
  unfold answered. split.
  - destruct (directions net k q) as [r|e]; [|discriminate].
    destruct (first_leg r) as [l|e] eqn:Hl; [|discriminate].
    intros H. inversion H; subst. exists r. auto.
  - intros [r [-> ->]]. reflexivity.
Qed.

(** The constructor is the service of all the pairs in order, after the
    client is made. *)
Lemma init_served net apiKey :
  Client net apiKey = Done tt ->
  match serve net (map request_for (store_pairs (length _ADDRESSES))) [] with
  | (Done legs, sent') =>
      exists rows,
        __init__ net apiKey [] = (Done (mk_Sawayaka rows), sent') /\
        length rows = length _ADDRESSES /\
        (forall row, In row rows -> length row = length _ADDRESSES) /\
        (forall k a b,
            nth_error (store_pairs (length _ADDRESSES)) k = Some (a, b) ->
            nth b (nth a rows []) JNone = nth k legs JNone) /\
        (forall a, a < length _ADDRESSES -> nth a (nth a rows []) JNone = JNone) /\
        (forall a b, b < a -> a < length _ADDRESSES ->
                     nth b (nth a rows []) JNone = nth a (nth b rows []) JNone)
  | (Fails e, sent') => __init__ net apiKey [] = (Fails e, sent')
  end.
Proof.
  intros Hc. pose proof (@rows_served net (length _ADDRESSES) (le_n _) []) as H.
  unfold store_pairs.
  destruct (serve net (map request_for
                           (pairs_of_rows (length _ADDRESSES) (length _ADDRESSES)))
                  []) as [[legs|e] s1].
  - destruct H as (rows & Hrun & Hrest). exists rows. split; [|exact Hrest].
    unfold __init__, io_bind, new_client. rewrite Hc, Hrun. reflexivity.
  - unfold __init__, io_bind, new_client. rewrite Hc, H. reflexivity.
Qed.

(** Every request answered with a leg: the object is made. *)
Lemma constructor_good net apiKey :
  Client net apiKey = Done tt ->
  (forall k p, nth_error (store_pairs (length _ADDRESSES)) k = Some p ->
               exists leg, answered net k (request_for p) = Done leg) ->
  exists rows,
    __init__ net apiKey []
    = (Done (mk_Sawayaka rows),
       map request_for (store_pairs (length _ADDRESSES))) /\
    length rows = length _ADDRESSES /\
    (forall row, In row rows -> length row = length _ADDRESSES) /\
    (forall k a b,
        nth_error (store_pairs (length _ADDRESSES)) k = Some (a, b) ->
        answered net k (route_request a b)
        = Done (nth b (nth a rows []) JNone)) /\
    (forall a, a < length _ADDRESSES -> nth a (nth a rows []) JNone = JNone) /\
    (forall a b, b < a -> a < length _ADDRESSES ->
                 nth b (nth a rows []) JNone = nth a (nth b rows []) JNone).
Proof.
  intros Hc Hall. pose proof (@init_served net apiKey Hc) as H.
  destruct (@serve_good net (map request_for (store_pairs (length _ADDRESSES))) [])
    as [legs Hlegs].
  { intros k q Hq. rewrite nth_error_map in Hq.
    destruct (nth_error (store_pairs (length _ADDRESSES)) k) as [p|] eqn:Hp;
      [|discriminate].
    cbn [option_map] in Hq. inversion Hq; subst. apply (Hall k p Hp). }
  rewrite Hlegs in H. destruct H as (rows & Hrun & Hlen & Hfull & Hleg & Hrest).
  destruct (serve_done _ _ _ Hlegs) as (_ & _ & Hans).
  exists rows. split; [exact Hrun|]. split; [exact Hlen|].
  split; [exact Hfull|]. split; [|exact Hrest].
  intros k a b Hk. rewrite (Hleg k a b Hk).
  apply (Hans k (route_request a b)).
  rewrite nth_error_map, Hk. reflexivity.
Qed.

(** The first request without a leg ends the constructor. *)
Lemma constructor_fails net apiKey k p e :
  Client net apiKey = Done tt ->
  nth_error (store_pairs (length _ADDRESSES)) k = Some p ->
  (forall k' p', k' < k ->
                 nth_error (store_pairs (length _ADDRESSES)) k' = Some p' ->
                 exists leg, answered net k' (request_for p') = Done leg) ->
  answered net k (request_for p) = Fails e ->
  __init__ net apiKey []
  = (Fails e, firstn (S k) (map request_for (store_pairs (length _ADDRESSES)))).
Proof.
  intros Hc Hk Hgood Hbad. pose proof (@init_served net apiKey Hc) as H.
  rewrite (@serve_fail net (map request_for (store_pairs (length _ADDRESSES)))
                       [] k (request_for p) e) in H.
  - exact H.
  - rewrite nth_error_map, Hk. reflexivity.
  - intros k' q' Hk' Hq'. rewrite nth_error_map in Hq'.
    destruct (nth_error (store_pairs (length _ADDRESSES)) k') as [p'|] eqn:Hp;
      [|discriminate].
    cbn [option_map] in Hq'. inversion Hq'; subst. apply (Hgood k' p' Hk' Hp).
  - exact Hbad.
Qed.

(** ** The cost matrix *)

Lemma mapM_ext_in {A B : Type} (f g : A -> result B) (l : list A) :
  (forall a, In a l -> f a = g a) -> mapM f l = mapM g l.
Proof.
  induction l as [|a l IH]; intros H; [reflexivity|].
  cbn [mapM]. rewrite H by (left; reflexivity).
  rewrite IH by (intros; apply H; right; assumption). reflexivity.
Qed.

Lemma mapM_map {A B C : Type} (f : B -> result C) (g : A -> B) (l : list A) :
  mapM f (map g l) = mapM (fun a => f (g a)) l.
Proof.
  induction l as [|a l IH]; [reflexivity|]. cbn [map mapM]. rewrite IH.
  reflexivity.
Qed.

Lemma map_nth_seq {A : Type} (l : list A) (d : A) :
  map (fun k => nth k l d) (seq 0 (length l)) = l.
Proof.
  induction l as [|a l IH]; [reflexivity|].
  cbn [length seq map nth]. rewrite <- seq_shift, map_map. cbn [nth].
  rewrite IH. reflexivity.
Qed.

(** A loop over the indices of a list is a loop over the list. *)
Lemma mapM_by_index {A B : Type} (f : A -> result B) (l : list A) :
  mapM (fun k => x <- getitem l k ;; f x) (seq 0 (length l)) = mapM f l.
Proof.
  destruct l as [|d l']; [reflexivity|]. set (l := d :: l').
  rewrite (mapM_ext_in _ (fun k => f (nth k l d))).
  - rewrite <- (mapM_map f (fun k => nth k l d)), map_nth_seq. reflexivity.
  - intros k Hk. apply in_seq in Hk.
    rewrite (getitem_nth l d (i := k)) by lia. reflexivity.
Qed.

(** The comprehensions of [get_cost_matrix] read every entry once, row by
    row. *)
Lemma get_cost_matrix_eq self :
  get_cost_matrix self = mapM (mapM cost_of) (_directions self).
Proof.
  unfold get_cost_matrix. rewrite <- (mapM_by_index (mapM cost_of)).
  apply mapM_ext_in. intros a Ha. apply in_seq in Ha.
  rewrite (getitem_nth (_directions self) [] (i := a)) by lia. cbn [bind].
  rewrite <- (mapM_by_index cost_of).
  apply mapM_ext_in. intros b Hb. reflexivity.
Qed.

Lemma table_nth {A : Type} (f : nat -> nat -> A) N a b (d : A) :
  a < N -> b < N ->
  nth b (nth a (map (fun x => map (f x) (seq 0 N)) (seq 0 N)) []) d = f a b.
Proof.
  intros Ha Hb.
  rewrite (nth_indep _ [] (map (f 0) (seq 0 N)))
    by (rewrite length_map, length_seq; exact Ha).
  rewrite (map_nth (fun x => map (f x) (seq 0 N))), seq_nth by exact Ha.
  rewrite (nth_indep _ d (f a 0)) by (rewrite length_map, length_seq; exact Hb).
  rewrite (map_nth (f a)), seq_nth by exact Hb. reflexivity.
Qed.

Lemma table_square {A : Type} (f : nat -> nat -> A) N :
  length (map (fun x => map (f x) (seq 0 N)) (seq 0 N)) = N /\
  forall row, In row (map (fun x => map (f x) (seq 0 N)) (seq 0 N)) ->
              length row = N.
Proof.
  split; [rewrite length_map, length_seq; reflexivity|].
  intros row Hrow. apply in_map_iff in Hrow. destruct Hrow as [x [<- _]].
  rewrite length_map, length_seq. reflexivity.
Qed.

(** A full table of legs whose costs are all there gives the table of the
    costs. *)
Lemma cost_matrix_of_table N rows (c : nat -> nat -> option Z) :
  length rows = N -> (forall row, In row rows -> length row = N) ->
  (forall a b, a < N -> b < N ->
               cost_of (nth b (nth a rows []) JNone) = Ok (of_pyval (c a b))) ->
  get_cost_matrix (mk_Sawayaka rows)
  = Ok (map (map of_pyval) (map (fun a => map (c a) (seq 0 N)) (seq 0 N))).
Proof.
  intros Hlen Hfull Hc. rewrite get_cost_matrix_eq. cbn [_directions].
  set (g := fun x => match cost_of x with Ok y => y | Raise _ => JNone end).
  assert (Hg : forall a b, a < N -> b < N ->
                 g (nth b (nth a rows []) JNone) = of_pyval (c a b)).
  { intros a b Ha Hb. unfold g. rewrite Hc by assumption. reflexivity. }
  rewrite (@mapM_ok _ _ (mapM cost_of) (map g) rows).
  - f_equal. apply (nth_ext _ _ [] []).
    + rewrite !length_map, length_seq. exact Hlen.
    + intros a Ha. rewrite length_map, Hlen in Ha.
      assert (Hrow : length (nth a rows []) = N)
        by (apply Hfull, nth_In; lia).
      apply (nth_ext _ _ JNone JNone).
      * rewrite (nth_indep _ [] (map g [])) by (rewrite length_map; lia).
        rewrite (map_nth (map g)), length_map, Hrow.
        rewrite (nth_indep _ [] (map of_pyval []))
          by (rewrite !length_map, length_seq; lia).
        rewrite (map_nth (map of_pyval)), length_map.
        rewrite (nth_indep _ [] (map (c 0) (seq 0 N)))
          by (rewrite length_map, length_seq; lia).
        rewrite (map_nth (fun x => map (c x) (seq 0 N))), length_map, length_seq.
        reflexivity.
      * intros b Hb.
        rewrite (nth_indep _ [] (map g [])) in Hb by (rewrite length_map; lia).
        rewrite (map_nth (map g)), length_map, Hrow in Hb.
        rewrite (nth_indep (map (map g) rows) [] (map g []))
          by (rewrite length_map; lia).
        rewrite (map_nth (map g)).
        change JNone with (g JNone) at 1. rewrite (map_nth g).
        rewrite Hg by assumption.
        rewrite (nth_indep (map (map of_pyval) _) [] (map of_pyval []))
          by (rewrite !length_map, length_seq; lia).
        rewrite (map_nth (map of_pyval)).
        change JNone with (of_pyval None). rewrite (map_nth of_pyval).
        rewrite table_nth by assumption. reflexivity.
  - intros row Hrow. apply mapM_ok. intros x Hx.
    destruct (In_nth _ _ [] Hrow) as [a [Ha <-]].
    destruct (In_nth _ _ JNone Hx) as [b [Hb <-]].
    assert (Hr : length (nth a rows []) = N) by (apply Hfull, nth_In; lia).
    unfold g. rewrite Hc by lia. reflexivity.
Qed.

End SawayakaFacts.

(* ================================================================== *)
(** * The stores: what the constructor asks and what it builds          *)
(* ================================================================== *)

Lemma store_pairs_nodup n : NoDup (Sawayaka.store_pairs n).
Proof.
  unfold Sawayaka.store_pairs, Sawayaka.pairs_of_rows.
  apply (NoDup_flat_map_pairs (fun i => seq (S i) (n - S i)) (fun i j => (i, j))).
  - apply seq_NoDup.
  - intros a. apply seq_NoDup.
  - intros a b a' b' H. inversion H. auto.
Qed.

Lemma stores_33 : length Sawayaka._ADDRESSES = 33.
Proof. reflexivity. Qed.

(** X26: when the client is made and every request is answered with at
    least one route of at least one leg, the constructor returns having
    asked exactly 528 times: once for each pair of stores [i < j], row by
    row, from the address of [i] to the address of [j], never the other
    way round.  The table it keeps has 33 rows of 33 entries, [None] on
    the diagonal, the first leg of the first route at [(i, j)], and the
    very same leg at [(j, i)]. *)
Theorem constructor_asks_each_pair_once net apiKey :
  Sawayaka.Client net apiKey = Sawayaka.Done tt ->
  (forall k i j,
      nth_error (Sawayaka.store_pairs 33) k = Some (i, j) ->
      exists result_ leg,
        Sawayaka.directions net k (Sawayaka.route_request i j)
        = Sawayaka.Done result_ /\
        Sawayaka.first_leg result_ = Ok leg) ->
  exists self,
    Sawayaka.__init__ net apiKey []
    = (Sawayaka.Done self,
       map Sawayaka.request_for (Sawayaka.store_pairs 33)) /\
    length (Sawayaka.store_pairs 33) = 528 /\
    NoDup (Sawayaka.store_pairs 33) /\
    (forall i j, In (i, j) (Sawayaka.store_pairs 33) <-> i < j /\ j < 33) /\
    length (Sawayaka._directions self) = 33 /\
    (forall row, In row (Sawayaka._directions self) -> length row = 33) /\
    (forall i, i < 33 ->
       nth i (nth i (Sawayaka._directions self) []) Sawayaka.JNone
       = Sawayaka.JNone) /\
    (forall k i j,
        nth_error (Sawayaka.store_pairs 33) k = Some (i, j) ->
        exists result_,
          Sawayaka.directions net k (Sawayaka.route_request i j)
          = Sawayaka.Done result_ /\
          Sawayaka.first_leg result_
          = Ok (nth j (nth i (Sawayaka._directions self) []) Sawayaka.JNone) /\
          nth i (nth j (Sawayaka._directions self) []) Sawayaka.JNone
          = nth j (nth i (Sawayaka._directions self) []) Sawayaka.JNone).
Proof.
  intros Hc Hall. rewrite <- stores_33 in *.
  destruct (@SawayakaFacts.constructor_good net apiKey Hc)
    as (rows & Hrun & Hlen & Hfull & Hleg & Hdiag & Hsym).
  { intros k [i j] Hk. destruct (Hall k i j Hk) as (r & leg & Hr & Hl).
    exists leg. apply SawayakaFacts.answered_done. exists r. auto. }
  exists (Sawayaka.mk_Sawayaka rows). cbn [Sawayaka._directions].
  split; [exact Hrun|]. split; [reflexivity|].
  split; [apply store_pairs_nodup|].
  split.
  { intros i j. unfold Sawayaka.store_pairs.
    rewrite SawayakaFacts.in_pairs_of_rows. lia. }
  split; [exact Hlen|]. split; [exact Hfull|]. split; [exact Hdiag|].
  intros k i j Hk.
  destruct (proj1 (SawayakaFacts.answered_done _ _ _ _) (Hleg k i j Hk))
    as (r & Hr & Hl).
  exists r. split; [exact Hr|]. split; [exact Hl|].
  apply nth_error_In in Hk. unfold Sawayaka.store_pairs in Hk.
  apply SawayakaFacts.in_pairs_of_rows in Hk. apply Hsym; lia.
Qed.

Lemma constructor_asks_each_pair_once_witness :
  exists self,
    Sawayaka.__init__ SawayakaExamples.steady String.EmptyString []
    = (Sawayaka.Done self,
       map Sawayaka.request_for (Sawayaka.store_pairs 33)) /\
    length (Sawayaka.store_pairs 33) = 528 /\
    NoDup (Sawayaka.store_pairs 33) /\
    (forall i j, In (i, j) (Sawayaka.store_pairs 33) <-> i < j /\ j < 33) /\
    length (Sawayaka._directions self) = 33 /\
    (forall row, In row (Sawayaka._directions self) -> length row = 33) /\
    (forall i, i < 33 ->
       nth i (nth i (Sawayaka._directions self) []) Sawayaka.JNone
       = Sawayaka.JNone) /\
    (forall k i j,
        nth_error (Sawayaka.store_pairs 33) k = Some (i, j) ->
        exists result_,
          Sawayaka.directions SawayakaExamples.steady k
                              (Sawayaka.route_request i j)
          = Sawayaka.Done result_ /\
          Sawayaka.first_leg result_
          = Ok (nth j (nth i (Sawayaka._directions self) []) Sawayaka.JNone) /\
          nth i (nth j (Sawayaka._directions self) []) Sawayaka.JNone
          = nth j (nth i (Sawayaka._directions self) []) Sawayaka.JNone).
Proof.
  apply (@constructor_asks_each_pair_once SawayakaExamples.steady
                                          String.EmptyString).
  - reflexivity.
  - intros k i j _. eexists. eexists. split; reflexivity.
Defined.

(** The costs of a table of legs that hold their durations. *)
Lemma durations_valid (seconds : nat -> nat -> Z) N :
  valid_matrix N
    (map (fun a => map (fun b => if a <? b then Some (seconds a b)
                                 else if b <? a then Some (seconds b a)
                                 else None)
                       (seq 0 N))
         (seq 0 N)).
Proof.
  set (c := fun a b => if a <? b then Some (seconds a b)
                       else if b <? a then Some (seconds b a) else None).
  split; [apply (SawayakaFacts.table_square c N)|].
  split; [|split].
  - intros i Hi. rewrite (SawayakaFacts.table_nth c) by assumption.
    unfold c. rewrite Nat.ltb_irrefl. reflexivity.
  - intros i j Hi Hj Hij. rewrite (SawayakaFacts.table_nth c) by assumption.
    unfold c. destruct (Nat.ltb_spec i j); [eexists; reflexivity|].
    destruct (Nat.ltb_spec j i); [eexists; reflexivity | lia].
  - intros i j Hi Hj. rewrite !(SawayakaFacts.table_nth c) by assumption.
    unfold c. destruct (Nat.ltb_spec i j), (Nat.ltb_spec j i);
      try reflexivity; lia.
Qed.

Lemma stores_cost_matrix net apiKey (seconds : nat -> nat -> Z) :
  Sawayaka.Client net apiKey = Sawayaka.Done tt ->
  (forall k i j,
      nth_error (Sawayaka.store_pairs (length Sawayaka._ADDRESSES)) k
      = Some (i, j) ->
      exists result_ leg,
        Sawayaka.directions net k (Sawayaka.route_request i j)
        = Sawayaka.Done result_ /\
        Sawayaka.first_leg result_ = Ok leg /\
        Sawayaka.cost_of leg = Ok (Sawayaka.JInt (seconds i j))) ->
  exists self,
    fst (Sawayaka.__init__ net apiKey []) = Sawayaka.Done self /\
    Sawayaka.get_cost_matrix self
    = Ok (map (map Sawayaka.of_pyval)
              (map (fun a => map (fun b => if a <? b then Some (seconds a b)
                                           else if b <? a then Some (seconds b a)
                                           else None)
                                 (seq 0 (length Sawayaka._ADDRESSES)))
                   (seq 0 (length Sawayaka._ADDRESSES)))).
Proof.
  intros Hc Hall.
  destruct (@SawayakaFacts.constructor_good net apiKey Hc)
    as (rows & Hrun & Hlen & Hfull & Hleg & Hdiag & Hsym).
  { intros k [i j] Hk. destruct (Hall k i j Hk) as (r & leg & Hr & Hl & _).
    exists leg. apply SawayakaFacts.answered_done. exists r. auto. }
  exists (Sawayaka.mk_Sawayaka rows). split; [rewrite Hrun; reflexivity|].
  assert (Hup : forall a b, a < b -> b < length Sawayaka._ADDRESSES ->
            Sawayaka.cost_of (nth b (nth a rows []) Sawayaka.JNone)
            = Ok (Sawayaka.JInt (seconds a b))).
  { intros a b Hab Hb.
    assert (Hin : In (a, b) (Sawayaka.store_pairs (length Sawayaka._ADDRESSES))).
    { apply SawayakaFacts.in_pairs_of_rows. lia. }
    apply In_nth_error in Hin. destruct Hin as [k Hk].
    destruct (Hall k a b Hk) as (r & leg & Hr & Hl & Hcost).
    pose proof (Hleg k a b Hk) as Hans.
    apply SawayakaFacts.answered_done in Hans.
    destruct Hans as (r' & Hr' & Hl'). rewrite Hr in Hr'.
    inversion Hr'; subst r'. rewrite Hl in Hl'. inversion Hl'; subst.
    exact Hcost. }
  apply SawayakaFacts.cost_matrix_of_table; [exact Hlen | exact Hfull |].
  intros a b Ha Hb.
  destruct (Nat.ltb_spec a b) as [Hab|Hab].
  - rewrite Hup by assumption. reflexivity.
  - destruct (Nat.ltb_spec b a) as [Hba|Hba].
    + rewrite Hsym, Hup by assumption. reflexivity.
    + replace b with a by lia. rewrite Hdiag by assumption. reflexivity.
Qed.

(** X27: when every answer holds a whole number of seconds at
    [['duration']['value']] of its first leg, none of them beyond the range
    of a float, [get_cost_matrix] on the object made returns a matrix that
    meets the contract of the orchestrators: 33 rows of 33 entries, [None]
    on the diagonal, and at [(i, j)] and at [(j, i)] the seconds answered
    for the way from the lower to the higher of the two stores; so both
    orchestrators return a closed tour of the 33 stores from any start
    among them. *)
Theorem cost_matrix_meets_the_contract net apiKey (seconds : nat -> nat -> Z) :
  Sawayaka.Client net apiKey = Sawayaka.Done tt ->
  (forall k i j,
      nth_error (Sawayaka.store_pairs 33) k = Some (i, j) ->
      exists result_ leg,
        Sawayaka.directions net k (Sawayaka.route_request i j)
        = Sawayaka.Done result_ /\
        Sawayaka.first_leg result_ = Ok leg /\
        Sawayaka.cost_of leg = Ok (Sawayaka.JInt (seconds i j))) ->
  (forall i j, i < j -> j < 33 -> in_float_range (seconds i j) = true) ->
  exists self costMatrix,
    fst (Sawayaka.__init__ net apiKey []) = Sawayaka.Done self /\
    Sawayaka.get_cost_matrix self
    = Ok (map (map Sawayaka.of_pyval) costMatrix) /\
    valid_matrix 33 costMatrix /\
    (forall i j, i < j -> j < 33 ->
       nth j (nth i costMatrix []) None = Some (seconds i j) /\
       nth i (nth j costMatrix []) None = Some (seconds i j)) /\
    forall start, start < 33 ->
      (exists route, double_tree_algorithm costMatrix start = Ok route /\
                     closed_tour 33 start route) /\
      (forall mwm, matcher_ok mwm costMatrix ->
         exists route, christofides_algorithm mwm costMatrix start = Ok route /\
                       closed_tour 33 start route).
Proof.
  intros Hc Hall Hrange. rewrite <- stores_33 in *.
  destruct (@stores_cost_matrix net apiKey seconds Hc Hall)
    as (self & Hrun & Hget).
  set (c := fun a b => if a <? b then Some (seconds a b)
                       else if b <? a then Some (seconds b a) else None) in *.
  set (N := length Sawayaka._ADDRESSES) in *.
  set (cm := map (fun a => map (c a) (seq 0 N)) (seq 0 N)) in *.
  assert (Hvalid : valid_matrix N cm) by apply durations_valid.
  assert (Hfl : float_weights N cm).
  { intros i j z Hi Hj. unfold cm.
    rewrite (SawayakaFacts.table_nth c) by assumption. unfold c.
    destruct (Nat.ltb_spec i j) as [Hij|_].
    - intros Hz. injection Hz as <-. apply Hrange; assumption.
    - destruct (Nat.ltb_spec j i) as [Hji|_]; [|discriminate].
      intros Hz. injection Hz as <-. apply Hrange; assumption. }
  exists self, cm. split; [exact Hrun|]. split; [exact Hget|].
  split; [exact Hvalid|]. split.
  { intros i j Hij Hj. unfold cm.
    rewrite !(SawayakaFacts.table_nth c) by lia. unfold c.
    destruct (Nat.ltb_spec i j) as [_|Hx]; [|lia].
    destruct (Nat.ltb_spec j i) as [Hx|_]; [lia|]. auto. }
  intros start Hstart. destruct Hvalid as (Hsq & _ & Hfin & _).
  assert (HN : 2 <= N) by (unfold N; rewrite stores_33; lia).
  split.
  - destruct (double_tree_stages Hsq Hfin Hfl HN Hstart)
      as (T & walk & body & _ & _ & _ & _ & _ & _ & _ & _ & _ & Hrun' & Hhd & HP).
    exists (body ++ [start]). split; [exact Hrun'|].
    apply closed_tour_intro; assumption.
  - intros mwm Hmatch.
    destruct (christofides_stages Hsq Hfin Hfl HN Hstart Hmatch)
      as (T & R & MG & walk & body & Hst).
    decompose [and] Hst.
    exists (body ++ [start]). split; [assumption|].
    apply closed_tour_intro; assumption.
Qed.

Lemma cost_matrix_meets_the_contract_witness :
  exists self costMatrix,
    fst (Sawayaka.__init__ SawayakaExamples.steady String.EmptyString [])
    = Sawayaka.Done self /\
    Sawayaka.get_cost_matrix self
    = Ok (map (map Sawayaka.of_pyval) costMatrix) /\
    valid_matrix 33 costMatrix /\
    (forall i j, i < j -> j < 33 ->
       nth j (nth i costMatrix []) None = Some 600%Z /\
       nth i (nth j costMatrix []) None = Some 600%Z) /\
    forall start, start < 33 ->
      (exists route, double_tree_algorithm costMatrix start = Ok route /\
                     closed_tour 33 start route) /\
      (forall mwm, matcher_ok mwm costMatrix ->
         exists route, christofides_algorithm mwm costMatrix start = Ok route /\
                       closed_tour 33 start route).
Proof.
  apply (@cost_matrix_meets_the_contract SawayakaExamples.steady
           String.EmptyString (fun _ _ => 600%Z)).
  - reflexivity.
  - intros k i j _. eexists. eexists. repeat split; reflexivity.
  - intros i j _ _. reflexivity.
Defined.

(** X28: the constructor gives up at the first thing that goes wrong.
    When the client cannot be made, what it raised is raised and nothing is
    asked.  When the [k]-th request is the first whose answer has no first
    leg of a first route (the client raised, or an answer without a route
    made the subscripts raise), that exception is raised after exactly
    [k + 1] requests, the requests for the later pairs are never sent, and
    no object is made. *)
Theorem constructor_stops_at_the_first_failure net apiKey :
  (forall e, Sawayaka.Client net apiKey = Sawayaka.Fails e ->
             Sawayaka.__init__ net apiKey [] = (Sawayaka.Fails e, [])) /\
  (Sawayaka.Client net apiKey = Sawayaka.Done tt ->
   forall k i j e,
     nth_error (Sawayaka.store_pairs 33) k = Some (i, j) ->
     (forall k' i' j', k' < k ->
        nth_error (Sawayaka.store_pairs 33) k' = Some (i', j') ->
        exists leg,
          Sawayaka.answered net k' (Sawayaka.route_request i' j')
          = Sawayaka.Done leg) ->
     Sawayaka.answered net k (Sawayaka.route_request i j) = Sawayaka.Fails e ->
     Sawayaka.__init__ net apiKey []
     = (Sawayaka.Fails e,
        firstn (S k) (map Sawayaka.request_for (Sawayaka.store_pairs 33))) /\
     length (firstn (S k) (map Sawayaka.request_for (Sawayaka.store_pairs 33)))
     = S k).
Proof.
  split.
  - intros e He. unfold Sawayaka.__init__, Sawayaka.io_bind, Sawayaka.new_client.
    rewrite He. reflexivity.
  - intros Hc k i j e Hk Hgood Hbad. rewrite <- stores_33 in *. split.
    + apply (@SawayakaFacts.constructor_fails net apiKey k (i, j) e Hc Hk).
      * intros k' [i' j'] Hk' Hp. apply (Hgood k' i' j' Hk' Hp).
      * exact Hbad.
    + rewrite length_firstn, length_map.
      assert (Hlt : nth_error (Sawayaka.store_pairs (length Sawayaka._ADDRESSES)) k
                    <> None) by congruence.
      apply nth_error_Some in Hlt. lia.
Qed.

Lemma constructor_stops_at_the_first_failure_witness :
  Sawayaka.__init__ SawayakaExamples.refusing String.EmptyString []
  = (Sawayaka.Fails (Sawayaka.Builtin ValueError), []) /\
  Sawayaka.__init__ (SawayakaExamples.no_route_at 5) String.EmptyString []
  = (Sawayaka.Fails (Sawayaka.Builtin IndexError),
     firstn 6 (map Sawayaka.request_for (Sawayaka.store_pairs 33))) /\
  length (firstn 6 (map Sawayaka.request_for (Sawayaka.store_pairs 33))) = 6.
Proof.
  split.
  - apply (proj1 (@constructor_stops_at_the_first_failure
                    SawayakaExamples.refusing String.EmptyString)).
    reflexivity.
  - apply (proj2 (@constructor_stops_at_the_first_failure
                    (SawayakaExamples.no_route_at 5) String.EmptyString)
                 eq_refl 5 0 6 (Sawayaka.Builtin IndexError)).
    + reflexivity.
    + intros k' i' j' Hk' _. eexists. unfold Sawayaka.answered.
      cbn [Sawayaka.directions SawayakaExamples.no_route_at].
      destruct (Nat.eqb_spec k' 5) as [Hx|_]; [lia|]. reflexivity.
    + reflexivity.
Defined.
